(** * SQL schema extraction: a shallow embedding of TableParser.js,
      SQLParser.js, StringUtil.js and the dialect converter of
      GraphQLSpringGenerator.js

    JavaScript strings are modelled as [string], a sequence of 8-bit code
    units: the texts covered are those whose code units are below 256.  The
    programs below only ever compare code units with ASCII characters; case
    mapping is that of the code units below 256, as far as its results are
    such code units (see [Str.toUpperCase]).  JavaScript numbers that hold
    small counters (nesting depth, array indices) are [Z] or [nat]. *)

From Stdlib Require String Strings.Byte.
From Stdlib Require Import Ascii ZArith Lia Bool List Sorted.
From stdpp Require Import gmap strings list.

Import ListNotations.
Local Open Scope Z_scope.

(** ** JavaScript string primitives *)

Module JS.

Definition chr (n : nat) : ascii := Ascii.ascii_of_nat n.

Definition SQ : ascii := "'"%char.
Definition DQ : ascii := "034"%char.
Definition BSLASH : ascii := "\"%char.
Definition LPAREN : ascii := "("%char.
Definition RPAREN : ascii := ")"%char.
Definition COMMA : ascii := ","%char.
Definition LF : ascii := "010"%char.
Definition CR : ascii := "013"%char.
Definition TAB : ascii := "009"%char.
Definition SPACE : ascii := " "%char.

Definition ceqb (a b : ascii) : bool := Ascii.eqb a b.

(** [s + c] for a one-character [c]. *)
Definition push (s : string) (c : ascii) : string := s +:+ String c "".

Definition code (c : ascii) : nat := Ascii.nat_of_ascii c.

(** [s.startsWith(p)] and [s.endsWith(p)]. *)
Definition startsWith (s p : string) : bool := String.prefix p s.

Definition endsWith (s p : string) : bool :=
  let n := String.length s in
  let m := String.length p in
  (m <=? n)%nat && String.eqb (String.substring (n - m) m s) p.

(** [s.substring(a, b)]: both indices are clamped to [0, length] and swapped
    when [a > b]. *)
Definition clamp (len : nat) (i : Z) : nat :=
  if i <? 0 then 0%nat else Nat.min (Z.to_nat i) len.

Definition substring (s : string) (a b : Z) : string :=
  let len := String.length s in
  let a' := clamp len a in
  let b' := clamp len b in
  String.substring (Nat.min a' b') (Nat.max a' b' - Nat.min a' b') s.

Definition substringFrom (s : string) (a : Z) : string :=
  substring s a (Z.of_nat (String.length s)).

Definition len (s : string) : Z := Z.of_nat (String.length s).

(** The outcome of a call that may raise a TypeError. *)
Inductive result (A : Type) : Type :=
| Ok (a : A)
| Throw.
Arguments Ok {A} a.
Arguments Throw {A}.

(** What a plain object inherits from [Object.prototype]: reading a key the
    object does not own gives the method of that name, of which the programs
    below look at nothing but [length], or, for [__proto__], the prototype
    object itself, which has no [length]. *)
Inductive inherited : Type :=
| Method (arity : nat)
| Prototype.

Definition objectPrototype : list (string * inherited) :=
  [ ("constructor", Method 1);
    ("__defineGetter__", Method 2);
    ("__defineSetter__", Method 2);
    ("hasOwnProperty", Method 1);
    ("__lookupGetter__", Method 1);
    ("__lookupSetter__", Method 1);
    ("isPrototypeOf", Method 1);
    ("propertyIsEnumerable", Method 1);
    ("toString", Method 0);
    ("valueOf", Method 0);
    ("__proto__", Prototype);
    ("toLocaleString", Method 0) ].

Fixpoint memberOf (members : list (string * inherited)) (k : string) : option inherited :=
  match members with
  | [] => None
  | (k', m) :: members => if String.eqb k' k then Some m else memberOf members k
  end.

Definition inheritedMember (k : string) : option inherited := memberOf objectPrototype k.

(** A JavaScript array of strings that may have holes: [a[i] = v] beyond the
    end leaves holes in between, and [forEach] passes over them.  An index
    below zero names a property that is no element of the array. *)
Definition sparse : Type := list (option string).

Fixpoint setAt (a : sparse) (i : nat) (v : string) : sparse :=
  match i, a with
  | O, [] => [Some v]
  | O, _ :: a => Some v :: a
  | S i, [] => None :: setAt [] i v
  | S i, x :: a => x :: setAt a i v
  end.

Definition arrSet (a : sparse) (i : Z) (v : string) : sparse :=
  if i <? 0 then a else setAt a (Z.to_nat i) v.

Definition arrGet (a : sparse) (i : Z) : option string :=
  if i <? 0 then None else mjoin (a !! Z.to_nat i).

(** [a[i] += v]: a missing element reads as [undefined]. *)
Definition arrAppend (a : sparse) (i : Z) (v : string) : sparse :=
  arrSet a i (default "undefined" (arrGet a i) +:+ v).

End JS.

(** ** Case mapping, trimming, splitting *)

Module Str.
Import JS.

Definition isUpper (c : ascii) : bool := (65 <=? code c)%nat && (code c <=? 90)%nat.
Definition isLower (c : ascii) : bool := (97 <=? code c)%nat && (code c <=? 122)%nat.
Definition isDigit (c : ascii) : bool := (48 <=? code c)%nat && (code c <=? 57)%nat.

(** The letters among the code units 192 to 254; 215 and 247 are the
    multiplication and division signs. *)
Definition isUpper1 (c : ascii) : bool :=
  (192 <=? code c)%nat && (code c <=? 222)%nat && negb (Nat.eqb (code c) 215).
Definition isLower1 (c : ascii) : bool :=
  (224 <=? code c)%nat && (code c <=? 254)%nat && negb (Nat.eqb (code c) 247).

Definition isAscii (c : ascii) : bool := (code c <? 128)%nat.

(** The case mapping of one code unit, which is also how a pattern with the
    [i] flag compares code units.  The code units 181, 223 and 255 have no
    upper-case form that is one code unit below 256, and stay. *)
Definition upperChar (c : ascii) : ascii :=
  if isLower c || isLower1 c then chr (code c - 32) else c.
Definition lowerChar (c : ascii) : ascii :=
  if isUpper c || isUpper1 c then chr (code c + 32) else c.

Fixpoint map (f : ascii -> ascii) (s : string) : string :=
  match s with
  | EmptyString => ""
  | String c s => String (f c) (map f s)
  end.

(** [s.toLowerCase()], and [s.toUpperCase()] for a string without the code
    units 181, 223 and 255: JavaScript writes the upper-case form of 223 as
    two letters S and those of 181 and 255 as code units above 255.  The
    statements below that depend on the upper-case form of such text are
    made for ASCII text. *)
Definition toUpperCase (s : string) : string := map upperChar s.
Definition toLowerCase (s : string) : string := map lowerChar s.

(** White space and line terminators, as [trim] and [\s] understand them
    (among 8-bit code units). *)
Definition isSpace (c : ascii) : bool :=
  let n := code c in
  ((9 <=? n)%nat && (n <=? 13)%nat) || Nat.eqb n 32 || Nat.eqb n 160.

Definition isWord (c : ascii) : bool :=
  isUpper c || isLower c || isDigit c || ceqb c "_".

Definition isLineTerminator (c : ascii) : bool := ceqb c LF || ceqb c CR.

Fixpoint trimStart (s : string) : string :=
  match s with
  | EmptyString => ""
  | String c s' => if isSpace c then trimStart s' else s
  end.

Definition rev (s : string) : string := String.rev s.

Definition trimEnd (s : string) : string := rev (trimStart (rev s)).

Definition trim (s : string) : string := trimEnd (trimStart s).

(** [s.indexOf(p) != -1], that is [s.includes(p)]. *)
Fixpoint includes (s p : string) : bool :=
  String.prefix p s
  || match s with
     | EmptyString => false
     | String _ s' => includes s' p
     end.

(** [s.slice(1, -1)]. *)
Definition slice_1_m1 (s : string) : string :=
  String.substring 1 (String.length s - 2) s.

(** [s.split(sep)] for a non-empty separator: [cur] holds the characters of
    the piece being read, [skip] the number of separator characters still to
    pass over. *)
Fixpoint splitGo (sep : string) (s : string) (cur : string) (skip : nat) : list string :=
  match s with
  | EmptyString => [cur]
  | String c s' =>
    match skip with
    | S n => splitGo sep s' cur n
    | O =>
      if String.prefix sep s
      then cur :: splitGo sep s' "" (String.length sep - 1)
      else splitGo sep s' (push cur c) 0
    end
  end.

Definition split (s sep : string) : list string := splitGo sep s "" 0.

(** [xs.join(sep)]. *)
Fixpoint join (xs : list string) (sep : string) : string :=
  match xs with
  | [] => ""
  | [x] => x
  | x :: xs => x +:+ sep +:+ join xs sep
  end.

(** [s.replace(/p/g, r)] for a pattern [p] that is a plain non-empty string:
    every occurrence, left to right, without overlap.  [skip] counts the
    characters of the occurrence just replaced that are still to pass over. *)
Fixpoint replaceAllGo (p r : string) (s : string) (skip : nat) : string :=
  match s with
  | EmptyString => ""
  | String c s' =>
    match skip with
    | S n => replaceAllGo p r s' n
    | O =>
      if String.prefix p s
      then r +:+ replaceAllGo p r s' (String.length p - 1)
      else String c (replaceAllGo p r s' 0)
    end
  end.

Definition replaceAll (s p r : string) : string := replaceAllGo p r s 0.

(** [s.replace(p, r)] for a string pattern: the first occurrence only. *)
Fixpoint replaceFirst (s p r : string) : string :=
  if String.prefix p s
  then r +:+ String.substring (String.length p) (String.length s - String.length p) s
  else match s with
       | EmptyString => ""
       | String c s' => String c (replaceFirst s' p r)
       end.

End Str.

(** ** Regular expressions

    The backtracking matcher of the JavaScript specification, for the part of
    the pattern language the sources use: alternatives are tried left to
    right, a greedy quantifier tries one more iteration before it tries its
    continuation, a lazy one the other way round, and an iteration that
    consumes nothing is rejected. *)

Module Regex.
Import JS Str.

Inductive citem : Type :=
| CChar (c : ascii)
| CRange (lo hi : ascii)
| CSpace
| CWord
| CDigit.

Inductive regex : Type :=
| Eps
| Lit (c : ascii)
| Dot
| Class (negated : bool) (items : list citem)
| Seq (a b : regex)
| Alt (a b : regex)
| Star (greedy : bool) (a : regex)
| Opt (a : regex)
| Group (n : nat) (a : regex)
| Bol
| Eol
| WordB.

Record flags : Type := { ignoreCase : bool; multiline : bool; dotAll : bool }.

Definition noFlags : flags := {| ignoreCase := false; multiline := false; dotAll := false |}.
Definition flagI : flags := {| ignoreCase := true; multiline := false; dotAll := false |}.
Definition flagIM : flags := {| ignoreCase := true; multiline := true; dotAll := false |}.
Definition flagIS : flags := {| ignoreCase := true; multiline := false; dotAll := true |}.

Definition citem_has (it : citem) (c : ascii) : bool :=
  match it with
  | CChar x => ceqb c x
  | CRange lo hi => (code lo <=? code c)%nat && (code c <=? code hi)%nat
  | CSpace => isSpace c
  | CWord => isWord c
  | CDigit => isDigit c
  end.

Definition class_has (fl : flags) (items : list citem) (c : ascii) : bool :=
  existsb (fun it =>
    citem_has it c
    || (ignoreCase fl && (citem_has it (upperChar c) || citem_has it (lowerChar c))))
    items.

Definition lit_matches (fl : flags) (x c : ascii) : bool :=
  if ignoreCase fl then ceqb (upperChar x) (upperChar c) else ceqb x c.

(** The matcher's state: the character before the current position, the rest
    of the input, the position, and the captures made so far (most recent
    first). *)
Record mstate : Type :=
  { prev : option ascii; rest : string; pos : nat; caps : list (nat * string) }.

Inductive outcome : Type :=
| Found (st : mstate)
| NoMatch
| OutOfFuel.

Definition step (p : ascii -> bool) (st : mstate) (k : mstate -> outcome) : outcome :=
  match rest st with
  | String c s =>
    if p c
    then k {| prev := Some c; rest := s; pos := S (pos st); caps := caps st |}
    else NoMatch
  | EmptyString => NoMatch
  end.

Definition atWord (o : option ascii) : bool :=
  match o with Some c => isWord c | None => false end.

Definition next (st : mstate) : option ascii :=
  match rest st with String c _ => Some c | EmptyString => None end.

Definition atLineTerminator (o : option ascii) : bool :=
  match o with Some c => isLineTerminator c | None => false end.

Definition capture (n : nat) (from to : mstate) : mstate :=
  {| prev := prev to; rest := rest to; pos := pos to;
     caps := (n, String.substring 0 (pos to - pos from) (rest from)) :: caps to |}.

Definition advanced (from to : mstate) : bool := (pos from <? pos to)%nat.

Section Matcher.
Variable fl : flags.

Fixpoint run (fuel : nat) : regex -> mstate -> (mstate -> outcome) -> outcome :=
  fix go (r : regex) : mstate -> (mstate -> outcome) -> outcome :=
    fun st k =>
    match r with
    | Eps => k st
    | Lit x => step (lit_matches fl x) st k
    | Dot => step (fun c => dotAll fl || negb (isLineTerminator c)) st k
    | Class negated items => step (fun c => xorb negated (class_has fl items c)) st k
    | Seq a b => go a st (fun st' => go b st' k)
    | Alt a b =>
      match go a st k with
      | NoMatch => go b st k
      | o => o
      end
    | Star greedy a =>
      match fuel with
      | O => OutOfFuel
      | S f =>
        if greedy then
          match go a st (fun st' => if advanced st st' then run f (Star greedy a) st' k else NoMatch) with
          | NoMatch => k st
          | o => o
          end
        else
          match k st with
          | NoMatch =>
            go a st (fun st' => if advanced st st' then run f (Star greedy a) st' k else NoMatch)
          | o => o
          end
      end
    | Opt a =>
      match go a st (fun st' => if advanced st st' then k st' else NoMatch) with
      | NoMatch => k st
      | o => o
      end
    | Group n a => go a st (fun st' => k (capture n st st'))
    | Bol =>
      if Nat.eqb (pos st) 0 || (multiline fl && atLineTerminator (prev st))
      then k st else NoMatch
    | Eol =>
      match rest st with
      | EmptyString => k st
      | String c _ => if multiline fl && isLineTerminator c then k st else NoMatch
      end
    | WordB => if xorb (atWord (prev st)) (atWord (next st)) then k st else NoMatch
    end.

(** A match attempt at one position: [before] is the character in front of
    it, [s] the input from there on. *)
Definition matchHere (r : regex) (before : option ascii) (s : string) (i : nat) : outcome :=
  run (S (String.length s)) r {| prev := before; rest := s; pos := i; caps := [] |} Found.

End Matcher.

(** A successful match: where it starts, what it matched, its captures. *)
Record mres : Type := { index : nat; matched : string; groups : list (nat * string) }.

Definition endIndex (m : mres) : nat := (index m + String.length (matched m))%nat.

(** [m[n]]: the text of group [n], or [undefined]. *)
Fixpoint lookup (n : nat) (l : list (nat * string)) : option string :=
  match l with
  | [] => None
  | (k, v) :: l => if Nat.eqb k n then Some v else lookup n l
  end.

Definition group (m : mres) (n : nat) : option string := lookup n (groups m).

(** The leftmost match at or after the current position, scanning the input
    [s] whose next character is at index [i]. *)
Fixpoint searchFrom (fl : flags) (r : regex) (before : option ascii) (s : string) (i : nat)
    : option mres :=
  match matchHere fl r before s i with
  | Found st =>
    Some {| index := i; matched := String.substring 0 (pos st - i) s; groups := caps st |}
  | _ =>
    match s with
    | EmptyString => None
    | String c s' => searchFrom fl r (Some c) s' (S i)
    end
  end.

Fixpoint drop (n : nat) (before : option ascii) (s : string) : option ascii * string :=
  match n, s with
  | S n, String c s' => drop n (Some c) s'
  | _, _ => (before, s)
  end.

(** [r.lastIndex = from; r.exec(s)] for a global pattern, and [r.exec(s)] for
    one that is not global when [from] is 0. *)
Definition execFrom (fl : flags) (r : regex) (s : string) (from : nat) : option mres :=
  if (String.length s <? from)%nat then None
  else let '(before, s') := drop from None s in searchFrom fl r before s' from.

Definition exec (fl : flags) (r : regex) (s : string) : option mres := execFrom fl r s 0.

Definition test (fl : flags) (r : regex) (s : string) : bool :=
  match exec fl r s with Some _ => true | None => false end.

(** [s.replace(r, f)] for a global pattern: every match, left to right, is
    replaced by [f m]; after an empty match the search resumes one character
    further on. *)
Fixpoint replaceGo (fuel : nat) (fl : flags) (r : regex) (f : mres -> string)
    (s : string) (from : nat) : string :=
  match fuel with
  | O => substringFrom s (Z.of_nat from)
  | S fuel =>
    match execFrom fl r s from with
    | None => substringFrom s (Z.of_nat from)
    | Some m =>
      String.substring from (index m - from) s +:+ f m +:+
      (if Nat.eqb (String.length (matched m)) 0
       then String.substring (index m) 1 s +:+ replaceGo fuel fl r f s (S (index m))
       else replaceGo fuel fl r f s (endIndex m))
    end
  end.

Definition replaceAll (fl : flags) (r : regex) (f : mres -> string) (s : string) : string :=
  replaceGo (S (String.length s)) fl r f s 0.

(** [s.replace(r, f)] for a pattern that is not global: the first match only. *)
Definition replaceOne (fl : flags) (r : regex) (f : mres -> string) (s : string) : string :=
  match exec fl r s with
  | None => s
  | Some m =>
    String.substring 0 (index m) s +:+ f m +:+ substringFrom s (Z.of_nat (endIndex m))
  end.

(** [s.match(r)] for a global pattern: the matched texts, or [null]. *)
Fixpoint matchAllGo (fuel : nat) (fl : flags) (r : regex) (s : string) (from : nat)
    : list string :=
  match fuel with
  | O => []
  | S fuel =>
    match execFrom fl r s from with
    | None => []
    | Some m =>
      matched m ::
      matchAllGo fuel fl r s
        (if Nat.eqb (String.length (matched m)) 0 then S (index m) else endIndex m)
    end
  end.

Definition matchAll (fl : flags) (r : regex) (s : string) : option (list string) :=
  match matchAllGo (S (String.length s)) fl r s 0 with
  | [] => None
  | l => Some l
  end.

(** Pattern abbreviations. *)
Fixpoint lits (s : string) : regex :=
  match s with
  | EmptyString => Eps
  | String c EmptyString => Lit c
  | String c s => Seq (Lit c) (lits s)
  end.

Fixpoint seqs (l : list regex) : regex :=
  match l with
  | [] => Eps
  | [r] => r
  | r :: l => Seq r (seqs l)
  end.

Fixpoint alts (l : list regex) : regex :=
  match l with
  | [] => Class false []
  | [r] => r
  | r :: l => Alt r (alts l)
  end.

Definition plus (a : regex) : regex := Seq a (Star true a).
Definition star (a : regex) : regex := Star true a.
Definition ws : regex := Class false [CSpace].
Definition wd : regex := Class false [CWord].
Definition dg : regex := Class false [CDigit].
Definition notOf (s : string) : regex := Class true (List.map CChar (String.list_ascii_of_string s)).

End Regex.

(** ** Numbers read from strings

    [Number(s)], [parseInt(s)] and the coercion of a string in [s == 1] and
    [s > 0].  The result of reading a numeral is a double, the one nearest
    to the decimal the numeral writes; [Dec neg m e] stands for the double
    nearest to [m] times ten to the [e] (a zero or an infinity when that is
    out of range), negated when [neg] is set, with [m] not divisible by
    ten.  Two decimals can stand for the same double:
    [eqOne] and [gtZero] decide on the double, and the statements that name
    the number read do so for the integers up to 2^53, each of which is a
    double and is read as itself. *)

Module Num.
Import JS Str.

Inductive jsnum : Type :=
| NaN
| Inf (neg : bool)
| Dec (neg : bool) (m : N) (e : Z).

Definition digitVal (base : N) (c : ascii) : option N :=
  let n := N.of_nat (code c) in
  let v :=
    if isDigit c then Some (n - 48)%N
    else if isLower c then Some (n - 87)%N
    else if isUpper c then Some (n - 55)%N
    else None in
  match v with
  | Some d => if (d <? base)%N then Some d else None
  | None => None
  end.

(** The longest run of digits at the head of [s]: its value on top of [acc],
    its length on top of [n], and what follows it. *)
Fixpoint readDigits (base : N) (s : string) (acc : N) (n : nat) : N * nat * string :=
  match s with
  | String c s' =>
    match digitVal base c with
    | Some d => readDigits base s' (acc * base + d)%N (S n)
    | None => (acc, n, s)
    end
  | EmptyString => (acc, n, s)
  end.

Fixpoint normGo (fuel : nat) (m : N) (e : Z) : N * Z :=
  match fuel with
  | O => (m, e)
  | S fuel => if (m mod 10 =? 0)%N then normGo fuel (m / 10)%N (e + 1) else (m, e)
  end.

Definition norm (m : N) (e : Z) : N * Z :=
  if (m =? 0)%N then (0%N, 0) else normGo (N.to_nat (N.size m)) m e.

Definition readSign (s : string) : bool * string :=
  match s with
  | String c s' =>
    if ceqb c "-" then (true, s') else if ceqb c "+" then (false, s') else (false, s)
  | EmptyString => (false, s)
  end.

(** StrUnsignedDecimalLiteral without Infinity. *)
Definition parseUnsigned (s : string) : option (N * Z) :=
  let '(ip, ni, r1) := readDigits 10 s 0 0 in
  let '(m, nf, r2) :=
    match r1 with
    | String c r => if ceqb c "." then readDigits 10 r ip 0 else (ip, 0%nat, r1)
    | EmptyString => (ip, 0%nat, r1)
    end in
  if Nat.eqb (ni + nf) 0 then None
  else
    match r2 with
    | EmptyString => Some (m, - Z.of_nat nf)
    | String c r3 =>
      if ceqb c "e" || ceqb c "E" then
        let '(neg, r4) := readSign r3 in
        let '(ev, ne, r5) := readDigits 10 r4 0 0 in
        if Nat.eqb ne 0 || negb (String.eqb r5 "") then None
        else Some (m, (if neg then - Z.of_N ev else Z.of_N ev) - Z.of_nat nf)
      else None
    end.

Definition parseRadix (base : N) (s : string) : jsnum :=
  let '(v, n, r) := readDigits base s 0 0 in
  if Nat.eqb n 0 || negb (String.eqb r "") then NaN
  else let '(m, e) := norm v 0 in Dec false m e.

Definition toNumber (s : string) : jsnum :=
  let t := trim s in
  if String.eqb t "" then Dec false 0 0
  else if String.prefix "0x" t || String.prefix "0X" t then
    parseRadix 16 (String.substring 2 (String.length t) t)
  else if String.prefix "0o" t || String.prefix "0O" t then
    parseRadix 8 (String.substring 2 (String.length t) t)
  else if String.prefix "0b" t || String.prefix "0B" t then
    parseRadix 2 (String.substring 2 (String.length t) t)
  else
    let '(neg, u) := readSign t in
    if String.eqb u "Infinity" then Inf neg
    else match parseUnsigned u with
         | Some (m, e) => let '(m', e') := norm m e in Dec neg m' e'
         | None => NaN
         end.

(** [isNaN(s)]. *)
Definition isNaN (s : string) : bool :=
  match toNumber s with NaN => true | _ => false end.

(** [x == 1]: the double nearest to the decimal is 1. *)
Definition eqOne (x : jsnum) : bool :=
  match x with
  | Dec false m e =>
    if 0 <=? e then (m =? 1)%N && (e =? 0)
    else
      let d := 10 ^ (- e) in
      ((2 ^ 54 - 1) * d <=? Z.of_N m * 2 ^ 54) && (Z.of_N m * 2 ^ 53 <=? (2 ^ 53 + 1) * d)
  | _ => false
  end.

(** [x > 0]: the double nearest to the decimal is positive. *)
Definition gtZero (x : jsnum) : bool :=
  match x with
  | Inf false => true
  | Dec false m e =>
    if 0 <=? e then (0 <? m)%N else 10 ^ (- e) <? Z.of_N m * 2 ^ 1075
  | _ => false
  end.

(** [parseInt(s)]: leading white space, a sign, [0x] for base 16, then the
    longest run of digits; [NaN] when there is none. *)
Definition parseInt (s : string) : jsnum :=
  let '(neg, u) := readSign (trimStart s) in
  let '(base, u) :=
    if String.prefix "0x" u || String.prefix "0X" u
    then (16%N, String.substring 2 (String.length u) u)
    else (10%N, u) in
  let '(v, n, _) := readDigits base u 0 0 in
  if Nat.eqb n 0 then NaN else let '(m, e) := norm v 0 in Dec neg m e.

(** The double nearest to [n], which is [n] itself up to 2^53. *)
Definition ofN (n : N) : jsnum := let '(m, e) := norm n 0 in Dec false m e.

End Num.

(** ** JavaScript values that occur in rows *)

Module Value.

Inductive value : Type :=
| Undefined
| Null
| Bool (b : bool)
| Number (n : Num.jsnum)
| Str (s : string).

End Value.

(** ** TableParser.js: the INSERT row tokenizer *)

Module TableParser.
Import JS.

(** [extractRowStrings]: the loop body, one call per value of [i].  The
    arguments after the remaining input are the loop's variables [rows],
    [buffer], [inSingle], [inDouble], [escape] and [depth].  Where the source
    executes [i++] inside the body the recursion continues two characters
    further on. *)
Fixpoint scanRows (s : string) (rows : list string) (buffer : string)
    (inSingle inDouble escape : bool) (depth : Z) {struct s} : list string :=
  match s with
  | EmptyString => rows
  | String char rest =>
    if escape then
      scanRows rest rows (push buffer char) inSingle inDouble false depth
    else if ceqb char BSLASH then
      scanRows rest rows (push buffer char) inSingle inDouble true depth
    else if ceqb char SQ && negb inDouble then
      match rest with
      | String next rest' =>
        if inSingle && ceqb next SQ then
          scanRows rest' rows (push (push buffer char) next)
                   inSingle inDouble escape depth
        else
          scanRows rest rows (push buffer char)
                   (negb inSingle) inDouble escape depth
      | EmptyString =>
          scanRows rest rows (push buffer char)
                   (negb inSingle) inDouble escape depth
      end
    else if ceqb char DQ && negb inSingle then
      match rest with
      | String next rest' =>
        if inDouble && ceqb next DQ then
          scanRows rest' rows (push (push buffer char) next)
                   inSingle inDouble escape depth
        else
          scanRows rest rows (push buffer char)
                   inSingle (negb inDouble) escape depth
      | EmptyString =>
          scanRows rest rows (push buffer char)
                   inSingle (negb inDouble) escape depth
      end
    else if ceqb char LPAREN && negb inSingle && negb inDouble then
      let buffer := if depth =? 0 then ""%string else buffer in
      scanRows rest rows (push buffer char) inSingle inDouble escape (depth + 1)
    else if ceqb char RPAREN && negb inSingle && negb inDouble then
      let buffer := push buffer char in
      let depth := depth - 1 in
      if depth =? 0 then
        let row :=
          if startsWith buffer "(" && endsWith buffer ")"
          then substring buffer 1 (len buffer - 1)
          else buffer in
        scanRows rest (rows ++ [row]) "" inSingle inDouble escape depth
      else
        scanRows rest rows buffer inSingle inDouble escape depth
    else
      scanRows rest rows (push buffer char) inSingle inDouble escape depth
  end.

Definition extractRowStrings (valueSection : string) : list string :=
  scanRows valueSection [] "" false false false 0.

(** [customTrim]. *)
Definition customTrim (str : string) : string := Str.trim str.

(** The patterns of [pushValue]. *)
Definition rx_null : Regex.regex := Regex.seqs [Regex.Bol; Regex.lits "null"; Regex.Eol].
Definition rx_true : Regex.regex := Regex.seqs [Regex.Bol; Regex.lits "true"; Regex.Eol].
Definition rx_false : Regex.regex := Regex.seqs [Regex.Bol; Regex.lits "false"; Regex.Eol].
(** [/''/g]: two single quotes. *)
Definition rx_two_single : Regex.regex := Regex.Seq (Regex.Lit SQ) (Regex.Lit SQ).
(** A backslash followed by a double quote, a single quote or a backslash,
    the latter captured as group 1. *)
Definition rx_escaped_any : Regex.regex :=
  Regex.Seq (Regex.Lit BSLASH)
    (Regex.Group 1 (Regex.Class false [Regex.CChar DQ; Regex.CChar SQ; Regex.CChar BSLASH])).
(** Two backslashes. *)
Definition rx_two_backslash : Regex.regex := Regex.Seq (Regex.Lit BSLASH) (Regex.Lit BSLASH).
(** A backslash followed by a double quote. *)
Definition rx_escaped_double : Regex.regex := Regex.Seq (Regex.Lit BSLASH) (Regex.Lit DQ).

Definition dollar1 (m : Regex.mres) : string :=
  match Regex.group m 1 with Some g => g | None => "" end.

(** The value [pushValue] appends for the accumulated text [current]. *)
Definition parseValue (current : string) : Value.value :=
  let raw := current in
  let trimmed := customTrim raw in
  if String.eqb trimmed "" then Value.Str ""
  else if Regex.test Regex.flagI rx_null trimmed then Value.Null
  else if Regex.test Regex.flagI rx_true trimmed then Value.Bool true
  else if Regex.test Regex.flagI rx_false trimmed then Value.Bool false
  else if startsWith trimmed "'" && endsWith trimmed "'" then
    Value.Str
      (Regex.replaceAll Regex.noFlags rx_escaped_any dollar1
         (Regex.replaceAll Regex.noFlags rx_two_single (fun _ => "'")
            (Str.slice_1_m1 trimmed)))
  else if startsWith trimmed (String DQ "") && endsWith trimmed (String DQ "") then
    Value.Str
      (Regex.replaceAll Regex.noFlags rx_escaped_double (fun _ => String DQ "")
         (Regex.replaceAll Regex.noFlags rx_two_backslash (fun _ => "\")
            (Regex.replaceAll Regex.noFlags rx_two_single (fun _ => "'")
               (Str.slice_1_m1 trimmed))))
  else if negb (Num.isNaN trimmed) && negb (String.eqb trimmed "") then
    Value.Number (Num.toNumber trimmed)
  else Value.Str trimmed.

(** [parseRow]: the loop over [rowContent], with its variables [values],
    [current], [inSingle], [inDouble] and [escape]; at the end of the input
    the last value is pushed. *)
Fixpoint scanRow (s : string) (values : list Value.value) (current : string)
    (inSingle inDouble escape : bool) {struct s} : list Value.value :=
  match s with
  | EmptyString => values ++ [parseValue current]
  | String char rest =>
    if escape then
      scanRow rest values (push current char) inSingle inDouble false
    else if ceqb char BSLASH then
      scanRow rest values (push current char) inSingle inDouble true
    else if ceqb char SQ && negb inDouble then
      match rest with
      | String next rest' =>
        if inSingle && ceqb next SQ then
          scanRow rest' values (push (push current char) next) inSingle inDouble escape
        else
          scanRow rest values (push current char) (negb inSingle) inDouble escape
      | EmptyString =>
          scanRow rest values (push current char) (negb inSingle) inDouble escape
      end
    else if ceqb char DQ && negb inSingle then
      match rest with
      | String next rest' =>
        if inDouble && ceqb next DQ then
          scanRow rest' values (push (push current char) next) inSingle inDouble escape
        else
          scanRow rest values (push current char) inSingle (negb inDouble) escape
      | EmptyString =>
          scanRow rest values (push current char) inSingle (negb inDouble) escape
      end
    else if ceqb char COMMA && negb inSingle && negb inDouble then
      scanRow rest (values ++ [parseValue current]) "" inSingle inDouble escape
    else
      scanRow rest values (push current char) inSingle inDouble escape
  end.

Definition parseRow (rowContent : string) : list Value.value :=
  scanRow rowContent [] "" false false false.

(** ** TableParser.js: INSERT statements *)

(** The pattern of [parseInsertQuery], flags [i] and [s]: the words INSERT
    INTO, the table name (group 1: quoted by backticks, brackets or double
    quotes, or a run of word characters and dots), optionally a column list
    in parentheses (group 2, as short as possible), the word VALUES and the
    rest of the statement (group 3). *)
Definition rx_identifier : list Regex.regex :=
  [ Regex.seqs [Regex.Lit "`"; Regex.plus (Regex.notOf "`"); Regex.Lit "`"];
    Regex.seqs [Regex.Lit "["; Regex.plus (Regex.notOf "]"); Regex.Lit "]"];
    Regex.seqs [Regex.Lit DQ; Regex.plus (Regex.Class true [Regex.CChar DQ]); Regex.Lit DQ] ].

Definition insertRegex : Regex.regex :=
  Regex.seqs
    [ Regex.lits "INSERT INTO"; Regex.plus Regex.ws;
      Regex.Group 1 (Regex.alts (rx_identifier ++
        [Regex.plus (Regex.Class false [Regex.CWord; Regex.CChar "."])]));
      Regex.star Regex.ws;
      Regex.Opt (Regex.seqs [Regex.Lit "("; Regex.Group 2 (Regex.Star false (Regex.notOf ")"));
                             Regex.Lit ")"]);
      Regex.star Regex.ws; Regex.lits "VALUES"; Regex.star Regex.ws;
      Regex.Group 3 (Regex.star Regex.Dot) ].

(** A quoting character at the very start or at the very end. *)
Definition rx_outer_quote : Regex.regex :=
  Regex.Alt
    (Regex.Seq Regex.Bol (Regex.Class false [Regex.CChar "`"; Regex.CChar "["; Regex.CChar DQ]))
    (Regex.Seq (Regex.Class false [Regex.CChar "`"; Regex.CChar "]"; Regex.CChar DQ]) Regex.Eol).

Definition stripQuotes (s : string) : string :=
  Regex.replaceAll Regex.noFlags rx_outer_quote (fun _ => "") s.

(** One column of the column list: a quoted name or a run without commas. *)
Definition rx_column : Regex.regex :=
  Regex.Group 1 (Regex.alts (rx_identifier ++ [Regex.plus (Regex.notOf ",")])).

(** A row object, as the map of its own properties: the column names mapped
    to the values at their positions; a value the row does not have is
    [undefined].  The assignment [obj[c] = v] for the name [__proto__] goes
    to the setter that every object inherits and makes no property: the
    setter ignores [v] unless it is [null], and for [null] takes the
    prototype of [obj] away, itself included, so that a later assignment
    for that name is an ordinary one.  [bare] says that the prototype is
    gone. *)
Fixpoint zipRow (columns : list string) (values : list Value.value)
    (obj : gmap string Value.value) (bare : bool) : gmap string Value.value :=
  match columns with
  | [] => obj
  | c :: columns =>
    let v := hd Value.Undefined values in
    if String.eqb c "__proto__" && negb bare then
      zipRow columns (tail values) obj
        (match v with Value.Null => true | _ => false end)
    else zipRow columns (tail values) (<[c := v]> obj) bare
  end.

Record InsertQuery : Type :=
  { tableName : string; columns : list string; rows : list (gmap string Value.value) }.

(** [parseInsertQuery]: [Ok None] is the result [null]. *)
Definition parseInsertQuery (query : string) : result (option InsertQuery) :=
  let trimmedQuery := Str.trim query in
  match Regex.exec Regex.flagIS insertRegex trimmedQuery with
  | None => Ok None
  | Some m =>
    match Regex.group m 1, Regex.group m 3 with
    | Some g1, Some valueSection =>
      let tableName := stripQuotes g1 in
      let columns :=
        match Regex.group m 2 with
        | None => Ok []
        | Some g2 =>
          if String.eqb g2 "" then Ok []
          else match Regex.matchAll Regex.noFlags rx_column g2 with
               | None => Throw
               | Some cs => Ok (List.map (fun c => stripQuotes (Str.trim c)) cs)
               end
        end in
      match columns with
      | Throw => Throw
      | Ok columns =>
        let rowStrings := extractRowStrings valueSection in
        let rawRows := List.map parseRow rowStrings in
        let rows := List.map (fun values => zipRow columns values ∅ false) rawRows in
        Ok (Some {| tableName := tableName; columns := columns; rows := rows |})
      end
    | _, _ => Throw
    end
  end.

(** ** TableParser.js: CREATE TABLE statements *)

Definition CRLF : string := String CR (String LF "").
Definition NL : string := String LF "".

(** A run of white space. *)
Definition rx_spaces : Regex.regex := Regex.plus Regex.ws.

Definition typeList : list string :=
  Str.split
    "TIMESTAMPTZ,TIMESTAMP,SERIAL4,BIGSERIAL,INT2,INT4,INT8,TINYINT,BIGINT,LONGTEXT,MEDIUMTEXT,TEXT,NVARCHAR,VARCHAR,ENUM,SET,NUMERIC,DECIMAL,CHAR,REAL,FLOAT,INTEGER,INT,DATETIME2,DATETIME,DATE,DOUBLE,BOOLEAN,BOOL,TIME,UUID,MONEY,BLOB,BIT,JSON"
    ",".

(** [haystack.includes(needle)] *)
Definition inArray (haystack : list string) (needle : string) : bool :=
  existsb (String.eqb needle) haystack.

Definition isValidType (dataType : string) : bool :=
  inArray typeList (Str.toUpperCase dataType).

(** [line.toUpperCase().replace(/\s+/g, ' ').trim()] *)
Definition squeeze (field : string) : string :=
  Str.trim (Regex.replaceAll Regex.noFlags rx_spaces (fun _ => " ") (Str.toUpperCase field)).

Definition isPrimaryKey (field : string) : bool :=
  Str.includes (squeeze field) "PRIMARY KEY".

Definition isAutoIncrement (line : string) : bool :=
  let f := squeeze line in
  let ai := Str.includes f "AUTO_INCREMENT" || Str.includes f "AUTOINCREMENT" in
  if negb ai
  then Str.includes f "SERIAL" || Str.includes f "BIGSERIAL" || Str.includes f "NEXTVAL"
  else ai.

(** A parenthesised run of digits. *)
Definition rx_length : Regex.regex :=
  Regex.seqs [Regex.Lit "("; Regex.Group 1 (Regex.plus Regex.dg); Regex.Lit ")"].

Definition getLength (text : string) : string :=
  if Str.includes text "(" && Str.includes text ")" then
    match Regex.exec Regex.noFlags rx_length text with
    | Some m => default "" (Regex.group m 1)
    | None => ""
    end
  else "".

(** *** Default values *)

Definition isBoolean (dataType length : string) : bool :=
  Str.includes (Str.toUpperCase dataType) "BOOL"
  || (Str.includes (Str.toUpperCase dataType) "TINYINT" && Num.eqOne (Num.toNumber length)).

Definition toBoolean (defaultValue : string) : string :=
  if Str.includes (Str.toUpperCase defaultValue) "TRUE" || Str.includes defaultValue "1"
  then "TRUE" else "FALSE".

Definition isNumber (defaultValue : string) : bool :=
  negb (Num.isNaN defaultValue) && negb (String.eqb defaultValue "").

Definition isInQuotes (defaultValue : string) : bool :=
  startsWith defaultValue "'" && endsWith defaultValue "'".

Definition createDate (defaultValue : string) : string :=
  let defaultValue := Str.trim defaultValue in
  let defaultValue :=
    if isInQuotes defaultValue then Str.slice_1_m1 defaultValue
    else if startsWith defaultValue "'" then substringFrom defaultValue 1
    else if endsWith defaultValue "'" then substring defaultValue 0 (len defaultValue - 3)
    else defaultValue in
  "'" +:+ defaultValue +:+ "'".

Definition d2 : Regex.regex := Regex.Seq Regex.dg Regex.dg.
Definition d4 : Regex.regex := Regex.Seq d2 d2.
Definition rx_date : Regex.regex :=
  Regex.seqs [d4; Regex.Lit "-"; d2; Regex.Lit "-"; d2].
Definition rx_time : Regex.regex :=
  Regex.seqs [d2; Regex.Lit ":"; d2; Regex.Lit ":"; d2].
Definition rx_dateTime : Regex.regex :=
  Regex.seqs [rx_date; Regex.plus Regex.ws; rx_time].
Definition rx_dateTimeWithMicroseconds : Regex.regex :=
  Regex.seqs [rx_dateTime; Regex.Lit "."; d2; d2; d2].

Definition isDateTime (defaultValue : string) : bool :=
  Regex.test Regex.noFlags rx_dateTimeWithMicroseconds defaultValue
  || Regex.test Regex.noFlags rx_dateTime defaultValue
  || Regex.test Regex.noFlags rx_date defaultValue
  || Regex.test Regex.noFlags rx_time defaultValue.

Definition rx_sql_function : Regex.regex :=
  Regex.seqs [Regex.Bol;
              Regex.Group 1 (Regex.Alt (Regex.lits "CURRENT_TIMESTAMP") (Regex.lits "NOW()"));
              Regex.Eol].
Definition rx_true_prefix : Regex.regex := Regex.Seq Regex.Bol (Regex.lits "TRUE").
Definition rx_false_prefix : Regex.regex := Regex.Seq Regex.Bol (Regex.lits "FALSE").
Definition rx_on (word : string) : Regex.regex :=
  Regex.seqs [Regex.Bol; Regex.lits "CURRENT_TIMESTAMP"; Regex.plus Regex.ws; Regex.lits "ON";
              Regex.plus Regex.ws; Regex.lits word; Regex.plus Regex.ws;
              Regex.lits "CURRENT_TIMESTAMP"; Regex.Eol].

Definition fixDefaultValue (defaultValue : option string) (dataType length : string)
    : option string :=
  match defaultValue with
  | None => None
  | Some defaultValue =>
    if String.eqb defaultValue "" then None
    else if isBoolean dataType length then Some (toBoolean defaultValue)
    else if Str.includes (Str.toUpperCase defaultValue) "NULL" then Some "NULL"
    else if isNumber defaultValue then Some ("'" +:+ defaultValue +:+ "'")
    else if Regex.test Regex.flagI rx_sql_function defaultValue
      then Some (Str.toUpperCase defaultValue)
    else if isDateTime defaultValue then Some (createDate defaultValue)
    else if Regex.test Regex.flagI rx_true_prefix defaultValue then Some "TRUE"
    else if Regex.test Regex.flagI rx_false_prefix defaultValue then Some "FALSE"
    else if Regex.test Regex.flagI (rx_on "UPDATE") defaultValue
      then Some (Str.toUpperCase defaultValue)
    else if Regex.test Regex.flagI (rx_on "INSERT") defaultValue
      then Some (Str.toUpperCase defaultValue)
    else Some defaultValue
  end.

(** *** The patterns of [parseTable] *)

Definition sp : Regex.regex := Regex.plus Regex.ws.
Definition sp0 : Regex.regex := Regex.star Regex.ws.
Definition any0 : Regex.regex := Regex.star Regex.Dot.
Definition word : Regex.regex := Regex.plus Regex.wd.
Definition inParens (n : nat) : Regex.regex :=
  Regex.seqs [Regex.Lit "("; Regex.Group n (Regex.plus (Regex.notOf ")")); Regex.Lit ")"].

(** [nvarchar(max)] and [varchar(max)], flags [g] and [i]. *)
Definition rx_max (kw : string) : Regex.regex :=
  Regex.seqs [Regex.Group 1 (Regex.seqs [Regex.WordB; Regex.lits kw; sp0]);
              Regex.Lit "("; sp0; Regex.lits "max"; sp0; Regex.Lit ")"].

(** [rg_tb], flags [g], [i] and [m]; group 2 is the group named [tb]. *)
Definition rg_tb : Regex.regex :=
  Regex.seqs
    [ Regex.Group 1 (Regex.Alt
        (Regex.seqs [Regex.lits "create"; sp; Regex.lits "table"; sp; Regex.lits "if"; sp;
                     Regex.lits "not"; sp; Regex.lits "exists"])
        (Regex.seqs [Regex.lits "create"; sp; Regex.lits "table"]));
      Regex.ws; Regex.Group 2 any0; Regex.ws; Regex.Lit "(" ].

(** A column line of [rg_fld]: a word, white space, the type keyword, and
    then either the rest of the line, nothing, or a parenthesised list. *)
Definition fld (kw : string) : Regex.regex := Regex.seqs [word; sp; Regex.lits kw; any0].
Definition fldBare (kw : string) : Regex.regex := Regex.seqs [word; sp; Regex.lits kw].
Definition fldList (kw : string) (n : nat) : Regex.regex :=
  Regex.seqs [word; sp; Regex.lits kw; sp0; inParens n].

(** [rg_fld], flags [g], [i] and [m]. *)
Definition rg_fld : Regex.regex :=
  Regex.Group 1 (Regex.alts
    [ Regex.seqs [Regex.lits "primary"; sp; Regex.lits "key"; sp0;
                  Regex.Lit "("; Regex.plus (Regex.notOf ")"); Regex.Lit ")"];
      fld "key"; fldBare "bigserial"; fldBare "serial4"; fldBare "serial8";
      fld "tinyint"; fld "bigint"; fld "longtext"; fld "mediumtext"; fld "text";
      fld "nvarchar"; fld "varchar"; fld "char"; fld "real"; fld "float";
      fld "integer"; fld "int"; fld "datetime2"; fld "datetime"; fld "date";
      fld "double"; fld "timestamp"; fld "timestamptz"; fld "boolean"; fld "bool";
      fldList "enum" 2; fldList "set" 3; fldList "numeric" 4; fldList "decimal" 5;
      fldList "float" 6;
      fld "int2"; fld "int4"; fld "int8"; fld "time"; fld "uuid"; fld "money";
      fld "blob"; fld "bit"; fld "json" ]).

(** [rg_fld2], flags [g] and [i]: groups 1, 2 and 3 are [fname], [ftype] and
    [fattr]. *)
Definition rg_fld2 : Regex.regex :=
  Regex.seqs [Regex.Group 1 word; sp; Regex.Group 2 word; Regex.Group 3 any0].

Definition rg_list (kw : string) : Regex.regex :=
  Regex.seqs [Regex.lits kw; sp0; inParens 1].
Definition rg_enum : Regex.regex := rg_list "enum".
Definition rg_set : Regex.regex := rg_list "set".
Definition rg_numeric : Regex.regex := rg_list "numeric".
Definition rg_decimal : Regex.regex := rg_list "decimal".
Definition rg_not_null : Regex.regex := Regex.seqs [Regex.lits "not"; sp; Regex.lits "null"].
Definition rg_pk : Regex.regex := Regex.seqs [Regex.lits "primary"; sp; Regex.lits "key"].

(** [rg_fld_def]: the word default, then an unquoted run or a quoted literal
    (group 1), then optionally a comment clause (group 2). *)
Definition rg_fld_def : Regex.regex :=
  Regex.seqs
    [ Regex.lits "default"; sp;
      Regex.Group 1 (Regex.alts
        [ Regex.plus (Regex.Class true [Regex.CChar SQ; Regex.CChar DQ]);
          Regex.seqs [Regex.Lit SQ; Regex.star (Regex.Class true [Regex.CChar SQ]); Regex.Lit SQ];
          Regex.seqs [Regex.Lit DQ; Regex.star (Regex.Class true [Regex.CChar DQ]); Regex.Lit DQ] ]);
      sp0;
      Regex.Opt (Regex.Group 2 (Regex.seqs
        [Regex.lits "comment"; sp; Regex.Lit SQ;
         Regex.star (Regex.Class true [Regex.CChar SQ]); Regex.Lit SQ])) ].

Definition rg_fld_comment : Regex.regex :=
  Regex.seqs [Regex.lits "COMMENT"; sp0; Regex.Lit SQ;
              Regex.Group 1 (Regex.star (Regex.Class true [Regex.CChar SQ])); Regex.Lit SQ].

(** [rg_pk2], flags [g] and [i]. *)
Definition identChars : list Regex.citem :=
  [Regex.CRange "a" "z"; Regex.CRange "A" "Z"; Regex.CChar "_"; Regex.CRange "0" "9"].
Definition rg_pk2 : Regex.regex :=
  Regex.seqs
    [ Regex.Group 1 (Regex.Alt (Regex.lits "PRIMARY") (Regex.lits "UNIQUE"));
      Regex.lits " KEY";
      Regex.plus (Regex.Class false (identChars ++ [Regex.CSpace]));
      Regex.Lit "(";
      Regex.Group 2 (Regex.plus (Regex.Class false (identChars ++ [Regex.CChar ","; Regex.CSpace])));
      Regex.Lit ")" ].

Definition rg_pk_composite : Regex.regex :=
  Regex.seqs [Regex.lits "primary"; sp; Regex.lits "key"; sp0; inParens 1].

(** A parenthesis, anything, and the last parenthesis that closes. *)
Definition rx_parens : Regex.regex :=
  Regex.seqs [Regex.Lit "("; Regex.Group 1 any0; Regex.Lit ")"].

Definition rx_newlines : Regex.regex :=
  Regex.plus (Regex.Class false [Regex.CChar CR; Regex.CChar LF]).

Definition rx_any_quote : Regex.regex := Regex.Class false [Regex.CChar SQ; Regex.CChar DQ].

(** *** The table model *)

Record ColumnInfo : Type :=
  { Field : string; Type_ : string; Length : string; Key : bool; Nullable : bool;
    Default : option string; AutoIncrement : bool; EnumValues : option (list string);
    Comment : option string }.

Record TableInfo : Type :=
  { tbl_tableName : string; tbl_columns : list ColumnInfo; tbl_primaryKey : option string }.

(** [field['Key'] = true] *)
Definition setKey (c : ColumnInfo) : ColumnInfo :=
  {| Field := Field c; Type_ := Type_ c; Length := Length c; Key := true;
     Nullable := Nullable c; Default := Default c; AutoIncrement := AutoIncrement c;
     EnumValues := EnumValues c; Comment := Comment c |}.

(** The loops that flag every field whose name satisfies [p]. *)
Definition markKeys (p : string -> bool) (fieldList : list ColumnInfo) : list ColumnInfo :=
  List.map (fun c => if p (Field c) then setKey c else c) fieldList.

Definition updatePrimaryKey (fieldList : list ColumnInfo) (primaryKey : string)
    : list ColumnInfo :=
  markKeys (fun field => String.eqb (Str.trim primaryKey) (Str.trim field)) fieldList.

(** [text.split(',').map(v => v.trim())] *)
Definition splitTrim (text : string) : list string :=
  List.map Str.trim (Str.split text ",").

(** The pieces of [enumValues] between commas, each trimmed and with its
    single and double quote characters removed. *)
Definition enumList (enumValues : string) : list string :=
  List.map (fun val => Regex.replaceAll Regex.noFlags rx_any_quote (fun _ => "") (Str.trim val))
    (Str.split enumValues ",").

Definition firstList (line : string) : option (list string) :=
  let try (r : Regex.regex) : option (list string) :=
    match Regex.exec Regex.flagI r line with
    | Some m => Some (enumList (default "" (Regex.group m 1)))
    | None => None
    end in
  match try rg_enum with
  | Some l => Some l
  | None =>
    match try rg_set with
    | Some l => Some l
    | None =>
      match try rg_numeric with
      | Some l => Some l
      | None => try rg_decimal
      end
    end
  end.

(** [m && m[1] ? m[1].trim() : null] *)
Definition group1Trimmed (m : option Regex.mres) : option string :=
  match m with
  | Some m =>
    match Regex.group m 1 with
    | Some g => if String.eqb g "" then None else Some (Str.trim g)
    | None => None
    end
  | None => None
  end.

(** The variables of the loop over the matches of [rg_fld]; [pk2LastIndex]
    is the [lastIndex] of the global pattern [rg_pk2]. *)
Record tableScan : Type :=
  { fieldList : list ColumnInfo; primaryKey : option string; columnList : list string;
    primaryKeyList : list string; pk2LastIndex : nat }.

(** The body of the loop for one match [result] of [rg_fld]. *)
Definition fieldStep (st : tableScan) (result : Regex.mres) : JS.result tableScan :=
  let f := Regex.matched result in
  let line := Regex.replaceAll Regex.noFlags rx_newlines (fun _ => " ") f in
  match Regex.exec Regex.flagI rg_fld2 f with
  | None => Throw
  | Some fld_def =>
    let dataType := default "" (Regex.group fld_def 2) in
    let columnName := Str.trim (default "" (Regex.group fld_def 1)) in
    let enumArray := firstList line in
    let '(fieldList, primaryKey, columnList, primaryKeyList) :=
      if isValidType dataType then
        let attr := Str.trim (Str.replaceFirst (default "" (Regex.group fld_def 3)) "," "") in
        let nullable := negb (Regex.test Regex.flagI rg_not_null attr) in
        let attr2 := Regex.replaceOne Regex.flagI rg_not_null (fun _ => "") attr in
        let isPk := Regex.test Regex.flagI rg_pk attr2 || isPrimaryKey line in
        let isAi := isAutoIncrement line in
        let defaultValue := group1Trimmed (Regex.exec Regex.flagI rg_fld_def attr2) in
        let length := getLength attr in
        let length :=
          match enumArray with
          | Some l => if String.eqb length "" then "'" +:+ Str.join l "','" +:+ "'" else length
          | None => length
          end in
        let defaultValue := fixDefaultValue defaultValue dataType length in
        let comment := group1Trimmed (Regex.exec Regex.flagI rg_fld_comment attr2) in
        let dataType := Str.trim dataType in
        let primaryKeyList :=
          if isPk then primaryKeyList st ++ [columnName] else primaryKeyList st in
        if negb (inArray (columnList st) columnName) then
          let nullable := if isPk then false else nullable in
          let column :=
            {| Field := columnName; Type_ := dataType; Length := length; Key := isPk;
               Nullable := nullable; Default := defaultValue; AutoIncrement := isAi;
               EnumValues := enumArray; Comment := comment |} in
          (fieldList st ++ [column], primaryKey st, columnList st ++ [columnName],
           primaryKeyList)
        else (fieldList st, primaryKey st, columnList st, primaryKeyList)
      else if isPrimaryKey line then
        let text := default "" (Regex.group result 1) in
        let matched := Regex.exec Regex.noFlags rx_parens text in
        let primaryKey :=
          match primaryKey st with
          | None =>
            match matched with
            | Some m => Regex.group m 1
            | None => None
            end
          | Some pk => Some pk
          end in
        (fieldList st, primaryKey, columnList st, primaryKeyList st)
      else (fieldList st, primaryKey st, columnList st, primaryKeyList st) in
    (* a table-level PRIMARY KEY line seen so far *)
    let '(fieldList, primaryKey) :=
      match primaryKey with
      | Some pk =>
        let pk := Str.join (Str.split (Str.join (Str.split pk "(") "") ")") "" in
        (markKeys (fun field => String.eqb field pk) fieldList, Some pk)
      | None => (fieldList, None)
      end in
    (* PRIMARY KEY name (...) and UNIQUE KEY name (...) *)
    let pk2 := Regex.execFrom Regex.flagI rg_pk2 f (pk2LastIndex st) in
    let pk2LastIndex := match pk2 with Some m => Regex.endIndex m | None => 0%nat end in
    let fieldList :=
      match pk2, Regex.exec Regex.flagI rg_pk f with
      | Some _, Some m =>
        let x := Str.replaceFirst f (Regex.matched m) "" in
        let x := Str.replaceFirst (Str.replaceFirst x "(" "") ")" "" in
        let pkeys := splitTrim x in
        markKeys (inArray pkeys) fieldList
      | _, _ => fieldList
      end in
    (* PRIMARY KEY (...) *)
    let '(fieldList, primaryKeyList) :=
      match Regex.exec Regex.flagI rg_pk_composite line with
      | Some m =>
        match Regex.group m 1 with
        | Some g =>
          if String.eqb g "" then (fieldList, primaryKeyList)
          else
            let pkeys := splitTrim g in
            (markKeys (inArray pkeys) fieldList, primaryKeyList ++ pkeys)
        | None => (fieldList, primaryKeyList)
        end
      | None => (fieldList, primaryKeyList)
      end in
    Ok {| fieldList := fieldList; primaryKey := primaryKey; columnList := columnList;
          primaryKeyList := primaryKeyList; pk2LastIndex := pk2LastIndex |}
  end.

(** [while ((result = rg_fld.exec(sql)) != null)]: [from] is the pattern's
    [lastIndex].  Every match is at least one character long, so the loop
    makes at most one turn per character; [Throw] also stands for a loop
    that outlasts [fuel]. *)
Fixpoint fieldLoop (fuel : nat) (sql : string) (from : nat) (st : tableScan)
    : JS.result tableScan :=
  match fuel with
  | O => Throw
  | S fuel =>
    match Regex.execFrom Regex.flagIM rg_fld sql from with
    | None => Ok st
    | Some result =>
      match fieldStep st result with
      | Ok st => fieldLoop fuel sql (Regex.endIndex result) st
      | Throw => Throw
      end
    end
  end.

Definition parseTable (sql : string) : JS.result TableInfo :=
  let sql := Regex.replaceAll Regex.flagI (rx_max "nvarchar") (fun _ => "TEXT") sql in
  let sql := Regex.replaceAll Regex.flagI (rx_max "varchar") (fun _ => "TEXT") sql in
  match Regex.exec Regex.flagIM rg_tb sql with
  | None => Throw
  | Some result =>
    match Regex.group result 2 with
    | None => Throw
    | Some tableName =>
      let st0 := {| fieldList := []; primaryKey := None; columnList := [];
                    primaryKeyList := []; pk2LastIndex := 0 |} in
      match fieldLoop (S (String.length sql)) sql 0 st0 with
      | Throw => Throw
      | Ok st =>
        let primaryKey :=
          match primaryKey st with
          | None => head (primaryKeyList st)
          | Some pk => Some pk
          end in
        let fieldList :=
          match primaryKey with
          | Some pk => updatePrimaryKey (fieldList st) pk
          | None => fieldList st
          end in
        Ok {| tbl_tableName := tableName; tbl_columns := fieldList;
              tbl_primaryKey := primaryKey |}
      end
    end
  end.

(** [formatSQL] *)
Definition rx_create_table : Regex.regex :=
  Regex.seqs [Regex.WordB; Regex.lits "CREATE"; sp; Regex.lits "TABLE"; sp].
Definition rx_if_not_exists : Regex.regex :=
  Regex.seqs [Regex.WordB; Regex.lits "IF"; sp; Regex.lits "NOT"; sp; Regex.lits "EXISTS"; sp].
Definition rx_open : Regex.regex := Regex.Seq sp0 (Regex.Lit "(").
Definition rx_close : Regex.regex := Regex.seqs [sp0; Regex.Lit ")"; sp0; Regex.Lit ";"].
Definition rx_open_after : Regex.regex := Regex.Seq (Regex.Lit "(") sp0.
Definition rx_comma : Regex.regex := Regex.Seq (Regex.Lit ",") sp0.

Definition formatSQL (sql : string) : string :=
  let sql := Regex.replaceAll Regex.noFlags rx_spaces (fun _ => " ") sql in
  let sql := Regex.replaceOne Regex.flagI rx_create_table (fun _ => "CREATE TABLE ") sql in
  let sql := Regex.replaceOne Regex.flagI rx_if_not_exists (fun _ => "IF NOT EXISTS ") sql in
  let sql := Regex.replaceOne Regex.noFlags rx_open (fun _ => " (") sql in
  let sql := Regex.replaceOne Regex.noFlags rx_close (fun _ => CRLF +:+ ");") sql in
  let sql := Regex.replaceOne Regex.noFlags rx_open_after
               (fun _ => "(" +:+ String LF (String TAB "")) sql in
  let sql := Regex.replaceAll Regex.noFlags rx_comma
               (fun _ => "," +:+ String LF (String TAB "")) sql in
  Str.replaceFirst sql "CREATE TABLE" (String LF "CREATE TABLE").

(** ** TableParser.js: the statement splitter *)

Record Statement : Type := { query : string; delimiter : string }.

(** The first pass of [parseSQL]: the trimmed lines that are neither comment
    lines nor empty. *)
Definition keepLine (val : string) : bool :=
  negb (startsWith val "-- ") && negb (String.eqb val "--") && negb (String.eqb val "").

Definition splitLines (sql : string) : list string :=
  let sql := Str.replaceAll sql NL CRLF in
  let sql := Str.replaceAll sql (String CR CRLF) CRLF in
  Str.split sql CRLF.

Definition keptLines (sql : string) : list string :=
  List.filter keepLine (List.map Str.trim (splitLines sql)).

(** The variables of the second pass. *)
Record splitter : Type :=
  { append : Z; skip : Z; start : Z; nquery : Z; delim : string;
    queryArray : sparse; delimiterArray : sparse }.

Definition splitter0 : splitter :=
  {| append := 0; skip := 0; start := 1; nquery := -1; delim := ";";
     queryArray := []; delimiterArray := [] |}.

(** One turn of the second [forEach]. *)
Definition splitStep (st : splitter) (text : string) : splitter :=
  (* a blank line inside a statement *)
  let st :=
    if String.eqb text "" then
      if append st =? 1
      then {| append := append st; skip := skip st; start := start st; nquery := nquery st;
              delim := delim st;
              queryArray := arrAppend (queryArray st) (nquery st) CRLF;
              delimiterArray := delimiterArray st |}
      else st
    else st in
  (* a comment between statements *)
  let st :=
    if append st =? 0 then
      if startsWith (Str.trim text) "--"
      then {| append := 0; skip := 1; start := 1; nquery := nquery st + 1; delim := delim st;
              queryArray := queryArray st; delimiterArray := delimiterArray st |}
      else {| append := append st; skip := 0; start := start st; nquery := nquery st;
              delim := delim st; queryArray := queryArray st;
              delimiterArray := delimiterArray st |}
    else st in
  if skip st =? 0 then
    let delimiter := delim st in
    let '(nquery, queryArray, delimiterArray) :=
      if start st =? 1
      then (nquery st + 1, arrSet (queryArray st) (nquery st + 1) "",
            arrSet (delimiterArray st) (nquery st + 1) delimiter)
      else (nquery st, queryArray st, delimiterArray st) in
    let queryArray := arrAppend queryArray nquery (text +:+ CRLF) in
    let delimiterArray := arrSet delimiterArray nquery delimiter in
    let text := Str.trim text in
    let start := len text - len delimiter - 1 in
    let ends := Str.includes (substringFrom text start) delimiter || String.eqb text delimiter in
    let nquery := if ends then nquery + 1 else nquery in
    let delimiterArray := arrSet delimiterArray nquery delimiter in
    if startsWith (Str.toLowerCase text) "delimiter " then
      let text := Regex.replaceAll Regex.noFlags rx_spaces (fun _ => " ") (Str.trim text) in
      let arr2 := Str.split text " " in
      let delimiter := nth 1 arr2 "" in
      {| append := 0; skip := 0; start := 1; nquery := nquery + 1; delim := delimiter;
         queryArray := queryArray;
         delimiterArray := arrSet delimiterArray (nquery + 1) delimiter |}
    else
      {| append := if ends then 0 else 1; skip := 0; start := if ends then 1 else 0;
         nquery := nquery; delim := delimiter;
         queryArray := queryArray; delimiterArray := delimiterArray |}
  else st.

(** The last [forEach]: the statements, passing over the holes of
    [queryArray] and over [DELIMITER] lines. *)
Fixpoint collect (queryArray : sparse) (delimiterArray : sparse) (line : nat)
    : result (list Statement) :=
  match queryArray with
  | [] => Ok []
  | None :: queryArray => collect queryArray delimiterArray (S line)
  | Some sql :: queryArray =>
    if startsWith (Str.toLowerCase sql) "delimiter "
    then collect queryArray delimiterArray (S line)
    else
      match arrGet delimiterArray (Z.of_nat line) with
      | None => Throw
      | Some delimiter =>
        let sql := Str.trim sql in
        let sql := substring sql 0 (len sql - len delimiter) in
        match collect queryArray delimiterArray (S line) with
        | Ok rest => Ok ({| query := sql; delimiter := delimiter |} :: rest)
        | Throw => Throw
        end
      end
  end.

Definition assemble (arr : list string) : result (list Statement) :=
  let st := fold_left splitStep arr splitter0 in
  collect (queryArray st) (delimiterArray st) 0.

Definition parseSQL (sql : string) : result (list Statement) :=
  assemble (keptLines sql).

(** [parseAll]: the tables of the statements that [parseTable] accepts; a
    statement on which it throws is passed over. *)
Definition parseAll (sql : string) : result (list TableInfo) :=
  match parseSQL sql with
  | Throw => Throw
  | Ok parsedResult =>
    Ok (omap (fun st => match parseTable (formatSQL (query st)) with
                        | Ok info => Some info
                        | Throw => None
                        end) parsedResult)
  end.

End TableParser.


(** ** SQLParser.js: the dependency depth calculator

    An entity is read through its [name] and the names of its [columns]; the
    calculation writes its [depth].  The plain objects [nameToEntity] and
    [graph] are finite maps of their own properties, keyed by entity name
    ([graph] is filled in the order of the entity list, a later entity of the
    same name replacing an earlier one), and reading a key that is not their
    own finds what they inherit from [Object.prototype].  The entry
    [Object.fromEntries] makes for an entity called [__proto__] is an own
    property; the assignment [graph[name] = references] for that name makes
    the reference list the prototype of [graph], where [graph[name]] finds
    it again, and the methods [graph] then inherits through the list under
    the names of [Object.prototype] have the same [length] as those of
    [Object.prototype].  [visited] is a [Map], the memo table, and [seen] a
    [Set], the names on the current search path. *)

Module SQLParser.
Import JS.

Record Column : Type := { col_name : string }.

Record Entity : Type :=
  { name : string; columns : list Column; depth : option nat }.

Definition setDepth (d : nat) (e : Entity) : Entity :=
  {| name := name e; columns := columns e; depth := Some d |}.

(** [/_id$/] *)
Definition rx_id_suffix : Regex.regex := Regex.Seq (Regex.lits "_id") Regex.Eol.

(** The names a column list points at: the columns ending in [_id], with
    that suffix removed. *)
Definition columnTargets (cols : list Column) : list string :=
  List.map (fun col => Regex.replaceOne Regex.noFlags rx_id_suffix (fun _ => "") (col_name col))
    (List.filter (fun col => endsWith (col_name col) "_id") cols).

Definition buildNameToEntity (entities : list Entity) : gmap string Entity :=
  fold_left (fun m e => <[name e := e]> m) entities ∅.

(** [ref !== entity.name && nameToEntity[ref]]: the second operand is an
    entity of that name or, when there is none, an inherited member. *)
Definition references (nameToEntity : gmap string Entity) (entity : Entity) : list string :=
  List.filter
    (fun ref => negb (String.eqb ref (name entity))
                && (bool_decide (is_Some (nameToEntity !! ref))
                    || bool_decide (is_Some (inheritedMember ref))))
    (columnTargets (columns entity)).

Definition buildGraph (entities : list Entity) : gmap string (list string) :=
  let nameToEntity := buildNameToEntity entities in
  fold_left (fun g e => <[name e := references nameToEntity e]> g) entities ∅.

(** [graph[entityName] || []]: the reference list of the entity of that name,
    an inherited member, or the empty list. *)
Definition parentsOf (graph : gmap string (list string)) (entityName : string)
    : list string + inherited :=
  match graph !! entityName with
  | Some refs => inl refs
  | None =>
    match inheritedMember entityName with
    | Some m => inr m
    | None => inl []
    end
  end.

(** [parents.map(p => dfs(p, new Set(seen)))]: the calls are made from left
    to right and share the memo table; an exception ends them. *)
Fixpoint eachParent (call : string -> gmap string nat -> option (result (nat * gmap string nat)))
    (ps : list string) (visited : gmap string nat)
    : option (result (list nat * gmap string nat)) :=
  match ps with
  | [] => Some (Ok ([], visited))
  | p :: ps =>
    match call p visited with
    | Some (Ok (d, visited)) =>
      match eachParent call ps visited with
      | Some (Ok (ds, visited)) => Some (Ok (d :: ds, visited))
      | Some Throw => Some Throw
      | None => None
      end
    | Some Throw => Some Throw
    | None => None
    end
  end.

Section Dfs.
Variable graph : gmap string (list string).

(** [dfs(entityName, seen)] with the memo table passed in and out.  [None]
    stands for a search deeper than [fuel], [Some Throw] for the TypeError
    of [parents.map] when [parents] is an inherited method with a [length]
    above zero; an inherited member with no such [length] counts as no
    parents. *)
Fixpoint dfs (fuel : nat) (entityName : string) (seen : gset string)
    (visited : gmap string nat) {struct fuel} : option (result (nat * gmap string nat)) :=
  match fuel with
  | O => None
  | S fuel =>
    match visited !! entityName with
    | Some d => Some (Ok (d, visited))
    | None =>
      if bool_decide (entityName ∈ seen) then Some (Ok (0%nat, visited))
      else
        let seen := {[entityName]} ∪ seen in
        match parentsOf graph entityName with
        | inl parents =>
          match eachParent (fun p v => dfs fuel p seen v) parents visited with
          | Some (Ok (depths, visited)) =>
            let maxDepth := if (0 <? length parents)%nat then max_list depths else 0%nat in
            let depth := (maxDepth + 1)%nat in
            Some (Ok (depth, <[entityName := depth]> visited))
          | Some Throw => Some Throw
          | None => None
          end
        | inr (Method (S _)) => Some Throw
        | inr _ =>
          let depth := 1%nat in
          Some (Ok (depth, <[entityName := depth]> visited))
        end
    end
  end.

(** The loop [for (const entity of entities) entity.depth = dfs(entity.name)]. *)
Fixpoint assignDepths (fuel : nat) (entities : list Entity) (visited : gmap string nat)
    : option (result (list Entity)) :=
  match entities with
  | [] => Some (Ok [])
  | entity :: entities =>
    match dfs fuel (name entity) ∅ visited with
    | Some (Ok (d, visited)) =>
      match assignDepths fuel entities visited with
      | Some (Ok out) => Some (Ok (setDepth d entity :: out))
      | Some Throw => Some Throw
      | None => None
      end
    | Some Throw => Some Throw
    | None => None
    end
  end.

End Dfs.

Definition depthOr0 (e : Entity) : nat := default 0%nat (depth e).

Definition calculateEntityDepth (entities : list Entity) (reverse : bool)
    : option (result (list Entity)) :=
  let graph := buildGraph entities in
  match assignDepths graph (S (length entities)) entities ∅ with
  | Some (Ok out) =>
    if reverse then
      let maxDepth := max_list (List.map depthOr0 out) in
      Some (Ok (List.map (fun e => setDepth (maxDepth - depthOr0 e) e) out))
    else Some (Ok out)
  | Some Throw => Some Throw
  | None => None
  end.

(** [toMySqlType]: the ordered list of patterns and MySQL types. *)
Definition typeMap : list (Regex.regex * string) :=
  [ (Regex.lits "NVARCHAR", "VARCHAR");
    (Regex.lits "INT", "BIGINT");
    (Regex.Group 1 (Regex.alts [Regex.lits "CHAR"; Regex.lits "CLOB"; Regex.lits "TEXT"]), "TEXT");
    (Regex.lits "BLOB", "BLOB");
    (Regex.Group 1 (Regex.alts [Regex.lits "REAL"; Regex.lits "FLOA"; Regex.lits "DOUB"]), "DOUBLE");
    (Regex.Group 1 (Regex.alts [Regex.lits "NUMERIC"; Regex.lits "DECIMAL"]), "DECIMAL");
    (Regex.lits "BOOLEAN", "TINYINT");
    (Regex.lits "TIMESTAMP", "TIMESTAMP");
    (Regex.Group 1 (Regex.alts [Regex.lits "DATE"; Regex.lits "TIME"]), "DATETIME") ].

Fixpoint firstMatch (type : string) (m : list (Regex.regex * string)) : option string :=
  match m with
  | [] => None
  | (pattern, mysqlType) :: m =>
    if Regex.test Regex.noFlags pattern type then Some mysqlType else firstMatch type m
  end.

Definition toMySqlType (sqliteType : string) : string :=
  if String.eqb sqliteType "" then "TEXT"
  else
    let type := Str.toUpperCase (Str.trim sqliteType) in
    match firstMatch type typeMap with
    | Some mysqlType => mysqlType
    | None => sqliteType
    end.

(** [looksLikeSQLite]: [buffer] is a byte array, and an index past its end
    reads as [undefined], which equals no byte. *)
Definition sqliteHeader : list Byte.byte :=
  [ Byte.x53; Byte.x51; Byte.x4c; Byte.x69; Byte.x74; Byte.x65; Byte.x20; Byte.x66;
    Byte.x6f; Byte.x72; Byte.x6d; Byte.x61; Byte.x74; Byte.x20; Byte.x33; Byte.x00 ].

(** [header.every((byte, i) => buffer[i] === byte)], from index [i] on. *)
Fixpoint everyFrom (header buffer : list Byte.byte) (i : nat) : bool :=
  match header with
  | [] => true
  | byte :: header =>
    match buffer !! i with
    | Some b => Byte.eqb b byte
    | None => false
    end && everyFrom header buffer (S i)
  end.

Definition looksLikeSQLite (buffer : list Byte.byte) : bool :=
  everyFrom sqliteHeader buffer 0.

(** [getColumnSize]: [null] is [None]. *)
Definition rx_size : Regex.regex :=
  Regex.seqs [Regex.Lit "("; Regex.Group 1 (Regex.plus Regex.dg); Regex.Lit ")"].

Definition getColumnSize (sqliteType : string) : option Num.jsnum :=
  if String.eqb sqliteType "" then None
  else if Str.includes (Str.toUpperCase sqliteType) "BOOL" then Some (Num.ofN 1)
  else
    match Regex.exec Regex.noFlags rx_size sqliteType with
    | Some m =>
      match Regex.group m 1 with
      | Some digits => if String.eqb digits "" then None else Some (Num.parseInt digits)
      | None => None
      end
    | None => None
    end.

(** [toValidTableName]: a dot and what follows it up to the end when that
    holds neither a slash nor a dot; every run of characters other than
    letters and digits; underscores at the start or at the end. *)
Definition rx_extension : Regex.regex :=
  Regex.seqs [Regex.Lit "."; Regex.plus (Regex.Class true [Regex.CChar "/"; Regex.CChar "."]);
              Regex.Eol].

Definition rx_not_alnum : Regex.regex :=
  Regex.plus (Regex.Class true
    [Regex.CRange "a" "z"; Regex.CRange "A" "Z"; Regex.CRange "0" "9"]).

Definition rx_edge_underscores : Regex.regex :=
  Regex.Alt (Regex.Seq Regex.Bol (Regex.plus (Regex.Lit "_")))
            (Regex.Seq (Regex.plus (Regex.Lit "_")) Regex.Eol).

Definition toValidTableName (str : string) : string :=
  let s := Regex.replaceOne Regex.noFlags rx_extension (fun _ => "") str in
  let s := Regex.replaceAll Regex.noFlags rx_not_alnum (fun _ => "_") s in
  let s := Str.toLowerCase s in
  Regex.replaceAll Regex.noFlags rx_edge_underscores (fun _ => "") s.

(** [sortEntitiesByDepth]: [[...entities].sort((a, b) => a.depth - b.depth)]
    puts the entities in ascending order of depth and, the sort being stable,
    leaves entities of equal depth in the order they had.  With [reverse]
    the loop before it first overwrites the depth of every entity, and the
    caller's entities are those same objects: the result holds the entities
    as the caller sees them afterwards, and the sorted copy.  When an entity
    has no depth the comparator yields [NaN] and the order is left to the
    engine; this is [None]. *)
Fixpoint insertByDepth (e : Entity) (l : list Entity) : list Entity :=
  match l with
  | [] => [e]
  | x :: l' =>
    if (depthOr0 e <=? depthOr0 x)%nat then e :: l else x :: insertByDepth e l'
  end.

Definition sortByDepth (l : list Entity) : list Entity := foldr insertByDepth [] l.

Definition sortEntitiesByDepth (entities : list Entity) (reverse : bool)
    : option (list Entity * list Entity) :=
  if forallb (fun e => bool_decide (is_Some (depth e))) entities then
    let entities :=
      if reverse then
        let maxDepth := max_list (List.map depthOr0 entities) in
        List.map (fun e => setDepth (maxDepth - depthOr0 e) e) entities
      else entities in
    Some (entities, sortByDepth entities)
  else None.

End SQLParser.

(** ** GraphQLSpringGenerator.js: the type mapping of the dialect converter

    A column type is the parser's [Type] string, its length the parser's
    [Length] string (empty, a run of digits, or a quoted list), and
    [enumValues] the parser's [EnumValues], an array or [null].  A call that
    raises a TypeError yields [Throw]. *)

Module SQLConverter.
Import JS.

(** The mapping objects, in the order their keys were inserted, which is the
    order [for (let i in ...)] visits them in. *)
Definition dbToSqlite : list (string * string) :=
  [ ("int", "INTEGER"); ("bit", "BOOLEAN"); ("tinyint(1)", "BOOLEAN");
    ("tinyint", "INTEGER"); ("smallint", "INTEGER"); ("mediumint", "INTEGER");
    ("bigint", "INTEGER"); ("real", "REAL"); ("float", "REAL"); ("double", "REAL");
    ("decimal", "REAL"); ("nvarchar", "NVARCHAR"); ("varchar", "NVARCHAR");
    ("character varying", "NVARCHAR"); ("char", "NVARCHAR"); ("tinytext", "TEXT");
    ("mediumtext", "TEXT"); ("longtext", "TEXT"); ("text", "TEXT");
    ("datetime2", "TIMESTAMP"); ("datetime", "DATETIME"); ("timestamp", "TIMESTAMP");
    ("date", "DATE"); ("time", "TIME"); ("year", "INTEGER"); ("boolean", "INTEGER");
    ("json", "TEXT"); ("jsonb", "TEXT"); ("integer", "INTEGER"); ("serial", "INTEGER");
    ("bigserial", "INTEGER"); ("double precision", "REAL"); ("timestamptz", "TIMESTAMP") ].

Definition dbToMySQL : list (string * string) :=
  [ ("bigint", "BIGINT"); ("bigserial", "BIGINT"); ("serial", "BIGINT");
    ("mediumint", "MEDIUMINT"); ("smallint", "SMALLINT"); ("integer", "INT");
    ("double", "DOUBLE"); ("float", "FLOAT"); ("real", "DOUBLE"); ("decimal", "DECIMAL");
    ("numeric", "NUMERIC"); ("tinytext", "TINYTEXT"); ("mediumtext", "MEDIUMTEXT");
    ("longtext", "LONGTEXT"); ("text", "TEXT"); ("nvarchar", "VARCHAR");
    ("varchar", "VARCHAR"); ("character varying", "VARCHAR");
    ("tinyint(1)", "TINYINT(1)"); ("tinyint", "TINYINT"); ("boolean", "TINYINT(1)");
    ("bit", "TINYINT(1)"); ("int", "INT"); ("datetime2", "TIMESTAMP");
    ("datetime", "DATETIME"); ("date", "DATE"); ("timestamptz", "TIMESTAMP");
    ("timestamp with time zone", "TIMESTAMP");
    ("timestamp without time zone", "DATETIME"); ("timestamp", "TIMESTAMPTZ");
    ("json", "JSON"); ("enum", "ENUM"); ("set", "SET"); ("char", "CHAR") ].

Definition dbToPostgreSQL : list (string * string) :=
  [ ("bigint", "BIGINT"); ("mediumint", "INTEGER"); ("smallint", "INTEGER");
    ("tinyint(1)", "BOOLEAN"); ("tinyint", "INTEGER"); ("integer", "INTEGER");
    ("int", "INTEGER"); ("real", "REAL"); ("longtext", "TEXT"); ("mediumtext", "TEXT");
    ("smalltext", "TEXT"); ("tinytext", "TEXT"); ("text", "TEXT");
    ("character varying", "CHARACTER VARYING"); ("nvarchar", "CHARACTER VARYING");
    ("varchar", "CHARACTER VARYING"); ("char", "CHARACTER"); ("boolean", "BOOLEAN");
    ("bit", "BOOLEAN"); ("datetime2", "TIMESTAMP WITH TIME ZONE");
    ("datetime", "TIMESTAMP WITHOUT TIME ZONE"); ("date", "DATE");
    ("timestamptz", "TIMESTAMP WITH TIME ZONE"); ("timestamp", "TIMESTAMP WITH TIME ZONE");
    ("time", "TIME"); ("json", "JSONB") ].

(** The loop over a mapping object: the value of the first key that
    [type.toLowerCase()] starts with, the initial [TEXT] when there is none. *)
Fixpoint lookupPrefix (table : list (string * string)) (type : string) : option string :=
  match table with
  | [] => None
  | (key, v) :: table =>
    if startsWith (Str.toLowerCase type) (Str.toLowerCase key) then Some v
    else lookupPrefix table type
  end.

Definition mapped (table : list (string * string)) (type : string) : string :=
  match lookupPrefix table type with Some v => v | None => "TEXT" end.

(** [length == 1] and [length > 0] for a string [length]. *)
Definition looseEqOne (length : string) : bool := Num.eqOne (Num.toNumber length).
Definition greaterThanZero (length : string) : bool := Num.gtZero (Num.toNumber length).

Definition isTinyInt1 (type length : string) : bool :=
  (String.eqb (Str.toUpperCase type) "TINYINT" && looseEqOne length)
  || String.eqb (Str.toUpperCase type) "BIT"
  || String.eqb (Str.toUpperCase type) "BOOLEAN".

Definition isInteger (type : string) : bool :=
  String.eqb (Str.toUpperCase type) "TINYINT"
  || String.eqb (Str.toUpperCase type) "SMALLINT"
  || String.eqb (Str.toUpperCase type) "MEDIUMINT"
  || String.eqb (Str.toUpperCase type) "BIGINT"
  || String.eqb (Str.toUpperCase type) "INTEGER"
  || String.eqb (Str.toUpperCase type) "INT".

Definition isBoolean (columnType : string) : bool :=
  String.eqb (Str.toUpperCase columnType) "BOOLEAN"
  || String.eqb (Str.toUpperCase columnType) "BOOL"
  || String.eqb (Str.toUpperCase columnType) "TINYINT(1)".

(** [type.toUpperCase().indexOf(word) != -1]. *)
Definition mentions (type word : string) : bool := Str.includes (Str.toUpperCase type) word.

(** [replaceAll(str, search, replacement)] for a [search] without pattern
    characters: every occurrence, whatever its case. *)
Definition replaceAll (str search replacement : string) : string :=
  Regex.replaceAll Regex.flagI (Regex.lits search) (fun _ => replacement) str.

(** The number [n] in decimal. *)
Fixpoint digitsOf (fuel n : nat) (acc : string) : string :=
  match fuel with
  | O => acc
  | S fuel =>
    let acc := String (chr (48 + n mod 10)) acc in
    if (n <? 10)%nat then acc else digitsOf fuel (n / 10) acc
  end.

Definition natToString (n : nat) : string := digitsOf (S n) n "".

(** [parseEnumValue(inputString).maxLength]: the longest text between single
    quotes. *)
Definition rx_quoted : Regex.regex :=
  Regex.seqs [Regex.Lit SQ; Regex.Group 1 (Regex.plus (Regex.Class true [Regex.CChar SQ]));
              Regex.Lit SQ].

Fixpoint execAll (fuel : nat) (fl : Regex.flags) (r : Regex.regex) (s : string) (from : nat)
    : list Regex.mres :=
  match fuel with
  | O => []
  | S fuel =>
    match Regex.execFrom fl r s from with
    | None => []
    | Some m =>
      m :: execAll fuel fl r s
             (if Nat.eqb (String.length (Regex.matched m)) 0
              then S (Regex.index m) else Regex.endIndex m)
    end
  end.

Definition group1s (r : Regex.regex) (s : string) : list string :=
  List.map (fun m => default "" (Regex.group m 1))
    (execAll (S (String.length s)) Regex.noFlags r s 0).

Definition parseEnumValue_maxLength (inputString : string) : nat :=
  fold_left (fun max current => if (max <? String.length current)%nat
                                then String.length current else max)
    (group1s rx_quoted inputString) 0%nat.

(** [parseNumericType(inputString).resultArray]: the runs of letters, digits
    and underscores. *)
Definition rx_token : Regex.regex :=
  Regex.Group 1 (Regex.plus (Regex.Class false
    [Regex.CRange "A" "Z"; Regex.CRange "a" "z"; Regex.CRange "0" "9"; Regex.CChar "_"])).

Definition parseNumericType_resultArray (inputString : string) : list string :=
  group1s rx_token inputString.

Definition joinQuoted (enumValues : list string) : string :=
  "'" +:+ Str.join enumValues "','" +:+ "'".

Definition toSqliteType (type length : string) : string :=
  if isTinyInt1 type length then "BOOLEAN"
  else
    let sqliteType := mapped dbToSqlite type in
    if mentions type "ENUM" || mentions type "SET" then
      "NVARCHAR(" +:+ natToString (parseEnumValue_maxLength length + 2) +:+ ")"
    else if (String.eqb sqliteType "NVARCHAR" || String.eqb sqliteType "INT")
            && greaterThanZero length then
      sqliteType +:+ "(" +:+ length +:+ ")"
    else sqliteType.

Definition toMySQLType (type length : string) (enumValues : option (list string))
    : result string :=
  if isTinyInt1 type length then Ok "TINYINT(1)"
  else if isInteger type && greaterThanZero length then Ok (type +:+ "(" +:+ length +:+ ")")
  else
    let mysqlType := mapped dbToMySQL type in
    let mysqlType := replaceAll mysqlType "TIMESTAMPTZ" "TIMESTAMP" in
    let withLength (mysqlType : string) : string :=
      if (String.eqb mysqlType "VARCHAR" || String.eqb mysqlType "CHAR")
         && greaterThanZero length
      then mysqlType +:+ "(" +:+ length +:+ ")" else mysqlType in
    if mentions type "ENUM" then
      match enumValues with
      | Some vs => Ok (withLength ("ENUM(" +:+ joinQuoted vs +:+ ")"))
      | None => Throw
      end
    else if mentions type "SET" then
      match enumValues with
      | Some vs => Ok (withLength ("SET(" +:+ joinQuoted vs +:+ ")"))
      | None => Throw
      end
    else if mentions type "DECIMAL" then
      Ok (withLength ("DECIMAL(" +:+ Str.join (parseNumericType_resultArray length) "," +:+ ")"))
    else if mentions type "NUMERIC" then
      Ok (withLength ("NUMERIC(" +:+ Str.join (parseNumericType_resultArray length) "," +:+ ")"))
    else Ok (withLength mysqlType).

Definition toPostgreSQLType (type length : string) : string :=
  let pgType := mapped dbToPostgreSQL type in
  if mentions type "TINYINT" && looseEqOne length then "BOOLEAN"
  else if mentions type "ENUM" || mentions type "SET" then
    "CHARACTER VARYING(" +:+ natToString (parseEnumValue_maxLength length + 2) +:+ ")"
  else if (String.eqb pgType "CHARACTER VARYING" || String.eqb pgType "CHARACTER"
           || String.eqb pgType "CHAR") && greaterThanZero length then
    pgType +:+ "(" +:+ length +:+ ")"
  else pgType.

(** The target dialects. *)
Definition isMySQL (targetType : string) : bool :=
  String.eqb targetType "mysql" || String.eqb targetType "mariadb".

Definition isPGSQL (targetType : string) : bool :=
  String.eqb targetType "pgsql" || String.eqb targetType "postgresql".

Definition isSQLite (targetType : string) : bool := String.eqb targetType "sqlite".

(** [addslashes]: every single quote is doubled. *)
Definition addslashes (str : string) : string :=
  Regex.replaceAll Regex.noFlags (Regex.Lit SQ) (fun _ => String SQ (String SQ "")) str.

(** [input.split('.')[1]]; the test before it makes sure there is a second
    piece. *)
Definition secondPiece (input : string) : string := nth 1 (Str.split input ".") "".

(** [extractTableName] *)
Definition rx_not_word : Regex.regex :=
  Regex.Class true
    [Regex.CRange "a" "z"; Regex.CRange "A" "Z"; Regex.CRange "0" "9"; Regex.CChar "_"].

Definition extractTableName (input : string) : string :=
  let input := if Str.includes input "." then secondPiece input else input in
  Regex.replaceAll Regex.noFlags rx_not_word (fun _ => "") input.

(** [fixTableName] and [fixColumnName] *)
Definition fixTableName (tableName targetType : string) : string :=
  let tableName := if Str.includes tableName "." then secondPiece tableName else tableName in
  if isMySQL targetType then "`" +:+ tableName +:+ "`"
  else if isPGSQL targetType then String DQ tableName +:+ String DQ ""
  else tableName.

Definition fixColumnName (columnName targetType : string) : string :=
  if isMySQL targetType then "`" +:+ columnName +:+ "`" else columnName.

(** [extractDropTableQueries]: the [table] of each object of the result.
    Backquotes are removed first; a name is what follows
    [DROP TABLE IF EXISTS] and a space, up to the next white space. *)
Definition rx_drop_table : Regex.regex :=
  Regex.Seq (Regex.lits "DROP TABLE IF EXISTS ")
            (Regex.Group 1 (Regex.plus (Regex.Class true [Regex.CSpace]))).

Definition extractDropTableQueries (sql targetType : string) : list string :=
  let sqlWithoutBackticks := Regex.replaceAll Regex.noFlags (Regex.Lit "`") (fun _ => "") sql in
  List.map
    (fun m =>
       let tableName := extractTableName (default "" (Regex.group m 1)) in
       if isPGSQL targetType then String DQ tableName +:+ String DQ ""
       else if isMySQL targetType then "`" +:+ tableName +:+ "`"
       else tableName)
    (execAll (S (String.length sqlWithoutBackticks)) Regex.flagI rx_drop_table
       sqlWithoutBackticks 0).

End SQLConverter.

(** ** StringUtil.js: naming conventions

    [camelize] and [snakeize] map the case of a text only after they have
    removed from it every character that is not an ASCII letter, a digit or
    a space. *)

Module StringUtil.
Import JS.

(** [/[^a-zA-Z0-9 ]/] *)
Definition rx_not_alnum_space : Regex.regex :=
  Regex.Class true
    [Regex.CRange "a" "z"; Regex.CRange "A" "Z"; Regex.CRange "0" "9"; Regex.CChar " "].

(** [.map((word, index) => ...)]: every word but the first gets
    [word.charAt(0).toUpperCase() + word.slice(1)]. *)
Fixpoint mapWords (words : list string) (index : nat) : list string :=
  match words with
  | [] => []
  | word :: words =>
    (if Nat.eqb index 0 then word
     else Str.toUpperCase (String.substring 0 1 word) +:+ substringFrom word 1)
    :: mapWords words (S index)
  end.

Definition camelize (str : string) : string :=
  let normalized :=
    Str.toLowerCase (Regex.replaceAll Regex.noFlags rx_not_alnum_space (fun _ => " ") str) in
  Str.join (mapWords (Str.split normalized " ") 0) "".

(** [/([A-Z])/] and [/^./] *)
Definition rx_upper : Regex.regex :=
  Regex.Group 1 (Regex.Class false [Regex.CRange "A" "Z"]).
Definition rx_first : Regex.regex := Regex.Seq Regex.Bol Regex.Dot.

Definition upperCamel (camelCaseStr : string) : string :=
  let s := Regex.replaceAll Regex.noFlags rx_upper
             (fun m => default "" (Regex.group m 1)) camelCaseStr in
  Regex.replaceOne Regex.noFlags rx_first (fun m => Str.toUpperCase (Regex.matched m)) s.

(** The patterns of [snakeize], in the order it applies them. *)
Definition rx_separators : Regex.regex :=
  Regex.plus (Regex.Class false [Regex.CChar "_"; Regex.CChar "-"]).
Definition rx_hump : Regex.regex :=
  Regex.Seq (Regex.Group 1 (Regex.Class false [Regex.CRange "a" "z"]))
            (Regex.Group 2 (Regex.Class false [Regex.CRange "A" "Z"])).
Definition rx_other : Regex.regex := Regex.plus rx_not_alnum_space.
Definition rx_word_start : Regex.regex := Regex.Seq Regex.WordB Regex.wd.
Definition rx_blanks : Regex.regex := Regex.plus Regex.ws.
Definition rx_edge_underscores : Regex.regex :=
  Regex.Alt (Regex.Seq Regex.Bol (Regex.plus (Regex.Lit "_")))
            (Regex.Seq (Regex.plus (Regex.Lit "_")) Regex.Eol).
Definition rx_underscores : Regex.regex :=
  Regex.Seq (Regex.Lit "_") (Regex.plus (Regex.Lit "_")).

Definition snakeize (header : string) : string :=
  let s := Regex.replaceAll Regex.noFlags rx_separators (fun _ => " ") header in
  let s := Regex.replaceAll Regex.noFlags rx_hump
             (fun m => default "" (Regex.group m 1) +:+ " " +:+ default "" (Regex.group m 2))
             s in
  let s := Regex.replaceAll Regex.noFlags rx_other (fun _ => "") s in
  let s := Str.toLowerCase s in
  let ucwords :=
    Regex.replaceAll Regex.noFlags rx_word_start (fun m => Str.toUpperCase (Regex.matched m)) s in
  let name := Regex.replaceAll Regex.noFlags rx_blanks (fun _ => "_") ucwords in
  let name := Str.toLowerCase name in
  let name := Regex.replaceAll Regex.noFlags rx_edge_underscores (fun _ => "") name in
  Regex.replaceAll Regex.noFlags rx_underscores (fun _ => "_") name.

End StringUtil.

(** ** The shape of a VALUES section

    The lexical items the row scanner distinguishes: an ordinary character, a
    backslash followed by any character, a single- or double-quoted literal,
    and the two parentheses.  Inside a literal an item is an ordinary
    character, a backslash escape or the doubled quote. *)

Module ValuesGrammar.
Import JS.

Inductive qitem : Type :=
| QChar (c : ascii)
| QEsc (c : ascii)
| QQuote.

Inductive token : Type :=
| TChar (c : ascii)
| TEsc (c : ascii)
| TSingle (body : list qitem)
| TDouble (body : list qitem)
| TOpen
| TClose.

(** An ordinary character of a literal delimited by [q] is neither [q] nor a
    backslash; an ordinary character outside literals is none of the five
    characters the scanner reacts to. *)
Definition qitem_ok (q : ascii) (i : qitem) : bool :=
  match i with
  | QChar c => negb (ceqb c q) && negb (ceqb c BSLASH)
  | QEsc _ | QQuote => true
  end.

Definition plain (c : ascii) : bool :=
  negb (ceqb c BSLASH) && negb (ceqb c SQ) && negb (ceqb c DQ)
  && negb (ceqb c LPAREN) && negb (ceqb c RPAREN).

Definition token_ok (t : token) : bool :=
  match t with
  | TChar c => plain c
  | TSingle body => forallb (qitem_ok SQ) body
  | TDouble body => forallb (qitem_ok DQ) body
  | TEsc _ | TOpen | TClose => true
  end.

Definition is_paren (t : token) : bool :=
  match t with TOpen | TClose => true | _ => false end.

Definition render_qitem (q : ascii) (i : qitem) : string :=
  match i with
  | QChar c => String c ""
  | QEsc c => String BSLASH (String c "")
  | QQuote => String q (String q "")
  end.

Fixpoint render_qbody (q : ascii) (body : list qitem) : string :=
  match body with
  | [] => ""
  | i :: body => render_qitem q i +:+ render_qbody q body
  end.

Definition render_token (t : token) : string :=
  match t with
  | TChar c => String c ""
  | TEsc c => String BSLASH (String c "")
  | TSingle body => String SQ (render_qbody SQ body +:+ String SQ "")
  | TDouble body => String DQ (render_qbody DQ body +:+ String DQ "")
  | TOpen => String LPAREN ""
  | TClose => String RPAREN ""
  end.

Fixpoint render (ts : list token) : string :=
  match ts with
  | [] => ""
  | t :: ts => render_token t +:+ render ts
  end.

(** [balanced k ts]: read with [k] parentheses already open, [ts] never
    closes more than it has opened and leaves none open. *)
Fixpoint balanced (k : nat) (ts : list token) : bool :=
  match ts with
  | [] => Nat.eqb k 0
  | TOpen :: ts => balanced (S k) ts
  | TClose :: ts => match k with O => false | S k => balanced k ts end
  | _ :: ts => balanced k ts
  end.

(** A top-level group [( body )] together with the text that precedes it. *)
Record group : Type := { lead : list token; body : list token }.

Definition group_ok (g : group) : bool :=
  forallb token_ok (lead g) && forallb (fun t => negb (is_paren t)) (lead g)
  && forallb token_ok (body g) && balanced 0 (body g).

Definition trail_ok (ts : list token) : bool :=
  forallb token_ok ts && forallb (fun t => negb (is_paren t)) ts.

Definition render_group (g : group) : string :=
  render (lead g) +:+ String LPAREN (render (body g) +:+ String RPAREN "").

Fixpoint render_values (gs : list group) (trail : list token) : string :=
  match gs with
  | [] => render trail
  | g :: gs => render_group g +:+ render_values gs trail
  end.

(** The scanner without its one-character lookahead: a quote always toggles
    its flag.  [scanRows_no_lookahead] shows it computes the same rows. *)
Fixpoint scanToggle (s : string) (rows : list string) (buffer : string)
    (inSingle inDouble escape : bool) (depth : Z) {struct s} : list string :=
  match s with
  | EmptyString => rows
  | String char rest =>
    if escape then
      scanToggle rest rows (push buffer char) inSingle inDouble false depth
    else if ceqb char BSLASH then
      scanToggle rest rows (push buffer char) inSingle inDouble true depth
    else if ceqb char SQ && negb inDouble then
      scanToggle rest rows (push buffer char) (negb inSingle) inDouble escape depth
    else if ceqb char DQ && negb inSingle then
      scanToggle rest rows (push buffer char) inSingle (negb inDouble) escape depth
    else if ceqb char LPAREN && negb inSingle && negb inDouble then
      let buffer := if depth =? 0 then ""%string else buffer in
      scanToggle rest rows (push buffer char) inSingle inDouble escape (depth + 1)
    else if ceqb char RPAREN && negb inSingle && negb inDouble then
      let buffer := push buffer char in
      let depth := depth - 1 in
      if depth =? 0 then
        let row :=
          if startsWith buffer "(" && endsWith buffer ")"
          then substring buffer 1 (len buffer - 1)
          else buffer in
        scanToggle rest (rows ++ [row]) "" inSingle inDouble escape depth
      else
        scanToggle rest rows buffer inSingle inDouble escape depth
    else
      scanToggle rest rows (push buffer char) inSingle inDouble escape depth
  end.

End ValuesGrammar.

(** ** Notions used in the statements *)

(** A line of a script: a string without carriage return and line feed. *)
Fixpoint allChars (p : ascii -> bool) (s : string) : bool :=
  match s with
  | EmptyString => true
  | String c s => p c && allChars p s
  end.

Definition isLine (l : string) : bool :=
  allChars (fun c => negb (JS.ceqb c JS.LF) && negb (JS.ceqb c JS.CR)) l.

Definition sample_script : list string :=
  ["-- schema"; "SELECT 1,"; "   "; "  -- the second column"; "2;"; "--"; ""; "SELECT 3;"].

(** A VALUES section with two groups: literals with commas, parentheses,
    escapes and doubled quotes, a nested group, text between the groups. *)
Definition sample_groups : list ValuesGrammar.group :=
  [ {| ValuesGrammar.lead := [];
       ValuesGrammar.body :=
         [ ValuesGrammar.TChar "1"; ValuesGrammar.TChar ","; ValuesGrammar.TChar " ";
           ValuesGrammar.TSingle
             [ ValuesGrammar.QChar "a"; ValuesGrammar.QChar ","; ValuesGrammar.QChar "(";
               ValuesGrammar.QQuote; ValuesGrammar.QChar ")"; ValuesGrammar.QEsc "'";
               ValuesGrammar.QChar JS.DQ ];
           ValuesGrammar.TChar ","; ValuesGrammar.TChar "f"; ValuesGrammar.TOpen;
           ValuesGrammar.TChar "2"; ValuesGrammar.TClose ] |};
    {| ValuesGrammar.lead := [ValuesGrammar.TChar ","; ValuesGrammar.TChar " "];
       ValuesGrammar.body :=
         [ ValuesGrammar.TDouble
             [ValuesGrammar.QChar ")"; ValuesGrammar.QQuote; ValuesGrammar.QChar "'"];
           ValuesGrammar.TChar ","; ValuesGrammar.TEsc "(" ] |} ].

(** Every name a graph entry lists is itself a key of the graph. *)
Definition closed (g : gmap string (list string)) : Prop :=
  forall k refs r, g !! k = Some refs -> r ∈ refs -> is_Some (g !! r).

(** The maps [calculateEntityDepth] builds with one insertion per entity. *)
Definition insertAll {V : Type} (f : SQLParser.Entity -> V) (es : list SQLParser.Entity)
    (m : gmap string V) : gmap string V :=
  fold_left (fun m e => <[SQLParser.name e := f e]> m) es m.

Definition depthIn (v : gmap string nat) (r : string) : nat := default 0%nat (v !! r).

(** Every memoised depth is one more than the largest memoised depth of the
    entity's references, all of which are memoised too. *)
Definition consistent (g : gmap string (list string)) (v : gmap string nat) : Prop :=
  forall k d, v !! k = Some d ->
    exists refs, g !! k = Some refs
      /\ (forall r, r ∈ refs -> is_Some (v !! r))
      /\ d = S (max_list (List.map (depthIn v) refs)).

(** What one call of [dfs] on [x] guarantees, [seen] holding only names that
    [x] cannot reach. *)
Definition dfs_post (g : gmap string (list string)) (rank : string -> nat)
    (x : string) (v : gmap string nat) (d : nat) (v' : gmap string nat) : Prop :=
  consistent g v' /\ v ⊆ v' /\ v' !! x = Some d
  /\ (forall k, v !! k = None -> is_Some (v' !! k) -> (rank k <= rank x)%nat).

(** The references of an entity within an entity list, as [graph] holds them. *)
Definition refsOf (entities : list SQLParser.Entity) (e : SQLParser.Entity) : list string :=
  SQLParser.references (SQLParser.buildNameToEntity entities) e.

(** [o] is the entity [e] with depth [d]. *)
Definition withDepth (e : SQLParser.Entity) (d : nat) (o : SQLParser.Entity) : Prop :=
  SQLParser.name o = SQLParser.name e
  /\ SQLParser.columns o = SQLParser.columns e
  /\ SQLParser.depth o = Some d.

(** The depth rule as the specification states it: the calculation returns
    the entities with the depths given by a function [D] of the entity name
    with [D e = 1 + max (D r) over the references r of e], which is 1 when
    [e] has no references. *)
Definition depth_recurrence (entities : list SQLParser.Entity) : Prop :=
  exists (D : string -> nat) (out : list SQLParser.Entity),
    SQLParser.calculateEntityDepth entities false = Some (JS.Ok out)
    /\ Forall2 (fun e o => withDepth e (D (SQLParser.name e)) o) entities out
    /\ forall e, e ∈ entities ->
         D (SQLParser.name e) = S (max_list (List.map D (refsOf entities e))).

(** No column points at a member of [Object.prototype]: a column target
    that is the name of such a member is the name of an entity. *)
Definition plainTargets (entities : list SQLParser.Entity) : bool :=
  forallb (fun e =>
    forallb (fun r => match JS.inheritedMember r with
                      | Some _ => existsb (String.eqb r) (List.map SQLParser.name entities)
                      | None => true
                      end)
      (SQLParser.columnTargets (SQLParser.columns e))) entities.

(** Every reference has a smaller rank than the entity that holds it. *)
Definition respectsRank (rank : string -> nat) (entities : list SQLParser.Entity) : bool :=
  forallb (fun e => forallb (fun r => (rank r <? rank (SQLParser.name e))%nat)
                      (refsOf entities e)) entities.

Definition entity (n : string) (cols : list string) : SQLParser.Entity :=
  {| SQLParser.name := n;
     SQLParser.columns := List.map (fun c => {| SQLParser.col_name := c |}) cols;
     SQLParser.depth := None |}.

(** [b] and [c] reference [a], [d] references [b] and [c]. *)
Definition diamond : list SQLParser.Entity :=
  [ entity "a" ["id"; "title"];
    entity "b" ["id"; "a_id"];
    entity "c" ["id"; "a_id"; "note"];
    entity "d" ["id"; "b_id"; "c_id"] ].

Definition diamond_rank (n : string) : nat :=
  if String.eqb n "a" then 0%nat else if String.eqb n "d" then 2%nat else 1%nat.

(** [a] and [b] reference each other. *)
Definition cycle2 : list SQLParser.Entity :=
  [ entity "a" ["id"; "b_id"]; entity "b" ["id"; "a_id"] ].

(** Two entities of the same name, the first of which references [b]. *)
Definition same_name : list SQLParser.Entity :=
  [ entity "a" ["id"; "b_id"]; entity "a" ["id"]; entity "b" ["id"] ].

(** The pass-through of the specification, for the MySQL converter. *)
Definition passes_through (type length : string) : Prop :=
  SQLConverter.toMySQLType type length None = JS.Ok type.

(** What the claims look at in the parsed tables: the name of each table
    and, per column, its name and its key, nullable and auto-increment
    flags. *)
Definition keyFlags (r : JS.result (list TableParser.TableInfo))
    : option (list (string * list (string * bool * bool * bool))) :=
  match r with
  | JS.Ok tables =>
    Some (List.map (fun info =>
            (TableParser.tbl_tableName info,
             List.map (fun c => (TableParser.Field c, TableParser.Key c,
                                 TableParser.Nullable c, TableParser.AutoIncrement c))
               (TableParser.tbl_columns info))) tables)
  | JS.Throw => None
  end.

Definition auto_increment_script : string :=
  Str.join
    [ "-- one key column";
      "CREATE TABLE customers(id INTEGER PRIMARY KEY AUTOINCREMENT, name TEXT NOT NULL);";
      "-- two columns with a primary-key marker";
      "CREATE TABLE members (id INTEGER PRIMARY KEY AUTOINCREMENT, tenant_id INTEGER PRIMARY KEY);";
      "-- a composite key";
      "CREATE TABLE items (order_id INTEGER AUTO_INCREMENT, line_no INTEGER, PRIMARY KEY (order_id, line_no));";
      "-- two auto-increment columns";
      "CREATE TABLE counters (a INTEGER AUTO_INCREMENT, b INTEGER AUTO_INCREMENT);" ]
    TableParser.NL.

Definition primary_key_script : string :=
  Str.join
    [ "CREATE TABLE users (id INT PRIMARY KEY, name VARCHAR(50));";
      "CREATE TABLE accounts (";
      "  id INT,";
      "  name VARCHAR(50),";
      "  PRIMARY KEY (id)";
      ");" ]
    TableParser.NL.

(** Every memoised depth is positive, and the memoised depths have no gap
    below them. *)
Definition gapless (v : gmap string nat) : Prop :=
  forall k d, v !! k = Some d ->
    (1 <= d)%nat /\ ((2 <= d)%nat -> exists q, v !! q = Some (d - 1)%nat).

(** What a call of [dfs] returns: 0 for a name on the search path, a memoised
    depth otherwise. *)
Definition seenOrMemo (v : gmap string nat) (d : nat) : Prop :=
  d = 0%nat \/ exists q, v !! q = Some d.

(** What one call of [dfs] guarantees on any graph: the memo table grows
    within the names of the graph, and no name on the search path enters
    it. *)
Definition bounds_post (g : gmap string (list string)) (seen : gset string)
    (v : gmap string nat) (d : nat) (v' : gmap string nat) : Prop :=
  gapless v' /\ v ⊆ v' /\ dom v' ⊆ dom g /\ seenOrMemo v' d
  /\ (forall k, k ∈ seen -> v' !! k = v !! k).

(** The order [sortEntitiesByDepth] sorts by. *)
Definition byDepth (a b : SQLParser.Entity) : Prop :=
  (SQLParser.depthOr0 a <= SQLParser.depthOr0 b)%nat.

(** The character in front of position [length pre] of [pre ++ t]. *)
Definition lastOf (before : option ascii) (pre : string) : option ascii :=
  fst (Regex.drop (String.length pre) before pre).

(** [s] from position [n] on. *)
Fixpoint dropChars (n : nat) (s : string) : string :=
  match n, s with
  | S n, String _ s' => dropChars n s'
  | _, _ => s
  end.

(** Each character replaced by a string. *)
Fixpoint mapChars (g : ascii -> string) (s : string) : string :=
  match s with
  | EmptyString => ""
  | String c s => g c +:+ mapChars g s
  end.

(** The length of the longest prefix of [s] whose characters satisfy [p]. *)
Fixpoint spanLen (p : ascii -> bool) (s : string) : nat :=
  match s with
  | String c s' => if p c then S (spanLen p s') else 0%nat
  | EmptyString => 0%nat
  end.

(** Each maximal run of characters that satisfy [p] replaced by [rep];
    [inRun] tells that the character before belongs to such a run. *)
Fixpoint squash (p : ascii -> bool) (rep : string) (s : string) (inRun : bool) : string :=
  match s with
  | EmptyString => ""
  | String c s' =>
    if p c then (if inRun then squash p rep s' true else rep +:+ squash p rep s' true)
    else String c (squash p rep s' false)
  end.

(** The matcher state after the longest run of characters satisfying [p]. *)
Fixpoint afterRun (p : ascii -> bool) (before : option ascii) (t : string) (i : nat)
    (cs : list (nat * string)) : Regex.mstate :=
  match t with
  | String c t' =>
    if p c then afterRun p (Some c) t' (S i) cs
    else {| Regex.prev := before; Regex.rest := t; Regex.pos := i; Regex.caps := cs |}
  | EmptyString =>
    {| Regex.prev := before; Regex.rest := t; Regex.pos := i; Regex.caps := cs |}
  end.

(** A pattern that consumes one character satisfying [p]. *)
Definition charLike (fl : Regex.flags) (a : Regex.regex) (p : ascii -> bool) : Prop :=
  forall fuel st k, Regex.run fl fuel a st k = Regex.step p st k.

(** [s] without the run of characters satisfying [p] that it ends with. *)
Fixpoint dropTrailing (p : ascii -> bool) (s : string) : string :=
  match s with
  | EmptyString => ""
  | String c s' => if allChars p s then "" else String c (dropTrailing p s')
  end.

(** The first, and the last, character of [s] satisfies [p]. *)
Definition headSat (p : ascii -> bool) (s : string) : bool :=
  match s with String c _ => p c | EmptyString => false end.

Fixpoint lastSat (p : ascii -> bool) (s : string) : bool :=
  match s with
  | EmptyString => false
  | String c EmptyString => p c
  | String _ s' => lastSat p s'
  end.

(** No two neighbours in [s] both satisfy [p]. *)
Fixpoint noPair (p : ascii -> bool) (s : string) : bool :=
  match s with
  | String a s' => negb (p a && headSat p s') && noPair p s'
  | EmptyString => true
  end.

Definition isUnderscore (c : ascii) : bool := Regex.lit_matches Regex.noFlags "_" c.

Definition notAlnum (c : ascii) : bool :=
  xorb true (Regex.class_has Regex.noFlags
    [Regex.CRange "a" "z"; Regex.CRange "A" "Z"; Regex.CRange "0" "9"] c).

(** The characters of a table name: lower-case letters, digits, underscore. *)
Definition nameChar (c : ascii) : bool := Str.isLower c || Str.isDigit c || JS.ceqb c "_".

(** What [toValidTableName] produces: lower-case letters, digits and single
    underscores, with no underscore at either end. *)
Definition validName (s : string) : bool :=
  allChars nameChar s
  && negb (JS.startsWith s "_") && negb (JS.endsWith s "_") && negb (Str.includes s "__").

Definition alnumOrUnderscore (c : ascii) : bool := negb (notAlnum c) || isUnderscore c.

(** A string in single quotes, every single quote of it doubled. *)
Definition quoted (s : string) : string :=
  String JS.SQ (SQLConverter.addslashes s) +:+ String JS.SQ "".

Definition isQuote (c : ascii) : bool := Regex.lit_matches Regex.noFlags JS.SQ c.

Definition notBackslash (c : ascii) : bool := negb (JS.ceqb c JS.BSLASH).

Definition doubled (c : ascii) : string :=
  if isQuote c then String JS.SQ (String JS.SQ "") else String c "".

Definition notDot (c : ascii) : bool := negb (JS.ceqb "." c).

(** What [fixTableName] and [extractDropTableQueries] put around a name. *)
Definition wrapMySQLOrPG (targetType name : string) : string :=
  if SQLConverter.isMySQL targetType then "`" +:+ name +:+ "`"
  else if SQLConverter.isPGSQL targetType then String JS.DQ name +:+ String JS.DQ ""
  else name.

(** [rest] is empty or begins with a dot. *)
Definition endsPiece (rest : string) : bool :=
  match rest with EmptyString => true | String c _ => JS.ceqb "." c end.

Definition notWord (c : ascii) : bool :=
  xorb true (Regex.class_has Regex.noFlags
    [Regex.CRange "a" "z"; Regex.CRange "A" "Z"; Regex.CRange "0" "9"; Regex.CChar "_"] c).

(** [s] without the characters that are neither letters, digits nor
    underscores. *)
Definition keepWord (s : string) : string :=
  mapChars (fun c => if Str.isWord c then String c "" else ""%string) s.

(** The bytes of the text [SQLite format 3] followed by a zero byte. *)
Definition sqliteMagic : list Byte.byte :=
  List.map Ascii.byte_of_ascii
    (String.list_ascii_of_string ("SQLite format 3" +:+ String "000"%char "")).

(** Every statement text in [queryArray] has its delimiter in
    [delimiterArray]. *)
Definition covered (q d : JS.sparse) : Prop :=
  forall i : nat, is_Some (mjoin (q !! i)) -> is_Some (mjoin (d !! i)).

(** A statement that fits on one line: no line break in it, no white space
    in front, and with its semicolon it is neither a comment nor a
    [DELIMITER] command. *)
Definition plainStatement (q : string) : bool :=
  isLine q && negb (headSat Str.isSpace q)
  && negb (JS.startsWith (q +:+ ";") "--")
  && negb (JS.startsWith (Str.toLowerCase (q +:+ ";")) "delimiter ").

Definition statementOf (q : string) : TableParser.Statement :=
  {| TableParser.query := q; TableParser.delimiter := ";" |}.

(** What the second pass of [parseSQL] has built after a number of complete
    one-line statements: the next statement starts a new entry, and the
    entries so far are collected as the statements [done], whatever the
    delimiter array holds further on. *)
Definition splitterAfter (st : TableParser.splitter) (done : list string) : Prop :=
  TableParser.append st = 0%Z /\ TableParser.start st = 1%Z /\ TableParser.delim st = ";"%string
  /\ (-1 <= TableParser.nquery st)%Z
  /\ (length (TableParser.queryArray st) <= Z.to_nat (TableParser.nquery st + 1))%nat
  /\ forall d' : JS.sparse,
       (forall i : nat, (i < length (TableParser.queryArray st))%nat ->
          mjoin (d' !! i) = mjoin (TableParser.delimiterArray st !! i)) ->
       TableParser.collect (TableParser.queryArray st) d' 0
       = JS.Ok (List.map statementOf done).

(** The delimiter in force and every delimiter written down so far are
    non-empty strings. *)
Definition delimitersNamed (st : TableParser.splitter) : Prop :=
  TableParser.delim st <> ""%string
  /\ forall (i : nat) (d : string),
       mjoin (TableParser.delimiterArray st !! i) = Some d -> d <> ""%string.

(** Some suffix of [s], [s] itself included, satisfies [p]. *)
Fixpoint anySuffix (p : string -> bool) (s : string) : bool :=
  p s || match s with
         | String _ s' => anySuffix p s'
         | EmptyString => false
         end.

(** The pattern [r] matches at a position exactly when the input from there
    on satisfies [p], whatever is done with the match afterwards. *)
Definition finds (r : Regex.regex) (p : string -> bool) : Prop :=
  forall fuel st k,
    (forall st', exists x, k st' = Regex.Found x) ->
    (p (Regex.rest st) = true -> exists x, Regex.run Regex.noFlags fuel r st k = Regex.Found x)
    /\ (p (Regex.rest st) = false -> Regex.run Regex.noFlags fuel r st k = Regex.NoMatch).

(** The MySQL type [toMySqlType] gives to a type written [u] in upper case,
    by the first of the key words that [u] contains; [other] when it
    contains none. *)
Definition byKeyword (u other : string) : string :=
  if Str.includes u "NVARCHAR" then "VARCHAR"
  else if Str.includes u "INT" then "BIGINT"
  else if Str.includes u "CHAR" || Str.includes u "CLOB" || Str.includes u "TEXT" then "TEXT"
  else if Str.includes u "BLOB" then "BLOB"
  else if Str.includes u "REAL" || Str.includes u "FLOA" || Str.includes u "DOUB" then "DOUBLE"
  else if Str.includes u "NUMERIC" || Str.includes u "DECIMAL" then "DECIMAL"
  else if Str.includes u "BOOLEAN" then "TINYINT"
  else if Str.includes u "TIMESTAMP" then "TIMESTAMP"
  else if Str.includes u "DATE" || Str.includes u "TIME" then "DATETIME"
  else other.

(** Any character but an opening parenthesis. *)
Definition notOpen (c : ascii) : bool := negb (JS.ceqb c "(").

(** A size between parentheses, with text around it. *)
Definition sized (pre digits post : string) : string :=
  pre +:+ "(" +:+ digits +:+ ")" +:+ post.

(** The fields read so far are the columns named in [columnList], in that
    order, and no name is there twice. *)
Definition namesKept (st : TableParser.tableScan) : Prop :=
  List.map TableParser.Field (TableParser.fieldList st) = TableParser.columnList st
  /\ NoDup (TableParser.columnList st).

(** An ASCII letter or a digit; and the characters [camelize] and
    [snakeize] keep of their input. *)
Definition alnum (c : ascii) : bool := Str.isUpper c || Str.isLower c || Str.isDigit c.

Definition alnumOrSpace (c : ascii) : bool := alnum c || JS.ceqb c " ".

Definition notAlnumSpace (c : ascii) : bool :=
  xorb true (Regex.class_has Regex.noFlags
    [Regex.CRange "a" "z"; Regex.CRange "A" "Z"; Regex.CRange "0" "9"; Regex.CChar " "] c).

(** A lower-case letter or a digit: the characters of a word of a
    snake-case name. *)
Definition lowerOrDigit (c : ascii) : bool := Str.isLower c || Str.isDigit c.

(** [word] with its first character in upper case. *)
Definition capitalized (word : string) : string :=
  match word with
  | EmptyString => ""
  | String c rest => String (Str.upperChar c) rest
  end.

(** What [camelize] makes of one character before it splits. *)
Definition normal (c : ascii) : string :=
  if notAlnumSpace c then " "%string else String c "".

(** An underscore or a hyphen, the separators [snakeize] turns into
    spaces. *)
Definition isSeparator (c : ascii) : bool :=
  xorb false (Regex.class_has Regex.noFlags [Regex.CChar "_"; Regex.CChar "-"] c).

(** [s] with a space for each underscore. *)
Definition blanked (s : string) : string :=
  Str.map (fun c => if isUnderscore c then " "%char else c) s.

(** A word of a snake-case name that [camelize] and [snakeize] carry back and
    forth: lower-case letters and digits, at least two of them, a letter
    first and a letter last. *)
Definition snakeWord (v : string) : bool :=
  allChars lowerOrDigit v && headSat Str.isLower v && lastSat Str.isLower v
  && (2 <=? String.length v)%nat.

(** [s] with a space between a lower-case letter and the upper-case letter
    that follows it; the search goes on behind that letter. *)
Fixpoint humps (s : string) : string :=
  match s with
  | String a s' =>
    match s' with
    | String b t =>
      if Str.isLower a && Str.isUpper b
      then String a (String " " (String b (humps t)))
      else String a (humps s')
    | EmptyString => s
    end
  | EmptyString => s
  end.

(** A value of a row as an INSERT statement writes it: a text in single
    quotes with its quotes doubled, a natural number in decimal, or one of
    the key words [NULL], [TRUE] and [FALSE]. *)
Inductive cell : Type :=
| CText (s : string)
| CNat (n : nat)
| CNull
| CBool (b : bool).

Definition written (c : cell) : string :=
  match c with
  | CText s => quoted s
  | CNat n => SQLConverter.natToString n
  | CNull => "NULL"
  | CBool true => "TRUE"
  | CBool false => "FALSE"
  end.

Definition valueOf (c : cell) : Value.value :=
  match c with
  | CText s => Value.Str s
  | CNat n => Value.Number (Num.ofN (N.of_nat n))
  | CNull => Value.Null
  | CBool b => Value.Bool b
  end.

(** The values that come back as they were: the texts without a backslash
    and the numbers up to 2^53, which [Number] reads without rounding. *)
Definition readable (c : cell) : bool :=
  match c with
  | CText s => allChars notBackslash s
  | CNat n => (N.of_nat n <=? 2 ^ 53)%N
  | _ => true
  end.

(** A character that the row scanner copies without looking at it twice. *)
Definition plainChar (c : ascii) : bool :=
  negb (JS.ceqb c JS.BSLASH) && negb (JS.ceqb c JS.SQ) && negb (JS.ceqb c JS.DQ)
  && negb (JS.ceqb c JS.COMMA).

(** [st'] is the matcher state [st] further along the same input. *)
Definition further (st st' : Regex.mstate) : Prop :=
  (Regex.pos st <= Regex.pos st')%nat
  /\ (Regex.pos st' + String.length (Regex.rest st')
      = Regex.pos st + String.length (Regex.rest st))%nat.

(** ** Facts about strings *)

Section StringFacts.
Import JS.

Lemma append_nil_l (s : string) : "" +:+ s = s.
Proof. reflexivity. Qed.

Lemma append_cons (c : ascii) (s t : string) :
  String c s +:+ t = String c (s +:+ t).
Proof. reflexivity. Qed.

Lemma append_nil_r (s : string) : s +:+ "" = s.
Proof. induction s as [|c s IH]; [reflexivity|]. rewrite append_cons, IH. reflexivity. Qed.

Lemma append_assoc (a b c : string) : (a +:+ b) +:+ c = a +:+ (b +:+ c).
Proof.
  induction a as [|x a IH]; [reflexivity|].
  rewrite !append_cons, IH. reflexivity.
Qed.

Lemma push_append (a b : string) (c : ascii) : push (a +:+ b) c = a +:+ push b c.
Proof. unfold push. apply append_assoc. Qed.

Lemma push_cons (x : ascii) (s : string) (c : ascii) :
  push (String x s) c = String x (push s c).
Proof. reflexivity. Qed.

Lemma length_append (a b : string) :
  String.length (a +:+ b) = (String.length a + String.length b)%nat.
Proof.
  induction a as [|x a IH]; [reflexivity|].
  rewrite append_cons. simpl. rewrite IH. reflexivity.
Qed.

Lemma substring_0_append (a b : string) :
  String.substring 0 (String.length a) (a +:+ b) = a.
Proof.
  induction a as [|x a IH]; simpl.
  - destruct b; reflexivity.
  - rewrite IH. reflexivity.
Qed.

Lemma substring_skip_append (a b : string) (m : nat) :
  String.substring (String.length a) m (a +:+ b) = String.substring 0 m b.
Proof.
  induction a as [|x a IH]; [reflexivity|].
  rewrite append_cons. simpl. apply IH.
Qed.

Lemma substring_0_all (s : string) : String.substring 0 (String.length s) s = s.
Proof. induction s as [|x s IH]; simpl; [reflexivity|]. rewrite IH. reflexivity. Qed.

Lemma endsWith_push (s : string) (c : ascii) :
  endsWith (push s c) (String c "") = true.
Proof.
  unfold endsWith, push. rewrite length_append.
  change (String.length (String c "")) with 1%nat.
  replace (String.length s + 1 - 1)%nat with (String.length s) by lia.
  rewrite substring_skip_append.
  apply andb_true_intro. split.
  - apply Nat.leb_le. lia.
  - apply String.eqb_refl.
Qed.

Lemma substring_inner (x : string) (c d : ascii) :
  substring (String c (push x d)) 1 (len (String c (push x d)) - 1) = x.
Proof.
  unfold substring, len, clamp, push.
  change (String.length (String c (x +:+ String d "")))
    with (S (String.length (x +:+ String d ""))).
  rewrite length_append. change (String.length (String d "")) with 1%nat.
  set (n := String.length x).
  replace (1 <? 0) with false by reflexivity.
  replace (Z.of_nat (S (n + 1)) - 1 <? 0) with false
    by (symmetry; apply Z.ltb_ge; lia).
  replace (Z.to_nat 1) with 1%nat by reflexivity.
  replace (Z.to_nat (Z.of_nat (S (n + 1)) - 1)) with (S n) by lia.
  replace (Nat.min 1 (S (n + 1))) with 1%nat by lia.
  replace (Nat.min (S n) (S (n + 1))) with (S n) by lia.
  replace (Nat.min 1 (S n)) with 1%nat by lia.
  replace (Nat.max 1 (S n) - 1)%nat with n by lia.
  change (String.substring 1 n (String c (x +:+ String d "")))
    with (String.substring 0 n (x +:+ String d "")).
  apply substring_0_append.
Qed.

(** What the row scanner pushes for a buffer of the form [( body )]. *)
Lemma strip_parens (x : string) :
  (if startsWith (push (String LPAREN x) RPAREN) "("
      && endsWith (push (String LPAREN x) RPAREN) ")"
   then substring (push (String LPAREN x) RPAREN) 1
          (len (push (String LPAREN x) RPAREN) - 1)
   else push (String LPAREN x) RPAREN) = x.
Proof.
  pose proof (endsWith_push (String LPAREN x) RPAREN) as He.
  change (String RPAREN "") with ")" in He. rewrite He.
  rewrite push_cons.
  replace (startsWith (String LPAREN (push x RPAREN)) "(") with true
    by (unfold startsWith; simpl; destruct (push x RPAREN); reflexivity).
  simpl andb. cbv iota. apply substring_inner.
Qed.

End StringFacts.

(** ** The row scanner on well-formed VALUES sections *)

Section RowScanner.
Import JS TableParser ValuesGrammar.

Local Arguments ceqb : simpl never.
Local Arguments push : simpl never.
Local Arguments startsWith : simpl never.
Local Arguments endsWith : simpl never.
Local Arguments substring : simpl never.
Local Arguments Z.add : simpl never.
Local Arguments Z.sub : simpl never.
Local Arguments Z.eqb : simpl never.

Lemma ceqb_eq (a b : ascii) : ceqb a b = true -> a = b.
Proof. unfold ceqb. apply Ascii.eqb_eq. Qed.

(** The lookahead of [extractRowStrings] changes nothing: consuming a doubled
    quote in one step leaves the scanner where two toggles leave it. *)
Lemma scanRows_no_lookahead (s : string) :
  forall rows buffer inSingle inDouble escape depth,
    scanRows s rows buffer inSingle inDouble escape depth
    = scanToggle s rows buffer inSingle inDouble escape depth.
Proof.
  induction s as [|c rest IH]; intros rows buffer inS inD esc d; [reflexivity|].
  simpl. destruct esc; [apply IH|].
  destruct (ceqb c BSLASH); [apply IH|].
  destruct (ceqb c SQ && negb inD) eqn:E1.
  { destruct rest as [|n rest']; [apply IH|].
    destruct (inS && ceqb n SQ) eqn:E2; [|apply IH].
    apply andb_prop in E1 as [_ E1]. apply andb_prop in E2 as [-> E2].
    apply ceqb_eq in E2 as ->. destruct inD; [discriminate|].
    rewrite <- IH. destruct rest'; reflexivity. }
  destruct (ceqb c DQ && negb inS) eqn:E3.
  { destruct rest as [|n rest']; [apply IH|].
    destruct (inD && ceqb n DQ) eqn:E4; [|apply IH].
    apply andb_prop in E3 as [_ E3]. apply andb_prop in E4 as [-> E4].
    apply ceqb_eq in E4 as ->. destruct inS; [discriminate|].
    rewrite <- IH. destruct rest'; reflexivity. }
  destruct (ceqb c LPAREN && negb inS && negb inD); [apply IH|].
  destruct (ceqb c RPAREN && negb inS && negb inD); [|apply IH].
  destruct (d - 1 =? 0); apply IH.
Qed.

(** One step of the scanner, by state. *)
Lemma toggle_escaped c rest rows buf inS inD d :
  scanToggle (String c rest) rows buf inS inD true d
  = scanToggle rest rows (push buf c) inS inD false d.
Proof. reflexivity. Qed.

Lemma toggle_backslash rest rows buf inS inD d :
  scanToggle (String BSLASH rest) rows buf inS inD false d
  = scanToggle rest rows (push buf BSLASH) inS inD true d.
Proof. reflexivity. Qed.

Lemma toggle_in_single c rest rows buf d :
  ceqb c BSLASH = false -> ceqb c SQ = false ->
  scanToggle (String c rest) rows buf true false false d
  = scanToggle rest rows (push buf c) true false false d.
Proof.
  intros H1 H2. simpl. rewrite H1, H2. simpl.
  rewrite !andb_false_r. reflexivity.
Qed.

Lemma toggle_in_double c rest rows buf d :
  ceqb c BSLASH = false -> ceqb c DQ = false ->
  scanToggle (String c rest) rows buf false true false d
  = scanToggle rest rows (push buf c) false true false d.
Proof.
  intros H1 H2. simpl. rewrite H1, H2. simpl.
  rewrite !andb_false_r. reflexivity.
Qed.

Lemma toggle_single_quote rest rows buf inS d :
  scanToggle (String SQ rest) rows buf inS false false d
  = scanToggle rest rows (push buf SQ) (negb inS) false false d.
Proof. reflexivity. Qed.

Lemma toggle_double_quote rest rows buf inD d :
  scanToggle (String DQ rest) rows buf false inD false d
  = scanToggle rest rows (push buf DQ) false (negb inD) false d.
Proof. reflexivity. Qed.

Lemma toggle_plain c rest rows buf d :
  plain c = true ->
  scanToggle (String c rest) rows buf false false false d
  = scanToggle rest rows (push buf c) false false false d.
Proof.
  unfold plain. intros H.
  repeat (apply andb_prop in H; destruct H as [H ?]).
  repeat match goal with X : negb _ = true |- _ => apply negb_true_iff in X end.
  simpl. rewrite H, H0, H1, H2, H3. reflexivity.
Qed.

Lemma toggle_open rest rows buf d :
  scanToggle (String LPAREN rest) rows buf false false false d
  = scanToggle rest rows (push (if d =? 0 then ""%string else buf) LPAREN)
      false false false (d + 1).
Proof. reflexivity. Qed.

Lemma toggle_close rest rows buf d :
  scanToggle (String RPAREN rest) rows buf false false false d
  = if d - 1 =? 0
    then scanToggle rest
           (rows ++ [if startsWith (push buf RPAREN) "(" && endsWith (push buf RPAREN) ")"
                     then substring (push buf RPAREN) 1 (len (push buf RPAREN) - 1)
                     else push buf RPAREN]) "" false false false (d - 1)
    else scanToggle rest rows (push buf RPAREN) false false false (d - 1).
Proof. reflexivity. Qed.

Ltac str_norm :=
  unfold push; rewrite ?append_assoc; rewrite ?append_cons, ?append_nil_l; reflexivity.

Lemma push_as_append (buf : string) (c : ascii) (x : string) :
  push buf c +:+ x = buf +:+ String c x.
Proof. unfold push. rewrite append_assoc. reflexivity. Qed.

(** Inside a literal the scanner copies the body and stays inside. *)
Lemma toggle_single_body (body : list qitem) :
  forallb (qitem_ok SQ) body = true ->
  forall rest rows buf d,
    scanToggle (render_qbody SQ body +:+ rest) rows buf true false false d
    = scanToggle rest rows (buf +:+ render_qbody SQ body) true false false d.
Proof.
  induction body as [|i body IH]; intros Hok rest rows buf d.
  - simpl. rewrite append_nil_r. reflexivity.
  - simpl in Hok. apply andb_prop in Hok as [Hi Hok].
    simpl render_qbody. rewrite append_assoc.
    destruct i as [c|c|]; simpl render_qitem; rewrite ?append_cons, ?append_nil_l.
    + simpl in Hi. apply andb_prop in Hi as [H1 H2].
      apply negb_true_iff in H1, H2.
      rewrite toggle_in_single by assumption.
      rewrite IH by assumption. rewrite push_as_append. reflexivity.
    + rewrite toggle_backslash, toggle_escaped.
      rewrite IH by assumption. rewrite !push_as_append. reflexivity.
    + rewrite !toggle_single_quote. simpl negb.
      rewrite IH by assumption. rewrite !push_as_append. reflexivity.
Qed.

Lemma toggle_double_body (body : list qitem) :
  forallb (qitem_ok DQ) body = true ->
  forall rest rows buf d,
    scanToggle (render_qbody DQ body +:+ rest) rows buf false true false d
    = scanToggle rest rows (buf +:+ render_qbody DQ body) false true false d.
Proof.
  induction body as [|i body IH]; intros Hok rest rows buf d.
  - simpl. rewrite append_nil_r. reflexivity.
  - simpl in Hok. apply andb_prop in Hok as [Hi Hok].
    simpl render_qbody. rewrite append_assoc.
    destruct i as [c|c|]; simpl render_qitem; rewrite ?append_cons, ?append_nil_l.
    + simpl in Hi. apply andb_prop in Hi as [H1 H2].
      apply negb_true_iff in H1, H2.
      rewrite toggle_in_double by assumption.
      rewrite IH by assumption. rewrite push_as_append. reflexivity.
    + rewrite toggle_backslash, toggle_escaped.
      rewrite IH by assumption. rewrite !push_as_append. reflexivity.
    + rewrite !toggle_double_quote. simpl negb.
      rewrite IH by assumption. rewrite !push_as_append. reflexivity.
Qed.

(** Outside literals every item but a parenthesis is copied to the buffer
    and changes neither the flags nor the depth. *)
Lemma toggle_token (t : token) :
  token_ok t = true -> is_paren t = false ->
  forall rest rows buf d,
    scanToggle (render_token t +:+ rest) rows buf false false false d
    = scanToggle rest rows (buf +:+ render_token t) false false false d.
Proof.
  intros Hok Hp rest rows buf d.
  destruct t as [c|c|body|body| |]; try discriminate Hp;
    simpl render_token; rewrite ?append_cons, ?append_nil_l.
  - rewrite toggle_plain by exact Hok. str_norm.
  - rewrite toggle_backslash, toggle_escaped. str_norm.
  - rewrite toggle_single_quote. simpl negb. rewrite append_assoc.
    rewrite toggle_single_body by exact Hok.
    rewrite append_cons, append_nil_l, toggle_single_quote. simpl negb.
    str_norm.
  - rewrite toggle_double_quote. simpl negb. rewrite append_assoc.
    rewrite toggle_double_body by exact Hok.
    rewrite append_cons, append_nil_l, toggle_double_quote. simpl negb.
    str_norm.
Qed.

Lemma toggle_flat (ts : list token) :
  forallb token_ok ts = true ->
  forallb (fun t => negb (is_paren t)) ts = true ->
  forall rest rows buf d,
    scanToggle (render ts +:+ rest) rows buf false false false d
    = scanToggle rest rows (buf +:+ render ts) false false false d.
Proof.
  induction ts as [|t ts IH]; intros Hok Hp rest rows buf d.
  - simpl. rewrite append_nil_r. reflexivity.
  - simpl in Hok, Hp. apply andb_prop in Hok as [Ht Hok]. apply andb_prop in Hp as [Hpt Hp].
    apply negb_true_iff in Hpt.
    simpl render. rewrite append_assoc, toggle_token by assumption.
    rewrite IH by assumption. rewrite append_assoc. reflexivity.
Qed.

(** Inside a group, [k] parentheses deeper than its own opening one, a
    balanced run of items is copied to the buffer and no row is emitted. *)
Lemma toggle_nested (ts : list token) :
  forall k, forallb token_ok ts = true -> balanced k ts = true ->
  forall rest rows buf,
    scanToggle (render ts +:+ rest) rows buf false false false (1 + Z.of_nat k)
    = scanToggle rest rows (buf +:+ render ts) false false false 1.
Proof.
  induction ts as [|t ts IH]; intros k Hok Hb rest rows buf.
  - simpl in Hb. apply Nat.eqb_eq in Hb. subst k.
    simpl. rewrite append_nil_r. reflexivity.
  - simpl in Hok. apply andb_prop in Hok as [Ht Hok].
    destruct (is_paren t) eqn:Hp.
    + destruct t; try discriminate Hp; simpl in Hb; simpl render;
        rewrite !append_cons, ?append_nil_l.
      * rewrite toggle_open.
        replace (1 + Z.of_nat k =? 0) with false by (symmetry; apply Z.eqb_neq; lia).
        replace (1 + Z.of_nat k + 1) with (1 + Z.of_nat (S k)) by lia.
        rewrite IH by assumption. str_norm.
      * destruct k as [|k]; [discriminate|].
        rewrite toggle_close.
        replace (1 + Z.of_nat (S k) - 1 =? 0) with false by (symmetry; apply Z.eqb_neq; lia).
        replace (1 + Z.of_nat (S k) - 1) with (1 + Z.of_nat k) by lia.
        rewrite IH by assumption. str_norm.
    + assert (Hb' : balanced k ts = true) by (destruct t; try discriminate Hp; exact Hb).
      simpl render. rewrite append_assoc, toggle_token by assumption.
      rewrite IH by assumption. rewrite append_assoc. reflexivity.
Qed.

(** A whole group, read at depth 0, emits exactly its body. *)
Lemma toggle_group (g : group) :
  group_ok g = true ->
  forall rest rows buf,
    scanToggle (render_group g +:+ rest) rows buf false false false 0
    = scanToggle rest (rows ++ [render (body g)]) "" false false false 0.
Proof.
  unfold group_ok. intros H rest rows buf.
  apply andb_prop in H as [H Hb]. apply andb_prop in H as [H Hbok].
  apply andb_prop in H as [Hlok Hlp].
  unfold render_group. rewrite append_assoc, toggle_flat by assumption.
  rewrite append_cons, toggle_open.
  change (0 =? 0) with true. cbv iota.
  rewrite append_assoc.
  replace (0 + 1) with (1 + Z.of_nat 0) by reflexivity.
  rewrite toggle_nested by assumption.
  rewrite append_cons, append_nil_l, toggle_close.
  change (1 - 1 =? 0) with true. cbv iota.
  change (push "" LPAREN +:+ render (body g)) with (String LPAREN (render (body g))).
  rewrite strip_parens. reflexivity.
Qed.

Lemma toggle_values (gs : list group) (trail : list token) :
  forallb group_ok gs = true -> trail_ok trail = true ->
  forall rows buf,
    scanToggle (render_values gs trail) rows buf false false false 0
    = rows ++ map (fun g => render (body g)) gs.
Proof.
  intros Hgs Ht. induction gs as [|g gs IH]; intros rows buf.
  - simpl. unfold trail_ok in Ht. apply andb_prop in Ht as [H1 H2].
    rewrite <- (append_nil_r (render trail)).
    rewrite toggle_flat by assumption. simpl. rewrite app_nil_r. reflexivity.
  - simpl in Hgs. apply andb_prop in Hgs as [Hg Hgs].
    simpl render_values. rewrite toggle_group by assumption.
    rewrite IH by assumption. rewrite <- app_assoc. reflexivity.
Qed.

End RowScanner.

(** ** Claims about the INSERT row tokenizer *)

Section RowTokenizerClaims.
Import JS TableParser ValuesGrammar.

(** C1.  A VALUES section made of [n] top-level parenthesised groups, each
    preceded by text without parentheses and holding a balanced body in which
    quoted literals may contain commas, parentheses, escapes and doubled
    quotes, is split by [extractRowStrings] into exactly [n] strings: the
    bodies of the groups, in order, without their outer parentheses. *)
Theorem extractRowStrings_top_level_groups (gs : list group) (trail : list token) :
  forallb group_ok gs = true ->
  trail_ok trail = true ->
  extractRowStrings (render_values gs trail) = map (fun g => render (body g)) gs
  /\ length (extractRowStrings (render_values gs trail)) = length gs.
Proof.
  intros Hgs Ht.
  assert (E : extractRowStrings (render_values gs trail)
              = map (fun g => render (body g)) gs).
  { unfold extractRowStrings. rewrite scanRows_no_lookahead.
    rewrite toggle_values by assumption. reflexivity. }
  split; [exact E|]. rewrite E. apply length_map.
Qed.

(** Outside the theorem: a closing parenthesis that closes nothing takes the
    scanner's depth below zero, and the groups after it are not at depth 0
    any more. *)
Remark unmatched_close_hides_groups : extractRowStrings ") (1), (2)" = [].
Proof. reflexivity. Qed.

Lemma extractRowStrings_top_level_groups_witness :
  extractRowStrings (render_values sample_groups [TChar ";"])
  = map (fun g => render (body g)) sample_groups
  /\ length (extractRowStrings (render_values sample_groups [TChar ";"])) = 2%nat.
Proof.
  apply (extractRowStrings_top_level_groups sample_groups [TChar ";"]); reflexivity.
Defined.

End RowTokenizerClaims.

(** ** The depth calculator always returns *)

Section DepthTermination.
Import JS SQLParser.
Local Open Scope nat_scope.

Lemma eachParent_total call ps :
  (forall p v, p ∈ ps -> exists r, call p v = Some (Ok r)) ->
  forall v, exists r, eachParent call ps v = Some (Ok r).
Proof.
  induction ps as [|p ps IH]; intros Hcall v; simpl; [eauto|].
  destruct (Hcall p v) as [[d v'] ->]; [left|].
  destruct (IH (fun q w Hq => Hcall q w (list_elem_of_further _ _ _ Hq)) v') as [[ds v''] ->].
  eauto.
Qed.

Lemma parentsOf_own g x refs : g !! x = Some refs -> parentsOf g x = inl refs.
Proof. intros H. unfold parentsOf. rewrite H. reflexivity. Qed.

Lemma dfs_total g :
  closed g ->
  forall fuel x seen v,
    is_Some (g !! x) -> seen ⊆ dom g -> size (dom g) < fuel + size seen ->
    exists r, dfs g fuel x seen v = Some (Ok r).
Proof.
  intros Hcl. induction fuel as [|fuel IH]; intros x seen v Hx Hseen Hsize.
  - apply subseteq_size in Hseen. lia.
  - simpl. destruct (v !! x) as [d|]; [eauto|].
    case_bool_decide as Hin; [eauto|].
    destruct Hx as [refs Hrefs]. rewrite (parentsOf_own g x refs Hrefs).
    assert (Hsub : {[x]} ∪ seen ⊆ dom g).
    { apply union_subseteq. split; [|exact Hseen].
      apply singleton_subseteq_l, elem_of_dom. eauto. }
    assert (Hsz : size ({[x]} ∪ seen) = S (size seen)).
    { rewrite size_union by set_solver. rewrite size_singleton. reflexivity. }
    destruct (eachParent_total (fun p w => dfs g fuel p ({[x]} ∪ seen) w) refs) with (v := v)
      as [[ds v'] ->]; [|eauto].
    intros p w Hp. apply IH; [eapply Hcl; eauto|exact Hsub|lia].
Qed.

Lemma assignDepths_total g fuel :
  closed g ->
  forall es v,
    (forall e, e ∈ es -> is_Some (g !! name e)) ->
    size (dom g) < fuel ->
    exists out, assignDepths g fuel es v = Some (Ok out).
Proof.
  intros Hcl. induction es as [|e es IH]; intros v Hes Hsize; simpl; [eauto|].
  destruct (dfs_total g Hcl fuel (name e) ∅ v) as [[d v'] ->].
  - apply Hes. left.
  - set_solver.
  - rewrite size_empty. lia.
  - destruct (IH v') as [out ->]; [|assumption|eauto].
    intros e' He'. apply Hes. right. exact He'.
Qed.

(** The maps [calculateEntityDepth] builds with one insertion per entity. *)
Section FoldInsert.
Context {V : Type} (f : Entity -> V).

Lemma insertAll_lookup es : forall m k v,
  insertAll f es m !! k = Some v ->
  m !! k = Some v \/ exists e, e ∈ es /\ name e = k /\ v = f e.
Proof.
  induction es as [|e es IH]; intros m k v H; simpl in H; [left; exact H|].
  apply IH in H as [H|(e' & He' & Hn & Hv)].
  - apply lookup_insert_Some in H as [[<- <-]|[_ H]]; [|left; exact H].
    right. exists e. split; [left|split; reflexivity].
  - right. exists e'. split; [right; exact He'|split; assumption].
Qed.

Lemma insertAll_is_Some es : forall m k,
  is_Some (insertAll f es m !! k) <-> is_Some (m !! k) \/ k ∈ List.map name es.
Proof.
  induction es as [|e es IH]; intros m k; simpl.
  - split; [intros H; left; exact H|intros [H|H]; [exact H|inversion H]].
  - change (fold_left _ es ?m0) with (insertAll f es m0). rewrite IH.
    rewrite lookup_insert_is_Some, elem_of_cons.
    destruct (decide (name e = k)) as [->|Hne]; [tauto|].
    split; [intros [[?|[_ ?]]|?]|intros [?|[?|?]]]; auto; congruence.
Qed.

Lemma insertAll_size es : forall m,
  size (dom (insertAll f es m)) <= size (dom m) + length es.
Proof.
  induction es as [|e es IH]; intros m; simpl; [lia|].
  change (fold_left _ es ?m0) with (insertAll f es m0).
  etransitivity; [apply IH|]. rewrite dom_insert_L.
  assert (size ({[name e]} ∪ dom m) <= S (size (dom m))); [|lia].
  rewrite size_union_alt, size_singleton.
  assert (size (dom m ∖ {[name e]}) <= size (dom m)); [|lia].
  apply subseteq_size. intros x Hx. apply elem_of_difference in Hx as [Hx _]. exact Hx.
Qed.

Lemma insertAll_notin es : forall m k,
  k ∉ List.map name es -> insertAll f es m !! k = m !! k.
Proof.
  induction es as [|e es IH]; intros m k Hk; simpl; [reflexivity|].
  change (fold_left _ es ?m0) with (insertAll f es m0).
  simpl in Hk. apply not_elem_of_cons in Hk as [Hne Hk].
  rewrite IH by exact Hk. apply lookup_insert_ne. congruence.
Qed.

Lemma insertAll_NoDup es : forall m e,
  NoDup (List.map name es) -> e ∈ es -> insertAll f es m !! name e = Some (f e).
Proof.
  induction es as [|e0 es IH]; intros m e Hnd He; [inversion He|].
  simpl in Hnd. apply NoDup_cons in Hnd as [Hnot Hnd]. simpl.
  change (fold_left _ es ?m0) with (insertAll f es m0).
  apply elem_of_cons in He as [->|He].
  - rewrite insertAll_notin by exact Hnot. apply lookup_insert_eq.
  - apply IH; assumption.
Qed.

End FoldInsert.

Lemma existsb_eqb_elem (r : string) (l : list string) :
  existsb (String.eqb r) l = true <-> r ∈ l.
Proof.
  rewrite existsb_exists. split.
  - intros (x & Hx & E). apply String.eqb_eq in E as ->. apply list_elem_of_In, Hx.
  - intros H. exists r. split; [apply list_elem_of_In, H|apply String.eqb_refl].
Qed.

Lemma buildNameToEntity_is_Some es k :
  is_Some (buildNameToEntity es !! k) <-> k ∈ List.map name es.
Proof.
  unfold buildNameToEntity.
  change (fold_left _ es ∅) with (insertAll (fun e => e) es ∅).
  rewrite insertAll_is_Some, lookup_empty. split; [intros [[? H]|H]; [discriminate|exact H]|auto].
Qed.

(** A reference is a column target other than the entity's own name. *)
Lemma references_target nm e r :
  r ∈ references nm e -> r <> name e /\ r ∈ columnTargets (columns e).
Proof.
  unfold references. rewrite list_elem_of_In, filter_In.
  intros [Hin H]. apply andb_prop in H as [H1 _].
  apply negb_true_iff, String.eqb_neq in H1. split; [exact H1|apply list_elem_of_In, Hin].
Qed.

(** When no column points at an inherited member, the references of an
    entity are names of entities. *)
Lemma plainTargets_spec es e r :
  plainTargets es = true -> e ∈ es -> r ∈ columnTargets (columns e) ->
  is_Some (inheritedMember r) -> r ∈ List.map name es.
Proof.
  intros Hp He Hr [m Hm]. unfold plainTargets in Hp.
  rewrite forallb_forall in Hp. specialize (Hp e (proj1 (list_elem_of_In _ _) He)).
  rewrite forallb_forall in Hp. specialize (Hp r (proj1 (list_elem_of_In _ _) Hr)).
  rewrite Hm in Hp. apply existsb_eqb_elem, Hp.
Qed.

Lemma references_spec es e r :
  plainTargets es = true -> e ∈ es ->
  r ∈ references (buildNameToEntity es) e -> r <> name e /\ r ∈ List.map name es.
Proof.
  intros Hp He Hr. split; [eapply references_target, Hr|].
  pose proof (references_target _ _ _ Hr) as [_ Ht].
  unfold references in Hr. rewrite list_elem_of_In, filter_In in Hr.
  destruct Hr as [_ H]. apply andb_prop in H as [_ H].
  apply orb_prop in H as [H|H]; apply bool_decide_eq_true in H.
  - apply buildNameToEntity_is_Some, H.
  - eapply plainTargets_spec; eassumption.
Qed.

Lemma buildGraph_is_Some es k :
  is_Some (buildGraph es !! k) <-> k ∈ List.map name es.
Proof.
  unfold buildGraph.
  change (fold_left _ es ∅) with (insertAll (references (buildNameToEntity es)) es ∅).
  rewrite insertAll_is_Some, lookup_empty. split; [intros [[? H]|H]; [discriminate|exact H]|auto].
Qed.

Lemma buildGraph_lookup es k refs :
  buildGraph es !! k = Some refs ->
  exists e, e ∈ es /\ name e = k /\ refs = references (buildNameToEntity es) e.
Proof.
  unfold buildGraph.
  change (fold_left _ es ∅) with (insertAll (references (buildNameToEntity es)) es ∅).
  intros H. apply insertAll_lookup in H as [H|H]; [|exact H].
  rewrite lookup_empty in H. discriminate.
Qed.

Lemma buildGraph_closed es : plainTargets es = true -> closed (buildGraph es).
Proof.
  intros Hp k refs r Hk Hr.
  apply buildGraph_lookup in Hk as (e & He & _ & ->).
  apply (references_spec es e r Hp He) in Hr as [_ Hr].
  apply buildGraph_is_Some, Hr.
Qed.

Lemma buildGraph_size es : size (dom (buildGraph es)) <= length es.
Proof.
  unfold buildGraph.
  change (fold_left _ es ∅) with (insertAll (references (buildNameToEntity es)) es ∅).
  etransitivity; [apply insertAll_size|]. rewrite dom_empty_L, size_empty. lia.
Qed.

Lemma eachParent_returns call ps :
  (forall p v, is_Some (call p v)) -> forall v, is_Some (eachParent call ps v).
Proof.
  intros Hcall. induction ps as [|p ps IH]; intros v; simpl; [eauto|].
  destruct (Hcall p v) as [[[d v']|] ->]; [|eauto].
  destruct (IH v') as [[[ds v'']|] ->]; eauto.
Qed.

Lemma dfs_returns g :
  forall fuel x seen v,
    seen ⊆ dom g -> size (dom g) < fuel + size seen ->
    is_Some (dfs g fuel x seen v).
Proof.
  induction fuel as [|fuel IH]; intros x seen v Hseen Hsize.
  - apply subseteq_size in Hseen. lia.
  - simpl. destruct (v !! x) as [d|]; [eauto|].
    case_bool_decide as Hin; [eauto|].
    unfold parentsOf. destruct (g !! x) as [refs|] eqn:Hrefs.
    + assert (Hsub : {[x]} ∪ seen ⊆ dom g).
      { apply union_subseteq. split; [|exact Hseen].
        apply singleton_subseteq_l, elem_of_dom. eauto. }
      assert (Hsz : size ({[x]} ∪ seen) = S (size seen)).
      { rewrite size_union by set_solver. rewrite size_singleton. reflexivity. }
      destruct (eachParent_returns (fun p w => dfs g fuel p ({[x]} ∪ seen) w) refs) with (v := v)
        as [[[ds v']|] ->]; eauto.
      intros p w. apply IH; [exact Hsub|lia].
    + destruct (inheritedMember x) as [[[|n]|]|]; eauto.
Qed.

Lemma assignDepths_returns g fuel :
  size (dom g) < fuel -> forall es v, is_Some (assignDepths g fuel es v).
Proof.
  intros Hsize. induction es as [|e es IH]; intros v; simpl; [eauto|].
  destruct (dfs_returns g fuel (name e) ∅ v) as [[[d v']|] ->]; eauto.
  - apply empty_subseteq.
  - rewrite size_empty. lia.
  - destruct (IH v') as [[out|] ->]; eauto.
Qed.

(** The search never exceeds the fuel [calculateEntityDepth] gives it: the
    outcome is a list of entities or the TypeError. *)
Lemma calculateEntityDepth_returns (entities : list Entity) (reverse : bool) :
  is_Some (calculateEntityDepth entities reverse).
Proof.
  unfold calculateEntityDepth.
  destruct (assignDepths_returns (buildGraph entities) (S (length entities))) with
    (es := entities) (v := (∅ : gmap string nat)) as [[out|] ->].
  - pose proof (buildGraph_size entities). lia.
  - destruct reverse; eauto.
  - eauto.
Qed.

(** It raises no exception when no column points at an inherited member. *)
Lemma calculateEntityDepth_total (entities : list Entity) (reverse : bool) :
  plainTargets entities = true ->
  exists out, calculateEntityDepth entities reverse = Some (Ok out).
Proof.
  intros Hp. unfold calculateEntityDepth.
  destruct (assignDepths_total (buildGraph entities) (S (length entities))
              (buildGraph_closed entities Hp) entities ∅) as [out ->].
  - intros e He. apply buildGraph_is_Some, list_elem_of_fmap. exists e. split; [reflexivity|exact He].
  - pose proof (buildGraph_size entities). lia.
  - destruct reverse; eauto.
Qed.

End DepthTermination.

(** ** Depths on an acyclic dependency graph *)

Section DepthAcyclic.
Import JS SQLParser.
Local Open Scope nat_scope.

Variable g : gmap string (list string).
Variable rank : string -> nat.
Hypothesis Hclosed : closed g.
Hypothesis Hrank : forall k refs r, g !! k = Some refs -> r ∈ refs -> rank r < rank k.

Lemma depthIn_ext v v' refs :
  (forall r, r ∈ refs -> v !! r = v' !! r) ->
  List.map (depthIn v) refs = List.map (depthIn v') refs.
Proof.
  intros H. apply map_ext_in. intros r Hr. unfold depthIn.
  rewrite H; [reflexivity|]. apply list_elem_of_In, Hr.
Qed.

Lemma consistent_insert v x refs :
  consistent g v -> v !! x = None -> g !! x = Some refs ->
  (forall r, r ∈ refs -> is_Some (v !! r)) ->
  consistent g (<[x := S (max_list (List.map (depthIn v) refs))]> v).
Proof.
  intros Hc Hx Hg Hall k d Hk.
  assert (Hfresh : forall rs : list string, (forall r, r ∈ rs -> is_Some (v !! r)) ->
            forall r, r ∈ rs -> v !! r = <[x := S (max_list (List.map (depthIn v) refs))]> v !! r).
  { intros rs Hrs r Hr. rewrite lookup_insert_ne; [reflexivity|].
    intros ->. destruct (Hrs r Hr) as [? E]. congruence. }
  apply lookup_insert_Some in Hk as [[<- <-]|[Hne Hk]].
  - exists refs. split; [exact Hg|]. split.
    + intros r Hr. rewrite <- (Hfresh refs Hall r Hr). auto.
    + rewrite <- (depthIn_ext _ _ refs (Hfresh refs Hall)). reflexivity.
  - destruct (Hc k d Hk) as (rs & Hrs & Hin & ->).
    exists rs. split; [exact Hrs|]. split.
    + intros r Hr. rewrite <- (Hfresh rs Hin r Hr). auto.
    + rewrite <- (depthIn_ext _ _ rs (Hfresh rs Hin)). reflexivity.
Qed.

Lemma eachParent_acyclic call x (refs : list string) :
  (forall p v d v', p ∈ refs -> consistent g v -> call p v = Some (Ok (d, v')) -> dfs_post g rank p v d v') ->
  (forall p, p ∈ refs -> rank p < rank x) ->
  forall ps v ds v',
    (forall p, p ∈ ps -> p ∈ refs) ->
    consistent g v ->
    eachParent call ps v = Some (Ok (ds, v')) ->
    consistent g v' /\ v ⊆ v'
    /\ Forall2 (fun p d => v' !! p = Some d) ps ds
    /\ (forall k, v !! k = None -> is_Some (v' !! k) -> rank k < rank x).
Proof.
  intros Hcall Hlt. induction ps as [|p ps IH]; intros v ds v' Hps Hc H; simpl in H.
  - injection H as <- <-. split; [exact Hc|]. split; [reflexivity|].
    split; [constructor|]. intros k Hk [? E]. congruence.
  - destruct (call p v) as [[[d va]|]|] eqn:Ecall; [|discriminate..].
    destruct (eachParent call ps va) as [[[ds' vb]|]|] eqn:Erest; [|discriminate..].
    injection H as <- <-.
    assert (Hp : p ∈ refs) by (apply Hps; left).
    destruct (Hcall p v d va Hp Hc Ecall) as (Hca & Hsub & Hd & Hnew).
    destruct (IH va ds' vb) as (Hcb & Hsub' & Hall & Hnew'); [|exact Hca|exact Erest|].
    { intros q Hq. apply Hps. right. exact Hq. }
    split; [exact Hcb|]. split; [etransitivity; eassumption|]. split.
    + constructor; [|exact Hall]. eapply lookup_weaken; eassumption.
    + intros k Hk Hk'. destruct (va !! k) as [dk|] eqn:Eva.
      * specialize (Hnew k Hk (ltac:(eauto))). specialize (Hlt p Hp). lia.
      * apply Hnew'; assumption.
Qed.

Lemma Forall2_depths v ps ds :
  Forall2 (fun p d => v !! p = Some d) ps ds -> List.map (depthIn v) ps = ds.
Proof.
  induction 1 as [|p d ps ds Hp _ IH]; [reflexivity|].
  simpl. unfold depthIn at 1. rewrite Hp, IH. reflexivity.
Qed.

Lemma dfs_acyclic fuel :
  forall x seen v d v',
    dfs g fuel x seen v = Some (Ok (d, v')) ->
    consistent g v -> is_Some (g !! x) ->
    (forall s, s ∈ seen -> rank x < rank s) ->
    dfs_post g rank x v d v'.
Proof.
  induction fuel as [|fuel IH]; intros x seen v d v' H Hc Hx Hseen; [discriminate|].
  simpl in H. destruct (v !! x) as [d0|] eqn:Ev.
  - injection H as <- <-. split; [exact Hc|]. split; [reflexivity|]. split; [exact Ev|].
    intros k Hk [? E]. congruence.
  - case_bool_decide as Hin.
    { specialize (Hseen x Hin). lia. }
    destruct Hx as [refs Hrefs]. rewrite (parentsOf_own g x refs Hrefs) in H.
    destruct (eachParent _ refs v) as [[[ds v1]|]|] eqn:Eeach; [|discriminate..].
    injection H as <- <-.
    destruct (eachParent_acyclic (fun p w => dfs g fuel p ({[x]} ∪ seen) w) x refs)
      with (ps := refs) (v := v) (ds := ds) (v' := v1)
      as (Hc1 & Hsub & Hall & Hnew); auto.
    { intros p w dp w' Hp Hcw Hcall. eapply IH; [exact Hcall|exact Hcw| |].
      - eapply Hclosed; eassumption.
      - intros s Hs. apply elem_of_union in Hs as [Hs|Hs].
        + apply elem_of_singleton in Hs as ->. eapply Hrank; eassumption.
        + specialize (Hseen s Hs). specialize (Hrank x refs p Hrefs Hp). lia. }
    { intros p Hp. eapply Hrank; eassumption. }
    assert (Hx1 : v1 !! x = None).
    { destruct (v1 !! x) as [dx|] eqn:E; [|reflexivity].
      specialize (Hnew x Ev (ltac:(eauto))). lia. }
    assert (Hin1 : forall r, r ∈ refs -> is_Some (v1 !! r)).
    { intros r Hr. apply list_elem_of_lookup in Hr as [i Hi].
      destruct (Forall2_lookup_l _ _ _ _ _ Hall Hi) as (dr & _ & Hdr). eauto. }
    assert (Hd : (if (0 <? length refs) then max_list ds else 0) + 1
                 = S (max_list (List.map (depthIn v1) refs))).
    { rewrite (Forall2_depths v1 refs ds Hall).
      destruct refs; [inversion Hall; subst; reflexivity|]. simpl. lia. }
    rewrite Hd. split; [apply consistent_insert; assumption|].
    split; [etransitivity; [exact Hsub|apply insert_subseteq, Hx1]|].
    split; [apply lookup_insert_eq|].
    intros k Hk Hk'. destruct (decide (k = x)) as [->|Hne]; [lia|].
    rewrite lookup_insert_ne in Hk' by congruence.
    specialize (Hnew k Hk Hk'). lia.
Qed.

Lemma assignDepths_acyclic fuel :
  forall es v out,
    assignDepths g fuel es v = Some (Ok out) ->
    consistent g v ->
    (forall e, e ∈ es -> is_Some (g !! name e)) ->
    exists v', consistent g v' /\ v ⊆ v'
      /\ Forall2 (fun e o => exists d, o = setDepth d e /\ v' !! name e = Some d) es out.
Proof.
  induction es as [|e es IH]; intros v out H Hc Hes; simpl in H.
  - injection H as <-. exists v. split; [exact Hc|]. split; [reflexivity|constructor].
  - destruct (dfs g fuel (name e) ∅ v) as [[[d v1]|]|] eqn:Edfs; [|discriminate..].
    destruct (assignDepths g fuel es v1) as [[out'|]|] eqn:Erest; [|discriminate..].
    injection H as <-.
    destruct (dfs_acyclic fuel (name e) ∅ v d v1 Edfs Hc) as (Hc1 & Hsub & Hd & _).
    { apply Hes. left. }
    { intros s Hs. set_solver. }
    destruct (IH v1 out' Erest Hc1) as (v2 & Hc2 & Hsub2 & Hall).
    { intros e' He'. apply Hes. right. exact He'. }
    exists v2. split; [exact Hc2|]. split; [etransitivity; eassumption|].
    constructor; [|exact Hall].
    exists d. split; [reflexivity|]. eapply lookup_weaken; eassumption.
Qed.

End DepthAcyclic.

(** ** Claims about the dependency depth calculator *)

Section DepthClaims.
Import JS SQLParser.
Local Open Scope nat_scope.

Lemma setDepth_withDepth (e : Entity) (d : nat) : withDepth e d (setDepth d e).
Proof. repeat split. Qed.


(** C2, as amended.  When entity names are distinct, no column points at a
    member of [Object.prototype] and the inferred references are acyclic
    (some rank decreases along every reference), [calculateEntityDepth]
    returns the entities with depth 1 for an entity without references and
    1 + the largest depth of its references otherwise. *)
Theorem calculateEntityDepth_acyclic (entities : list Entity) (rank : string -> nat) :
  NoDup (List.map name entities) ->
  plainTargets entities = true ->
  respectsRank rank entities = true ->
  depth_recurrence entities.
Proof.
  intros Hnd Hp Hacyc.
  assert (Hrank : forall k refs r,
            buildGraph entities !! k = Some refs -> r ∈ refs -> rank r < rank k).
  { intros k refs r Hk Hr. apply buildGraph_lookup in Hk as (e & He & <- & ->).
    unfold respectsRank in Hacyc. rewrite forallb_forall in Hacyc.
    specialize (Hacyc e (proj1 (list_elem_of_In _ _) He)).
    rewrite forallb_forall in Hacyc.
    apply Nat.ltb_lt, Hacyc, list_elem_of_In, Hr. }
  assert (Hkeys : forall e, e ∈ entities -> is_Some (buildGraph entities !! name e)).
  { intros e He. apply buildGraph_is_Some, list_elem_of_fmap. exists e. auto. }
  destruct (calculateEntityDepth_total entities false Hp) as [out Hout].
  pose proof Hout as Hout'. unfold calculateEntityDepth in Hout'.
  destruct (assignDepths _ _ entities ∅) as [[out'|]|] eqn:Eassign; [|discriminate..].
  injection Hout' as ->.
  destruct (assignDepths_acyclic (buildGraph entities) rank (buildGraph_closed entities Hp) Hrank
              _ entities ∅ out Eassign) as (v & Hc & _ & Hall); [|exact Hkeys|].
  { intros k d Hk. rewrite lookup_empty in Hk. discriminate. }
  exists (depthIn v), out. split; [exact Hout|]. split.
  - eapply Forall2_impl; [exact Hall|].
    intros e o (d & -> & Hd). unfold depthIn. rewrite Hd. apply setDepth_withDepth.
  - intros e He.
    assert (Hg : buildGraph entities !! name e = Some (refsOf entities e)).
    { unfold buildGraph, refsOf.
      change (fold_left _ entities ∅)
        with (insertAll (references (buildNameToEntity entities)) entities ∅).
      apply insertAll_NoDup; assumption. }
    apply list_elem_of_lookup in He as [i Hi].
    destruct (Forall2_lookup_l _ _ _ _ _ Hall Hi) as (o & _ & d & _ & Hd).
    destruct (Hc _ _ Hd) as (refs & Hrefs & _ & ->).
    rewrite Hg in Hrefs. injection Hrefs as <-.
    unfold depthIn at 1. rewrite Hd. reflexivity.
Qed.

(** The diamond: [b] and [c] reference [a], [d] references [b] and [c]. *)
Lemma calculateEntityDepth_acyclic_witness :
  depth_recurrence diamond
  /\ match calculateEntityDepth diamond false with
     | Some (Ok out) => List.map (fun o => (name o, depth o)) out
     | _ => []
     end = [ ("a", Some 1); ("b", Some 2); ("c", Some 2); ("d", Some 3) ].
Proof.
  split.
  - apply (calculateEntityDepth_acyclic diamond diamond_rank).
    + apply (bool_decide_unpack _). vm_compute. exact I.
    + vm_compute. reflexivity.
    + vm_compute. reflexivity.
  - vm_compute. reflexivity.
Defined.

(** C2, as stated, fails on a cycle: with [a] and [b] referencing each other
    the depths are 2 and 1, and 1 is not 1 + 2.  It fails when two entities
    share a name: the graph keeps the references of the later one.  And it
    fails for an entity with a column [constructor_id]: the search reads
    [graph.constructor], a function, as a list of parents, and the call of
    its [map] raises a TypeError. *)
Lemma depth_recurrence_fails_on_cycle :
  ~ depth_recurrence cycle2
  /\ ~ depth_recurrence same_name
  /\ ~ depth_recurrence [entity "a" ["id"; "constructor_id"]]
  /\ calculateEntityDepth [entity "a" ["id"; "constructor_id"]] false = Some Throw.
Proof.
  split; [|split; [|split]].
  - intros (D & out & Hout & Hall & Hrec).
    assert (Hb : D "b" = S (max_list (List.map D (refsOf cycle2 (entity "b" ["id"; "a_id"]))))).
    { apply (Hrec (entity "b" ["id"; "a_id"])). right. left. }
    vm_compute in Hout. injection Hout as <-.
    apply Forall2_cons in Hall as [(_ & _ & Ha) Hall].
    apply Forall2_cons in Hall as [(_ & _ & Hb') _].
    simpl in Ha, Hb'. injection Ha as Ha. injection Hb' as Hb'.
    change (refsOf cycle2 (entity "b" ["id"; "a_id"])) with ["a"] in Hb.
    simpl in Hb. rewrite <- Ha, <- Hb' in Hb. discriminate.
  - intros (D & out & Hout & Hall & Hrec).
    assert (Ha : D "a" = S (max_list (List.map D (refsOf same_name (entity "a" ["id"; "b_id"]))))).
    { apply (Hrec (entity "a" ["id"; "b_id"])). left. }
    vm_compute in Hout. injection Hout as <-.
    apply Forall2_cons in Hall as [(_ & _ & Ha1) Hall].
    apply Forall2_cons in Hall as [_ Hall].
    apply Forall2_cons in Hall as [(_ & _ & Hb) _].
    simpl in Ha1, Hb. injection Ha1 as Ha1. injection Hb as Hb.
    change (refsOf same_name (entity "a" ["id"; "b_id"])) with ["b"] in Ha.
    simpl in Ha. rewrite <- Ha1, <- Hb in Ha. discriminate.
  - intros (D & out & Hout & _). vm_compute in Hout. discriminate.
  - vm_compute. reflexivity.
Qed.

(** A member of [Object.prototype] without a positive [length] counts as an
    entity with no references: the column [toString_id] gives its holder
    depth 2. *)
Remark inherited_target_counts_as_entity :
  match calculateEntityDepth [entity "a" ["id"; "toString_id"]] false with
  | Some (Ok out) => List.map (fun o => (name o, depth o)) out
  | _ => []
  end = [("a", Some 2)].
Proof. vm_compute. reflexivity. Qed.







(** Two entities that reference each other. *)
Section TwoCycle.
Variables A B : Entity.
Hypothesis Hne : name A <> name B.
Hypothesis HAB : name B ∈ columnTargets (columns A).
Hypothesis HBA : name A ∈ columnTargets (columns B).
Hypothesis Hplain : plainTargets [A; B] = true.




End TwoCycle.




End DepthClaims.

(** ** Claims about the dialect type conversion *)

Section ConverterClaims.
Import JS SQLConverter.

Lemma lowerChar_upperChar (c : ascii) : Str.lowerChar (Str.upperChar c) = Str.lowerChar c.
Proof. destruct c as [[] [] [] [] [] [] [] []]; reflexivity. Qed.

Lemma toLowerCase_toUpperCase (s : string) :
  Str.toLowerCase (Str.toUpperCase s) = Str.toLowerCase s.
Proof.
  unfold Str.toLowerCase, Str.toUpperCase.
  induction s as [|c s IH]; [reflexivity|].
  cbn [Str.map]. rewrite lowerChar_upperChar, IH. reflexivity.
Qed.

Lemma upper_determines_lower (type word : string) :
  String.eqb (Str.toUpperCase type) word = true ->
  Str.toLowerCase type = Str.toLowerCase word.
Proof.
  intros H. apply String.eqb_eq in H.
  rewrite <- toLowerCase_toUpperCase, H. reflexivity.
Qed.

(** The types [isTinyInt1] and [isInteger] accept all start with a key of
    every mapping table. *)
Lemma isTinyInt1_has_prefix (type length : string) :
  isTinyInt1 type length = true ->
  lookupPrefix dbToMySQL type <> None /\ lookupPrefix dbToSqlite type <> None.
Proof.
  unfold isTinyInt1. intros H.
  apply orb_prop in H as [H|H]; [apply orb_prop in H as [H|H]; [apply andb_prop in H as [H _]|]|];
    apply upper_determines_lower in H; unfold dbToMySQL, dbToSqlite; cbn [lookupPrefix];
    rewrite H; split; vm_compute; discriminate.
Qed.

Lemma isInteger_has_prefix (type : string) :
  isInteger type = true -> lookupPrefix dbToMySQL type <> None.
Proof.
  unfold isInteger. intros H.
  repeat (apply orb_prop in H as [H|H]);
    apply upper_determines_lower in H; unfold dbToMySQL; cbn [lookupPrefix];
    rewrite H; vm_compute; discriminate.
Qed.

(** The part of C7 the code implements: a type [isTinyInt1] accepts is mapped
    to the boolean type of the target before any table is consulted. *)
Lemma isTinyInt1_is_boolean (type length : string) (enumValues : option (list string)) :
  isTinyInt1 type length = true ->
  toMySQLType type length enumValues = Ok "TINYINT(1)"
  /\ toSqliteType type length = "BOOLEAN".
Proof.
  intros H. unfold toMySQLType, toSqliteType. rewrite H. split; reflexivity.
Qed.

(** C7.  [BOOLEAN], [BIT] and [TINYINT] of length 1 are mapped to the boolean
    type of the target, but [BOOL], which the table parser accepts and the
    converter's own [isBoolean] lists, is not: it falls through to the
    default [TEXT]. *)
Theorem bool_type_is_not_treated_as_boolean :
  toMySQLType "BOOLEAN" "" None = Ok "TINYINT(1)"
  /\ toMySQLType "BIT" "" None = Ok "TINYINT(1)"
  /\ toMySQLType "TINYINT" "1" None = Ok "TINYINT(1)"
  /\ toSqliteType "BOOLEAN" "" = "BOOLEAN"
  /\ toSqliteType "BIT" "" = "BOOLEAN"
  /\ toSqliteType "TINYINT" "1" = "BOOLEAN"
  /\ isBoolean "BOOL" = true
  /\ isTinyInt1 "BOOL" "" = false
  /\ toMySQLType "BOOL" "" None = Ok "TEXT"
  /\ toSqliteType "BOOL" "" = "TEXT".
Proof. vm_compute. repeat split. Qed.

Lemma converter_does_not_pass_through :
  lookupPrefix dbToMySQL "UUID" = None
  /\ toMySQLType "UUID" "" None = Ok "TEXT"
  /\ ~ passes_through "UUID" "".
Proof.
  split; [reflexivity|]. split; [reflexivity|].
  unfold passes_through. vm_compute. discriminate.
Qed.

(** C8, as amended.  An ASCII type that starts with no key of the target's
    table and mentions none of the specially treated type names is converted
    to the default [TEXT] by [toMySQLType], [toSqliteType] and
    [toPostgreSQLType]; the fallback that returns the type string unchanged
    is that of [SQLParser.toMySqlType], for a non-empty type none of its
    patterns matches. *)
Theorem unmapped_type_fallback :
  (forall type length enumValues,
      allChars Str.isAscii type = true ->
      lookupPrefix dbToMySQL type = None ->
      mentions type "ENUM" = false -> mentions type "SET" = false ->
      mentions type "DECIMAL" = false -> mentions type "NUMERIC" = false ->
      toMySQLType type length enumValues = Ok "TEXT")
  /\ (forall type length,
      allChars Str.isAscii type = true ->
      lookupPrefix dbToSqlite type = None ->
      mentions type "ENUM" = false -> mentions type "SET" = false ->
      toSqliteType type length = "TEXT")
  /\ (forall type length,
      allChars Str.isAscii type = true ->
      lookupPrefix dbToPostgreSQL type = None ->
      mentions type "TINYINT" = false ->
      mentions type "ENUM" = false -> mentions type "SET" = false ->
      toPostgreSQLType type length = "TEXT")
  /\ (forall sqliteType,
      allChars Str.isAscii sqliteType = true ->
      sqliteType <> ""%string ->
      SQLParser.firstMatch (Str.toUpperCase (Str.trim sqliteType)) SQLParser.typeMap = None ->
      SQLParser.toMySqlType sqliteType = sqliteType).
Proof.
  repeat split.
  - intros type length enumValues _ Hp He Hs Hd Hn.
    unfold toMySQLType.
    destruct (isTinyInt1 type length) eqn:E1.
    { apply isTinyInt1_has_prefix in E1 as [E1 _]. contradiction. }
    destruct (isInteger type) eqn:E2.
    { apply isInteger_has_prefix in E2. contradiction. }
    simpl andb. cbv iota. unfold mapped. rewrite Hp, He, Hs, Hd, Hn. reflexivity.
  - intros type length _ Hp He Hs.
    unfold toSqliteType.
    destruct (isTinyInt1 type length) eqn:E1.
    { apply isTinyInt1_has_prefix in E1 as [_ E1]. contradiction. }
    unfold mapped. rewrite Hp, He, Hs. reflexivity.
  - intros type length _ Hp Ht He Hs.
    unfold toPostgreSQLType, mapped. rewrite Hp, Ht, He, Hs. reflexivity.
  - intros sqliteType _ Hne Hm.
    unfold SQLParser.toMySqlType. rewrite Hm.
    destruct (String.eqb_spec sqliteType ""); [contradiction|reflexivity].
Qed.

Lemma unmapped_type_fallback_witness :
  toMySQLType "UUID" "" None = Ok "TEXT"
  /\ toSqliteType "UUID" "" = "TEXT"
  /\ toPostgreSQLType "UUID" "" = "TEXT"
  /\ SQLParser.toMySqlType "UUID" = "UUID".
Proof.
  destruct unmapped_type_fallback as (H1 & H2 & H3 & H4).
  split; [apply H1; reflexivity|].
  split; [apply H2; reflexivity|].
  split; [apply H3; reflexivity|].
  apply H4; [reflexivity|discriminate|reflexivity].
Defined.

End ConverterClaims.

(** ** The statement splitter reads a script line by line *)

Section SplitterLines.
Import JS TableParser.

Lemma prefix_nil (s : string) : String.prefix "" s = true.
Proof. destruct s; reflexivity. Qed.

Lemma prefix_cons (a b : ascii) (p s : string) :
  String.prefix (String a p) (String b s) = if ceqb a b then String.prefix p s else false.
Proof.
  simpl. unfold ceqb. destruct (ascii_dec a b) as [->|Hne].
  - rewrite Ascii.eqb_refl. reflexivity.
  - apply Ascii.eqb_neq in Hne. rewrite Hne. reflexivity.
Qed.

Lemma ceqb_sym (a b : ascii) : ceqb a b = ceqb b a.
Proof. unfold ceqb. apply Ascii.eqb_sym. Qed.

Lemma isLine_cons (c : ascii) (l : string) :
  isLine (String c l) = true -> ceqb LF c = false /\ ceqb CR c = false /\ isLine l = true.
Proof.
  unfold isLine. cbn [allChars]. intros H.
  apply andb_prop in H as [H Hl]. apply andb_prop in H as [H1 H2].
  apply negb_true_iff in H1, H2. rewrite (ceqb_sym LF), (ceqb_sym CR). auto.
Qed.

Lemma replace_nl_line (l : string) : forall rest,
  isLine l = true ->
  Str.replaceAllGo NL CRLF (l +:+ rest) 0 = l +:+ Str.replaceAllGo NL CRLF rest 0.
Proof.
  induction l as [|c l IH]; intros rest Hl; [reflexivity|].
  apply isLine_cons in Hl as (H1 & _ & Hl).
  rewrite !append_cons. cbn [Str.replaceAllGo]. unfold NL at 1.
  rewrite prefix_cons, H1, IH by exact Hl. reflexivity.
Qed.

Lemma replace_nl_break (rest : string) :
  Str.replaceAllGo NL CRLF (NL +:+ rest) 0 = CRLF +:+ Str.replaceAllGo NL CRLF rest 0.
Proof.
  unfold NL. rewrite append_cons, append_nil_l. cbn [Str.replaceAllGo].
  rewrite prefix_cons, prefix_nil. reflexivity.
Qed.

Lemma replace_nl_join (ls : list string) :
  forallb isLine ls = true ->
  Str.replaceAll (Str.join ls NL) NL CRLF = Str.join ls CRLF.
Proof.
  unfold Str.replaceAll. induction ls as [|l ls IH]; intros H; [reflexivity|].
  simpl in H. apply andb_prop in H as [Hl Hls].
  destruct ls as [|l' ls].
  - simpl. rewrite <- (append_nil_r l) at 1. rewrite replace_nl_line by exact Hl.
    simpl. apply append_nil_r.
  - change (Str.join (l :: l' :: ls) NL) with (l +:+ NL +:+ Str.join (l' :: ls) NL).
    change (Str.join (l :: l' :: ls) CRLF) with (l +:+ CRLF +:+ Str.join (l' :: ls) CRLF).
    rewrite replace_nl_line by exact Hl. rewrite replace_nl_break, IH by exact Hls.
    reflexivity.
Qed.

Lemma replace_cr_line (l : string) : forall rest,
  isLine l = true ->
  Str.replaceAllGo (String CR CRLF) CRLF (l +:+ rest) 0
  = l +:+ Str.replaceAllGo (String CR CRLF) CRLF rest 0.
Proof.
  induction l as [|c l IH]; intros rest Hl; [reflexivity|].
  apply isLine_cons in Hl as (_ & H2 & Hl).
  rewrite !append_cons. cbn [Str.replaceAllGo].
  rewrite prefix_cons, H2, IH by exact Hl. reflexivity.
Qed.

Lemma replace_cr_break (rest : string) :
  Str.replaceAllGo (String CR CRLF) CRLF (CRLF +:+ rest) 0
  = CRLF +:+ Str.replaceAllGo (String CR CRLF) CRLF rest 0.
Proof.
  unfold CRLF. rewrite !append_cons, append_nil_l. cbn [Str.replaceAllGo].
  rewrite !prefix_cons. reflexivity.
Qed.

Lemma replace_cr_join (ls : list string) :
  forallb isLine ls = true ->
  Str.replaceAll (Str.join ls CRLF) (String CR CRLF) CRLF = Str.join ls CRLF.
Proof.
  unfold Str.replaceAll. induction ls as [|l ls IH]; intros H; [reflexivity|].
  simpl in H. apply andb_prop in H as [Hl Hls].
  destruct ls as [|l' ls].
  - simpl. rewrite <- (append_nil_r l) at 1. rewrite replace_cr_line by exact Hl.
    simpl. apply append_nil_r.
  - change (Str.join (l :: l' :: ls) CRLF) with (l +:+ CRLF +:+ Str.join (l' :: ls) CRLF).
    rewrite replace_cr_line by exact Hl. rewrite replace_cr_break, IH by exact Hls.
    reflexivity.
Qed.

Lemma split_line (l : string) : forall rest cur,
  isLine l = true ->
  Str.splitGo CRLF (l +:+ rest) cur 0 = Str.splitGo CRLF rest (cur +:+ l) 0.
Proof.
  induction l as [|c l IH]; intros rest cur Hl.
  - rewrite append_nil_l, append_nil_r. reflexivity.
  - apply isLine_cons in Hl as (_ & H2 & Hl).
    rewrite append_cons. cbn [Str.splitGo]. unfold CRLF at 1.
    rewrite prefix_cons, H2, IH by exact Hl.
    unfold push. rewrite append_assoc. reflexivity.
Qed.

Lemma split_break (rest cur : string) :
  Str.splitGo CRLF (CRLF +:+ rest) cur 0 = cur :: Str.splitGo CRLF rest "" 0.
Proof.
  unfold CRLF. rewrite !append_cons, append_nil_l. cbn [Str.splitGo].
  rewrite !prefix_cons, prefix_nil. reflexivity.
Qed.

Lemma split_join (ls : list string) :
  forallb isLine ls = true -> ls <> [] ->
  Str.split (Str.join ls CRLF) CRLF = ls.
Proof.
  unfold Str.split. induction ls as [|l ls IH]; intros H Hne; [contradiction|].
  simpl in H. apply andb_prop in H as [Hl Hls].
  destruct ls as [|l' ls].
  - simpl. rewrite <- (append_nil_r l) at 1. rewrite split_line by exact Hl. reflexivity.
  - change (Str.join (l :: l' :: ls) CRLF) with (l +:+ CRLF +:+ Str.join (l' :: ls) CRLF).
    rewrite split_line by exact Hl. rewrite split_break, IH by (exact Hls || discriminate).
    reflexivity.
Qed.

(** The first pass on a script given as its lines. *)
Lemma keptLines_join (ls : list string) :
  forallb isLine ls = true ->
  keptLines (Str.join ls NL) = List.filter keepLine (List.map Str.trim ls).
Proof.
  intros H. unfold keptLines, splitLines.
  rewrite replace_nl_join, replace_cr_join by exact H.
  destruct ls as [|l ls]; [reflexivity|].
  rewrite split_join by (exact H || discriminate). reflexivity.
Qed.

End SplitterLines.

(** ** Claims about the statement splitter *)

Section SplitterClaims.
Import JS TableParser.

Lemma filter_trim_filter (ls : list string) :
  List.filter keepLine (List.map Str.trim (List.filter (fun l => keepLine (Str.trim l)) ls))
  = List.filter keepLine (List.map Str.trim ls).
Proof.
  induction ls as [|l ls IH]; [reflexivity|].
  simpl. destruct (keepLine (Str.trim l)) eqn:E; simpl; rewrite ?E, IH; reflexivity.
Qed.

Lemma forallb_filter {A : Type} (p q : A -> bool) (l : list A) :
  forallb p l = true -> forallb p (List.filter q l) = true.
Proof.
  induction l as [|x l IH]; [reflexivity|].
  simpl. intros H. apply andb_prop in H as [Hx Hl].
  destruct (q x); simpl; rewrite ?Hx; auto.
Qed.

(** A script given as its lines is split into the same statements as the
    script without the lines that the first pass drops. *)
Lemma parseSQL_discards_comment_and_blank_lines (ls : list string) :
  forallb isLine ls = true ->
  parseSQL (Str.join ls NL)
  = parseSQL (Str.join (List.filter (fun l => keepLine (Str.trim l)) ls) NL).
Proof.
  intros H. unfold parseSQL.
  rewrite (keptLines_join ls H).
  rewrite (keptLines_join _ (forallb_filter isLine _ ls H)).
  rewrite filter_trim_filter. reflexivity.
Qed.

Lemma parseSQL_discards_comment_and_blank_lines_witness :
  parseSQL (Str.join sample_script NL)
  = parseSQL (Str.join ["SELECT 1,"; "2;"; "SELECT 3;"] NL).
Proof.
  apply (parseSQL_discards_comment_and_blank_lines sample_script). reflexivity.
Defined.

End SplitterClaims.

(** ** Claims about the row values and INSERT statements *)

Section InsertClaims.
Import JS TableParser.

(** C6.  The row text [1, 'Alice, Jr', NULL, TRUE] is parsed into the number
    1, the string [Alice, Jr], null and true; the keywords are recognised in
    any case. *)
Theorem parseRow_example :
  parseRow "1, 'Alice, Jr', NULL, TRUE"
  = [ Value.Number (Num.Dec false 1 0); Value.Str "Alice, Jr"; Value.Null; Value.Bool true ]
  /\ parseRow "null, True, fAlSe, false"
     = [ Value.Null; Value.Bool true; Value.Bool false; Value.Bool false ].
Proof. split; vm_compute; reflexivity. Qed.

(** The row objects: every listed column other than [__proto__] is a key,
    and with distinct column names the column at position [i] is mapped to
    the value at position [i], or to [undefined] when the row is too
    short. *)
Lemma zipRow_lookup_other (columns : list string) : forall values obj bare c,
  c ∉ columns -> zipRow columns values obj bare !! c = obj !! c.
Proof.
  induction columns as [|x columns IH]; intros values obj bare c Hc; [reflexivity|].
  apply not_elem_of_cons in Hc as [Hne Hc]. simpl.
  destruct (String.eqb x "__proto__" && negb bare); rewrite IH by exact Hc; [reflexivity|].
  apply lookup_insert_ne. congruence.
Qed.

Lemma zipRow_positional (columns : list string) : forall values obj bare i c,
  NoDup columns -> columns !! i = Some c -> c <> "__proto__"%string ->
  zipRow columns values obj bare !! c = Some (nth i values Value.Undefined).
Proof.
  induction columns as [|x columns IH]; intros values obj bare i c Hnd Hi Hc; [discriminate|].
  apply NoDup_cons in Hnd as [Hx Hnd]. destruct i as [|i]; simpl in *.
  - injection Hi as ->. apply String.eqb_neq in Hc. rewrite Hc. simpl.
    rewrite zipRow_lookup_other by exact Hx.
    rewrite lookup_insert_eq. destruct values; reflexivity.
  - destruct (String.eqb x "__proto__" && negb bare);
      rewrite (IH _ _ _ i c Hnd Hi Hc); destruct values; try destruct i; reflexivity.
Qed.

(** A column called [__proto__] makes no key of the row, whatever value the
    row has for it, until the value [null] has taken the prototype away. *)
Remark zipRow_proto_column :
  zipRow ["__proto__"; "a"] [Value.Str "x"; Value.Bool true] ∅ false
  = {[ "a" := Value.Bool true ]}
  /\ zipRow ["__proto__"; "__proto__"] [Value.Null; Value.Bool true] ∅ false
     = {[ "__proto__" := Value.Bool true ]}.
Proof. split; reflexivity. Qed.

(** C10.  With a column list the rows are the column names mapped to the
    values at their positions; without one the rows are empty objects and
    the parsed values are not part of the result. *)
Theorem parseInsertQuery_without_columns_loses_values :
  parseInsertQuery "INSERT INTO orders (id, customer_id) VALUES (1,1),(2,1)"
  = Ok (Some {| tableName := "orders"; columns := ["id"; "customer_id"];
                rows := [ <["customer_id" := Value.Number (Num.Dec false 1 0)]>
                            (<["id" := Value.Number (Num.Dec false 1 0)]> ∅);
                          <["customer_id" := Value.Number (Num.Dec false 1 0)]>
                            (<["id" := Value.Number (Num.Dec false 2 0)]> ∅) ] |})
  /\ List.map parseRow (extractRowStrings "(1, 'a')")
     = [[Value.Number (Num.Dec false 1 0); Value.Str "a"]]
  /\ parseInsertQuery "INSERT INTO t VALUES (1, 'a')"
     = Ok (Some {| tableName := "t"; columns := []; rows := [∅] |}).
Proof. repeat split; vm_compute; reflexivity. Qed.

End InsertClaims.

(** ** Claims about the CREATE TABLE parser *)

Section TableClaims.
Import JS TableParser.

(** C4.  [parseTable] sets [AutoIncrement] from the column's own line alone:
    it is true for the auto-increment column of a single-key table, and
    stays true when a second column carries a primary-key marker, when the
    table declares a composite key, and when an earlier column is
    auto-increment already.  Columns are listed as name, key flag, nullable
    flag, auto-increment flag. *)
Theorem autoIncrement_ignores_other_columns :
  keyFlags (parseAll auto_increment_script)
  = Some [ ("customers", [("id", true, false, true); ("name", false, false, false)]);
           ("members", [("id", true, false, true); ("tenant_id", true, false, false)]);
           ("items", [("order_id", true, true, true); ("line_no", true, true, false)]);
           ("counters", [("a", false, true, true); ("b", false, true, true)]) ].
Proof. vm_compute. reflexivity. Qed.

(** C5.  A column flagged as primary key on its own line is made not
    nullable, but a column flagged afterwards by a table-level PRIMARY KEY
    line keeps the nullable flag it had: [id] of the second table below ends
    with both flags true. *)
Theorem table_level_primary_key_stays_nullable :
  keyFlags (parseAll primary_key_script)
  = Some [ ("users", [("id", true, false, false); ("name", false, true, false)]);
           ("accounts", [("id", true, true, false); ("name", false, true, false)]) ].
Proof. vm_compute. reflexivity. Qed.

End TableClaims.

(** ** The matcher never runs out of fuel *)

Section MatcherFuel.
Import Regex.
Local Open Scope nat_scope.

Variable fl : flags.

Lemma further_refl st : further st st.
Proof. split; reflexivity. Qed.

Lemma further_trans st1 st2 st3 : further st1 st2 -> further st2 st3 -> further st1 st3.
Proof. unfold further. intros [? ?] [? ?]. split; lia. Qed.

Lemma step_fuel p st k :
  (forall st', further st st' -> k st' <> OutOfFuel) -> step p st k <> OutOfFuel.
Proof.
  intros Hk. unfold step. destruct (rest st) as [|c s] eqn:E; [discriminate|].
  destruct (p c); [|discriminate].
  apply Hk. unfold further. simpl. rewrite E. simpl. split; lia.
Qed.

Lemma run_fuel : forall fuel r st k,
  String.length (rest st) < fuel ->
  (forall st', further st st' -> k st' <> OutOfFuel) ->
  run fl fuel r st k <> OutOfFuel.
Proof.
  induction fuel as [|fuel IHfuel]; intros r st k Hlen Hk; [lia|].
  revert st k Hlen Hk.
  induction r as [| | | |a IHa b IHb|a IHa b IHb|g a IHa|a IHa|n a IHa| | |];
    intros st k Hlen Hk.
  - apply Hk, further_refl.
  - apply step_fuel, Hk.
  - apply step_fuel, Hk.
  - apply step_fuel, Hk.
  - change (run fl (S fuel) a st (fun st' => run fl (S fuel) b st' k) <> OutOfFuel).
    apply IHa; [exact Hlen|]. intros st' Hst'.
    apply IHb; [destruct Hst'; lia|].
    intros st'' Hst''. apply Hk. eapply further_trans; eassumption.
  - change ((match run fl (S fuel) a st k with
             | NoMatch => run fl (S fuel) b st k
             | o => o
             end) <> OutOfFuel).
    specialize (IHa st k Hlen Hk). specialize (IHb st k Hlen Hk).
    destruct (run fl (S fuel) a st k); assumption || discriminate.
  - assert (Hiter : run fl (S fuel) a st
              (fun st' => if advanced st st' then run fl fuel (Star g a) st' k else NoMatch)
              <> OutOfFuel).
    { apply IHa; [exact Hlen|]. intros st' Hst'.
      destruct (advanced st st') eqn:Eadv; [|discriminate].
      apply Nat.ltb_lt in Eadv. apply IHfuel; [destruct Hst'; lia|].
      intros st'' Hst''. apply Hk. eapply further_trans; eassumption. }
    specialize (Hk st (further_refl st)).
    change ((if g
             then match run fl (S fuel) a st
                          (fun st' => if advanced st st'
                                      then run fl fuel (Star g a) st' k else NoMatch) with
                  | NoMatch => k st
                  | o => o
                  end
             else match k st with
                  | NoMatch =>
                    run fl (S fuel) a st
                      (fun st' => if advanced st st'
                                  then run fl fuel (Star g a) st' k else NoMatch)
                  | o => o
                  end) <> OutOfFuel).
    destruct g.
    + destruct (run fl (S fuel) a st _); assumption || discriminate.
    + destruct (k st); assumption || discriminate || contradiction.
  - change ((match run fl (S fuel) a st (fun st' => if advanced st st' then k st' else NoMatch) with
             | NoMatch => k st
             | o => o
             end) <> OutOfFuel).
    assert (Hiter : run fl (S fuel) a st (fun st' => if advanced st st' then k st' else NoMatch)
                    <> OutOfFuel).
    { apply IHa; [exact Hlen|]. intros st' Hst'.
      destruct (advanced st st'); [apply Hk, Hst'|discriminate]. }
    specialize (Hk st (further_refl st)).
    destruct (run fl (S fuel) a st _); assumption || discriminate.
  - change (run fl (S fuel) a st (fun st' => k (capture n st st')) <> OutOfFuel).
    apply IHa; [exact Hlen|]. intros st' Hst'. apply Hk. exact Hst'.
  - specialize (Hk st (further_refl st)). simpl.
    destruct (Nat.eqb (pos st) 0 || (multiline fl && atLineTerminator (prev st)));
      assumption || discriminate.
  - specialize (Hk st (further_refl st)). simpl.
    destruct (rest st) as [|c s]; [assumption|].
    destruct (multiline fl && Str.isLineTerminator c); assumption || discriminate.
  - specialize (Hk st (further_refl st)). simpl.
    destruct (xorb (atWord (prev st)) (atWord (next st))); assumption || discriminate.
Qed.

(** A match attempt either finds a match or fails: [exec], [test] and the
    replacement functions never mistake an exhausted search for a failure. *)
Lemma matchHere_decides (r : regex) (before : option ascii) (s : string) (i : nat) :
  matchHere fl r before s i <> OutOfFuel.
Proof.
  unfold matchHere. apply run_fuel; [simpl; lia|]. discriminate.
Qed.

End MatcherFuel.

(** ** Depths on any dependency graph, and the order by depth *)

Section DepthBounds.
Import JS SQLParser.
Local Open Scope nat_scope.

Lemma gapless_below v k d :
  gapless v -> v !! k = Some d -> forall j, 1 <= j <= d -> exists q, v !! q = Some j.
Proof.
  intros Hg. revert k. induction d as [|d IH]; intros k Hk j Hj; [lia|].
  destruct (decide (j = S d)) as [->|Hne]; [eauto|].
  destruct (Hg k (S d) Hk) as [_ Hq]. destruct Hq as [q Hq]; [lia|].
  replace (S d - 1) with d in Hq by lia.
  apply (IH q Hq). lia.
Qed.

Lemma values_fit : forall d (v : gmap string nat),
  (forall j, 1 <= j <= d -> exists q, v !! q = Some j) -> d <= size (dom v).
Proof.
  induction d as [|d IH]; intros v H; [lia|].
  destruct (H (S d)) as [q Hq]; [lia|].
  assert (Hd : d <= size (dom (delete q v))).
  { apply IH. intros j Hj. destruct (H j) as [q' Hq']; [lia|].
    exists q'. rewrite lookup_delete_ne; [exact Hq'|]. intros ->. rewrite Hq in Hq'.
    injection Hq' as E. lia. }
  rewrite dom_delete_L in Hd.
  assert (Hin : q ∈ dom v) by (apply elem_of_dom; eauto).
  assert (size (dom v) = size (dom v ∖ {[q]}) + 1).
  { rewrite (union_difference_L {[q]} (dom v)) at 1 by (apply singleton_subseteq_l, Hin).
    rewrite size_union by (intros x Hx1 Hx2; apply elem_of_difference in Hx2 as [_ Hx2]; contradiction).
    rewrite size_singleton. lia. }
  lia.
Qed.

Lemma gapless_bound v k d : gapless v -> v !! k = Some d -> d <= size (dom v).
Proof. intros Hg Hk. apply values_fit. eapply gapless_below; eassumption. Qed.

Lemma max_list_cases (l : list nat) : max_list l = 0 \/ max_list l ∈ l.
Proof.
  induction l as [|x l IH]; [left; reflexivity|]. simpl.
  destruct (Nat.max_spec x (max_list l)) as [[_ ->]|[_ ->]].
  - destruct IH as [->|IH]; [left; reflexivity|right; right; exact IH].
  - right. left.
Qed.

Variable g : gmap string (list string).
Hypothesis Hclosed : closed g.

Lemma seenOrMemo_weaken v v' d : v ⊆ v' -> seenOrMemo v d -> seenOrMemo v' d.
Proof.
  intros Hsub [->|[q Hq]]; [left; reflexivity|right].
  exists q. eapply lookup_weaken; eassumption.
Qed.

Lemma eachParent_bounds call seen (refs : list string) :
  (forall p v d v', p ∈ refs -> gapless v -> dom v ⊆ dom g -> call p v = Some (Ok (d, v')) ->
     bounds_post g seen v d v') ->
  forall ps v ds v',
    (forall p, p ∈ ps -> p ∈ refs) ->
    gapless v -> dom v ⊆ dom g ->
    eachParent call ps v = Some (Ok (ds, v')) ->
    gapless v' /\ v ⊆ v' /\ dom v' ⊆ dom g /\ Forall (seenOrMemo v') ds
    /\ (forall k, k ∈ seen -> v' !! k = v !! k).
Proof.
  intros Hcall. induction ps as [|p ps IH]; intros v ds v' Hps Hg Hdom H; simpl in H.
  - injection H as <- <-.
    split; [exact Hg|]. split; [reflexivity|]. split; [exact Hdom|]. split; [constructor|auto].
  - destruct (call p v) as [[[d va]|]|] eqn:Ecall; [|discriminate..].
    destruct (eachParent call ps va) as [[[ds' vb]|]|] eqn:Erest; [|discriminate..].
    injection H as <- <-.
    destruct (Hcall p v d va) as (Hga & Hsub & Hdoma & Hd & Hseen); auto.
    { apply Hps. left. }
    destruct (IH va ds' vb) as (Hgb & Hsub' & Hdomb & Hall & Hseen'); auto.
    { intros q Hq. apply Hps. right. exact Hq. }
    split; [exact Hgb|]. split; [etransitivity; eassumption|]. split; [exact Hdomb|].
    split.
    + constructor; [|exact Hall]. eapply seenOrMemo_weaken; eassumption.
    + intros k Hk. rewrite Hseen', Hseen by exact Hk. reflexivity.
Qed.

Lemma dfs_bounds fuel :
  forall x seen v d v',
    dfs g fuel x seen v = Some (Ok (d, v')) ->
    gapless v -> dom v ⊆ dom g -> is_Some (g !! x) ->
    bounds_post g seen v d v' /\ (x ∉ seen -> v' !! x = Some d).
Proof.
  induction fuel as [|fuel IH]; intros x seen v d v' H Hg Hdom Hx; [discriminate|].
  simpl in H. destruct (v !! x) as [d0|] eqn:Ev.
  - injection H as <- <-. split; [|auto].
    split; [exact Hg|]. split; [reflexivity|]. split; [exact Hdom|].
    split; [right; eauto|auto].
  - case_bool_decide as Hin.
    { injection H as <- <-. split; [|contradiction].
      split; [exact Hg|]. split; [reflexivity|]. split; [exact Hdom|].
      split; [left; reflexivity|auto]. }
    destruct Hx as [refs Hrefs]. rewrite (parentsOf_own g x refs Hrefs) in H.
    destruct (eachParent _ refs v) as [[[ds v1]|]|] eqn:Eeach; [|discriminate..].
    injection H as <- <-.
    destruct (eachParent_bounds (fun p w => dfs g fuel p ({[x]} ∪ seen) w) ({[x]} ∪ seen) refs)
      with (ps := refs) (v := v) (ds := ds) (v' := v1)
      as (Hg1 & Hsub & Hdom1 & Hall & Hseen1); auto.
    { intros p w dp w' Hp Hgw Hdw Hcall.
      apply (IH p ({[x]} ∪ seen) w dp w' Hcall Hgw Hdw). eapply Hclosed; eassumption. }
    assert (Hx1 : v1 !! x = None).
    { rewrite Hseen1; [exact Ev|]. apply elem_of_union_l, elem_of_singleton. reflexivity. }
    set (m := if 0 <? length refs then max_list ds else 0) in *.
    assert (Hm : m = 0 \/ exists q, v1 !! q = Some m).
    { subst m. destruct (0 <? length refs); [|left; reflexivity].
      destruct (max_list_cases ds) as [->|Hmem]; [left; reflexivity|].
      rewrite Forall_forall in Hall. destruct (Hall _ Hmem) as [E|E]; [left; exact E|right; exact E]. }
    assert (Hins : forall q dq, v1 !! q = Some dq -> <[x := m + 1]> v1 !! q = Some dq).
    { intros q dq Hq. rewrite lookup_insert_ne; [exact Hq|]. intros ->. congruence. }
    split; [|intros _; apply lookup_insert_eq].
    split.
    { intros k dk Hk. apply lookup_insert_Some in Hk as [[<- <-]|[Hne Hk]].
      - split; [lia|]. intros Hge. destruct Hm as [Hm|[q Hq]]; [lia|].
        exists q. replace (m + 1 - 1) with m by lia. apply Hins, Hq.
      - destruct (Hg1 k dk Hk) as [H1 H2]. split; [exact H1|].
        intros Hge. destruct (H2 Hge) as [q Hq]. exists q. apply Hins, Hq. }
    split; [etransitivity; [exact Hsub|apply insert_subseteq, Hx1]|].
    split.
    { rewrite dom_insert_L. apply union_subseteq. split; [|exact Hdom1].
      apply singleton_subseteq_l, elem_of_dom. eauto. }
    split; [right; exists x; apply lookup_insert_eq|].
    intros k Hk. rewrite lookup_insert_ne by (intros ->; contradiction).
    apply Hseen1. apply elem_of_union_r, Hk.
Qed.

Lemma assignDepths_bounds fuel :
  forall es v out,
    assignDepths g fuel es v = Some (Ok out) ->
    gapless v -> dom v ⊆ dom g ->
    (forall e, e ∈ es -> is_Some (g !! name e)) ->
    Forall2 (fun e o => exists d, o = setDepth d e /\ 1 <= d <= size (dom g)) es out.
Proof.
  induction es as [|e es IH]; intros v out H Hg Hdom Hes; simpl in H.
  - injection H as <-. constructor.
  - destruct (dfs g fuel (name e) ∅ v) as [[[d v1]|]|] eqn:Edfs; [|discriminate..].
    destruct (assignDepths g fuel es v1) as [[out'|]|] eqn:Erest; [|discriminate..].
    injection H as <-.
    destruct (dfs_bounds fuel (name e) ∅ v d v1 Edfs Hg Hdom) as [(Hg1 & _ & Hdom1 & _ & _) Hd].
    { apply Hes. left. }
    specialize (Hd (not_elem_of_empty _)).
    constructor.
    + exists d. split; [reflexivity|]. split; [apply (Hg1 _ _ Hd)|].
      etransitivity; [eapply gapless_bound; eassumption|].
      apply subseteq_size, Hdom1.
    + apply (IH v1 out' Erest Hg1 Hdom1). intros e' He'. apply Hes. right. exact He'.
Qed.

End DepthBounds.

Section DepthOrder.
Import JS SQLParser.
Local Open Scope nat_scope.

(** X1.  On every entity list, cyclic or not, in which no column points at a
    member of [Object.prototype], [calculateEntityDepth] returns the entities
    in their order with name and columns unchanged, each with a depth of at
    least 1 and at most the number of entities. *)
Theorem calculateEntityDepth_bounded (entities : list Entity) :
  plainTargets entities = true ->
  exists out, calculateEntityDepth entities false = Some (Ok out)
    /\ Forall2 (fun e o => exists d, withDepth e d o /\ 1 <= d <= length entities)
         entities out.
Proof.
  intros Hp.
  destruct (calculateEntityDepth_total entities false Hp) as [out Hout].
  exists out. split; [exact Hout|].
  unfold calculateEntityDepth in Hout.
  destruct (assignDepths _ _ entities ∅) as [[out'|]|] eqn:Eassign; [|discriminate..].
  injection Hout as ->.
  eapply Forall2_impl.
  - eapply (assignDepths_bounds (buildGraph entities) (buildGraph_closed entities Hp));
      [exact Eassign| | |].
    + intros k d Hk. rewrite lookup_empty in Hk. discriminate.
    + rewrite dom_empty_L. apply empty_subseteq.
    + intros e He. apply buildGraph_is_Some, list_elem_of_fmap. exists e. auto.
  - intros e o (d & -> & Hd). exists d. split; [apply setDepth_withDepth|].
    pose proof (buildGraph_size entities). lia.
Qed.

(** Two entities that reference each other, and three of which two share a
    name. *)
Lemma calculateEntityDepth_bounded_witness :
  (exists out, calculateEntityDepth cycle2 false = Some (Ok out)
     /\ Forall2 (fun e o => exists d, withDepth e d o /\ 1 <= d <= 2) cycle2 out)
  /\ (exists out, calculateEntityDepth same_name false = Some (Ok out)
     /\ Forall2 (fun e o => exists d, withDepth e d o /\ 1 <= d <= 3) same_name out).
Proof.
  split.
  - apply (calculateEntityDepth_bounded cycle2). vm_compute. reflexivity.
  - apply (calculateEntityDepth_bounded same_name). vm_compute. reflexivity.
Defined.

Lemma insertByDepth_perm e l : insertByDepth e l ≡ₚ e :: l.
Proof.
  induction l as [|x l IH]; [reflexivity|]. simpl.
  destruct (depthOr0 e <=? depthOr0 x); [reflexivity|].
  rewrite IH. apply Permutation_swap.
Qed.

Lemma sortByDepth_perm l : sortByDepth l ≡ₚ l.
Proof.
  induction l as [|x l IH]; [reflexivity|]. simpl.
  rewrite insertByDepth_perm, IH. reflexivity.
Qed.

Lemma insertByDepth_sorted e l :
  StronglySorted byDepth l -> StronglySorted byDepth (insertByDepth e l).
Proof.
  induction 1 as [|x l Hs IH Hall]; simpl.
  - constructor; constructor.
  - destruct (depthOr0 e <=? depthOr0 x) eqn:E.
    + apply Nat.leb_le in E. constructor; [constructor; assumption|].
      constructor; [exact E|]. eapply Forall_impl; [exact Hall|].
      intros y Hy. unfold byDepth in *. lia.
    + apply Nat.leb_gt in E. constructor; [exact IH|].
      rewrite insertByDepth_perm. constructor; [unfold byDepth; lia|exact Hall].
Qed.

Lemma sortByDepth_sorted l : StronglySorted byDepth (sortByDepth l).
Proof.
  induction l as [|x l IH]; [constructor|]. simpl. apply insertByDepth_sorted, IH.
Qed.

Lemma sorted_lookup (l : list Entity) :
  StronglySorted byDepth l ->
  forall i j a b, l !! i = Some a -> l !! j = Some b -> i < j -> byDepth a b.
Proof.
  induction 1 as [|x l Hs IH Hall]; intros i j a b Hi Hj Hlt; [discriminate|].
  destruct j as [|j]; [lia|]. simpl in Hj.
  destruct i as [|i].
  - injection Hi as ->. rewrite Forall_forall in Hall.
    apply Hall. eapply list_elem_of_lookup_2, Hj.
  - simpl in Hi. apply (IH i j); [assumption|assumption|lia].
Qed.

Lemma acyclic_depths (entities : list Entity) (rank : string -> nat) :
  NoDup (List.map name entities) ->
  plainTargets entities = true ->
  respectsRank rank entities = true ->
  exists D : string -> nat,
    calculateEntityDepth entities false
    = Some (Ok (List.map (fun e => setDepth (D (name e)) e) entities))
    /\ forall e r, e ∈ entities -> r ∈ refsOf entities e -> D r < D (name e).
Proof.
  intros Hnd Hp Hacyc.
  assert (Hrank : forall k refs r,
            buildGraph entities !! k = Some refs -> r ∈ refs -> rank r < rank k).
  { intros k refs r Hk Hr. apply buildGraph_lookup in Hk as (e & He & <- & ->).
    unfold respectsRank in Hacyc. rewrite forallb_forall in Hacyc.
    specialize (Hacyc e (proj1 (list_elem_of_In _ _) He)).
    rewrite forallb_forall in Hacyc.
    apply Nat.ltb_lt, Hacyc, list_elem_of_In, Hr. }
  destruct (calculateEntityDepth_total entities false Hp) as [out Hout].
  pose proof Hout as Hout'. unfold calculateEntityDepth in Hout'.
  destruct (assignDepths _ _ entities ∅) as [[out'|]|] eqn:Eassign; [|discriminate..].
  injection Hout' as ->.
  destruct (assignDepths_acyclic (buildGraph entities) rank (buildGraph_closed entities Hp) Hrank
              _ entities ∅ out Eassign) as (v & Hc & _ & Hall).
  { intros k d Hk. rewrite lookup_empty in Hk. discriminate. }
  { intros e He. apply buildGraph_is_Some, list_elem_of_fmap. exists e. auto. }
  exists (depthIn v). split.
  - rewrite Hout. do 2 f_equal. clear -Hall.
    induction Hall as [|e o es os (d & -> & Hd) _ IH]; [reflexivity|].
    simpl. rewrite <- IH. unfold depthIn. rewrite Hd. reflexivity.
  - intros e r He Hr.
    assert (Hg : buildGraph entities !! name e = Some (refsOf entities e)).
    { unfold buildGraph, refsOf.
      change (fold_left _ entities ∅)
        with (insertAll (references (buildNameToEntity entities)) entities ∅).
      apply insertAll_NoDup; assumption. }
    apply list_elem_of_lookup in He as [i Hi].
    destruct (Forall2_lookup_l _ _ _ _ _ Hall Hi) as (o & _ & d & _ & Hd).
    destruct (Hc _ _ Hd) as (refs & Hrefs & _ & ->).
    rewrite Hg in Hrefs. injection Hrefs as <-.
    unfold depthIn at 2. rewrite Hd.
    apply Nat.lt_succ_r, max_list_elem_of_le, list_elem_of_fmap.
    exists r. split; [reflexivity|exact Hr].
Qed.

Lemma all_have_depth (f : Entity -> nat) (es : list Entity) :
  forallb (fun e => bool_decide (is_Some (depth e))) (List.map (fun e => setDepth (f e) e) es)
  = true.
Proof. induction es as [|e es IH]; [reflexivity|]. simpl. exact IH. Qed.

(** X2.  On an acyclic dependency graph with distinct entity names and no
    column that points at a member of [Object.prototype], sorting the
    entities [calculateEntityDepth] returns by [sortEntitiesByDepth] gives a
    permutation of them in which every entity comes after the entities it
    references. *)
Theorem sortEntitiesByDepth_references_first (entities : list Entity) (rank : string -> nat) :
  NoDup (List.map name entities) ->
  plainTargets entities = true ->
  respectsRank rank entities = true ->
  exists out sorted,
    calculateEntityDepth entities false = Some (Ok out)
    /\ sortEntitiesByDepth out false = Some (out, sorted)
    /\ sorted ≡ₚ out
    /\ forall i j a b, sorted !! i = Some a -> sorted !! j = Some b ->
         name a ∈ refsOf entities b -> i < j.
Proof.
  intros Hnd Hp Hacyc.
  destruct (acyclic_depths entities rank Hnd Hp Hacyc) as (D & Hout & Hlt).
  set (out := List.map (fun e => setDepth (D (name e)) e) entities) in *.
  exists out, (sortByDepth out). split; [exact Hout|].
  split; [unfold sortEntitiesByDepth; subst out; rewrite all_have_depth; reflexivity|].
  split; [apply sortByDepth_perm|].
  assert (Hmem : forall x, x ∈ sortByDepth out ->
            exists e, e ∈ entities /\ x = setDepth (D (name e)) e).
  { intros x Hx. rewrite sortByDepth_perm in Hx.
    apply list_elem_of_fmap in Hx as (e & -> & He). eauto. }
  intros i j a b Hi Hj Hab.
  destruct (Hmem a (list_elem_of_lookup_2 _ _ _ Hi)) as (ea & Hea & ->).
  destruct (Hmem b (list_elem_of_lookup_2 _ _ _ Hj)) as (eb & Heb & ->).
  specialize (Hlt eb (name ea) Heb Hab).
  destruct (Nat.lt_ge_cases i j) as [Hij|Hji]; [exact Hij|].
  destruct (decide (i = j)) as [->|Hne].
  - rewrite Hi in Hj. pose proof (f_equal (fmap name) Hj) as Hn. simpl in Hn.
    injection Hn as Hn. rewrite Hn in Hlt. lia.
  - pose proof (sorted_lookup _ (sortByDepth_sorted out) j i _ _ Hj Hi ltac:(lia)) as Hs.
    unfold byDepth, depthOr0 in Hs. simpl in Hs. lia.
Qed.

(** The diamond listed from the most dependent entity to the least. *)
Lemma sortEntitiesByDepth_references_first_witness :
  (exists out sorted,
     calculateEntityDepth (rev diamond) false = Some (Ok out)
     /\ sortEntitiesByDepth out false = Some (out, sorted)
     /\ sorted ≡ₚ out
     /\ forall i j a b, sorted !! i = Some a -> sorted !! j = Some b ->
          name a ∈ refsOf (rev diamond) b -> i < j)
  /\ match calculateEntityDepth (rev diamond) false with
     | Some (Ok out) =>
       match sortEntitiesByDepth out false with
       | Some (_, sorted) => Some (List.map (fun e => (name e, depth e)) sorted)
       | None => None
       end
     | _ => None
     end = Some [("a", Some 1); ("c", Some 2); ("b", Some 2); ("d", Some 3)].
Proof.
  split.
  - apply (sortEntitiesByDepth_references_first (rev diamond) diamond_rank).
    + apply (bool_decide_unpack _). vm_compute. exact I.
    + vm_compute. reflexivity.
    + vm_compute. reflexivity.
  - vm_compute. reflexivity.
Defined.

(** X3.  With [reverse] set, [sortEntitiesByDepth] replaces the depth of each
    of the caller's entities by the largest depth minus its own, and on an
    acyclic dependency graph with distinct names and no column that points
    at a member of [Object.prototype] the sorted copy has every entity
    before the entities it references. *)
Theorem sortEntitiesByDepth_reverse_references_last (entities : list Entity)
    (rank : string -> nat) :
  NoDup (List.map name entities) ->
  plainTargets entities = true ->
  respectsRank rank entities = true ->
  exists out out' sorted,
    calculateEntityDepth entities false = Some (Ok out)
    /\ sortEntitiesByDepth out true = Some (out', sorted)
    /\ Forall2 (fun o o' => withDepth o (max_list (List.map depthOr0 out) - depthOr0 o) o')
         out out'
    /\ sorted ≡ₚ out'
    /\ forall i j a b, sorted !! i = Some a -> sorted !! j = Some b ->
         name a ∈ refsOf entities b -> j < i.
Proof.
  intros Hnd Hp Hacyc.
  destruct (acyclic_depths entities rank Hnd Hp Hacyc) as (D & Hout & Hlt).
  set (out := List.map (fun e => setDepth (D (name e)) e) entities) in *.
  set (M := max_list (List.map depthOr0 out)).
  set (out' := List.map (fun o => setDepth (M - depthOr0 o) o) out).
  exists out, out', (sortByDepth out'). split; [exact Hout|].
  split; [unfold sortEntitiesByDepth; subst out; rewrite all_have_depth; reflexivity|].
  split; [subst out'; apply Forall2_fmap_r, Forall_Forall2_diag, Forall_forall;
          intros o _; apply setDepth_withDepth|].
  split; [apply sortByDepth_perm|].
  assert (Hmem : forall x, x ∈ sortByDepth out' ->
            exists e, e ∈ entities /\ D (name e) <= M
                      /\ x = setDepth (M - D (name e)) (setDepth (D (name e)) e)).
  { intros x Hx. rewrite sortByDepth_perm in Hx.
    apply list_elem_of_fmap in Hx as (o & -> & Ho).
    pose proof Ho as Ho'. apply list_elem_of_fmap in Ho' as (e & -> & He).
    exists e. split; [exact He|]. split; [|reflexivity].
    subst M. apply max_list_elem_of_le, list_elem_of_fmap.
    exists (setDepth (D (name e)) e). split; [reflexivity|exact Ho]. }
  intros i j a b Hi Hj Hab.
  destruct (Hmem a (list_elem_of_lookup_2 _ _ _ Hi)) as (ea & Hea & Hma & ->).
  destruct (Hmem b (list_elem_of_lookup_2 _ _ _ Hj)) as (eb & Heb & Hmb & ->).
  specialize (Hlt eb (name ea) Heb Hab).
  destruct (Nat.lt_ge_cases j i) as [Hji|Hij]; [exact Hji|].
  destruct (decide (i = j)) as [->|Hne].
  - rewrite Hi in Hj. pose proof (f_equal (fmap name) Hj) as Hn. simpl in Hn.
    injection Hn as Hn. rewrite Hn in Hlt. lia.
  - pose proof (sorted_lookup _ (sortByDepth_sorted out') i j _ _ Hi Hj ltac:(lia)) as Hs.
    unfold byDepth, depthOr0 in Hs. simpl in Hs. lia.
Qed.

Lemma sortEntitiesByDepth_reverse_references_last_witness :
  (exists out out' sorted,
     calculateEntityDepth diamond false = Some (Ok out)
     /\ sortEntitiesByDepth out true = Some (out', sorted)
     /\ Forall2 (fun o o' => withDepth o (max_list (List.map depthOr0 out) - depthOr0 o) o')
          out out'
     /\ sorted ≡ₚ out'
     /\ forall i j a b, sorted !! i = Some a -> sorted !! j = Some b ->
          name a ∈ refsOf diamond b -> j < i)
  /\ match calculateEntityDepth diamond false with
     | Some (Ok out) =>
       match sortEntitiesByDepth out true with
       | Some (out', sorted) =>
         Some (List.map (fun e => (name e, depth e)) out',
               List.map (fun e => (name e, depth e)) sorted)
       | None => None
       end
     | _ => None
     end = Some ([("a", Some 2); ("b", Some 1); ("c", Some 1); ("d", Some 0)],
                 [("d", Some 0); ("b", Some 1); ("c", Some 1); ("a", Some 2)]).
Proof.
  split.
  - apply (sortEntitiesByDepth_reverse_references_last diamond diamond_rank).
    + apply (bool_decide_unpack _). vm_compute. exact I.
    + vm_compute. reflexivity.
    + vm_compute. reflexivity.
  - vm_compute. reflexivity.
Defined.

End DepthOrder.

Section ReplaceFacts.
Import JS Regex.
Local Open Scope nat_scope.

Lemma substring_app_skip (pre t : string) (a n : nat) :
  String.substring (String.length pre + a) n (pre +:+ t) = String.substring a n t.
Proof.
  induction pre as [|x pre IH]; [reflexivity|].
  rewrite append_cons. simpl. apply IH.
Qed.

Lemma substring_n_0 (s : string) (n : nat) : String.substring n 0 s = "".
Proof. revert n. induction s as [|x s IH]; intros [|n]; simpl; auto. Qed.

Lemma substring_drop (s : string) (a : nat) :
  String.substring a (String.length s - a) s = dropChars a s.
Proof.
  revert a. induction s as [|x s IH]; intros a.
  - destruct a; reflexivity.
  - destruct a as [|a]; simpl.
    + rewrite substring_0_all. reflexivity.
    + apply IH.
Qed.

Lemma substringFrom_nat (s : string) (a : nat) :
  a <= String.length s -> substringFrom s (Z.of_nat a) = dropChars a s.
Proof.
  intros Ha. unfold substringFrom, substring, clamp.
  replace (Z.of_nat a <? 0)%Z with false by (symmetry; apply Z.ltb_ge; lia).
  replace (Z.of_nat (String.length s) <? 0)%Z with false by (symmetry; apply Z.ltb_ge; lia).
  rewrite !Nat2Z.id.
  replace (Nat.min a (String.length s)) with a by lia.
  replace (Nat.min (String.length s) (String.length s)) with (String.length s) by lia.
  replace (Nat.min a (String.length s)) with a by lia.
  replace (Nat.max a (String.length s) - a) with (String.length s - a) by lia.
  apply substring_drop.
Qed.

Lemma substringFrom_past (s : string) (a : nat) :
  String.length s <= a -> substringFrom s (Z.of_nat a) = "".
Proof.
  intros Ha. unfold substringFrom, substring, clamp.
  replace (Z.of_nat a <? 0)%Z with false by (symmetry; apply Z.ltb_ge; lia).
  replace (Z.of_nat (String.length s) <? 0)%Z with false by (symmetry; apply Z.ltb_ge; lia).
  rewrite !Nat2Z.id.
  rewrite (Nat.min_r a) by lia.
  rewrite !Nat.min_id, Nat.max_id, Nat.sub_diag.
  apply substring_n_0.
Qed.

Lemma dropChars_app (pre t : string) : dropChars (String.length pre) (pre +:+ t) = t.
Proof. induction pre as [|x pre IH]; [destruct t; reflexivity|]. rewrite append_cons. exact IH. Qed.

Lemma drop_app (pre t : string) (before : option ascii) :
  drop (String.length pre) before (pre +:+ t) = (lastOf before pre, t).
Proof.
  unfold lastOf. revert before. induction pre as [|x pre IH]; intros before.
  - destruct t; reflexivity.
  - rewrite append_cons. simpl. apply IH.
Qed.

Lemma lastOf_push (pre : string) (c : ascii) (before : option ascii) :
  lastOf before (pre +:+ String c "") = Some c.
Proof.
  unfold lastOf. revert before. induction pre as [|x pre IH]; intros before; [reflexivity|].
  rewrite append_cons. simpl. apply IH.
Qed.

Lemma execFrom_app fl r (pre t : string) :
  execFrom fl r (pre +:+ t) (String.length pre)
  = searchFrom fl r (lastOf None pre) t (String.length pre).
Proof.
  unfold execFrom. rewrite length_append.
  replace (String.length pre + String.length t <? String.length pre) with false
    by (symmetry; apply Nat.ltb_ge; lia).
  rewrite drop_app. reflexivity.
Qed.

Lemma searchFrom_index fl r : forall t before i m,
  searchFrom fl r before t i = Some m -> i <= index m.
Proof.
  induction t as [|c t IH]; intros before i m H; simpl in H.
  - destruct (matchHere fl r before "" i); try discriminate. injection H as <-. simpl. lia.
  - destruct (matchHere fl r before (String c t) i).
    + injection H as <-. simpl. lia.
    + apply IH in H. lia.
    + apply IH in H. lia.
Qed.

Lemma dropChars_app_skip (pre t : string) (a : nat) :
  dropChars (String.length pre + a) (pre +:+ t) = dropChars a t.
Proof. induction pre as [|x pre IH]; [reflexivity|]. rewrite append_cons. exact IH. Qed.

Lemma push_length (pre : string) (c : ascii) :
  String.length (pre +:+ String c "") = S (String.length pre).
Proof. rewrite length_append. simpl. lia. Qed.

Lemma push_app (pre : string) (c : ascii) (t : string) :
  pre +:+ String c t = (pre +:+ String c "") +:+ t.
Proof. rewrite append_assoc. reflexivity. Qed.

Lemma substring_0_1 (c : ascii) (t : string) :
  String.substring 0 1 (String c t) = String c "".
Proof. destruct t; reflexivity. Qed.

Lemma substring_0_dropChars (s : string) (n : nat) :
  String.substring 0 n s +:+ dropChars n s = s.
Proof.
  revert n. induction s as [|x s IH]; intros [|n]; try reflexivity.
  simpl. rewrite append_cons, IH. reflexivity.
Qed.

Lemma length_substring_0 (s : string) (n : nat) :
  n <= String.length s -> String.length (String.substring 0 n s) = n.
Proof.
  revert n. induction s as [|x s IH]; intros [|n] H; simpl in *; try reflexivity; try lia.
  rewrite IH by lia. reflexivity.
Qed.

Lemma length_dropChars (s : string) (n : nat) :
  String.length (dropChars n s) = String.length s - n.
Proof. revert n. induction s as [|x s IH]; intros [|n]; simpl; auto. Qed.

Lemma spanLen_le (p : ascii -> bool) (s : string) : spanLen p s <= String.length s.
Proof. induction s as [|x s IH]; simpl; [lia|]. destruct (p x); lia. Qed.

Lemma squash_in_run (p : ascii -> bool) (rep : string) (t : string) :
  squash p rep t true = squash p rep (dropChars (spanLen p t) t) false.
Proof.
  induction t as [|c t IH]; [reflexivity|]. simpl.
  destruct (p c) eqn:E; [exact IH|]. simpl. rewrite E. reflexivity.
Qed.

Section Replace.
Variables (fl : flags) (r : regex) (f : mres -> string).

(** Where no match starts, the character is copied and the search moves on. *)
Lemma replaceGo_skip fuel pre c t :
  (forall st, matchHere fl r (lastOf None pre) (String c t) (String.length pre) <> Found st) ->
  replaceGo fuel fl r f (pre +:+ String c t) (String.length pre)
  = String c (replaceGo fuel fl r f (pre +:+ String c t) (S (String.length pre))).
Proof.
  intros Hno.
  assert (Hrest : substringFrom (pre +:+ String c t) (Z.of_nat (String.length pre))
                  = String c (substringFrom (pre +:+ String c t)
                                (Z.of_nat (S (String.length pre))))).
  { rewrite !substringFrom_nat by (rewrite length_append; simpl; lia).
    replace (S (String.length pre)) with (String.length pre + 1) by lia.
    rewrite dropChars_app, dropChars_app_skip. reflexivity. }
  destruct fuel as [|fuel]; [exact Hrest|].
  cbn [replaceGo].
  assert (Hexec : execFrom fl r (pre +:+ String c t) (String.length pre)
                  = execFrom fl r (pre +:+ String c t) (S (String.length pre))).
  { rewrite execFrom_app. rewrite (push_app pre c t).
    rewrite <- (push_length pre c), execFrom_app, lastOf_push, push_length.
    cbn [searchFrom].
    destruct (matchHere fl r (lastOf None pre) (String c t) (String.length pre)) eqn:E;
      [exfalso; eapply Hno; reflexivity|reflexivity|reflexivity]. }
  rewrite <- Hexec.
  destruct (execFrom fl r (pre +:+ String c t) (String.length pre)) as [m|] eqn:E; [|exact Hrest].
  assert (Hidx : S (String.length pre) <= index m).
  { symmetry in Hexec. rewrite (push_app pre c t) in Hexec.
    rewrite <- (push_length pre c), execFrom_app in Hexec.
    apply searchFrom_index in Hexec. rewrite push_length in Hexec. exact Hexec. }
  replace (index m - String.length pre) with (S (index m - S (String.length pre))) by lia.
  replace (String.length pre) with (String.length pre + 0) at 1 by lia.
  replace (S (String.length pre)) with (String.length pre + 1) at 2 by lia.
  rewrite !substring_app_skip. reflexivity.
Qed.

(** Where a match starts, its replacement is written and the search resumes
    behind it. *)
Lemma replaceGo_hit fuel pre t st :
  matchHere fl r (lastOf None pre) t (String.length pre) = Found st ->
  replaceGo (S fuel) fl r f (pre +:+ t) (String.length pre)
  = let m := {| index := String.length pre;
                matched := String.substring 0 (pos st - String.length pre) t;
                groups := caps st |} in
    f m +:+
    (if Nat.eqb (String.length (matched m)) 0
     then String.substring 0 1 t +:+ replaceGo fuel fl r f (pre +:+ t) (S (String.length pre))
     else replaceGo fuel fl r f (pre +:+ t) (String.length pre + String.length (matched m))).
Proof.
  intros H. cbn [replaceGo]. rewrite execFrom_app.
  assert (Hs : searchFrom fl r (lastOf None pre) t (String.length pre)
               = Some {| index := String.length pre;
                         matched := String.substring 0 (pos st - String.length pre) t;
                         groups := caps st |}).
  { destruct t; cbn [searchFrom]; rewrite H; reflexivity. }
  rewrite Hs. cbv zeta. unfold endIndex. cbn [index matched].
  rewrite Nat.sub_diag, substring_n_0, append_nil_l.
  rewrite <- (substring_app_skip pre t 0 1), Nat.add_0_r. reflexivity.
Qed.

(** At the end of the input, when no empty match is found there. *)
Lemma replaceGo_end fuel pre :
  (forall st, matchHere fl r (lastOf None pre) "" (String.length pre) <> Found st) ->
  replaceGo fuel fl r f (pre +:+ "") (String.length pre) = "".
Proof.
  intros Hno.
  assert (Hrest : substringFrom (pre +:+ "") (Z.of_nat (String.length pre)) = "").
  { apply substringFrom_past. rewrite length_append. simpl. lia. }
  destruct fuel as [|fuel]; [exact Hrest|].
  cbn [replaceGo]. rewrite execFrom_app. cbn [searchFrom].
  destruct (matchHere fl r (lastOf None pre) "" (String.length pre)) eqn:E;
    [exfalso; eapply Hno; reflexivity|exact Hrest|exact Hrest].
Qed.

End Replace.

Section ReplaceShapes.
Variables (fl : flags) (r : regex) (f : mres -> string) (p : ascii -> bool).

Hypothesis Hmiss : forall before c t i st,
  p c = false -> matchHere fl r before (String c t) i <> Found st.
Hypothesis Hend : forall before i st, matchHere fl r before "" i <> Found st.

(** A pattern that matches exactly the single characters satisfying [p]. *)
Lemma replaceGo_chars (h : ascii -> string) :
  (forall before c t i, p c = true ->
     exists st, matchHere fl r before (String c t) i = Found st /\ pos st = S i
       /\ f {| index := i; matched := String c ""; groups := caps st |} = h c) ->
  forall t pre fuel, String.length t < fuel ->
    replaceGo fuel fl r f (pre +:+ t) (String.length pre)
    = mapChars (fun c => if p c then h c else String c "") t.
Proof.
  intros Hhit. induction t as [|c t IH]; intros pre fuel Hfuel.
  - apply replaceGo_end. intros st. apply Hend.
  - cbn [mapChars]. destruct (p c) eqn:Ep.
    + destruct (Hhit (lastOf None pre) c t (String.length pre) Ep) as (st & Hst & Hpos & Hf).
      destruct fuel as [|fuel]; [lia|].
      assert (Hfuel' : String.length t < fuel) by (cbn [String.length] in Hfuel; lia).
      rewrite (replaceGo_hit fl r f fuel pre (String c t) st Hst). cbv zeta.
      rewrite Hpos. replace (S (String.length pre) - String.length pre) with 1 by lia.
      rewrite !substring_0_1. cbn [matched String.length Nat.eqb]. rewrite Hf.
      replace (String.length pre + 1) with (S (String.length pre)) by lia.
      rewrite push_app, <- push_length with (c := c), IH by exact Hfuel'. reflexivity.
    + assert (Hfuel' : String.length t < fuel) by (cbn [String.length] in Hfuel; lia).
      rewrite replaceGo_skip by (intros st; apply Hmiss, Ep).
      rewrite push_app, <- push_length with (c := c), IH by exact Hfuel'. reflexivity.
Qed.

(** A pattern that matches exactly the maximal runs of characters satisfying
    [p]. *)
Lemma replaceGo_runs (rep : string) :
  (forall before c t i, p c = true ->
     exists st, matchHere fl r before (String c t) i = Found st
       /\ pos st = i + spanLen p (String c t)
       /\ f {| index := i;
               matched := String.substring 0 (spanLen p (String c t)) (String c t);
               groups := caps st |} = rep) ->
  forall n t pre fuel, String.length t <= n -> String.length t < fuel ->
    replaceGo fuel fl r f (pre +:+ t) (String.length pre) = squash p rep t false.
Proof.
  intros Hhit. induction n as [|n IH]; intros t pre fuel Hn Hfuel.
  - destruct t; [|simpl in Hn; lia]. apply replaceGo_end. intros st. apply Hend.
  - destruct t as [|c t]; [apply replaceGo_end; intros st; apply Hend|].
    cbn [String.length] in Hn, Hfuel. cbn [squash]. destruct (p c) eqn:Ep.
    + destruct (Hhit (lastOf None pre) c t (String.length pre) Ep) as (st & Hst & Hpos & Hf).
      destruct fuel as [|fuel]; [lia|].
      rewrite (replaceGo_hit fl r f fuel pre (String c t) st Hst). cbv zeta.
      rewrite Hpos.
      replace (String.length pre + spanLen p (String c t) - String.length pre)
        with (spanLen p (String c t)) by lia.
      rewrite Hf. cbn [matched].
      pose proof (spanLen_le p (String c t)) as Hle.
      rewrite length_substring_0 by exact Hle.
      cbn [spanLen] in *. rewrite Ep in *. cbn [Nat.eqb].
      rewrite <- (substring_0_dropChars (String c t) (S (spanLen p t))) at 1.
      rewrite <- append_assoc.
      rewrite <- (length_substring_0 (String c t) (S (spanLen p t))) at 3 by exact Hle.
      rewrite <- length_append.
      rewrite IH.
      * cbn [dropChars]. rewrite squash_in_run. reflexivity.
      * cbn [dropChars]. rewrite length_dropChars. lia.
      * cbn [dropChars]. rewrite length_dropChars. lia.
    + rewrite replaceGo_skip by (intros st; apply Hmiss, Ep).
      rewrite push_app, <- push_length with (c := c), IH by lia. reflexivity.
Qed.

End ReplaceShapes.

End ReplaceFacts.

Section MatcherShapes.
Import JS Regex.
Local Open Scope nat_scope.

Variable fl : flags.

Lemma charLike_Lit x : charLike fl (Lit x) (lit_matches fl x).
Proof. intros [|fuel] st k; reflexivity. Qed.

Lemma charLike_Class neg items :
  charLike fl (Class neg items) (fun c => xorb neg (class_has fl items c)).
Proof. intros [|fuel] st k; reflexivity. Qed.

Lemma run_Seq fuel a b st k :
  run fl fuel (Seq a b) st k = run fl fuel a st (fun st' => run fl fuel b st' k).
Proof. destruct fuel; reflexivity. Qed.

Lemma run_Alt fuel a b st k :
  run fl fuel (Alt a b) st k
  = match run fl fuel a st k with NoMatch => run fl fuel b st k | o => o end.
Proof. destruct fuel; reflexivity. Qed.

Lemma run_Group fuel n a st k :
  run fl fuel (Group n a) st k = run fl fuel a st (fun st' => k (capture n st st')).
Proof. destruct fuel; reflexivity. Qed.

Lemma run_Bol fuel st k :
  run fl fuel Bol st k
  = if Nat.eqb (pos st) 0 || (multiline fl && atLineTerminator (prev st)) then k st else NoMatch.
Proof. destruct fuel; reflexivity. Qed.

Lemma run_Eol fuel st k :
  run fl fuel Eol st k
  = match rest st with
    | EmptyString => k st
    | String c _ => if multiline fl && Str.isLineTerminator c then k st else NoMatch
    end.
Proof. destruct fuel; reflexivity. Qed.

Lemma run_Star_greedy fuel a st k :
  run fl (S fuel) (Star true a) st k
  = match run fl (S fuel) a st
            (fun st' => if advanced st st' then run fl fuel (Star true a) st' k else NoMatch) with
    | NoMatch => k st
    | o => o
    end.
Proof. reflexivity. Qed.

Lemma afterRun_pos p : forall t before i cs,
  pos (afterRun p before t i cs) = i + spanLen p t.
Proof.
  induction t as [|c t IH]; intros before i cs; simpl; [lia|].
  destruct (p c); simpl; [rewrite IH|]; lia.
Qed.

Lemma afterRun_rest p : forall t before i cs,
  rest (afterRun p before t i cs) = dropChars (spanLen p t) t.
Proof.
  induction t as [|c t IH]; intros before i cs; simpl; [reflexivity|].
  destruct (p c); simpl; [apply IH|reflexivity].
Qed.

Lemma afterRun_caps p : forall t before i cs, caps (afterRun p before t i cs) = cs.
Proof.
  induction t as [|c t IH]; intros before i cs; simpl; [reflexivity|].
  destruct (p c); simpl; [apply IH|reflexivity].
Qed.

(** A greedy star over a one-character pattern takes the longest run when
    what follows accepts there. *)
Lemma star_takes_all a p :
  charLike fl a p ->
  forall t fuel before i cs k x,
    String.length t < fuel ->
    k (afterRun p before t i cs) = Found x ->
    run fl fuel (Star true a) {| prev := before; rest := t; pos := i; caps := cs |} k = Found x.
Proof.
  intros Ha. induction t as [|c t IH]; intros fuel before i cs k x Hfuel Hk;
    (destruct fuel as [|fuel]; [lia|]); rewrite run_Star_greedy, Ha; unfold step; cbn [rest].
  - exact Hk.
  - cbn [afterRun] in Hk. destruct (p c).
    + unfold advanced. cbn [pos caps]. rewrite (proj2 (Nat.ltb_lt i (S i))) by lia.
      rewrite (IH fuel (Some c) (S i) cs k x); [reflexivity|simpl in Hfuel; lia|exact Hk].
    + exact Hk.
Qed.

(** It fails when what follows rejects every state with input left and the
    run stops before the end. *)
Lemma star_blocked a p :
  charLike fl a p ->
  forall t fuel before i cs k,
    String.length t < fuel ->
    (forall st, rest st <> "" -> k st = NoMatch) ->
    dropChars (spanLen p t) t <> "" ->
    run fl fuel (Star true a) {| prev := before; rest := t; pos := i; caps := cs |} k = NoMatch.
Proof.
  intros Ha. induction t as [|c t IH]; intros fuel before i cs k Hfuel Hk Hrest;
    (destruct fuel as [|fuel]; [lia|]); rewrite run_Star_greedy, Ha; unfold step; cbn [rest].
  - contradiction.
  - cbn [spanLen] in Hrest. destruct (p c).
    + unfold advanced. cbn [pos caps]. rewrite (proj2 (Nat.ltb_lt i (S i))) by lia.
      rewrite (IH fuel (Some c) (S i) cs k); [|simpl in Hfuel; lia|exact Hk|exact Hrest].
      apply Hk. discriminate.
    + apply Hk. discriminate.
Qed.

End MatcherShapes.

Section ReplaceByShape.
Import JS Regex.
Local Open Scope nat_scope.

Variable fl : flags.

Lemma matchHere_char a p before c t i :
  charLike fl a p ->
  matchHere fl a before (String c t) i
  = if p c then Found {| prev := Some c; rest := t; pos := S i; caps := [] |} else NoMatch.
Proof. intros Ha. unfold matchHere. rewrite Ha. reflexivity. Qed.

Lemma matchHere_char_end a p before i :
  charLike fl a p -> matchHere fl a before "" i = NoMatch.
Proof. intros Ha. unfold matchHere. rewrite Ha. reflexivity. Qed.

(** Replacing every match of a one-character pattern. *)
Lemma replaceAll_chars a p rep s :
  charLike fl a p ->
  replaceAll fl a (fun _ => rep) s = mapChars (fun c => if p c then rep else String c "") s.
Proof.
  intros Ha. unfold replaceAll.
  apply (replaceGo_chars fl a (fun _ => rep) p) with (pre := ""%string) (h := fun _ => rep).
  - intros before c t i st Hp. rewrite (matchHere_char a p) by exact Ha. rewrite Hp. discriminate.
  - intros before i st. rewrite (matchHere_char_end a p) by exact Ha. discriminate.
  - intros before c t i Hp. rewrite (matchHere_char a p) by exact Ha. rewrite Hp. eauto.
  - lia.
Qed.

Lemma matchHere_plus a p before c t i :
  charLike fl a p ->
  matchHere fl (plus a) before (String c t) i
  = if p c then Found (afterRun p (Some c) t (S i) []) else NoMatch.
Proof.
  intros Ha. unfold matchHere, plus. rewrite run_Seq, Ha. unfold step. cbn [rest].
  destruct (p c); [|reflexivity].
  apply (star_takes_all fl a p Ha); [simpl; lia|reflexivity].
Qed.

Lemma matchHere_plus_end a p before i :
  charLike fl a p -> matchHere fl (plus a) before "" i = NoMatch.
Proof. intros Ha. unfold matchHere, plus. rewrite run_Seq, Ha. reflexivity. Qed.

(** Replacing every match of a run of one-character matches. *)
Lemma replaceAll_runs a p rep s :
  charLike fl a p ->
  replaceAll fl (plus a) (fun _ => rep) s = squash p rep s false.
Proof.
  intros Ha. unfold replaceAll.
  apply (replaceGo_runs fl (plus a) (fun _ => rep) p) with (pre := ""%string) (n := String.length s).
  - intros before c t i st Hp. rewrite (matchHere_plus a p) by exact Ha. rewrite Hp. discriminate.
  - intros before i st. rewrite (matchHere_plus_end a p) by exact Ha. discriminate.
  - intros before c t i Hp. rewrite (matchHere_plus a p) by exact Ha. rewrite Hp.
    eexists. split; [reflexivity|]. split; [|reflexivity].
    rewrite afterRun_pos. cbn [spanLen]. rewrite Hp. lia.
  - lia.
  - lia.
Qed.

End ReplaceByShape.

Section EdgeUnderscores.
Import JS Regex.
Local Open Scope nat_scope.

Lemma allChars_span p t : allChars p t = true <-> dropChars (spanLen p t) t = ""%string.
Proof.
  induction t as [|c t IH]; simpl; [tauto|].
  destruct (p c); simpl; [exact IH|]. split; discriminate.
Qed.

Lemma allChars_span_false p t : allChars p t = false -> dropChars (spanLen p t) t <> ""%string.
Proof. intros H E. apply allChars_span in E. congruence. Qed.

Lemma eol_rejects (fuel : nat) (st : mstate) :
  rest st <> ""%string -> run noFlags fuel Eol st Found = NoMatch.
Proof. intros H. rewrite run_Eol. destruct (rest st); [contradiction|reflexivity]. Qed.

Lemma matchHere_edge before c t i :
  matchHere noFlags SQLParser.rx_edge_underscores before (String c t) i
  = if isUnderscore c && (Nat.eqb i 0 || allChars isUnderscore t)
    then Found (afterRun isUnderscore (Some c) t (S i) [])
    else NoMatch.
Proof.
  unfold matchHere, SQLParser.rx_edge_underscores.
  rewrite run_Alt, !run_Seq, run_Bol. cbn [pos multiline noFlags andb orb].
  rewrite orb_false_r.
  change (run noFlags (S (String.length (String c t))) (plus (Lit "_"))
            {| prev := before; rest := String c t; pos := i; caps := [] |} Found)
    with (matchHere noFlags (plus (Lit "_")) before (String c t) i).
  rewrite (matchHere_plus noFlags (Lit "_") isUnderscore) by apply charLike_Lit.
  unfold plus at 1. rewrite run_Seq, (charLike_Lit noFlags "_"). unfold step. cbn [rest pos caps].
  change (isUnderscore c) with (lit_matches noFlags "_" c).
  destruct (lit_matches noFlags "_" c); [|destruct (Nat.eqb i 0); reflexivity].
  destruct (Nat.eqb i 0); [reflexivity|]. cbn [andb orb].
  destruct (allChars isUnderscore t) eqn:Eall.
  - apply (star_takes_all noFlags (Lit "_") isUnderscore (charLike_Lit noFlags "_"));
      [simpl; lia|].
    rewrite run_Eol, afterRun_rest. apply allChars_span in Eall. rewrite Eall. reflexivity.
  - rewrite (star_blocked noFlags (Lit "_") isUnderscore (charLike_Lit noFlags "_"));
      [reflexivity|simpl; lia| |apply allChars_span_false, Eall].
    intros st Hst. apply eol_rejects, Hst.
Qed.

Lemma matchHere_edge_end before i :
  matchHere noFlags SQLParser.rx_edge_underscores before "" i = NoMatch.
Proof.
  unfold matchHere, SQLParser.rx_edge_underscores.
  rewrite run_Alt, !run_Seq, run_Bol. unfold plus. rewrite !run_Seq, !(charLike_Lit noFlags "_").
  unfold step. cbn [rest]. destruct (_ || _); reflexivity.
Qed.

Lemma spanLen_all p t : allChars p t = true -> spanLen p t = String.length t.
Proof.
  induction t as [|c t IH]; simpl; [reflexivity|].
  destruct (p c); simpl; [intros H; rewrite IH by exact H; reflexivity|discriminate].
Qed.

Lemma length_pos (pre : string) : pre <> ""%string -> 0 < String.length pre.
Proof. destruct pre; [contradiction|simpl; lia]. Qed.

(** Behind the first character, only a run of underscores that reaches the
    end is removed. *)
Lemma edge_tail : forall t pre fuel,
  pre <> ""%string -> String.length t < fuel ->
  replaceGo fuel noFlags SQLParser.rx_edge_underscores (fun _ => ""%string) (pre +:+ t)
    (String.length pre)
  = dropTrailing isUnderscore t.
Proof.
  induction t as [|c t IH]; intros pre fuel Hpre Hfuel.
  - apply replaceGo_end. intros st. rewrite matchHere_edge_end. discriminate.
  - pose proof (length_pos pre Hpre) as Hpos.
    cbn [String.length] in Hfuel. cbn [dropTrailing].
    destruct (allChars isUnderscore (String c t)) eqn:Eall.
    + destruct fuel as [|fuel]; [lia|].
      pose proof Eall as Eall'. cbn [allChars] in Eall'. apply andb_prop in Eall' as [Ec Et].
      rewrite (replaceGo_hit noFlags _ _ fuel pre (String c t)
                 (afterRun isUnderscore (Some c) t (S (String.length pre)) []))
        by (rewrite matchHere_edge, Ec, Et, orb_true_r; reflexivity).
      cbv zeta. cbn [matched]. rewrite afterRun_pos, (spanLen_all _ _ Et).
      replace (S (String.length pre) + String.length t - String.length pre)
        with (String.length (String c t)) by (simpl; lia).
      rewrite substring_0_all. cbn [String.length Nat.eqb]. rewrite append_nil_l.
      rewrite <- (append_nil_r (pre +:+ String c t)).
      replace (String.length pre + S (String.length t))
        with (String.length (pre +:+ String c t)) by (rewrite length_append; reflexivity).
      apply replaceGo_end. intros st. rewrite matchHere_edge_end. discriminate.
    + rewrite replaceGo_skip.
      * rewrite push_app, <- push_length with (c := c), IH; [reflexivity| |lia].
        intros E. apply (f_equal String.length) in E. rewrite push_length in E. discriminate.
      * intros st. rewrite matchHere_edge.
        replace (Nat.eqb (String.length pre) 0) with false by (symmetry; apply Nat.eqb_neq; lia).
        cbn [orb]. cbn [allChars] in Eall. rewrite Eall. discriminate.
Qed.

(** [replace(/^_+|_+$/g, '')] removes the underscores the string starts
    with and those it ends with. *)
Lemma edge_all (s : string) :
  replaceAll noFlags SQLParser.rx_edge_underscores (fun _ => ""%string) s
  = dropTrailing isUnderscore (dropChars (spanLen isUnderscore s) s).
Proof.
  unfold replaceAll. destruct s as [|c t].
  - apply (replaceGo_end noFlags _ _ 1 ""). intros st. rewrite matchHere_edge_end. discriminate.
  - cbn [spanLen]. destruct (isUnderscore c) eqn:Ec.
    + change (String c t) with ("" +:+ String c t) at 2.
      change 0 with (String.length "") at 1.
      rewrite (replaceGo_hit noFlags _ _ _ "" (String c t)
                 (afterRun isUnderscore (Some c) t 1 []))
        by (rewrite matchHere_edge, Ec; reflexivity).
      cbv zeta. cbn [matched String.length]. rewrite afterRun_pos, append_nil_l, Nat.sub_0_r.
      change (1 + spanLen isUnderscore t) with (S (spanLen isUnderscore t)).
      pose proof (spanLen_le isUnderscore t) as Hle.
      rewrite length_substring_0 by (simpl; lia). cbn [Nat.eqb Nat.add].
      set (k := spanLen isUnderscore t) in *.
      assert (Hlen : String.length (String.substring 0 (S k) (String c t)) = S k)
        by (apply length_substring_0; simpl; lia).
      transitivity
        (replaceGo (S (String.length t)) noFlags SQLParser.rx_edge_underscores
           (fun _ => ""%string)
           (String.substring 0 (S k) (String c t) +:+ dropChars (S k) (String c t))
           (String.length (String.substring 0 (S k) (String c t)))).
      { rewrite substring_0_dropChars, Hlen. reflexivity. }
      rewrite edge_tail; [reflexivity| |].
      * intros E. rewrite E in Hlen. discriminate.
      * cbn [dropChars]. rewrite length_dropChars. lia.
    + change (String c t) with ("" +:+ String c t) at 2.
      change 0 with (String.length "") at 1.
      rewrite replaceGo_skip by (intros st; rewrite matchHere_edge, Ec; discriminate).
      change (S (String.length "")) with (String.length (String c "")).
      change ("" +:+ String c t) with (String c "" +:+ t).
      rewrite edge_tail; [|discriminate|simpl; lia].
      cbn [dropChars dropTrailing allChars]. rewrite Ec. reflexivity.
Qed.

End EdgeUnderscores.

Section TableNames.
Import JS Regex.
Local Open Scope nat_scope.

Ltac by_cases_on c :=
  destruct c as [[] [] [] [] [] [] [] []]; vm_compute; try reflexivity; try discriminate; auto.

Lemma underscore_notAlnum c : isUnderscore c = true -> notAlnum c = true.
Proof. by_cases_on c. Qed.

Lemma lower_nameChar c : alnumOrUnderscore c = true -> nameChar (Str.lowerChar c) = true.
Proof. by_cases_on c. Qed.

Lemma lower_underscore c : isUnderscore (Str.lowerChar c) = isUnderscore c.
Proof. by_cases_on c. Qed.

Lemma nameChar_lower c : nameChar c = true -> Str.lowerChar c = c.
Proof. by_cases_on c. Qed.

Lemma nameChar_no_dot c : nameChar c = true -> lit_matches noFlags "." c = false.
Proof. by_cases_on c. Qed.

Lemma nameChar_notAlnum c : nameChar c = true -> notAlnum c = isUnderscore c.
Proof. by_cases_on c. Qed.

Lemma isUnderscore_eq c : isUnderscore c = true -> c = "_"%char.
Proof. by_cases_on c. Qed.

Lemma isUnderscore_ceqb c : isUnderscore c = ceqb "_" c.
Proof. reflexivity. Qed.

(** *** Predicates on strings *)

Lemma allChars_impl (p q : ascii -> bool) s :
  (forall c, p c = true -> q c = true) -> allChars p s = true -> allChars q s = true.
Proof.
  intros H. induction s as [|c s IH]; simpl; [auto|].
  intros E. apply andb_prop in E as [E1 E2]. rewrite (H c E1), IH by exact E2. reflexivity.
Qed.

Lemma allChars_dropChars p s n : allChars p s = true -> allChars p (dropChars n s) = true.
Proof.
  revert n. induction s as [|c s IH]; intros [|n] H; simpl in *; auto.
  apply andb_prop in H as [_ H]. apply IH, H.
Qed.

Lemma allChars_dropTrailing p q s : allChars p s = true -> allChars p (dropTrailing q s) = true.
Proof.
  induction s as [|c s IH]; intros H; [reflexivity|].
  cbn [dropTrailing]. destruct (allChars q (String c s)); [reflexivity|].
  simpl in *. apply andb_prop in H as [H1 H2]. rewrite H1, IH by exact H2. reflexivity.
Qed.

Lemma allChars_map p q f s :
  (forall c, p c = true -> q (f c) = true) -> allChars p s = true -> allChars q (Str.map f s) = true.
Proof.
  intros H. induction s as [|c s IH]; simpl; [auto|].
  intros E. apply andb_prop in E as [E1 E2]. rewrite (H c E1), IH by exact E2. reflexivity.
Qed.

Lemma headSat_map p f s : (forall c, p (f c) = p c) -> headSat p (Str.map f s) = headSat p s.
Proof. intros H. destruct s; simpl; auto. Qed.

Lemma noPair_map p f s : (forall c, p (f c) = p c) -> noPair p (Str.map f s) = noPair p s.
Proof.
  intros H. induction s as [|c s IH]; [reflexivity|].
  cbn [Str.map noPair]. rewrite H, IH. rewrite (headSat_map p f s H). reflexivity.
Qed.

Lemma headSat_span p s : headSat p (dropChars (spanLen p s) s) = false.
Proof.
  induction s as [|c s IH]; [reflexivity|]. simpl.
  destruct (p c) eqn:E; [exact IH|]. simpl. exact E.
Qed.

Lemma noPair_dropChars p s n : noPair p s = true -> noPair p (dropChars n s) = true.
Proof.
  revert n. induction s as [|c s IH]; intros [|n] H; simpl in *; auto.
  apply andb_prop in H as [_ H]. apply IH, H.
Qed.

Lemma dropTrailing_empty p s : dropTrailing p s = ""%string -> allChars p s = true.
Proof.
  destruct s as [|c s]; [reflexivity|]. cbn [dropTrailing].
  destruct (allChars p (String c s)); [reflexivity|discriminate].
Qed.

Lemma headSat_dropTrailing p q s :
  headSat p (dropTrailing q s) = true -> headSat p s = true.
Proof.
  destruct s as [|c s]; [discriminate|]. cbn [dropTrailing].
  destruct (allChars q (String c s)); [discriminate|]. auto.
Qed.

Lemma noPair_dropTrailing p q s : noPair p s = true -> noPair p (dropTrailing q s) = true.
Proof.
  induction s as [|c s IH]; intros H; [reflexivity|].
  cbn [dropTrailing]. destruct (allChars q (String c s)); [reflexivity|].
  cbn [noPair] in *. apply andb_prop in H as [H1 H2]. rewrite IH by exact H2.
  rewrite andb_true_r. apply negb_true_iff. apply negb_true_iff in H1.
  destruct (p c); [|reflexivity]. simpl in *.
  destruct (headSat p (dropTrailing q s)) eqn:E; [|reflexivity].
  apply headSat_dropTrailing in E. congruence.
Qed.

Lemma lastSat_dropTrailing p s : lastSat p (dropTrailing p s) = false.
Proof.
  induction s as [|c s IH]; [reflexivity|].
  cbn [dropTrailing]. destruct (allChars p (String c s)) eqn:E; [reflexivity|].
  cbn [lastSat]. destruct (dropTrailing p s) eqn:Ed; [|exact IH].
  apply dropTrailing_empty in Ed. cbn [allChars] in E. rewrite Ed, andb_true_r in E. exact E.
Qed.

Lemma lastSat_all p s : allChars p s = true -> s <> ""%string -> lastSat p s = true.
Proof.
  induction s as [|c s IH]; intros H Hne; [contradiction|].
  cbn [allChars] in H. apply andb_prop in H as [H1 H2].
  cbn [lastSat]. destruct s; [exact H1|]. apply IH; [exact H2|discriminate].
Qed.

Lemma dropTrailing_id p s : lastSat p s = false -> dropTrailing p s = s.
Proof.
  induction s as [|c s IH]; intros H; [reflexivity|].
  cbn [dropTrailing]. destruct (allChars p (String c s)) eqn:E.
  - rewrite lastSat_all in H by (exact E || discriminate). discriminate.
  - f_equal. destruct s; [reflexivity|]. apply IH. exact H.
Qed.

(** *** The replacement of runs *)

Lemma squash_chars s : forall b,
  allChars alnumOrUnderscore (squash notAlnum "_" s b) = true.
Proof.
  induction s as [|c s IH]; intros b; [reflexivity|].
  cbn [squash]. destruct (notAlnum c) eqn:E.
  - destruct b; [apply IH|]. rewrite append_cons, append_nil_l. cbn [allChars]. apply IH.
  - cbn [allChars]. rewrite IH, andb_true_r. unfold alnumOrUnderscore. rewrite E. reflexivity.
Qed.

Lemma squash_head s : headSat isUnderscore (squash notAlnum "_" s true) = false.
Proof.
  induction s as [|c s IH]; [reflexivity|].
  cbn [squash]. destruct (notAlnum c) eqn:E; [exact IH|].
  cbn [headSat]. destruct (isUnderscore c) eqn:Eu; [|reflexivity].
  apply underscore_notAlnum in Eu. congruence.
Qed.

Lemma squash_noPair s : forall b, noPair isUnderscore (squash notAlnum "_" s b) = true.
Proof.
  induction s as [|c s IH]; intros b; [reflexivity|].
  cbn [squash]. destruct (notAlnum c) eqn:E.
  - destruct b; [apply IH|]. rewrite append_cons, append_nil_l. cbn [noPair].
    rewrite squash_head, IH, andb_false_r. reflexivity.
  - cbn [noPair]. rewrite IH, andb_true_r.
    destruct (isUnderscore c) eqn:Eu; [|reflexivity].
    apply underscore_notAlnum in Eu. congruence.
Qed.

Lemma squash_id s :
  allChars nameChar s = true -> noPair isUnderscore s = true ->
  squash notAlnum "_" s false = s.
Proof.
  induction s as [|c s IH]; intros Hc Hp; [reflexivity|].
  cbn [allChars noPair] in Hc, Hp.
  apply andb_prop in Hc as [Hc Hcs]. apply andb_prop in Hp as [Hp Hps].
  specialize (IH Hcs Hps). cbn [squash].
  rewrite (nameChar_notAlnum c Hc). destruct (isUnderscore c) eqn:Eu.
  - apply isUnderscore_eq in Eu as ->. rewrite append_cons, append_nil_l. f_equal.
    transitivity (squash notAlnum "_" s false); [|exact IH].
    simpl in Hp. apply (proj1 (negb_true_iff _)) in Hp.
    destruct s as [|d s]; [reflexivity|]. cbn [headSat] in Hp. cbn [squash].
    cbn [allChars] in Hcs. apply andb_prop in Hcs as [Hd _].
    rewrite (nameChar_notAlnum d Hd), Hp. reflexivity.
  - f_equal. exact IH.
Qed.

(** *** The predicates as the string methods compute them *)

Lemma startsWith_head s : startsWith s "_" = headSat isUnderscore s.
Proof.
  unfold startsWith. destruct s as [|c s]; [reflexivity|].
  rewrite prefix_cons, prefix_nil. cbn [headSat]. change (isUnderscore c) with (ceqb "_" c).
  destruct (ceqb "_" c); reflexivity.
Qed.

Lemma substring_last (c : ascii) (s : string) :
  s <> ""%string ->
  String.substring (String.length (String c s) - 1) 1 (String c s)
  = String.substring (String.length s - 1) 1 s.
Proof.
  intros Hne. destruct s as [|d s]; [contradiction|].
  cbn [String.length]. rewrite !Nat.sub_succ, !Nat.sub_0_r. reflexivity.
Qed.

Lemma endsWith_last s : endsWith s "_" = lastSat isUnderscore s.
Proof.
  unfold endsWith. change (String.length "_") with 1.
  induction s as [|c s IH]; [reflexivity|].
  destruct s as [|d s].
  - clear IH. by_cases_on c.
  - change (lastSat isUnderscore (String c (String d s)))
      with (lastSat isUnderscore (String d s)).
    rewrite <- IH, substring_last by discriminate. reflexivity.
Qed.

Lemma includes_pair s : Str.includes s "__" = negb (noPair isUnderscore s).
Proof.
  induction s as [|c s IH]; [reflexivity|].
  cbn [Str.includes noPair]. rewrite IH, negb_andb, negb_involutive. f_equal.
  rewrite prefix_cons. change (isUnderscore c) with (ceqb "_" c).
  destruct (ceqb "_" c); [|reflexivity].
  destruct s as [|d s]; [reflexivity|].
  rewrite prefix_cons, prefix_nil. cbn [headSat]. change (isUnderscore d) with (ceqb "_" d).
  destruct (ceqb "_" d); reflexivity.
Qed.

Lemma validName_spec s :
  validName s = true
  <-> allChars nameChar s = true /\ headSat isUnderscore s = false
      /\ lastSat isUnderscore s = false /\ noPair isUnderscore s = true.
Proof.
  unfold validName. rewrite startsWith_head, endsWith_last, includes_pair, negb_involutive.
  rewrite !andb_true_iff, !negb_true_iff. tauto.
Qed.

(** *** The extension *)

Lemma no_extension s : forall before i,
  allChars nameChar s = true -> searchFrom noFlags SQLParser.rx_extension before s i = None.
Proof.
  assert (Hend : forall before i, matchHere noFlags SQLParser.rx_extension before "" i = NoMatch).
  { intros before i. unfold matchHere, SQLParser.rx_extension. cbn [seqs].
    rewrite run_Seq, (charLike_Lit noFlags "."). reflexivity. }
  induction s as [|c s IH]; intros before i H; cbn [searchFrom].
  - rewrite Hend. reflexivity.
  - cbn [allChars] in H. apply andb_prop in H as [Hc Hs].
    replace (matchHere noFlags SQLParser.rx_extension before (String c s) i) with NoMatch.
    + apply IH, Hs.
    + unfold matchHere, SQLParser.rx_extension. cbn [seqs].
      rewrite run_Seq, (charLike_Lit noFlags "."). unfold step. cbn [rest].
      rewrite (nameChar_no_dot c Hc). reflexivity.
Qed.

Lemma toValidTableName_steps str :
  SQLParser.toValidTableName str
  = let x := Str.toLowerCase
               (squash notAlnum "_"
                  (replaceOne noFlags SQLParser.rx_extension (fun _ => ""%string) str) false) in
    dropTrailing isUnderscore (dropChars (spanLen isUnderscore x) x).
Proof.
  unfold SQLParser.toValidTableName. cbv zeta. rewrite edge_all.
  unfold SQLParser.rx_not_alnum.
  rewrite (replaceAll_runs noFlags _ notAlnum "_") by apply charLike_Class.
  reflexivity.
Qed.

Lemma lower_id s : allChars nameChar s = true -> Str.toLowerCase s = s.
Proof.
  unfold Str.toLowerCase. induction s as [|c s IH]; intros H; [reflexivity|].
  cbn [allChars] in H. apply andb_prop in H as [Hc Hs].
  cbn [Str.map]. rewrite (nameChar_lower c Hc), IH by exact Hs. reflexivity.
Qed.

Lemma spanLen_head p s : headSat p s = false -> spanLen p s = 0.
Proof. destruct s as [|c s]; [reflexivity|]. simpl. intros ->. reflexivity. Qed.

Lemma toValidTableName_shape (str : string) :
  allChars nameChar (SQLParser.toValidTableName str) = true
  /\ headSat isUnderscore (SQLParser.toValidTableName str) = false
  /\ lastSat isUnderscore (SQLParser.toValidTableName str) = false
  /\ noPair isUnderscore (SQLParser.toValidTableName str) = true.
Proof.
  rewrite toValidTableName_steps. cbv zeta.
  set (y := squash notAlnum "_" _ false).
  split; [|split; [|split]].
  - apply allChars_dropTrailing, allChars_dropChars.
    apply (allChars_map alnumOrUnderscore); [exact lower_nameChar|apply squash_chars].
  - destruct (headSat isUnderscore (dropTrailing _ _)) eqn:E; [|reflexivity].
    apply headSat_dropTrailing in E. rewrite headSat_span in E. discriminate.
  - apply lastSat_dropTrailing.
  - apply noPair_dropTrailing, noPair_dropChars.
    unfold Str.toLowerCase. rewrite noPair_map by exact lower_underscore.
    apply squash_noPair.
Qed.

(** X4.  Whatever the input, [toValidTableName] returns a string of
    lower-case letters, digits and underscores that neither starts nor ends
    with an underscore and holds no two underscores in a row. *)
Theorem toValidTableName_valid (str : string) :
  validName (SQLParser.toValidTableName str) = true.
Proof. apply validName_spec, toValidTableName_shape. Qed.

(** X5.  The strings [toValidTableName] leaves unchanged are exactly those
    valid names, so applying it twice gives the same as applying it once. *)
Theorem toValidTableName_fixed_points (name : string) :
  (SQLParser.toValidTableName name = name <-> validName name = true)
  /\ SQLParser.toValidTableName (SQLParser.toValidTableName name)
     = SQLParser.toValidTableName name.
Proof.
  assert (Hfix : forall n, validName n = true -> SQLParser.toValidTableName n = n).
  { intros n H. apply validName_spec in H as (Hc & Hh & Hl & Hp).
    rewrite toValidTableName_steps. cbv zeta.
    assert (Hext : replaceOne noFlags SQLParser.rx_extension (fun _ => ""%string) n = n).
    { unfold replaceOne, exec, execFrom. cbn [Nat.ltb Nat.leb drop].
      rewrite no_extension by exact Hc. reflexivity. }
    rewrite Hext, squash_id, lower_id, spanLen_head by assumption.
    cbn [dropChars]. apply dropTrailing_id, Hl. }
  split; [split|].
  - intros <-. apply validName_spec, toValidTableName_shape.
  - apply Hfix.
  - apply Hfix, validName_spec, toValidTableName_shape.
Qed.

End TableNames.

Section Quoting.
Import JS Regex TableParser.
Local Open Scope nat_scope.

Local Arguments ceqb : simpl never.
Local Arguments push : simpl never.

(** Where no match can start in [t], a replacement leaves [t] as it is. *)
Lemma replaceGo_none fl r f (p : ascii -> bool) :
  (forall before c t i st, p c = true -> matchHere fl r before (String c t) i <> Found st) ->
  (forall before i st, matchHere fl r before "" i <> Found st) ->
  forall t pre fuel, allChars p t = true ->
    replaceGo fuel fl r f (pre +:+ t) (String.length pre) = t.
Proof.
  intros Hmiss Hend. induction t as [|c t IH]; intros pre fuel Hall.
  - apply replaceGo_end. intros st. apply Hend.
  - cbn [allChars] in Hall. apply andb_prop in Hall as [Hc Ht].
    rewrite replaceGo_skip by (intros st; apply Hmiss, Hc).
    rewrite push_app, <- push_length with (c := c), IH by exact Ht. reflexivity.
Qed.

Lemma addslashes_chars s : SQLConverter.addslashes s = mapChars doubled s.
Proof.
  unfold SQLConverter.addslashes.
  apply (replaceAll_chars noFlags (Lit SQ) isQuote), charLike_Lit.
Qed.

Lemma isQuote_eq c : isQuote c = true -> c = SQ.
Proof. destruct c as [[] [] [] [] [] [] [] []]; vm_compute; try discriminate; auto. Qed.

Lemma isQuote_ceqb c : ceqb c SQ = isQuote c.
Proof. destruct c as [[] [] [] [] [] [] [] []]; reflexivity. Qed.

(** *** Reading the doubled quotes back *)

Lemma matchHere_two_single before s i :
  matchHere noFlags rx_two_single before s i
  = match s with
    | String a (String b t) =>
      if isQuote a && isQuote b
      then Found {| prev := Some b; rest := t; pos := S (S i); caps := [] |}
      else NoMatch
    | _ => NoMatch
    end.
Proof.
  unfold matchHere, rx_two_single.
  rewrite run_Seq, (charLike_Lit noFlags SQ). unfold step. cbn [rest].
  destruct s as [|a s]; [reflexivity|]. fold (isQuote a).
  destruct (isQuote a); [|destruct s; reflexivity].
  rewrite (charLike_Lit noFlags SQ). unfold step. cbn [rest pos caps].
  destruct s as [|b t]; [reflexivity|]. fold (isQuote b).
  destruct (isQuote b); reflexivity.
Qed.

Lemma undouble : forall s pre fuel,
  String.length (mapChars doubled s) < fuel ->
  replaceGo fuel noFlags rx_two_single (fun _ => String SQ "")
    (pre +:+ mapChars doubled s) (String.length pre)
  = s.
Proof.
  induction s as [|c s IH]; intros pre fuel Hfuel.
  - apply replaceGo_end. intros st. rewrite matchHere_two_single. discriminate.
  - cbn [mapChars] in *. unfold doubled at 1 in Hfuel. unfold doubled at 1.
    destruct (isQuote c) eqn:Ec.
    + apply isQuote_eq in Ec as ->.
      rewrite !append_cons, !append_nil_l in *. cbn [String.length] in Hfuel.
      destruct fuel as [|fuel]; [lia|].
      rewrite (replaceGo_hit noFlags _ _ fuel pre _
                 {| prev := Some SQ; rest := mapChars doubled s;
                    pos := S (S (String.length pre)); caps := [] |})
        by (rewrite matchHere_two_single; reflexivity).
      cbv zeta. cbn [matched pos].
      replace (S (S (String.length pre)) - String.length pre) with 2 by lia.
      change (String.substring 0 2 (String SQ (String SQ (mapChars doubled s))))
        with (String SQ (String SQ (String.substring 0 0 (mapChars doubled s)))).
      rewrite substring_n_0. cbn [String.length Nat.eqb].
      rewrite append_cons, append_nil_l. f_equal.
      replace (pre +:+ String SQ (String SQ (mapChars doubled s)))
        with ((pre +:+ String SQ (String SQ "")) +:+ mapChars doubled s)
        by (rewrite append_assoc; reflexivity).
      replace (String.length pre + 2) with (String.length (pre +:+ String SQ (String SQ "")))
        by (rewrite length_append; reflexivity).
      apply IH. lia.
    + rewrite append_cons, append_nil_l in *. cbn [String.length] in Hfuel.
      rewrite replaceGo_skip
        by (intros st; rewrite matchHere_two_single, Ec;
            destruct (mapChars doubled s); discriminate).
      rewrite push_app, <- push_length with (c := c), IH by lia. reflexivity.
Qed.

Lemma unescape_addslashes s :
  replaceAll noFlags rx_two_single (fun _ => String SQ "") (SQLConverter.addslashes s) = s.
Proof.
  unfold replaceAll. rewrite addslashes_chars.
  apply (undouble s ""). lia.
Qed.

Lemma no_escape s :
  allChars notBackslash s = true ->
  replaceAll noFlags rx_escaped_any dollar1 s = s.
Proof.
  intros H. unfold replaceAll.
  apply (replaceGo_none noFlags rx_escaped_any dollar1 notBackslash) with (pre := ""%string);
    [| |exact H].
  - intros before c t i st Hc. unfold matchHere, rx_escaped_any.
    rewrite run_Seq, (charLike_Lit noFlags BSLASH). unfold step. cbn [rest].
    replace (lit_matches noFlags BSLASH c) with false; [discriminate|].
    unfold notBackslash in Hc. apply negb_true_iff in Hc.
    rewrite <- Hc. unfold lit_matches. cbn [ignoreCase noFlags]. apply ceqb_sym.
  - intros before i st. unfold matchHere, rx_escaped_any.
    rewrite run_Seq, (charLike_Lit noFlags BSLASH). discriminate.
Qed.

(** *** Trimming a quoted string *)

Lemma rev_app_app a : forall b acc,
  String.rev_app (a +:+ b) acc = String.rev_app b (String.rev_app a acc).
Proof. induction a as [|x a IH]; intros b acc; [reflexivity|]. rewrite append_cons. apply IH. Qed.

Lemma rev_app_rev a : forall acc, String.rev_app (String.rev_app a acc) "" = String.rev_app acc a.
Proof.
  induction a as [|x a IH]; intros acc; [reflexivity|]. simpl. rewrite IH. reflexivity.
Qed.

Lemma rev_rev s : String.rev (String.rev s) = s.
Proof. unfold String.rev. rewrite rev_app_rev. reflexivity. Qed.

Lemma trimStart_spaces lead q :
  allChars Str.isSpace lead = true -> Str.trimStart (lead +:+ q) = Str.trimStart q.
Proof.
  induction lead as [|c lead IH]; intros H; [reflexivity|].
  cbn [allChars] in H. apply andb_prop in H as [Hc Hl].
  rewrite append_cons. cbn [Str.trimStart]. rewrite Hc. apply IH, Hl.
Qed.

Lemma trim_quoted lead s :
  allChars Str.isSpace lead = true -> Str.trim (lead +:+ quoted s) = quoted s.
Proof.
  intros H. unfold Str.trim. rewrite trimStart_spaces by exact H.
  assert (Hs : Str.trimStart (quoted s) = quoted s) by reflexivity.
  rewrite Hs. unfold Str.trimEnd, Str.rev.
  replace (Str.trimStart (String.rev (quoted s))) with (String.rev (quoted s));
    [apply rev_rev|].
  unfold quoted, String.rev. rewrite rev_app_app. reflexivity.
Qed.

(** *** The anchored keyword tests *)

Lemma bol_later fl r : multiline fl = false ->
  forall s before i, 0 < i -> searchFrom fl (Seq Bol r) before s i = None.
Proof.
  intros Hm.
  assert (H : forall s before i, 0 < i -> matchHere fl (Seq Bol r) before s i = NoMatch).
  { intros s before i Hi. unfold matchHere. rewrite run_Seq, run_Bol. cbn [pos].
    rewrite Hm. destruct i; [lia|reflexivity]. }
  induction s as [|c s IH]; intros before i Hi; cbn [searchFrom]; rewrite H by exact Hi.
  - reflexivity.
  - apply IH. lia.
Qed.

Lemma keyword_test fl x w c t :
  multiline fl = false -> lit_matches fl x c = false ->
  test fl (seqs [Bol; lits (String x w); Eol]) (String c t) = false.
Proof.
  intros Hm Hx. unfold test, exec, execFrom. cbn [String.length Nat.ltb Nat.leb drop searchFrom].
  replace (matchHere fl (seqs [Bol; lits (String x w); Eol]) None (String c t) 0) with NoMatch.
  - cbn [seqs]. rewrite bol_later by (exact Hm || lia). reflexivity.
  - unfold matchHere. cbn [seqs]. rewrite run_Seq, run_Bol. cbn [pos Nat.eqb orb].
    rewrite run_Seq. destruct w as [|y w]; cbn [lits].
    + rewrite (charLike_Lit fl x). unfold step. cbn [rest]. rewrite Hx. reflexivity.
    + rewrite run_Seq, (charLike_Lit fl x). unfold step. cbn [rest]. rewrite Hx. reflexivity.
Qed.

Lemma slice_quoted s : Str.slice_1_m1 (quoted s) = SQLConverter.addslashes s.
Proof.
  unfold Str.slice_1_m1, quoted. rewrite append_cons. cbn [String.length].
  rewrite length_append. cbn [String.length].
  replace (S (String.length (SQLConverter.addslashes s) + 1) - 2)
    with (String.length (SQLConverter.addslashes s)) by lia.
  cbn [String.substring]. apply substring_0_append.
Qed.

Lemma parseValue_quoted lead s :
  allChars Str.isSpace lead = true -> allChars notBackslash s = true ->
  parseValue (lead +:+ quoted s) = Value.Str s.
Proof.
  intros Hlead Hs. unfold parseValue, customTrim. cbv zeta.
  rewrite trim_quoted by exact Hlead.
  replace (quoted s =? "")%string with false by reflexivity.
  replace (test flagI rx_null (quoted s)) with false
    by (symmetry; apply (keyword_test flagI "n" "ull" SQ); reflexivity).
  replace (test flagI rx_true (quoted s)) with false
    by (symmetry; apply (keyword_test flagI "t" "rue" SQ); reflexivity).
  replace (test flagI rx_false (quoted s)) with false
    by (symmetry; apply (keyword_test flagI "f" "alse" SQ); reflexivity).
  replace (startsWith (quoted s) "'") with true
    by (unfold startsWith;
        change (quoted s) with (String SQ (SQLConverter.addslashes s +:+ String SQ ""));
        rewrite prefix_cons, prefix_nil; reflexivity).
  replace (endsWith (quoted s) "'") with true
    by (symmetry; apply (endsWith_push (String SQ (SQLConverter.addslashes s)) SQ)).
  cbn [andb].
  rewrite slice_quoted, unescape_addslashes, no_escape by exact Hs. reflexivity.
Qed.

(** *** The row scanner on quoted strings *)

Lemma scanRow_open r values cur :
  scanRow (String SQ r) values cur false false false
  = scanRow r values (push cur SQ) true false false.
Proof. destruct r; reflexivity. Qed.

Lemma scanRow_close r values cur :
  headSat isQuote r = false ->
  scanRow (String SQ r) values cur true false false
  = scanRow r values (push cur SQ) false false false.
Proof.
  intros H. destruct r as [|c r]; [reflexivity|].
  cbn [headSat] in H. cbn [scanRow]. change (ceqb SQ BSLASH) with false.
  change (ceqb SQ SQ) with true. cbn [andb negb]. rewrite isQuote_ceqb, H. reflexivity.
Qed.

Lemma scanRow_body s : forall r values cur,
  allChars notBackslash s = true ->
  scanRow (mapChars doubled s +:+ r) values cur true false false
  = scanRow r values (cur +:+ mapChars doubled s) true false false.
Proof.
  induction s as [|c s IH]; intros r values cur H.
  - cbn [mapChars]. rewrite append_nil_l, append_nil_r. reflexivity.
  - cbn [allChars] in H. apply andb_prop in H as [Hc Hs].
    cbn [mapChars]. unfold doubled at 1 3. destruct (isQuote c) eqn:Ec.
    + rewrite !append_cons, !append_nil_l. cbn [scanRow].
      change (ceqb SQ BSLASH) with false. change (ceqb SQ SQ) with true. cbn [andb negb].
      rewrite IH by exact Hs.
      replace (push (push cur SQ) SQ +:+ mapChars doubled s)
        with (cur +:+ String SQ (String SQ (mapChars doubled s)))
        by (unfold push; rewrite !append_assoc; reflexivity).
      reflexivity.
    + rewrite !append_cons, !append_nil_l. cbn [scanRow].
      unfold notBackslash in Hc. apply negb_true_iff in Hc. rewrite Hc.
      rewrite isQuote_ceqb, Ec. cbn [andb negb]. rewrite !andb_false_r. cbn [andb].
      rewrite IH by exact Hs.
      replace (push cur c +:+ mapChars doubled s) with (cur +:+ String c (mapChars doubled s))
        by (unfold push; rewrite append_assoc; reflexivity).
      reflexivity.
Qed.

Lemma scanRow_quoted s r values lead :
  allChars notBackslash s = true -> headSat isQuote r = false ->
  scanRow (quoted s +:+ r) values lead false false false
  = scanRow r values (lead +:+ quoted s) false false false.
Proof.
  intros Hs Hr. unfold quoted. rewrite addslashes_chars.
  rewrite !append_cons, append_assoc, scanRow_open, scanRow_body by exact Hs.
  rewrite append_cons, append_nil_l, scanRow_close by exact Hr.
  replace (push (push lead SQ +:+ mapChars doubled s) SQ)
    with (lead +:+ String SQ (mapChars doubled s) +:+ String SQ "")
    by (unfold push; rewrite !append_assoc; reflexivity).
  reflexivity.
Qed.

Lemma scanRow_strings : forall ss s values lead,
  allChars Str.isSpace lead = true ->
  forallb (allChars notBackslash) (s :: ss) = true ->
  scanRow (Str.join (List.map quoted (s :: ss)) ", ") values lead false false false
  = values ++ List.map Value.Str (s :: ss).
Proof.
  induction ss as [|s' ss IH]; intros s values lead Hlead H;
    cbn [forallb] in H; apply andb_prop in H as [Hs Hss].
  - cbn [List.map Str.join]. rewrite <- (append_nil_r (quoted s)).
    rewrite scanRow_quoted by (exact Hs || reflexivity).
    cbn [scanRow]. rewrite parseValue_quoted by assumption. reflexivity.
  - change (Str.join (List.map quoted (s :: s' :: ss)) ", ")
      with (quoted s +:+ ", " +:+ Str.join (List.map quoted (s' :: ss)) ", ").
    rewrite scanRow_quoted by (exact Hs || reflexivity).
    rewrite !append_cons, append_nil_l. cbn [scanRow].
    change (ceqb "," BSLASH) with false. change (ceqb "," SQ) with false.
    change (ceqb "," DQ) with false. change (ceqb "," COMMA) with true.
    change (ceqb " " BSLASH) with false. change (ceqb " " SQ) with false.
    change (ceqb " " DQ) with false. change (ceqb " " COMMA) with false.
    cbn [andb negb]. rewrite parseValue_quoted by assumption.
    rewrite IH by (reflexivity || exact Hss).
    rewrite <- app_assoc. reflexivity.
Qed.

(** X6.  A list of strings without backslashes, each put in single quotes
    with its quotes doubled by [addslashes] and the items joined by a comma
    and a space, is read back by [parseRow] as those strings. *)
Theorem parseRow_reads_quoted_strings (s : string) (ss : list string) :
  forallb (allChars notBackslash) (s :: ss) = true ->
  parseRow (Str.join (List.map quoted (s :: ss)) ", ") = List.map Value.Str (s :: ss).
Proof.
  intros H. unfold parseRow. rewrite scanRow_strings by (reflexivity || exact H). reflexivity.
Qed.

Lemma parseRow_reads_quoted_strings_witness :
  parseRow "'it''s', '', '(a, b)', ''' OR ''1''=''1'"
  = [Value.Str "it's"; Value.Str ""; Value.Str "(a, b)"; Value.Str "' OR '1'='1"].
Proof.
  apply (parseRow_reads_quoted_strings "it's" [""; "(a, b)"; "' OR '1'='1"]).
  reflexivity.
Defined.

End Quoting.

Section Names.
Import JS Regex SQLConverter.
Local Open Scope nat_scope.

Local Arguments ceqb : simpl never.

(** *** Splitting at dots *)

Lemma splitGo_piece (l : string) : forall rest cur,
  allChars notDot l = true ->
  Str.splitGo "." (l +:+ rest) cur 0 = Str.splitGo "." rest (cur +:+ l) 0.
Proof.
  induction l as [|c l IH]; intros rest cur Hl.
  - rewrite append_nil_l, append_nil_r. reflexivity.
  - cbn [allChars] in Hl. apply andb_prop in Hl as [Hc Hl].
    unfold notDot in Hc. apply negb_true_iff in Hc.
    rewrite append_cons. cbn [Str.splitGo].
    rewrite prefix_cons, Hc, IH by exact Hl.
    unfold push. rewrite append_assoc. reflexivity.
Qed.

Lemma splitGo_dot (rest cur : string) :
  Str.splitGo "." (String "." rest) cur 0 = cur :: Str.splitGo "." rest "" 0.
Proof. cbn [Str.splitGo]. rewrite prefix_cons, prefix_nil. reflexivity. Qed.

Lemma includes_dot (a rest : string) : Str.includes (a +:+ "." +:+ rest) "." = true.
Proof.
  change ("." +:+ rest) with (String "." rest).
  induction a as [|c a IH].
  - rewrite append_nil_l. cbn [Str.includes]. rewrite prefix_cons, prefix_nil. reflexivity.
  - rewrite append_cons. cbn [Str.includes]. rewrite IH. apply orb_true_r.
Qed.

Lemma includes_no_dot (a : string) : allChars notDot a = true -> Str.includes a "." = false.
Proof.
  induction a as [|c a IH]; intros H; [reflexivity|].
  cbn [allChars] in H. apply andb_prop in H as [Hc Ha].
  unfold notDot in Hc. apply negb_true_iff in Hc.
  cbn [Str.includes]. rewrite prefix_cons, Hc, IH by exact Ha. reflexivity.
Qed.

Lemma secondPiece_spec (a b rest : string) :
  allChars notDot a = true -> allChars notDot b = true -> endsPiece rest = true ->
  secondPiece (a +:+ "." +:+ b +:+ rest) = b.
Proof.
  intros Ha Hb Hrest. unfold secondPiece, Str.split.
  rewrite splitGo_piece by exact Ha.
  change ("." +:+ b +:+ rest) with (String "." (b +:+ rest)). rewrite splitGo_dot.
  rewrite splitGo_piece by exact Hb. rewrite append_nil_l.
  destruct rest as [|c rest]; [reflexivity|].
  cbn [endsPiece] in Hrest. cbn [Str.splitGo]. rewrite prefix_cons, Hrest, prefix_nil.
  reflexivity.
Qed.

(** X7.  [fixTableName] keeps the second of the pieces a name is divided
    into by dots, or the whole name when it holds no dot, and wraps it in
    backquotes for MySQL and MariaDB and in double quotes for PostgreSQL. *)
Theorem fixTableName_second_piece (a b rest targetType : string) :
  allChars notDot a = true -> allChars notDot b = true -> endsPiece rest = true ->
  fixTableName (a +:+ "." +:+ b +:+ rest) targetType = wrapMySQLOrPG targetType b
  /\ fixTableName a targetType = wrapMySQLOrPG targetType a.
Proof.
  intros Ha Hb Hrest. unfold fixTableName. split.
  - rewrite includes_dot, secondPiece_spec by assumption. reflexivity.
  - rewrite includes_no_dot by exact Ha. reflexivity.
Qed.

Lemma fixTableName_second_piece_witness :
  (fixTableName "public.users" "pgsql" = String DQ "users" +:+ String DQ ""
   /\ fixTableName "public" "pgsql" = String DQ "public" +:+ String DQ "")
  /\ (fixTableName "shop.public.users" "mysql" = "`public`"
      /\ fixTableName "shop" "mysql" = "`shop`").
Proof.
  split.
  - apply (fixTableName_second_piece "public" "users" "" "pgsql"); reflexivity.
  - apply (fixTableName_second_piece "shop" "public" ".users" "mysql"); reflexivity.
Defined.

(** *** The characters of an extracted name *)

Lemma notWord_isWord c : notWord c = negb (Str.isWord c).
Proof. destruct c as [[] [] [] [] [] [] [] []]; reflexivity. Qed.

Lemma keep_word s :
  allChars Str.isWord
    (mapChars (fun c => if notWord c then ""%string else String c "") s) = true.
Proof.
  induction s as [|c s IH]; [reflexivity|]. cbn [mapChars].
  rewrite notWord_isWord. destruct (Str.isWord c) eqn:E; cbn [negb].
  - rewrite append_cons, append_nil_l. cbn [allChars]. rewrite E, IH. reflexivity.
  - rewrite append_nil_l. exact IH.
Qed.

Lemma extractTableName_word input : allChars Str.isWord (extractTableName input) = true.
Proof.
  unfold extractTableName, rx_not_word. cbv zeta.
  rewrite (replaceAll_chars noFlags _ notWord) by apply charLike_Class.
  apply keep_word.
Qed.

(** X8.  Every table name [extractDropTableQueries] returns is a run of
    letters, digits and underscores, in double quotes for PostgreSQL and in
    backquotes for MySQL and MariaDB. *)
Theorem extractDropTableQueries_names (sql targetType : string) :
  Forall (fun table => exists name,
            allChars Str.isWord name = true
            /\ table = if isPGSQL targetType then String DQ name +:+ String DQ ""
                       else if isMySQL targetType then "`" +:+ name +:+ "`"
                       else name)
    (extractDropTableQueries sql targetType).
Proof.
  unfold extractDropTableQueries. cbv zeta. apply Forall_forall. intros table Hin.
  apply list_elem_of_fmap in Hin as (m & -> & _).
  exists (extractTableName (default ""%string (group m 1))).
  split; [apply extractTableName_word|reflexivity].
Qed.

End Names.

Section NamePieces.
Import JS Regex SQLConverter.

Lemma mapChars_ext (f g : ascii -> string) s :
  (forall c, f c = g c) -> mapChars f s = mapChars g s.
Proof. intros H. induction s as [|c s IH]; [reflexivity|]. cbn [mapChars]. rewrite H, IH. reflexivity. Qed.

Lemma strip_not_word s :
  Regex.replaceAll noFlags rx_not_word (fun _ => ""%string) s = keepWord s.
Proof.
  unfold rx_not_word. rewrite (replaceAll_chars noFlags _ notWord) by apply charLike_Class.
  apply mapChars_ext. intros c. rewrite notWord_isWord. destruct (Str.isWord c); reflexivity.
Qed.

(** X9.  [extractTableName] returns the letters, digits and underscores of
    the second of the pieces the input is divided into by dots, or of the
    whole input when it holds no dot. *)
Theorem extractTableName_second_piece (a b rest : string) :
  allChars notDot a = true -> allChars notDot b = true -> endsPiece rest = true ->
  extractTableName (a +:+ "." +:+ b +:+ rest) = keepWord b
  /\ extractTableName a = keepWord a.
Proof.
  intros Ha Hb Hrest. unfold extractTableName. cbv zeta. split.
  - rewrite includes_dot, secondPiece_spec by assumption. apply strip_not_word.
  - rewrite includes_no_dot by exact Ha. apply strip_not_word.
Qed.

Lemma extractTableName_second_piece_witness :
  extractTableName "public.user-accounts;.x" = "useraccounts"
  /\ extractTableName "public" = "public".
Proof.
  apply (extractTableName_second_piece "public" "user-accounts;" ".x"); reflexivity.
Defined.

End NamePieces.

Section SQLiteHeader.
Import SQLParser.
Local Open Scope nat_scope.

Lemma everyFrom_spec (header : list Byte.byte) : forall buffer i,
  everyFrom header buffer i = true <-> take (length header) (drop i buffer) = header.
Proof.
  induction header as [|b header IH]; intros buffer i; cbn [everyFrom length].
  - rewrite take_0. tauto.
  - rewrite andb_true_iff, IH. destruct (buffer !! i) as [x|] eqn:E.
    + rewrite (drop_S _ _ _ E). cbn [take]. split.
      * intros [Hb Ht]. apply Byte.byte_dec_bl in Hb. rewrite Hb, Ht. reflexivity.
      * intros H. injection H as -> Ht. split; [apply Byte.byte_dec_lb; reflexivity|exact Ht].
    + rewrite (drop_ge buffer i) by (apply lookup_ge_None, E). cbn [take].
      split; [intros [? _]; discriminate|discriminate].
Qed.

(** X10.  [looksLikeSQLite] accepts a buffer exactly when it starts with
    the sixteen bytes of the SQLite file header, the text [SQLite format 3]
    and a zero byte; a shorter buffer is refused. *)
Theorem looksLikeSQLite_magic (buffer : list Byte.byte) :
  looksLikeSQLite buffer = true <-> exists rest, buffer = sqliteMagic ++ rest.
Proof.
  unfold looksLikeSQLite. rewrite everyFrom_spec. rewrite drop_0.
  change sqliteMagic with sqliteHeader. split.
  - intros H. exists (drop (length sqliteHeader) buffer).
    rewrite <- H at 1. symmetry. apply take_drop.
  - intros [rest ->]. apply take_app_length.
Qed.

End SQLiteHeader.

Section SplitterNeverThrows.
Import JS TableParser.

Lemma setAt_lookup (a : sparse) : forall (i j : nat) (v : string),
  mjoin (setAt a i v !! j) = if Nat.eqb j i then Some v else mjoin (a !! j).
Proof.
  induction a as [|x a IH]; intros i j v.
  - revert j. induction i as [|i IHi]; intros [|j]; try reflexivity.
    cbn [setAt]. change ((None :: setAt [] i v) !! S j) with (setAt [] i v !! j).
    rewrite IHi. cbn [Nat.eqb]. reflexivity.
  - destruct i as [|i], j as [|j]; try reflexivity.
    cbn [setAt]. change ((x :: setAt a i v) !! S j) with (setAt a i v !! j).
    rewrite IH. reflexivity.
Qed.

Lemma covered_set_both q d (i : Z) (v w : string) :
  covered q d -> covered (arrSet q i v) (arrSet d i w).
Proof.
  intros H j. unfold arrSet. destruct (i <? 0)%Z; [apply H|].
  rewrite !setAt_lookup. destruct (Nat.eqb j (Z.to_nat i)); [eauto|apply H].
Qed.

Lemma covered_set_right q d (i : Z) (w : string) :
  covered q d -> covered q (arrSet d i w).
Proof.
  intros H j Hj. unfold arrSet. destruct (i <? 0)%Z; [apply H, Hj|].
  rewrite setAt_lookup. destruct (Nat.eqb j (Z.to_nat i)); [eauto|apply H, Hj].
Qed.

Lemma covered_append_both q d (i : Z) (v w : string) :
  covered q d -> covered (arrAppend q i v) (arrSet d i w).
Proof. intros H. unfold arrAppend. apply covered_set_both, H. Qed.

Lemma splitStep_covered st text :
  text <> ""%string ->
  covered (queryArray st) (delimiterArray st) ->
  covered (queryArray (splitStep st text)) (delimiterArray (splitStep st text)).
Proof.
  intros Hne H. unfold splitStep.
  rewrite (proj2 (String.eqb_neq text "") Hne).
  set (st1 := if (append st =? 0)%Z then _ else st).
  assert (H1 : covered (queryArray st1) (delimiterArray st1)).
  { subst st1. destruct (append st =? 0)%Z; [|exact H].
    destruct (startsWith (Str.trim text) "--"); exact H. }
  clearbody st1. clear H st.
  destruct (skip st1 =? 0)%Z; [|exact H1].
  cbv zeta.
  destruct (start st1 =? 1)%Z;
    (destruct (Str.includes _ _ || String.eqb _ _);
     destruct (startsWith (Str.toLowerCase (Str.trim text)) "delimiter "); cbn;
     repeat first [exact H1 | apply covered_append_both | apply covered_set_both
                  | apply covered_set_right]).
Qed.

Lemma fold_covered (arr : list string) : forall st,
  Forall (fun text => text <> ""%string) arr ->
  covered (queryArray st) (delimiterArray st) ->
  covered (queryArray (fold_left splitStep arr st)) (delimiterArray (fold_left splitStep arr st)).
Proof.
  induction arr as [|text arr IH]; intros st Hall H; [exact H|].
  apply Forall_cons in Hall as [Hne Hall]. cbn [fold_left].
  apply IH; [exact Hall|]. apply splitStep_covered; assumption.
Qed.

Lemma collect_covered (q : sparse) : forall d line,
  (forall i : nat, is_Some (mjoin (q !! i)) -> is_Some (mjoin (d !! (line + i)%nat))) ->
  exists l, collect q d line = Ok l.
Proof.
  induction q as [|x q IH]; intros d line H; cbn [collect]; [eauto|].
  assert (Hrest : exists l, collect q d (S line) = Ok l).
  { apply IH. intros i Hi. replace (S line + i)%nat with (line + S i)%nat by lia.
    apply H. exact Hi. }
  destruct x as [sql|]; [|exact Hrest].
  destruct (startsWith (Str.toLowerCase sql) "delimiter "); [exact Hrest|].
  destruct (H 0%nat) as [delimiter Hd]; [cbn; eauto|].
  unfold arrGet. replace (Z.of_nat line <? 0)%Z with false by (symmetry; apply Z.ltb_ge; lia).
  rewrite Nat2Z.id. rewrite Nat.add_0_r in Hd. rewrite Hd.
  destruct Hrest as [l ->]. eauto.
Qed.

Lemma keptLines_nonempty sql : Forall (fun text => text <> ""%string) (keptLines sql).
Proof.
  unfold keptLines. apply Forall_forall. intros text Hin.
  apply list_elem_of_In, filter_In in Hin as [_ Hk]. unfold keepLine in Hk.
  apply andb_prop in Hk as [_ Hk]. apply negb_true_iff, String.eqb_neq in Hk. exact Hk.
Qed.

(** X11.  [parseSQL] returns a list of statements for every input text: the
    delimiter it reads for a statement is never missing, so it never throws;
    [parseAll], which passes over the statements [parseTable] rejects, never
    throws either. *)
Theorem parseSQL_never_throws (sql : string) :
  (exists statements, parseSQL sql = Ok statements)
  /\ (exists tables, parseAll sql = Ok tables).
Proof.
  assert (H : exists statements, parseSQL sql = Ok statements).
  { unfold parseSQL, assemble. apply collect_covered. intros i Hi. cbn [Nat.add].
    revert i Hi. apply fold_covered; [apply keptLines_nonempty|].
    intros i Hi. destruct i; destruct Hi; discriminate. }
  split; [exact H|]. destruct H as [statements H].
  unfold parseAll. rewrite H. eauto.
Qed.

End SplitterNeverThrows.

(** ** Blank lines inside a statement *)

Section SplitterBlankLines.
Import JS TableParser.

(** C9.  The second pass of [parseSQL] has a branch that appends a line
    break to the statement in progress when it meets an empty line, but the
    first pass hands it no empty line, of whatever script; so a blank line
    inside a statement leaves no line break of its own in the statement's
    text.  The script of the lines [SELECT 1,], an empty line and [2;] is
    split like the script without the empty line, into the one statement
    whose text has a single line break; the second pass given the three
    lines as they are keeps line breaks for the empty one.  Comment lines
    are discarded, as the first pass is written to do. *)
Theorem blank_line_in_statement_is_dropped :
  (forall sql, Forall (fun text => text <> ""%string) (keptLines sql))
  /\ parseSQL ("SELECT 1," +:+ NL +:+ NL +:+ "2;")
     = Ok [ {| query := "SELECT 1," +:+ CRLF +:+ "2"; delimiter := ";" |} ]
  /\ parseSQL ("SELECT 1," +:+ NL +:+ NL +:+ "2;") = parseSQL ("SELECT 1," +:+ NL +:+ "2;")
  /\ assemble ["SELECT 1,"; ""; "2;"]
     = Ok [ {| query := "SELECT 1," +:+ CRLF +:+ CRLF +:+ CRLF +:+ "2"; delimiter := ";" |} ]
  /\ parseSQL ("-- first" +:+ NL +:+ "SELECT 1," +:+ NL +:+ "  -- second" +:+ NL +:+ "2;"
               +:+ NL +:+ "--")
     = Ok [ {| query := "SELECT 1," +:+ CRLF +:+ "2"; delimiter := ";" |} ].
Proof.
  split; [exact keptLines_nonempty|].
  repeat split; vm_compute; reflexivity.
Qed.

End SplitterBlankLines.

Section Trimming.
Import JS.
Local Open Scope nat_scope.

Lemma rev_app_append a : forall acc, String.rev_app a acc = String.rev a +:+ acc.
Proof.
  unfold String.rev. induction a as [|x a IH]; intros acc; [reflexivity|].
  cbn [String.rev_app]. rewrite IH, (IH (String x "")), append_assoc. reflexivity.
Qed.

Lemma rev_append a b : String.rev (a +:+ b) = String.rev b +:+ String.rev a.
Proof.
  unfold String.rev at 1. rewrite rev_app_app, rev_app_append.
  fold (String.rev a). reflexivity.
Qed.

Lemma allChars_append p a b : allChars p (a +:+ b) = allChars p a && allChars p b.
Proof.
  induction a as [|x a IH]; [reflexivity|].
  rewrite append_cons. cbn [allChars]. rewrite IH, andb_assoc. reflexivity.
Qed.

Lemma allChars_rev p a : allChars p (String.rev a) = allChars p a.
Proof.
  induction a as [|x a IH]; [reflexivity|].
  change (String x a) with (String x "" +:+ a). rewrite rev_append, !allChars_append, IH.
  cbn. rewrite andb_true_r. apply andb_comm.
Qed.

Lemma headSat_append p a b :
  headSat p (a +:+ b) = match a with EmptyString => headSat p b | _ => headSat p a end.
Proof. destruct a; reflexivity. Qed.

Lemma rev_empty a : String.rev a = ""%string -> a = ""%string.
Proof.
  intros H. apply (f_equal String.rev) in H. rewrite rev_rev in H. exact H.
Qed.

Lemma headSat_rev p a : headSat p (String.rev a) = lastSat p a.
Proof.
  induction a as [|x a IH]; [reflexivity|].
  change (String x a) with (String x "" +:+ a) at 1. rewrite rev_append, headSat_append.
  destruct a as [|y a]; [reflexivity|].
  destruct (String.rev (String y a)) eqn:E.
  - apply rev_empty in E. discriminate.
  - exact IH.
Qed.

Lemma trimStart_spaces_only a : allChars Str.isSpace a = true -> Str.trimStart a = ""%string.
Proof.
  induction a as [|x a IH]; intros H; [reflexivity|].
  cbn [allChars] in H. apply andb_prop in H as [Hx Ha].
  cbn [Str.trimStart]. rewrite Hx. apply IH, Ha.
Qed.

Lemma trimStart_id a : headSat Str.isSpace a = false -> Str.trimStart a = a.
Proof. destruct a as [|x a]; [reflexivity|]. cbn. intros ->. reflexivity. Qed.

(** Trailing white space goes, the rest stays. *)
Lemma trim_tail x tail :
  headSat Str.isSpace x = false -> lastSat Str.isSpace x = false ->
  allChars Str.isSpace tail = true ->
  Str.trim (x +:+ tail) = x.
Proof.
  intros Hh Hl Ht. unfold Str.trim, Str.trimEnd, Str.rev.
  assert (Hs : Str.trimStart (x +:+ tail) = x +:+ tail \/ x = ""%string).
  { destruct x as [|c x]; [right; reflexivity|left]. apply trimStart_id. exact Hh. }
  destruct Hs as [Hs| ->].
  - rewrite Hs, rev_append.
    rewrite (trimStart_spaces (String.rev tail)) by (rewrite allChars_rev; exact Ht).
    rewrite trimStart_id by (rewrite headSat_rev; exact Hl). apply rev_rev.
  - rewrite append_nil_l, (trimStart_spaces_only tail Ht). reflexivity.
Qed.

Lemma trim_id x :
  headSat Str.isSpace x = false -> lastSat Str.isSpace x = false -> Str.trim x = x.
Proof. intros Hh Hl. rewrite <- (append_nil_r x) at 1. apply trim_tail; auto. Qed.

Lemma lastSat_push p x c : lastSat p (x +:+ String c "") = p c.
Proof.
  induction x as [|y x IH]; [reflexivity|].
  rewrite append_cons. cbn [lastSat]. destruct (x +:+ String c "") eqn:E; [|exact IH].
  destruct x; discriminate.
Qed.

End Trimming.

Section OneLineStatements.
Import JS TableParser.
Local Open Scope nat_scope.

Local Arguments ceqb : simpl never.

(** *** One plain line *)

Lemma prefix_shorter p x s : String.prefix (p +:+ x) s = true -> String.prefix p s = true.
Proof.
  revert s. induction p as [|a p IH]; intros s H; [apply prefix_nil|].
  rewrite append_cons in H. destruct s as [|b s]; [discriminate|].
  rewrite prefix_cons in *. destruct (ceqb a b); [apply IH, H|discriminate].
Qed.

(** A pattern without the character [c] cannot reach beyond a [c]. *)
Lemma prefix_cut p : forall a c b,
  allChars (fun y => negb (ceqb y c)) p = true ->
  String.prefix p (a +:+ String c b) = String.prefix p (a +:+ String c "").
Proof.
  induction p as [|y p IH]; intros a c b Hp; [rewrite !prefix_nil; reflexivity|].
  cbn [allChars] in Hp. apply andb_prop in Hp as [Hy Hp]. apply negb_true_iff in Hy.
  destruct a as [|x a].
  - rewrite !append_nil_l, !prefix_cons, Hy. reflexivity.
  - rewrite !append_cons, !prefix_cons. destruct (ceqb y x); [apply IH, Hp|reflexivity].
Qed.

Lemma toLowerCase_append a b :
  Str.toLowerCase (a +:+ b) = Str.toLowerCase a +:+ Str.toLowerCase b.
Proof.
  unfold Str.toLowerCase. induction a as [|x a IH]; [reflexivity|].
  rewrite append_cons. cbn [Str.map]. rewrite IH. reflexivity.
Qed.

Lemma includes_last x c : Str.includes (x +:+ String c "") (String c "") = true.
Proof.
  induction x as [|y x IH].
  - rewrite append_nil_l. cbn [Str.includes]. rewrite prefix_cons, prefix_nil.
    unfold ceqb. rewrite Ascii.eqb_refl. reflexivity.
  - rewrite append_cons. cbn [Str.includes]. rewrite IH. apply orb_true_r.
Qed.

Lemma dropChars_push x c : forall n, n <= String.length x ->
  dropChars n (x +:+ String c "") = dropChars n x +:+ String c "".
Proof.
  induction x as [|y x IH]; intros [|n] H; try reflexivity; [simpl in H; lia|].
  rewrite append_cons. cbn [dropChars]. apply IH. simpl in H. lia.
Qed.

Lemma substringFrom_Z (s : string) (a : Z) :
  Z.to_nat a <= String.length s -> substringFrom s a = dropChars (Z.to_nat a) s.
Proof.
  intros Ha. destruct (Z.ltb_spec a 0) as [Hneg|Hpos].
  - replace (Z.to_nat a) with 0 by lia.
    unfold substringFrom, substring, clamp.
    rewrite (proj2 (Z.ltb_lt a 0) Hneg).
    replace (Z.of_nat (String.length s) <? 0)%Z with false by (symmetry; apply Z.ltb_ge; lia).
    rewrite Nat2Z.id, Nat.min_id. cbn [Nat.min Nat.max Nat.sub].
    rewrite Nat.sub_0_r. apply substring_0_all.
  - rewrite <- (Z2Nat.id a) at 1 by exact Hpos. apply substringFrom_nat, Ha.
Qed.

Section Line.
Variable q : string.
Hypothesis Hq : plainStatement q = true.

Let l : string := q +:+ ";".

Lemma plain_parts :
  isLine q = true /\ headSat Str.isSpace q = false
  /\ startsWith l "--" = false /\ startsWith (Str.toLowerCase l) "delimiter " = false.
Proof.
  unfold plainStatement in Hq. fold l in Hq.
  apply andb_prop in Hq as [H H4]. apply andb_prop in H as [H H3]. apply andb_prop in H as [H1 H2].
  apply negb_true_iff in H2, H3, H4. auto.
Qed.

Lemma line_isLine : isLine l = true.
Proof.
  destruct plain_parts as (H & _). unfold isLine, l in *.
  rewrite allChars_append, H. reflexivity.
Qed.

Lemma line_head : headSat Str.isSpace l = false.
Proof.
  destruct plain_parts as (_ & H & _). unfold l. rewrite headSat_append.
  destruct q; [reflexivity|exact H].
Qed.

Lemma line_trim : Str.trim l = l.
Proof. apply trim_id; [apply line_head|]. unfold l. apply lastSat_push. Qed.

Lemma line_trim_crlf : Str.trim (l +:+ CRLF) = l.
Proof. apply trim_tail; [apply line_head| |reflexivity]. unfold l. apply lastSat_push. Qed.

Lemma line_nonempty : (l =? "")%string = false.
Proof. unfold l. destruct q; reflexivity. Qed.

Lemma line_kept : keepLine l = true.
Proof.
  destruct plain_parts as (_ & _ & H & _). unfold keepLine.
  rewrite line_nonempty. cbn [negb]. rewrite !andb_true_r.
  apply andb_true_intro. split; apply negb_true_iff.
  - destruct (startsWith l "-- ") eqn:E; [|reflexivity].
    unfold startsWith in *. change "-- "%string with ("--" +:+ " ")%string in E.
    apply prefix_shorter in E. congruence.
  - destruct (String.eqb_spec l "--") as [E|]; [|reflexivity].
    rewrite E in H. discriminate.
Qed.

Lemma line_ends :
  Str.includes (substringFrom l (len l - len ";" - 1)) ";" || (l =? ";")%string = true.
Proof.
  apply orb_true_intro. left. unfold l, len. rewrite length_append. cbn [String.length].
  rewrite substringFrom_Z by (rewrite length_append; cbn [String.length]; lia).
  rewrite dropChars_push by lia. apply includes_last.
Qed.

Lemma line_not_delimiter :
  startsWith (Str.toLowerCase (l +:+ CRLF)) "delimiter " = false.
Proof.
  destruct plain_parts as (_ & _ & _ & H). etransitivity; [|exact H].
  unfold l, startsWith. rewrite !toLowerCase_append.
  change (Str.toLowerCase ";") with (String ";" "").
  rewrite append_assoc. change (String ";" "" +:+ Str.toLowerCase CRLF)
    with (String ";" (Str.toLowerCase CRLF)).
  apply prefix_cut. reflexivity.
Qed.

Lemma line_query : substring l 0 (len l - len ";") = q.
Proof.
  unfold l, len, substring, clamp. rewrite length_append. cbn [String.length].
  replace (0 <? 0)%Z with false by reflexivity.
  replace (Z.of_nat (String.length q + 1) - Z.of_nat 1 <? 0)%Z with false
    by (symmetry; apply Z.ltb_ge; lia).
  replace (Z.to_nat (Z.of_nat (String.length q + 1) - Z.of_nat 1)) with (String.length q) by lia.
  cbn [Z.to_nat]. rewrite Nat.min_0_l, (Nat.min_l (String.length q)) by lia.
  rewrite Nat.min_0_l, Nat.max_0_l, Nat.sub_0_r. apply substring_0_append.
Qed.

End Line.

(** *** The arrays *)

Lemma setAt_beyond (a : sparse) : forall i v,
  length a <= i -> setAt a i v = a ++ replicate (i - length a) None ++ [Some v].
Proof.
  induction a as [|x a IH]; intros i v H.
  - cbn [length app]. rewrite Nat.sub_0_r. clear H.
    induction i as [|i IHi]; [reflexivity|]. cbn [setAt replicate app]. rewrite IHi. reflexivity.
  - destruct i as [|i]; [simpl in H; lia|]. cbn [setAt length app Nat.sub].
    rewrite IH by (simpl in H; lia). reflexivity.
Qed.

Lemma setAt_setAt (a : sparse) : forall i v w, setAt (setAt a i v) i w = setAt a i w.
Proof.
  induction a as [|x a IH]; intros i v w.
  - induction i as [|i IHi]; [reflexivity|]. cbn [setAt]. rewrite IHi. reflexivity.
  - destruct i as [|i]; [reflexivity|]. cbn [setAt]. rewrite IH. reflexivity.
Qed.

Lemma collect_app (q1 : sparse) : forall q2 d line,
  collect (q1 ++ q2) d line
  = match collect q1 d line with
    | Ok a =>
      match collect q2 d (line + length q1) with
      | Ok b => Ok (a ++ b)
      | Throw => Throw
      end
    | Throw => Throw
    end.
Proof.
  induction q1 as [|x q1 IH]; intros q2 d line.
  - cbn [app collect length]. rewrite Nat.add_0_r. destruct (collect q2 d line); reflexivity.
  - cbn [app collect length]. replace (line + S (length q1)) with (S line + length q1) by lia.
    destruct x as [sql|]; [|apply IH].
    destruct (startsWith (Str.toLowerCase sql) "delimiter "); [apply IH|].
    destruct (arrGet d (Z.of_nat line)); [|reflexivity].
    rewrite IH. destruct (collect q1 d (S line)); [|reflexivity].
    destruct (collect q2 d (S line + length q1)); reflexivity.
Qed.

Lemma collect_holes (m : nat) : forall q d line,
  collect (replicate m None ++ q) d line = collect q d (line + m).
Proof.
  induction m as [|m IH]; intros q d line.
  - rewrite Nat.add_0_r. reflexivity.
  - cbn [replicate app collect]. rewrite IH. f_equal. lia.
Qed.

Lemma collect_agree (q : sparse) : forall d d' line,
  (forall i, i < length q -> mjoin (d' !! (line + i)) = mjoin (d !! (line + i))) ->
  collect q d' line = collect q d line.
Proof.
  induction q as [|x q IH]; intros d d' line H; [reflexivity|].
  cbn [collect].
  assert (Hrest : collect q d' (S line) = collect q d (S line)).
  { apply IH. intros i Hi. replace (S line + i) with (line + S i) by lia.
    apply H. simpl. lia. }
  destruct x as [sql|]; [|exact Hrest].
  destruct (startsWith (Str.toLowerCase sql) "delimiter "); [exact Hrest|].
  unfold arrGet. replace (Z.of_nat line <? 0)%Z with false by (symmetry; apply Z.ltb_ge; lia).
  rewrite Nat2Z.id. specialize (H 0). rewrite Nat.add_0_r in H. rewrite H by (simpl; lia).
  rewrite Hrest. reflexivity.
Qed.

(** *** One turn of the second pass *)

Lemma splitStep_plain st q done :
  plainStatement q = true -> splitterAfter st done ->
  splitterAfter (splitStep st (q +:+ ";")) (done ++ [q]).
Proof.
  intros Hq (Happ & Hstart & Hdelim & Hn & Hlen & Hcol).
  unfold splitStep.
  rewrite (line_nonempty q Hq), Happ. cbn [Z.eqb].
  rewrite (line_trim q Hq).
  destruct (plain_parts q Hq) as (_ & _ & Hc & Hd). rewrite Hc. cbn [skip start delim nquery
    queryArray delimiterArray append Z.eqb].
  rewrite Hstart, Hdelim. cbn [Z.eqb Pos.eqb]. cbv zeta.
  rewrite (line_ends q), Hd. cbv beta iota zeta.
  set (n := nquery st) in *.
  set (i := Z.to_nat (n + 1)) in *.
  assert (Hi : (n + 1 <? 0)%Z = false) by (apply Z.ltb_ge; lia).
  assert (Hi2 : (n + 1 + 1 <? 0)%Z = false) by (apply Z.ltb_ge; lia).
  assert (Hq' : arrAppend (arrSet (queryArray st) (n + 1) "") (n + 1) ((q +:+ ";") +:+ CRLF)
                = queryArray st ++ replicate (i - length (queryArray st)) None
                  ++ [Some ((q +:+ ";") +:+ CRLF)]).
  { unfold arrAppend, arrSet, arrGet. rewrite Hi. fold i.
    rewrite setAt_lookup, Nat.eqb_refl. cbn [default]. rewrite append_nil_l, setAt_setAt.
    apply setAt_beyond, Hlen. }
  rewrite Hq'. clear Hq'.
  split; [reflexivity|]. split; [reflexivity|]. split; [reflexivity|].
  cbn [nquery queryArray delimiterArray].
  split; [lia|]. split.
  { rewrite !length_app, length_replicate. cbn [length]. lia. }
  intros d' Hd'.
  rewrite collect_app, collect_holes. cbn [Nat.add].
  rewrite (Hcol d').
  2:{ intros j Hj. rewrite Hd' by (rewrite length_app; lia).
      unfold arrSet. rewrite Hi, Hi2. rewrite !setAt_lookup.
      replace (Nat.eqb j (Z.to_nat (n + 1 + 1))) with false by (symmetry; apply Nat.eqb_neq; lia).
      replace (Nat.eqb j (Z.to_nat (n + 1))) with false by (symmetry; apply Nat.eqb_neq; lia).
      reflexivity. }
  replace (length (queryArray st) + (i - length (queryArray st))) with i by lia.
  cbn [collect]. rewrite (line_not_delimiter q Hq).
  unfold arrGet. replace (Z.of_nat i <? 0)%Z with false by (symmetry; apply Z.ltb_ge; lia).
  rewrite Nat2Z.id, Hd'.
  2:{ rewrite !length_app, length_replicate. cbn [length]. lia. }
  unfold arrSet. rewrite Hi, Hi2, !setAt_lookup. fold i.
  replace (Nat.eqb i (Z.to_nat (n + 1 + 1))) with false by (symmetry; apply Nat.eqb_neq; lia).
  rewrite Nat.eqb_refl.
  rewrite (line_trim_crlf q Hq), (line_query q).
  rewrite map_app. reflexivity.
Qed.

Lemma fold_plain (qs : list string) : forall st done,
  forallb plainStatement qs = true -> splitterAfter st done ->
  splitterAfter (fold_left splitStep (List.map (fun q => q +:+ ";") qs) st) (done ++ qs).
Proof.
  induction qs as [|q qs IH]; intros st done H Hst.
  - rewrite app_nil_r. exact Hst.
  - cbn [forallb] in H. apply andb_prop in H as [Hq Hqs].
    cbn [List.map fold_left]. replace (done ++ q :: qs) with ((done ++ [q]) ++ qs)
      by (rewrite <- app_assoc; reflexivity).
    apply IH; [exact Hqs|]. apply splitStep_plain; assumption.
Qed.

Lemma keptLines_plain (qs : list string) :
  forallb plainStatement qs = true ->
  keptLines (Str.join (List.map (fun q => q +:+ ";") qs) NL)
  = List.map (fun q => q +:+ ";") qs.
Proof.
  intros H. rewrite keptLines_join.
  - induction qs as [|q qs IH]; [reflexivity|].
    cbn [forallb] in H. apply andb_prop in H as [Hq Hqs].
    cbn [List.map List.filter]. rewrite (line_trim q Hq), (line_kept q Hq), IH by exact Hqs.
    reflexivity.
  - induction qs as [|q qs IH]; [reflexivity|].
    cbn [forallb] in H. apply andb_prop in H as [Hq Hqs].
    cbn [List.map forallb]. rewrite (line_isLine q Hq), IH by exact Hqs. reflexivity.
Qed.

(** X12.  A script whose lines are statements that each fit on one line,
    every one closed by a semicolon, is split by [parseSQL] into exactly
    those statements, in order, each without its semicolon and with the
    delimiter [;]. *)
Theorem parseSQL_one_line_statements (qs : list string) :
  forallb plainStatement qs = true ->
  parseSQL (Str.join (List.map (fun q => q +:+ ";") qs) NL)
  = Ok (List.map statementOf qs).
Proof.
  intros H. unfold parseSQL, assemble. rewrite keptLines_plain by exact H.
  destruct (fold_plain qs splitter0 [] H) as (_ & _ & _ & _ & _ & Hcol).
  - repeat split; try reflexivity; cbn; lia.
  - apply Hcol. reflexivity.
Qed.

Lemma parseSQL_one_line_statements_witness :
  parseSQL (Str.join ["CREATE TABLE a (id INT);"; "INSERT INTO a VALUES ('x;y');"; ";"] NL)
  = Ok [statementOf "CREATE TABLE a (id INT)"; statementOf "INSERT INTO a VALUES ('x;y')";
        statementOf ""].
Proof.
  apply (parseSQL_one_line_statements
           ["CREATE TABLE a (id INT)"; "INSERT INTO a VALUES ('x;y')"; ""]).
  reflexivity.
Defined.

End OneLineStatements.

Section DelimiterNames.

Import JS Str Regex TableParser.
Local Open Scope Z_scope.

Ltac every_char c :=
  destruct c as [[] [] [] [] [] [] [] []]; vm_compute; try reflexivity; try discriminate; auto.

Lemma isSpace_lowerChar c : isSpace (lowerChar c) = isSpace c.
Proof. every_char c. Qed.

Lemma space_is_blank c : lowerChar c = " "%char -> c = " "%char.
Proof. every_char c. Qed.

Lemma headSat_trimStart a : headSat isSpace (trimStart a) = false.
Proof.
  induction a as [|c a IH]; [reflexivity|]. cbn [trimStart].
  destruct (isSpace c) eqn:E; [exact IH|]. exact E.
Qed.

Lemma lastSat_trimStart a :
  lastSat isSpace a = false -> lastSat isSpace (trimStart a) = false.
Proof.
  induction a as [|c a IH]; intros H; [reflexivity|]. cbn [trimStart].
  destruct (isSpace c) eqn:E; [|exact H]. apply IH.
  destruct a as [|c' a]; [reflexivity|exact H].
Qed.

Lemma lastSat_rev p a : lastSat p (String.rev a) = headSat p a.
Proof. rewrite <- (rev_rev a) at 2. symmetry. apply headSat_rev. Qed.

Lemma trim_head x : headSat isSpace (trim x) = false.
Proof.
  unfold trim, trimEnd, rev. rewrite headSat_rev. apply lastSat_trimStart.
  rewrite lastSat_rev. apply headSat_trimStart.
Qed.

Lemma trim_last x : lastSat isSpace (trim x) = false.
Proof. unfold trim, trimEnd, rev. rewrite lastSat_rev. apply headSat_trimStart. Qed.

Lemma trim_trim x : trim (trim x) = trim x.
Proof. apply trim_id; [apply trim_head|apply trim_last]. Qed.

(** After a run of white space, what is left of a text that does not end
    in white space starts with another character. *)
Lemma squash_lead rep r :
  r <> ""%string -> lastSat isSpace r = false ->
  exists c y, squash isSpace rep r true = String c y /\ isSpace c = false.
Proof.
  induction r as [|c r IH]; intros Hne Hl; [congruence|].
  cbn [squash]. destruct (isSpace c) eqn:E; [|eauto].
  apply IH.
  - intros ->. cbn in Hl. congruence.
  - destruct r; [cbn in Hl; congruence|exact Hl].
Qed.

Lemma splitGo_first (s : string) : forall cur,
  cur <> ""%string ->
  exists d rest, splitGo " " s cur 0 = d :: rest /\ d <> ""%string.
Proof.
  induction s as [|c s IH]; intros cur H; cbn [splitGo]; [eauto|].
  destruct (String.prefix " " (String c s)); [eauto|].
  apply IH. unfold push. destruct cur; discriminate.
Qed.

Lemma spaces_charLike : charLike noFlags ws isSpace.
Proof.
  intros fuel st k. unfold ws. rewrite (charLike_Class noFlags false [CSpace]).
  unfold step. destruct (rest st) as [|c s]; [reflexivity|].
  replace (xorb false (class_has noFlags [CSpace] c)) with (isSpace c); [reflexivity|].
  cbn. destruct (isSpace c); reflexivity.
Qed.

Lemma lower_prefix_cons a p t :
  String.prefix (String a p) (map lowerChar t) = true ->
  exists c t', t = String c t' /\ lowerChar c = a
               /\ String.prefix p (map lowerChar t') = true.
Proof.
  destruct t as [|c t]; [discriminate|]. cbn [map]. rewrite prefix_cons.
  destruct (ceqb a (lowerChar c)) eqn:E; [|discriminate].
  apply ceqb_eq in E. eauto.
Qed.

Lemma letter_not_space c a : isSpace a = false -> lowerChar c = a -> isSpace c = false.
Proof. intros H <-. rewrite isSpace_lowerChar in H. exact H. Qed.

Lemma splitGo_letter c s cur :
  isSpace c = false -> splitGo " " (String c s) cur 0 = splitGo " " s (push cur c) 0.
Proof.
  intros H. cbn [splitGo]. rewrite prefix_cons.
  destruct (ceqb " " c) eqn:E; [|reflexivity].
  apply ceqb_eq in E. subst c. discriminate H.
Qed.

Lemma splitGo_blank s cur :
  splitGo " " (String " " s) cur 0 = cur :: splitGo " " s ""%string 0.
Proof. cbn [splitGo]. rewrite prefix_cons, prefix_nil. reflexivity. Qed.

(** A [DELIMITER] command names its delimiter: the second word of the
    line is there, and is not empty. *)
Lemma delimiter_word (t : string) :
  lastSat isSpace t = false ->
  startsWith (toLowerCase t) "delimiter " = true ->
  nth 1 (split (replaceAll noFlags rx_spaces (fun _ => " "%string) t) " ") ""%string
  <> ""%string.
Proof.
  intros Hl H. unfold rx_spaces. rewrite (replaceAll_runs noFlags ws isSpace) by apply spaces_charLike.
  unfold startsWith, toLowerCase in H.
  do 9 (let L := fresh "L" in
        apply lower_prefix_cons in H as (?c & ?t & -> & L & H);
        apply letter_not_space in L; [|reflexivity]).
  apply lower_prefix_cons in H as (b & r & -> & Lb & _). apply space_is_blank in Lb. subst b.
  assert (Hr : r <> ""%string) by (intros ->; discriminate Hl).
  assert (Hlr : lastSat isSpace r = false) by (destruct r; [congruence|exact Hl]).
  destruct (squash_lead " " r Hr Hlr) as (x & y & Hy & Hx).
  cbn [squash]. repeat match goal with L : isSpace _ = false |- _ => rewrite L; revert L end. intros.
  change (isSpace " ") with true. cbv iota. rewrite Hy.
  unfold split. rewrite !splitGo_letter by assumption.
  change (String " " "" +:+ String x y) with (String " " (String x y)).
  rewrite splitGo_blank, splitGo_letter by exact Hx.
  destruct (splitGo_first y (push "" x)) as (d & rest & -> & Hd); [discriminate|].
  exact Hd.
Qed.

(** *** The splitter keeps its delimiters named *)

Lemma arrSet_named (a : sparse) (i : Z) (w : string) :
  w <> ""%string ->
  (forall (j : nat) (d : string), mjoin (a !! j) = Some d -> d <> ""%string) ->
  forall (j : nat) (d : string), mjoin (arrSet a i w !! j) = Some d -> d <> ""%string.
Proof.
  intros Hw H j d. unfold arrSet. destruct (i <? 0); [apply H|].
  rewrite setAt_lookup. destruct (Nat.eqb j (Z.to_nat i)); [|apply H].
  intros E. injection E as <-. exact Hw.
Qed.

Lemma splitStep_named st text :
  delimitersNamed st -> delimitersNamed (splitStep st text).
Proof.
  intros [Hd Ha]. unfold splitStep.
  set (st1 := if (text =? "")%string then _ else st).
  assert (H1 : delimitersNamed st1).
  { subst st1. destruct (text =? "")%string; [|split; assumption].
    destruct (append st =? 1); split; assumption. }
  clearbody st1. clear st Hd Ha. destruct H1 as [Hd Ha].
  set (st2 := if append st1 =? 0 then _ else st1).
  assert (H2 : delimitersNamed st2).
  { subst st2. destruct (append st1 =? 0); [|split; assumption].
    destruct (startsWith (trim text) "--"); split; assumption. }
  clearbody st2. clear st1 Hd Ha. destruct H2 as [Hd Ha].
  destruct (skip st2 =? 0); [|split; assumption].
  cbv zeta.
  destruct (start st2 =? 1);
    destruct (includes _ _ || _);
    (destruct (startsWith (toLowerCase (trim text)) "delimiter ") eqn:E;
     [ pose proof (delimiter_word (trim text) (trim_last text) E) as Hw;
       rewrite <- (trim_trim text) in Hw at 1
     | ]);
    split; cbn [delim delimiterArray]; try assumption;
    repeat (apply arrSet_named; [assumption|]); exact Ha.
Qed.

Lemma fold_named (ls : list string) : forall st,
  delimitersNamed st -> delimitersNamed (fold_left splitStep ls st).
Proof.
  induction ls as [|l ls IH]; intros st H; [exact H|].
  cbn [fold_left]. apply IH, splitStep_named, H.
Qed.

Lemma collect_named (q : sparse) : forall d line statements,
  (forall (j : nat) (w : string), mjoin (d !! j) = Some w -> w <> ""%string) ->
  collect q d line = Ok statements ->
  Forall (fun s => delimiter s <> ""%string) statements.
Proof.
  induction q as [|x q IH]; intros d line statements Hd H; cbn [collect] in H.
  - injection H as <-. constructor.
  - destruct x as [sql|]; [|exact (IH _ _ _ Hd H)].
    destruct (startsWith (toLowerCase sql) "delimiter "); [exact (IH _ _ _ Hd H)|].
    destruct (arrGet d (Z.of_nat line)) as [w|] eqn:Ew; [|discriminate].
    destruct (collect q d (S line)) as [rest|] eqn:Er; [|discriminate].
    injection H as <-. constructor; [|exact (IH _ _ _ Hd Er)].
    cbn [delimiter]. unfold arrGet in Ew.
    destruct (Z.of_nat line <? 0); [discriminate|]. exact (Hd _ _ Ew).
Qed.

(** X13.  Every statement that [parseSQL] returns carries a delimiter that
    is not the empty string: a [DELIMITER] line always has a second word, so
    the delimiter it sets is never missing. *)
Theorem parseSQL_delimiters_named (sql : string) (statements : list Statement) :
  parseSQL sql = Ok statements ->
  Forall (fun s => delimiter s <> ""%string) statements.
Proof.
  unfold parseSQL, assemble. intros H.
  destruct (fold_named (keptLines sql) splitter0) as [_ Ha].
  - split; [discriminate|]. intros j d E. destruct j; discriminate E.
  - exact (collect_named _ _ _ _ Ha H).
Qed.

Lemma parseSQL_delimiters_named_witness :
  Forall (fun s => delimiter s <> ""%string)
    [{| query := "SELECT 1"; delimiter := "//" |}; {| query := "SELECT 2"; delimiter := ";" |}].
Proof.
  apply (parseSQL_delimiters_named
           (Str.join ["DELIMITER //"; "SELECT 1//"; "delimiter ;"; "SELECT 2;"] NL)).
  vm_compute. reflexivity.
Defined.

End DelimiterNames.

Section KeywordSearch.

Import JS Str Regex.

Lemma run_Eps fuel st k : run noFlags fuel Eps st k = k st.
Proof. destruct fuel; reflexivity. Qed.

Lemma run_Lit fuel x st k :
  run noFlags fuel (Lit x) st k = step (lit_matches noFlags x) st k.
Proof. destruct fuel; reflexivity. Qed.

Lemma finds_Lit (c : ascii) : finds (Lit c) (String.prefix (String c "")).
Proof.
  intros fuel st k Hk. rewrite run_Lit. unfold step.
  destruct (rest st) as [|b s]; [split; [discriminate|reflexivity]|].
  rewrite prefix_cons, prefix_nil. change (lit_matches noFlags c b) with (ceqb c b).
  destruct (ceqb c b); split; try discriminate; try reflexivity. intros _. apply Hk.
Qed.

Lemma finds_lits (w : string) : finds (lits w) (String.prefix w).
Proof.
  induction w as [|c w IH].
  - intros fuel st k Hk. cbn [lits]. rewrite run_Eps, prefix_nil.
    split; [intros _; apply Hk|discriminate].
  - destruct w as [|d w]; [apply finds_Lit|].
    intros fuel st k Hk. change (lits (String c (String d w))) with (Seq (Lit c) (lits (String d w))).
    rewrite run_Seq, run_Lit. unfold step.
    destruct (rest st) as [|b s] eqn:Es; [split; [discriminate|reflexivity]|].
    rewrite prefix_cons. change (lit_matches noFlags c b) with (ceqb c b).
    destruct (ceqb c b); [|split; [discriminate|reflexivity]].
    apply (IH fuel {| prev := Some b; rest := s; pos := S (pos st); caps := caps st |} k Hk).
Qed.

Lemma finds_Alt a b p q :
  finds a p -> finds b q -> finds (Alt a b) (fun s => p s || q s).
Proof.
  intros Ha Hb fuel st k Hk. rewrite run_Alt.
  destruct (Ha fuel st k Hk) as [Ha1 Ha2], (Hb fuel st k Hk) as [Hb1 Hb2].
  destruct (p (rest st)).
  - destruct (Ha1 eq_refl) as [x ->]. split; [eauto|discriminate].
  - rewrite (Ha2 eq_refl). exact (conj Hb1 Hb2).
Qed.

Lemma finds_Group n a p : finds a p -> finds (Group n a) p.
Proof.
  intros Ha fuel st k Hk. rewrite run_Group. apply Ha.
  intros st'. apply Hk.
Qed.

(** A search with such a pattern succeeds exactly when some suffix of the
    input satisfies [p]. *)
Lemma searchFrom_finds r p : finds r p ->
  forall s before i,
    match searchFrom noFlags r before s i with Some _ => true | None => false end
    = anySuffix p s.
Proof.
  intros Hr s. induction s as [|c s IH]; intros before i; cbn [searchFrom anySuffix].
  - destruct (Hr (S (String.length "")) {| prev := before; rest := ""; pos := i; caps := [] |}
                 Found) as [H1 H2]; [eauto|].
    unfold matchHere. cbn [rest] in *. destruct (p "").
    + destruct (H1 eq_refl) as [x ->]. reflexivity.
    + rewrite (H2 eq_refl). reflexivity.
  - destruct (Hr (S (String.length (String c s)))
                 {| prev := before; rest := String c s; pos := i; caps := [] |}
                 Found) as [H1 H2]; [eauto|].
    unfold matchHere. cbn [rest] in *. destruct (p (String c s)).
    + destruct (H1 eq_refl) as [x ->]. reflexivity.
    + rewrite (H2 eq_refl). apply IH.
Qed.

Lemma test_finds r p s : finds r p -> test noFlags r s = anySuffix p s.
Proof.
  intros Hr. unfold test, exec, execFrom. cbn [Nat.ltb Nat.leb drop].
  apply searchFrom_finds, Hr.
Qed.

Lemma anySuffix_prefix w s : anySuffix (String.prefix w) s = includes s w.
Proof. induction s as [|c s IH]; cbn [anySuffix includes]; [reflexivity|]. rewrite IH. reflexivity. Qed.

Lemma anySuffix_or p q s :
  anySuffix (fun s => p s || q s) s = anySuffix p s || anySuffix q s.
Proof.
  induction s as [|c s IH]; cbn [anySuffix]; [rewrite !orb_false_r; reflexivity|].
  rewrite IH. destruct (p (String c s)), (q (String c s)), (anySuffix p s); reflexivity.
Qed.

(** Testing for a word is looking for it as a substring. *)
Lemma test_word w s : test noFlags (lits w) s = includes s w.
Proof. rewrite (test_finds _ _ s (finds_lits w)). apply anySuffix_prefix. Qed.

Lemma test_words2 n a b s :
  test noFlags (Group n (alts [lits a; lits b])) s = includes s a || includes s b.
Proof.
  change (alts [lits a; lits b]) with (Alt (lits a) (lits b)).
  rewrite (test_finds _ _ s (finds_Group n _ _ (finds_Alt _ _ _ _ (finds_lits a) (finds_lits b)))).
  rewrite anySuffix_or, !anySuffix_prefix. reflexivity.
Qed.

Lemma test_words3 n a b c s :
  test noFlags (Group n (alts [lits a; lits b; lits c])) s
  = includes s a || includes s b || includes s c.
Proof.
  change (alts [lits a; lits b; lits c]) with (Alt (lits a) (Alt (lits b) (lits c))).
  rewrite (test_finds _ _ s
             (finds_Group n _ _
                (finds_Alt _ _ _ _ (finds_lits a)
                   (finds_Alt _ _ _ _ (finds_lits b) (finds_lits c))))).
  rewrite !anySuffix_or, !anySuffix_prefix. apply orb_assoc.
Qed.

(** X14.  [toMySqlType] looks for key words anywhere in the trimmed,
    upper-cased type and answers for the first of them, in the order of its
    list; a type without any key word is returned as it was given, and the
    empty type is [TEXT]. *)
Theorem toMySqlType_by_keyword (sqliteType : string) :
  SQLParser.toMySqlType sqliteType
  = if (sqliteType =? "")%string then "TEXT"%string
    else byKeyword (toUpperCase (trim sqliteType)) sqliteType.
Proof.
  unfold SQLParser.toMySqlType. destruct (sqliteType =? "")%string; [reflexivity|].
  unfold SQLParser.typeMap, byKeyword. cbn [SQLParser.firstMatch].
  rewrite !test_word, !test_words2, !test_words3.
  repeat match goal with
  | |- context [if ?b then _ else _] => destruct b; try reflexivity
  end.
Qed.

End KeywordSearch.

Section Sizes.

Import JS Str Regex.
Local Open Scope nat_scope.

Lemma digits_charLike : charLike noFlags dg isDigit.
Proof.
  intros fuel st k. unfold dg. rewrite (charLike_Class noFlags false [CDigit]).
  unfold step. destruct (rest st) as [|c s]; [reflexivity|].
  replace (xorb false (class_has noFlags [CDigit] c)) with (isDigit c); [reflexivity|].
  cbn. destruct (isDigit c); reflexivity.
Qed.

(** The search passes over characters at which the pattern cannot start. *)
Lemma searchFrom_skip r p :
  (forall before c t i, p c = true -> matchHere noFlags r before (String c t) i = NoMatch) ->
  forall pre before t i,
    allChars p pre = true ->
    searchFrom noFlags r before (pre +:+ t) i
    = searchFrom noFlags r (lastOf before pre) t (i + String.length pre).
Proof.
  intros Hr pre. induction pre as [|c pre IH]; intros before t i H.
  - rewrite append_nil_l, Nat.add_0_r. reflexivity.
  - cbn [allChars] in H. apply andb_prop in H as [Hc Hp].
    rewrite append_cons.
    change (searchFrom noFlags r before (String c (pre +:+ t)) i)
      with (match matchHere noFlags r before (String c (pre +:+ t)) i with
            | Found st =>
              Some {| index := i;
                      matched := String.substring 0 (pos st - i) (String c (pre +:+ t));
                      groups := caps st |}
            | _ => searchFrom noFlags r (Some c) (pre +:+ t) (S i)
            end).
    rewrite Hr by exact Hc. rewrite IH by exact Hp.
    cbn [String.length]. rewrite Nat.add_succ_r. reflexivity.
Qed.

Lemma afterRun_stop p (a : string) : forall before c t i cs,
  allChars p a = true -> p c = false ->
  afterRun p before (a +:+ String c t) i cs
  = {| prev := lastOf before a; rest := String c t; pos := i + String.length a; caps := cs |}.
Proof.
  induction a as [|x a IH]; intros before c t i cs Ha Hc.
  - rewrite append_nil_l. cbn [afterRun]. rewrite Hc, Nat.add_0_r. reflexivity.
  - cbn [allChars] in Ha. apply andb_prop in Ha as [Hx Ha].
    rewrite append_cons. cbn [afterRun]. rewrite Hx, IH by assumption.
    cbn [String.length]. rewrite Nat.add_succ_r. reflexivity.
Qed.

(** The pattern of a size, at a parenthesised run of digits. *)
Lemma matchHere_size before (ds post : string) i :
  ds <> ""%string -> allChars isDigit ds = true ->
  exists st,
    matchHere noFlags (seqs [Lit "("; Group 1 (plus dg); Lit ")"]) before
      (String "(" (ds +:+ String ")" post)) i = Found st
    /\ caps st = [(1, ds)].
Proof.
  intros Hne Hd. destruct ds as [|d ds]; [congruence|]. clear Hne.
  cbn [allChars] in Hd. apply andb_prop in Hd as [Hd Hds].
  unfold matchHere. cbn [seqs]. set (fuel := S (String.length _)).
  rewrite run_Seq, run_Lit. unfold step at 1. cbn [rest].
  change (lit_matches noFlags "(" "(") with true. cbv iota.
  rewrite run_Seq, run_Group. unfold plus. rewrite run_Seq, digits_charLike.
  rewrite append_cons. unfold step at 1. cbn [rest pos caps]. rewrite Hd.
  eexists. split.
  - apply (star_takes_all noFlags dg isDigit digits_charLike).
    + subst fuel. rewrite append_cons. cbn [String.length]. lia.
    + rewrite afterRun_stop by (assumption || reflexivity).
      rewrite run_Lit. unfold step. cbn [capture rest pos caps prev].
      change (lit_matches noFlags ")" ")") with true. cbv iota. reflexivity.
  - cbn [caps]. f_equal. f_equal.
    replace (S (S i) + String.length ds - S i) with (String.length (String d ds))
      by (cbn [String.length]; lia).
    rewrite <- append_cons. apply substring_0_append.
Qed.

Lemma matchHere_not_open r before c t i :
  notOpen c = true ->
  matchHere noFlags (Seq (Lit "(") r) before (String c t) i = NoMatch.
Proof.
  intros H. unfold matchHere. rewrite run_Seq, run_Lit. unfold step. cbn [rest].
  change (lit_matches noFlags "(" c) with (ceqb "(" c). rewrite ceqb_sym.
  unfold notOpen in H. apply negb_true_iff in H. rewrite H. reflexivity.
Qed.

Lemma searchFrom_found fl r before s i st :
  matchHere fl r before s i = Found st ->
  searchFrom fl r before s i
  = Some {| index := i; matched := String.substring 0 (pos st - i) s; groups := caps st |}.
Proof. intros H. destruct s; cbn [searchFrom]; rewrite H; reflexivity. Qed.

Lemma includes_here c s : includes (String c s) (String c "") = true.
Proof. cbn [includes]. rewrite prefix_cons, prefix_nil. unfold ceqb. rewrite Ascii.eqb_refl. reflexivity. Qed.

Lemma includes_later a : forall s p, includes s p = true -> includes (a +:+ s) p = true.
Proof.
  induction a as [|x a IH]; intros s p H; [rewrite append_nil_l; exact H|].
  rewrite append_cons. cbn [includes]. rewrite (IH s p H). apply orb_true_r.
Qed.

Lemma sized_has_parens pre ds post :
  includes (sized pre ds post) "(" && includes (sized pre ds post) ")" = true.
Proof.
  unfold sized. apply andb_true_intro. split.
  - apply includes_later. change ("(" +:+ ds +:+ ")" +:+ post) with (String "(" (ds +:+ ")" +:+ post)).
    apply includes_here.
  - apply includes_later. change ("(" +:+ ds +:+ ")" +:+ post) with ("(" +:+ (ds +:+ ")" +:+ post)).
    do 2 apply includes_later. change (")" +:+ post) with (String ")" post). apply includes_here.
Qed.

Lemma exec_size (pre ds post : string) :
  allChars notOpen pre = true -> ds <> ""%string -> allChars isDigit ds = true ->
  exists m,
    exec noFlags (seqs [Lit "("; Group 1 (plus dg); Lit ")"]) (sized pre ds post) = Some m
    /\ group m 1 = Some ds.
Proof.
  intros Hp Hne Hd. unfold exec, execFrom, sized. cbn [Nat.ltb Nat.leb drop].
  rewrite (searchFrom_skip _ notOpen) by (exact Hp || (intros; apply matchHere_not_open; assumption)).
  change ("(" +:+ ds +:+ ")" +:+ post) with (String "(" (ds +:+ String ")" post)).
  destruct (matchHere_size (lastOf None pre) ds post (0 + String.length pre) Hne Hd)
    as (st & Hst & Hc).
  rewrite (searchFrom_found _ _ _ _ _ _ Hst). eexists. split; [reflexivity|].
  unfold group. cbn [groups]. rewrite Hc. reflexivity.
Qed.

(** X15.  [getLength] reads the size out of an attribute text: when no
    parenthesis comes before it, the first parenthesised run of digits is
    returned, digit for digit. *)
Theorem getLength_reads_size (pre digits post : string) :
  allChars notOpen pre = true -> digits <> ""%string -> allChars isDigit digits = true ->
  TableParser.getLength (sized pre digits post) = digits.
Proof.
  intros Hp Hne Hd. unfold TableParser.getLength. rewrite sized_has_parens.
  destruct (exec_size pre digits post Hp Hne Hd) as (m & Hm & Hg).
  unfold TableParser.rx_length. rewrite Hm, Hg. reflexivity.
Qed.

Lemma getLength_reads_size_witness :
  TableParser.getLength "name VARCHAR(255) NOT NULL DEFAULT (0)" = "255"%string.
Proof.
  apply (getLength_reads_size "name VARCHAR" "255" " NOT NULL DEFAULT (0)");
    [reflexivity|discriminate|reflexivity].
Defined.

End Sizes.

Section ColumnSizes.

Import JS Str Regex.
Local Open Scope nat_scope.

Ltac each_char c :=
  destruct c as [[] [] [] [] [] [] [] []]; vm_compute; try reflexivity; try discriminate; auto.

Lemma digit_char m :
  m < 10 ->
  isDigit (chr (48 + m)) = true /\ Num.digitVal 10 (chr (48 + m)) = Some (N.of_nat m).
Proof. intros H. do 10 (destruct m as [|m]; [split; reflexivity|]). lia. Qed.

Lemma digit_plain c :
  isDigit c = true ->
  isSpace c = false /\ ceqb c "-" = false /\ ceqb c "+" = false
  /\ ceqb "x" c = false /\ ceqb "X" c = false.
Proof. each_char c. Qed.

Lemma digitsOf_digits fuel : forall n acc,
  allChars isDigit acc = true -> allChars isDigit (SQLConverter.digitsOf fuel n acc) = true.
Proof.
  induction fuel as [|fuel IH]; intros n acc H; [exact H|].
  cbn [SQLConverter.digitsOf].
  assert (H' : allChars isDigit (String (chr (48 + n mod 10)) acc) = true).
  { cbn [allChars]. rewrite H, (proj1 (digit_char (n mod 10) (Nat.mod_upper_bound n 10 ltac:(lia)))).
    reflexivity. }
  destruct (n <? 10); [exact H'|]. apply IH, H'.
Qed.

Lemma digitsOf_nonempty fuel : forall n acc,
  acc <> ""%string -> SQLConverter.digitsOf fuel n acc <> ""%string.
Proof.
  induction fuel as [|fuel IH]; intros n acc H; [exact H|].
  cbn [SQLConverter.digitsOf]. destruct (n <? 10); [discriminate|]. apply IH. discriminate.
Qed.

Lemma natToString_digits n : allChars isDigit (SQLConverter.natToString n) = true.
Proof. apply digitsOf_digits. reflexivity. Qed.

Lemma natToString_nonempty n : SQLConverter.natToString n <> ""%string.
Proof.
  unfold SQLConverter.natToString. cbn [SQLConverter.digitsOf].
  destruct (n <? 10); [discriminate|]. apply digitsOf_nonempty. discriminate.
Qed.

(** Reading back the digits that [digitsOf] wrote. *)
Lemma readDigits_digitsOf fuel : forall n acc a k,
  n < fuel ->
  exists d,
    Num.readDigits 10 (SQLConverter.digitsOf fuel n acc) a k
    = Num.readDigits 10 acc (a * 10 ^ N.of_nat d + N.of_nat n)%N (k + d)
    /\ 0 < d.
Proof.
  induction fuel as [|fuel IH]; intros n acc a k H; [lia|].
  cbn [SQLConverter.digitsOf].
  pose proof (Nat.mod_upper_bound n 10 ltac:(lia)) as Hm.
  destruct (digit_char (n mod 10) Hm) as [_ Hv].
  destruct (n <? 10) eqn:E.
  - apply Nat.ltb_lt in E. exists 1. split; [|lia].
    cbn [Num.readDigits]. rewrite Hv, Nat.mod_small by exact E.
    change (N.of_nat 1) with 1%N. rewrite N.pow_1_r, Nat.add_1_r. reflexivity.
  - apply Nat.ltb_ge in E.
    assert (Hdiv : n / 10 < fuel).
    { pose proof (Nat.div_lt n 10 ltac:(lia) ltac:(lia)). lia. }
    destruct (IH (n / 10) (String (chr (48 + n mod 10)) acc) a k Hdiv) as (d & -> & Hd).
    exists (S d). split; [|lia].
    cbn [Num.readDigits]. rewrite Hv, Nat.add_succ_r.
    assert (HN : N.of_nat n = (10 * N.of_nat (n / 10) + N.of_nat (n mod 10))%N).
    { pose proof (Nat.div_mod_eq n 10) as Hn.
      rewrite <- (Nat2N.inj_mul 10), <- Nat2N.inj_add, <- Hn. reflexivity. }
    rewrite HN, Nat2N.inj_succ, N.pow_succ_r'. f_equal. lia.
Qed.

Lemma parseInt_natToString n :
  Num.parseInt (SQLConverter.natToString n) = Num.ofN (N.of_nat n).
Proof.
  unfold Num.parseInt.
  pose proof (natToString_digits n) as Hd. pose proof (natToString_nonempty n) as Hne.
  destruct (readDigits_digitsOf (S n) n "" 0%N 0 ltac:(lia)) as (d & Hr & Hpos).
  fold (SQLConverter.natToString n) in Hr.
  destruct (SQLConverter.natToString n) as [|c u] eqn:Es; [congruence|].
  cbn [allChars] in Hd. apply andb_prop in Hd as [Hc Hu].
  destruct (digit_plain c Hc) as (H1 & H2 & H3 & _).
  cbn [trimStart]. rewrite H1. cbn [Num.readSign]. rewrite H2, H3.
  assert (Hx : String.prefix "0x" (String c u) || String.prefix "0X" (String c u) = false).
  { rewrite !prefix_cons. destruct (ceqb "0" c); [|reflexivity].
    destruct u as [|c2 u]; [reflexivity|].
    cbn [allChars] in Hu. apply andb_prop in Hu as [Hc2 _].
    destruct (digit_plain c2 Hc2) as (_ & _ & _ & H4 & H5).
    rewrite !prefix_cons, H4, H5. reflexivity. }
  rewrite Hx, Hr. cbn [Num.readDigits].
  replace (Nat.eqb (0 + d) 0) with false by (symmetry; apply Nat.eqb_neq; lia).
  rewrite N.mul_0_l, N.add_0_l. reflexivity.
Qed.

(** X16.  [getColumnSize] reads the number [n] out of a type that carries
    it in decimal between parentheses, when [n] is at most 2^53 (and so a
    number that [parseInt] returns without rounding), no parenthesis comes
    before it and the type does not mention [BOOL]. *)
Theorem getColumnSize_reads_size (pre post : string) (n : nat) :
  (N.of_nat n <= 2 ^ 53)%N ->
  allChars notOpen pre = true ->
  includes (toUpperCase (sized pre (SQLConverter.natToString n) post)) "BOOL" = false ->
  SQLParser.getColumnSize (sized pre (SQLConverter.natToString n) post)
  = Some (Num.ofN (N.of_nat n)).
Proof.
  intros _ Hp Hb. unfold SQLParser.getColumnSize. rewrite Hb.
  replace (sized pre (SQLConverter.natToString n) post =? "")%string with false.
  2:{ symmetry. apply String.eqb_neq. unfold sized. destruct pre; discriminate. }
  destruct (exec_size pre (SQLConverter.natToString n) post Hp
              (natToString_nonempty n) (natToString_digits n)) as (m & Hm & Hg).
  unfold SQLParser.rx_size. rewrite Hm, Hg.
  replace (SQLConverter.natToString n =? "")%string with false
    by (symmetry; apply String.eqb_neq, natToString_nonempty).
  rewrite parseInt_natToString. reflexivity.
Qed.

Lemma getColumnSize_reads_size_witness :
  SQLParser.getColumnSize "varchar(255)" = Some (Num.ofN 255).
Proof.
  apply (getColumnSize_reads_size "varchar" "" 255); [vm_compute; discriminate|reflexivity..].
Defined.

End ColumnSizes.

Section TableColumns.

Import JS TableParser.
Local Open Scope nat_scope.

Lemma markKeys_names p fl : List.map Field (markKeys p fl) = List.map Field fl.
Proof.
  unfold markKeys. rewrite List.map_map. apply List.map_ext.
  intros c. destruct (p (Field c)); reflexivity.
Qed.

Lemma inArray_spec l x : inArray l x = true <-> In x l.
Proof.
  unfold inArray. rewrite existsb_exists. split.
  - intros (y & Hy & E). apply String.eqb_eq in E. subst. exact Hy.
  - intros H. exists x. split; [exact H|apply String.eqb_refl].
Qed.

Lemma namesKept_push fl cl (c : ColumnInfo) :
  List.map Field fl = cl -> NoDup cl -> inArray cl (Field c) = false ->
  List.map Field (fl ++ [c]) = cl ++ [Field c] /\ NoDup (cl ++ [Field c]).
Proof.
  intros Hm Hn Hc. split; [rewrite List.map_app, Hm; reflexivity|].
  apply NoDup_app. split; [exact Hn|]. split; [|apply NoDup_singleton].
  intros x Hx Hx'. apply list_elem_of_In in Hx. apply list_elem_of_singleton in Hx'. subst x.
  apply inArray_spec in Hx. congruence.
Qed.

Lemma fieldStep_names st result st' :
  namesKept st -> fieldStep st result = Ok st' -> namesKept st'.
Proof.
  intros [Hm Hn]. unfold fieldStep.
  destruct (Regex.exec Regex.flagI rg_fld2 (Regex.matched result)) as [fld_def|]; [|discriminate].
  cbv zeta.
  match goal with
  | |- context [if isValidType ?d then ?A else ?B] =>
    set (first := if isValidType d then A else B)
  end.
  assert (H1 : List.map Field (fst (fst (fst first))) = snd (fst first)
               /\ NoDup (snd (fst first))).
  { subst first.
    destruct (isValidType _).
    - destruct (negb (inArray (columnList st) _)) eqn:E; [|split; assumption].
      apply negb_true_iff in E. cbn [fst snd].
      match goal with
      | |- List.map Field (_ ++ [?c]) = _ /\ _ => apply (namesKept_push _ _ c Hm Hn E)
      end.
    - destruct (isPrimaryKey _); split; assumption. }
  clearbody first. destruct first as [[[fl pk] cl] pkl]. cbn [fst snd] in H1.
  destruct H1 as [H1 H2].
  intros H.
  destruct pk as [pk|]; cbn beta iota zeta in H;
  repeat match type of H with
  | context [match Regex.execFrom ?a ?b ?c ?d with _ => _ end] =>
    destruct (Regex.execFrom a b c d); cbn beta iota zeta in H
  | context [match Regex.exec ?a ?b ?c with _ => _ end] =>
    destruct (Regex.exec a b c); cbn beta iota zeta in H
  | context [match Regex.group ?a ?b with _ => _ end] =>
    destruct (Regex.group a b); cbn beta iota zeta in H
  | context [if String.eqb ?a ?b then _ else _] =>
    destruct (String.eqb a b); cbn beta iota zeta in H
  end;
  injection H as <-; split; cbn [fieldList columnList]; try exact H2;
  rewrite ?markKeys_names; exact H1.
Qed.

Lemma fieldLoop_names fuel : forall sql from st st',
  namesKept st -> fieldLoop fuel sql from st = Ok st' -> namesKept st'.
Proof.
  induction fuel as [|fuel IH]; intros sql from st st' Hst H; [discriminate|].
  cbn [fieldLoop] in H.
  destruct (Regex.execFrom Regex.flagIM rg_fld sql from) as [result|].
  - destruct (fieldStep st result) as [st1|] eqn:E1; [|discriminate].
    exact (IH _ _ _ _ (fieldStep_names _ _ _ Hst E1) H).
  - injection H as <-. exact Hst.
Qed.

(** X17.  The columns of a table that [parseTable] returns have distinct
    names: a column defined a second time is passed over, and the
    definition read first stays. *)
Theorem parseTable_distinct_columns (sql : string) (info : TableInfo) :
  parseTable sql = Ok info -> NoDup (List.map Field (tbl_columns info)).
Proof.
  unfold parseTable. cbv zeta.
  destruct (Regex.exec Regex.flagIM rg_tb _) as [result|]; [|discriminate].
  destruct (Regex.group result 2) as [tableName|]; [|discriminate].
  destruct (fieldLoop _ _ 0 _) as [st|] eqn:E; [|discriminate].
  apply fieldLoop_names in E; [|split; [reflexivity|apply NoDup_nil; exact I]].
  destruct E as [Hm Hn]. intros H. injection H as <-. cbn [tbl_columns].
  destruct (match primaryKey st with Some pk => Some pk | None => head (primaryKeyList st) end);
    unfold updatePrimaryKey; rewrite ?markKeys_names, Hm; exact Hn.
Qed.

Lemma parseTable_distinct_columns_witness :
  exists info,
    parseTable (Str.join ["CREATE TABLE t ("; " id INT NOT NULL,"; " name VARCHAR(50),";
                          " id BIGINT"; ");"] NL) = Ok info
    /\ List.map Field (tbl_columns info) = ["id"; "name"]
    /\ NoDup (List.map Field (tbl_columns info)).
Proof.
  eexists. split; [vm_compute; reflexivity|]. split; [reflexivity|].
  apply (parseTable_distinct_columns
           (Str.join ["CREATE TABLE t ("; " id INT NOT NULL,"; " name VARCHAR(50),";
                      " id BIGINT"; ");"] NL)).
  vm_compute. reflexivity.
Defined.

End TableColumns.

Section ReplaceKeeps.

Import JS Str Regex.
Local Open Scope nat_scope.

Variable P : ascii -> bool.

Lemma allChars_substring (s : string) : forall a n,
  allChars P s = true -> allChars P (String.substring a n s) = true.
Proof.
  induction s as [|c s IH]; intros a n H.
  - destruct a, n; reflexivity.
  - cbn [allChars] in H. apply andb_prop in H as [Hc Hs].
    destruct a as [|a]; cbn [String.substring].
    + destruct n as [|n]; [reflexivity|]. cbn [allChars]. rewrite Hc. apply IH, Hs.
    + apply IH, Hs.
Qed.

Lemma allChars_substringJS (s : string) (a b : Z) :
  allChars P s = true -> allChars P (substring s a b) = true.
Proof. intros H. unfold substring. apply allChars_substring, H. Qed.

Lemma allChars_drop (n : nat) : forall before s,
  allChars P s = true -> allChars P (snd (drop n before s)) = true.
Proof.
  induction n as [|n IH]; intros before s H; [destruct s; exact H|].
  destruct s as [|c s]; [exact H|]. cbn [drop].
  cbn [allChars] in H. apply andb_prop in H as [_ Hs]. apply IH, Hs.
Qed.

Lemma searchFrom_matched fl r (s : string) : forall before i m,
  allChars P s = true -> searchFrom fl r before s i = Some m ->
  allChars P (matched m) = true.
Proof.
  induction s as [|c s IH]; intros before i m H Hm; cbn [searchFrom] in Hm.
  - destruct (matchHere fl r before "" i) as [st| |]; try discriminate.
    injection Hm as <-. exact (allChars_substring "" 0 (pos st - i) H).
  - destruct (matchHere fl r before (String c s) i) as [st| |].
    + injection Hm as <-. exact (allChars_substring (String c s) 0 (pos st - i) H).
    + cbn [allChars] in H. apply andb_prop in H as [_ Hs]. exact (IH _ _ _ Hs Hm).
    + cbn [allChars] in H. apply andb_prop in H as [_ Hs]. exact (IH _ _ _ Hs Hm).
Qed.

Lemma execFrom_matched fl r (s : string) from m :
  allChars P s = true -> execFrom fl r s from = Some m -> allChars P (matched m) = true.
Proof.
  intros H. unfold execFrom. destruct (String.length s <? from); [discriminate|].
  pose proof (allChars_drop from None s H) as Hd.
  destruct (drop from None s) as [before s']. cbn [snd] in Hd.
  apply searchFrom_matched, Hd.
Qed.

(** Replacing matches by texts made of characters that satisfy [P] keeps a
    text made of such characters that way. *)
Lemma replaceGo_keeps fl r f :
  (forall m, allChars P (matched m) = true -> allChars P (f m) = true) ->
  forall fuel s from,
    allChars P s = true -> allChars P (replaceGo fuel fl r f s from) = true.
Proof.
  intros Hf fuel. induction fuel as [|fuel IH]; intros s from H; cbn [replaceGo].
  - apply allChars_substringJS, H.
  - destruct (execFrom fl r s from) as [m|] eqn:E; [|apply allChars_substringJS, H].
    rewrite !allChars_append, allChars_substring, Hf by (exact H || exact (execFrom_matched _ _ _ _ _ H E)).
    cbn [andb]. destruct (Nat.eqb (String.length (matched m)) 0).
    + rewrite allChars_append, allChars_substring, IH by exact H. reflexivity.
    + apply IH, H.
Qed.

Lemma replaceAll_keeps fl r f s :
  (forall m, allChars P (matched m) = true -> allChars P (f m) = true) ->
  allChars P s = true -> allChars P (replaceAll fl r f s) = true.
Proof. intros Hf H. apply replaceGo_keeps; assumption. Qed.

End ReplaceKeeps.

Section SnakeNames.

Import JS Str Regex.
Local Open Scope nat_scope.

Ltac per_char c :=
  destruct c as [[] [] [] [] [] [] [] []]; vm_compute; try reflexivity; try discriminate; auto.

Lemma kept_alnumOrSpace c : notAlnumSpace c = false -> alnumOrSpace c = true.
Proof. per_char c. Qed.

Lemma lower_alnumOrSpace c : alnumOrSpace c = true -> alnumOrSpace (lowerChar c) = true.
Proof. per_char c. Qed.

Lemma upper_alnumOrSpace c : alnumOrSpace c = true -> alnumOrSpace (upperChar c) = true.
Proof. per_char c. Qed.

Lemma blank_or_name c :
  alnumOrSpace c = true ->
  (isSpace c = false -> alnumOrUnderscore c = true /\ isUnderscore c = false).
Proof. per_char c. Qed.

(** What is left when the runs of [p] are removed. *)
Lemma squash_removes p s : forall b,
  allChars (fun c => negb (p c)) (squash p "" s b) = true.
Proof.
  induction s as [|c s IH]; intros b; [reflexivity|]. cbn [squash].
  destruct (p c) eqn:E.
  - destruct b; [apply IH|]. rewrite append_nil_l. apply IH.
  - cbn [allChars]. rewrite E. apply IH.
Qed.

(** Runs of white space turned into single underscores, in a text that has
    none of its own. *)
Lemma squash_blanks s : forall b,
  allChars alnumOrSpace s = true ->
  allChars alnumOrUnderscore (squash isSpace "_" s b) = true
  /\ noPair isUnderscore (squash isSpace "_" s b) = true
  /\ (b = true -> headSat isUnderscore (squash isSpace "_" s b) = false).
Proof.
  induction s as [|c s IH]; intros b H; [repeat split; reflexivity|].
  cbn [allChars] in H. apply andb_prop in H as [Hc Hs].
  cbn [squash]. destruct (isSpace c) eqn:E.
  - destruct (IH true Hs) as (I1 & I2 & I3). specialize (I3 eq_refl).
    destruct b; [split; [exact I1|split; [exact I2|intros _; exact I3]]|].
    change ("_" +:+ squash isSpace "_" s true) with (String "_" (squash isSpace "_" s true)).
    cbn [allChars noPair headSat]. rewrite I1, I2, I3.
    split; [reflexivity|split; [reflexivity|discriminate]].
  - destruct (IH false Hs) as (I1 & I2 & _).
    destruct (blank_or_name c Hc E) as [Ha Hu].
    cbn [allChars noPair headSat]. rewrite I1, I2, Ha, Hu.
    split; [reflexivity|split; [reflexivity|intros _; reflexivity]].
Qed.

Lemma not_alnum_space_charLike : charLike noFlags StringUtil.rx_not_alnum_space notAlnumSpace.
Proof. apply charLike_Class. Qed.

Lemma blanks_charLike : charLike noFlags ws isSpace.
Proof.
  intros fuel st k. unfold ws. rewrite (charLike_Class noFlags false [CSpace]).
  unfold step. destruct (rest st) as [|c s]; [reflexivity|].
  replace (xorb false (class_has noFlags [CSpace] c)) with (isSpace c); [reflexivity|].
  cbn. destruct (isSpace c); reflexivity.
Qed.

(** Two underscores in a row are what [/__+/] needs. *)
Lemma matchHere_underscores before t i st :
  noPair isUnderscore t = true ->
  matchHere noFlags StringUtil.rx_underscores before t i <> Found st.
Proof.
  intros H. unfold matchHere, StringUtil.rx_underscores, plus.
  rewrite run_Seq, run_Lit. unfold step at 1. cbn [rest].
  destruct t as [|a t]; [discriminate|].
  fold (isUnderscore a). destruct (isUnderscore a) eqn:Ea; [|discriminate].
  rewrite run_Seq, run_Lit. unfold step at 1. cbn [rest].
  destruct t as [|b t]; [discriminate|].
  cbn [noPair headSat] in H. rewrite Ea in H. fold (isUnderscore b).
  destruct (isUnderscore b); [discriminate H|discriminate].
Qed.

Lemma noPair_tail p c s : noPair p (String c s) = true -> noPair p s = true.
Proof. cbn [noPair]. intros H. apply andb_prop in H as [_ H]. exact H. Qed.

Lemma searchFrom_underscores (s : string) : forall before i,
  noPair isUnderscore s = true ->
  searchFrom noFlags StringUtil.rx_underscores before s i = None.
Proof.
  induction s as [|c s IH]; intros before i H; cbn [searchFrom].
  - destruct (matchHere _ _ _ _ _) eqn:E; try reflexivity.
    exfalso. exact (matchHere_underscores _ _ _ _ H E).
  - destruct (matchHere _ _ _ _ _) eqn:E; try (apply IH, (noPair_tail _ _ _ H)).
    exfalso. exact (matchHere_underscores _ _ _ _ H E).
Qed.

Lemma underscores_none f s :
  noPair isUnderscore s = true ->
  replaceAll noFlags StringUtil.rx_underscores f s = s.
Proof.
  intros H. unfold replaceAll. cbn [replaceGo].
  unfold execFrom. cbn [Nat.ltb Nat.leb drop].
  rewrite searchFrom_underscores by exact H.
  apply (substringFrom_nat s 0). lia.
Qed.

Lemma snakeize_shape (header : string) :
  allChars nameChar (StringUtil.snakeize header) = true
  /\ headSat isUnderscore (StringUtil.snakeize header) = false
  /\ lastSat isUnderscore (StringUtil.snakeize header) = false
  /\ noPair isUnderscore (StringUtil.snakeize header) = true.
Proof.
  unfold StringUtil.snakeize. cbv zeta.
  set (x2 := replaceAll noFlags StringUtil.rx_hump _ _).
  unfold StringUtil.rx_other.
  rewrite (replaceAll_runs noFlags _ notAlnumSpace) by apply not_alnum_space_charLike.
  set (x4 := toLowerCase (squash notAlnumSpace "" x2 false)).
  assert (H4 : allChars alnumOrSpace x4 = true).
  { subst x4. apply (allChars_map alnumOrSpace); [exact lower_alnumOrSpace|].
    apply (allChars_impl (fun c => negb (notAlnumSpace c))); [|apply squash_removes].
    intros c Hc. apply negb_true_iff in Hc. apply kept_alnumOrSpace, Hc. }
  clearbody x4. clear x2.
  set (x5 := replaceAll noFlags StringUtil.rx_word_start _ x4).
  assert (H5 : allChars alnumOrSpace x5 = true).
  { subst x5. apply replaceAll_keeps; [|exact H4].
    intros m Hm. apply (allChars_map alnumOrSpace); [exact upper_alnumOrSpace|exact Hm]. }
  clearbody x5. clear x4 H4.
  unfold StringUtil.rx_blanks.
  rewrite (replaceAll_runs noFlags _ isSpace) by apply blanks_charLike.
  destruct (squash_blanks x5 false H5) as (I1 & I2 & _).
  set (x6 := squash isSpace "_" x5 false) in *. clearbody x6. clear x5 H5.
  change StringUtil.rx_edge_underscores with SQLParser.rx_edge_underscores.
  rewrite edge_all.
  set (x7 := toLowerCase x6).
  assert (H7 : allChars nameChar x7 = true)
    by (apply (allChars_map alnumOrUnderscore); [exact lower_nameChar|exact I1]).
  assert (N7 : noPair isUnderscore x7 = true)
    by (unfold x7, toLowerCase; rewrite noPair_map by exact lower_underscore; exact I2).
  clearbody x7. clear x6 I1 I2.
  set (x8 := dropTrailing isUnderscore _).
  assert (N8 : noPair isUnderscore x8 = true)
    by (apply noPair_dropTrailing, noPair_dropChars, N7).
  rewrite underscores_none by exact N8.
  split; [|split; [|split]].
  - apply allChars_dropTrailing, allChars_dropChars, H7.
  - destruct (headSat isUnderscore x8) eqn:E; [|reflexivity].
    apply headSat_dropTrailing in E. rewrite headSat_span in E. discriminate.
  - apply lastSat_dropTrailing.
  - exact N8.
Qed.

(** X18.  Whatever it is given, [snakeize] returns a name made of
    lower-case letters, digits and single underscores, with no underscore at
    either end. *)
Theorem snakeize_valid (header : string) : validName (StringUtil.snakeize header) = true.
Proof. apply validName_spec, snakeize_shape. Qed.

End SnakeNames.

Section CamelNames.

Import JS Str Regex.
Local Open Scope nat_scope.

Ltac per_char c :=
  destruct c as [[] [] [] [] [] [] [] []]; vm_compute; try reflexivity; try discriminate; auto.

Lemma normalized_chars str :
  toLowerCase (replaceAll noFlags StringUtil.rx_not_alnum_space (fun _ => " "%string) str)
  = toLowerCase (mapChars normal str).
Proof.
  rewrite (replaceAll_chars noFlags _ notAlnumSpace) by apply not_alnum_space_charLike.
  reflexivity.
Qed.

Lemma mapChars_app g a b : mapChars g (a +:+ b) = mapChars g a +:+ mapChars g b.
Proof.
  induction a as [|c a IH]; [rewrite !append_nil_l; reflexivity|].
  rewrite append_cons. cbn [mapChars]. rewrite IH, append_assoc. reflexivity.
Qed.

Lemma toLowerCase_app a b : toLowerCase (a +:+ b) = toLowerCase a +:+ toLowerCase b.
Proof.
  unfold toLowerCase. induction a as [|c a IH]; [rewrite !append_nil_l; reflexivity|].
  rewrite append_cons. cbn [map]. rewrite IH, append_cons. reflexivity.
Qed.

Lemma word_char c :
  lowerOrDigit c = true ->
  notAlnumSpace c = false /\ lowerChar c = c /\ ceqb " " c = false /\ alnum c = true.
Proof. per_char c. Qed.

Lemma word_normal w :
  allChars lowerOrDigit w = true -> toLowerCase (mapChars normal w) = w.
Proof.
  induction w as [|c w IH]; intros H; [reflexivity|].
  cbn [allChars] in H. apply andb_prop in H as [Hc Hw].
  destruct (word_char c Hc) as (H1 & H2 & _).
  cbn [mapChars]. unfold normal at 1. rewrite H1.
  change (String c "" +:+ mapChars normal w) with (String c (mapChars normal w)).
  unfold toLowerCase in *. cbn [map]. rewrite H2, IH by exact Hw. reflexivity.
Qed.

Lemma words_normal (w : string) (ws : list string) :
  forallb (allChars lowerOrDigit) (w :: ws) = true ->
  toLowerCase (mapChars normal (join (w :: ws) "_")) = join (w :: ws) " ".
Proof.
  revert w. induction ws as [|v ws IH]; intros w H.
  - cbn [forallb] in H. apply andb_prop in H as [Hw _]. apply word_normal, Hw.
  - cbn [forallb] in H. apply andb_prop in H as [Hw Hws].
    change (join (w :: v :: ws) "_") with (w +:+ "_" +:+ join (v :: ws) "_").
    change (join (w :: v :: ws) " ") with (w +:+ " " +:+ join (v :: ws) " ").
    rewrite !mapChars_app, !toLowerCase_app, word_normal by exact Hw.
    rewrite IH by exact Hws. reflexivity.
Qed.

(** Splitting at spaces. *)
Lemma splitGo_word (l : string) : forall rest cur,
  allChars lowerOrDigit l = true ->
  splitGo " " (l +:+ rest) cur 0 = splitGo " " rest (cur +:+ l) 0.
Proof.
  induction l as [|c l IH]; intros rest cur H.
  - rewrite append_nil_l, append_nil_r. reflexivity.
  - cbn [allChars] in H. apply andb_prop in H as [Hc Hl].
    destruct (word_char c Hc) as (_ & _ & H3 & _).
    rewrite append_cons. cbn [splitGo]. rewrite prefix_cons, H3, IH by exact Hl.
    unfold push. rewrite append_assoc. reflexivity.
Qed.

Lemma splitGo_space (rest cur : string) :
  splitGo " " (String " " rest) cur 0 = cur :: splitGo " " rest ""%string 0.
Proof. cbn [splitGo]. rewrite prefix_cons, prefix_nil. reflexivity. Qed.

Lemma splitGo_words (rest : list string) : forall w cur,
  forallb (allChars lowerOrDigit) (w :: rest) = true ->
  splitGo " " (join (w :: rest) " ") cur 0 = (cur +:+ w) :: rest.
Proof.
  induction rest as [|v rest IH]; intros w cur H;
    cbn [forallb] in H; apply andb_prop in H as [Hw Hr].
  - cbn [join]. rewrite <- (append_nil_r w) at 1. rewrite splitGo_word by exact Hw. reflexivity.
  - change (join (w :: v :: rest) " ") with (w +:+ String " " (join (v :: rest) " ")).
    rewrite splitGo_word by exact Hw. rewrite splitGo_space, IH by exact Hr.
    rewrite append_nil_l. reflexivity.
Qed.

Lemma split_words (w : string) (rest : list string) :
  forallb (allChars lowerOrDigit) (w :: rest) = true ->
  split (join (w :: rest) " ") " " = w :: rest.
Proof. intros H. unfold split. rewrite splitGo_words by exact H. rewrite append_nil_l. reflexivity. Qed.

(** The words after the first. *)
Lemma capitalize_word word :
  toUpperCase (String.substring 0 1 word) +:+ substringFrom word 1 = capitalized word.
Proof.
  destruct word as [|c r]; [reflexivity|].
  change 1%Z with (Z.of_nat 1). rewrite (substringFrom_nat (String c r) 1) by (cbn [String.length]; lia).
  rewrite substring_0_1. reflexivity.
Qed.

Lemma mapWords_later (words : list string) : forall index,
  index <> 0 -> StringUtil.mapWords words index = List.map capitalized words.
Proof.
  induction words as [|w words IH]; intros index H; [reflexivity|].
  cbn [StringUtil.mapWords List.map].
  replace (Nat.eqb index 0) with false by (symmetry; apply Nat.eqb_neq, H).
  rewrite capitalize_word, IH by lia. reflexivity.
Qed.

Lemma mapWords_first (w : string) (rest : list string) :
  StringUtil.mapWords (w :: rest) 0 = w :: List.map capitalized rest.
Proof. cbn [StringUtil.mapWords Nat.eqb]. rewrite mapWords_later by lia. reflexivity. Qed.

Lemma camelize_words (w : string) (rest : list string) :
  forallb (allChars lowerOrDigit) (w :: rest) = true ->
  StringUtil.camelize (join (w :: rest) "_") = join (w :: List.map capitalized rest) "".
Proof.
  intros H. unfold StringUtil.camelize. cbv zeta.
  rewrite normalized_chars, words_normal, split_words, mapWords_first by exact H.
  reflexivity.
Qed.

(** X19.  [camelize] turns a snake-case name into camel case: for words of
    lower-case letters and digits joined by underscores it returns the first
    word followed by the other words, each with its first letter in upper
    case. *)
Theorem camelize_snake_case (w : string) (rest : list string) :
  forallb (allChars lowerOrDigit) (w :: rest) = true ->
  StringUtil.camelize (join (w :: rest) "_") = join (w :: List.map capitalized rest) "".
Proof. exact (camelize_words w rest). Qed.

Lemma camelize_snake_case_witness :
  StringUtil.camelize "order_item_2x__id" = "orderItem2xId"%string.
Proof.
  apply (camelize_snake_case "order" ["item"; "2x"; ""; "id"]). reflexivity.
Defined.

(** *** Any input *)

Lemma normal_char c :
  allChars (fun x => lowerOrDigit x || ceqb " " x) (toLowerCase (normal c)) = true.
Proof. per_char c. Qed.

Lemma normalized_shape str :
  allChars (fun x => lowerOrDigit x || ceqb " " x) (toLowerCase (mapChars normal str)) = true.
Proof.
  induction str as [|c str IH]; [reflexivity|].
  cbn [mapChars]. rewrite toLowerCase_app, allChars_append, normal_char, IH. reflexivity.
Qed.

Lemma allChars_push p cur c : allChars p (push cur c) = allChars p cur && p c.
Proof. unfold push. rewrite allChars_append. cbn [allChars]. rewrite andb_true_r. reflexivity. Qed.

Lemma splitGo_pieces (s : string) : forall cur,
  allChars (fun x => lowerOrDigit x || ceqb " " x) s = true ->
  allChars lowerOrDigit cur = true ->
  forallb (allChars lowerOrDigit) (splitGo " " s cur 0) = true.
Proof.
  induction s as [|c s IH]; intros cur H Hcur; cbn [splitGo].
  - cbn [forallb]. rewrite Hcur. reflexivity.
  - cbn [allChars] in H. apply andb_prop in H as [Hc Hs].
    rewrite prefix_cons, prefix_nil. destruct (ceqb " " c) eqn:E.
    + cbn [forallb String.length Nat.sub]. rewrite Hcur. apply IH; [exact Hs|reflexivity].
    + apply IH; [exact Hs|]. rewrite allChars_push, Hcur. rewrite orb_false_r in Hc. exact Hc.
Qed.

Lemma capitalized_alnum word :
  allChars lowerOrDigit word = true -> allChars alnum (capitalized word) = true.
Proof.
  destruct word as [|c r]; [reflexivity|]. cbn [allChars capitalized].
  intros H. apply andb_prop in H as [Hc Hr]. apply andb_true_intro. split.
  - revert Hc. per_char c.
  - apply (allChars_impl lowerOrDigit); [|exact Hr]. intros x Hx. apply word_char, Hx.
Qed.

Lemma join_alnum (words : list string) :
  forallb (allChars alnum) words = true -> allChars alnum (join words "") = true.
Proof.
  induction words as [|w words IH]; intros H; [reflexivity|].
  cbn [forallb] in H. apply andb_prop in H as [Hw Hr].
  destruct words as [|v words]; [exact Hw|].
  change (join (w :: v :: words) "") with (w +:+ "" +:+ join (v :: words) "").
  rewrite append_nil_l, allChars_append, Hw, IH by exact Hr. reflexivity.
Qed.

Lemma mapWords_alnum (words : list string) : forall index,
  forallb (allChars lowerOrDigit) words = true ->
  forallb (allChars alnum) (StringUtil.mapWords words index) = true.
Proof.
  induction words as [|w words IH]; intros index H; [reflexivity|].
  cbn [forallb] in H. apply andb_prop in H as [Hw Hr].
  cbn [StringUtil.mapWords forallb]. rewrite IH by exact Hr. rewrite andb_true_r.
  destruct (Nat.eqb index 0).
  - apply (allChars_impl lowerOrDigit); [|exact Hw]. intros x Hx. apply word_char, Hx.
  - rewrite capitalize_word. apply capitalized_alnum, Hw.
Qed.

Lemma camelize_chars (str : string) : allChars alnum (StringUtil.camelize str) = true.
Proof.
  unfold StringUtil.camelize. cbv zeta. rewrite normalized_chars.
  apply join_alnum, mapWords_alnum. unfold split.
  apply splitGo_pieces; [apply normalized_shape|reflexivity].
Qed.

(** X20.  Whatever it is given, [camelize] returns only ASCII letters and
    digits. *)
Theorem camelize_alnum (str : string) : allChars alnum (StringUtil.camelize str) = true.
Proof. exact (camelize_chars str). Qed.

End CamelNames.

Section UpperCamelNames.

Import JS Str Regex.
Local Open Scope nat_scope.

Ltac per_char c :=
  destruct c as [[] [] [] [] [] [] [] []]; vm_compute; try reflexivity; try discriminate; auto.

Lemma run_Dot fuel st k :
  run noFlags fuel Dot st k = step (fun c => dotAll noFlags || negb (isLineTerminator c)) st k.
Proof. destruct fuel; reflexivity. Qed.

Lemma mapChars_same (p : ascii -> bool) s :
  mapChars (fun c => if p c then String c "" else String c "") s = s.
Proof.
  induction s as [|c s IH]; [reflexivity|]. cbn [mapChars]. rewrite IH.
  destruct (p c); reflexivity.
Qed.

(** Replacing every upper-case letter by itself changes nothing. *)
Lemma upper_by_itself s :
  replaceAll noFlags StringUtil.rx_upper (fun m => default ""%string (group m 1)) s = s.
Proof.
  set (pU := fun c => xorb false (class_has noFlags [CRange "A" "Z"] c)).
  assert (Hm : forall before c t i,
            matchHere noFlags StringUtil.rx_upper before (String c t) i
            = if pU c
              then Found {| prev := Some c; rest := t; pos := S i;
                            caps := [(1, String c "")] |}
              else NoMatch).
  { intros before c t i. unfold matchHere, StringUtil.rx_upper.
    rewrite run_Group, (charLike_Class noFlags false [CRange "A" "Z"]).
    unfold step. cbn [rest]. fold (pU c). destruct (pU c); [|reflexivity].
    unfold capture. cbn [prev rest pos caps].
    replace (S i - i) with 1 by lia. rewrite substring_0_1. reflexivity. }
  unfold replaceAll.
  rewrite <- (mapChars_same pU s) at 3.
  apply (replaceGo_chars noFlags StringUtil.rx_upper _ pU) with (pre := ""%string)
    (h := fun c => String c "").
  - intros before c t i st Hp. rewrite Hm, Hp. discriminate.
  - intros before i st. unfold matchHere, StringUtil.rx_upper.
    rewrite run_Group, (charLike_Class noFlags false [CRange "A" "Z"]). discriminate.
  - intros before c t i Hp. rewrite Hm, Hp. eexists. split; [reflexivity|].
    split; reflexivity.
  - lia.
Qed.

Lemma alnum_on_line c : alnum c = true -> isLineTerminator c = false.
Proof. per_char c. Qed.

(** The first character of a line in upper case. *)
Lemma first_upper s :
  headSat isLineTerminator s = false ->
  replaceOne noFlags StringUtil.rx_first (fun m => toUpperCase (matched m)) s = capitalized s.
Proof.
  intros H. unfold replaceOne, exec, execFrom. cbn [Nat.ltb Nat.leb drop].
  destruct s as [|c t].
  - cbn [searchFrom]. unfold matchHere, StringUtil.rx_first.
    rewrite run_Seq, run_Bol. cbn [pos Nat.eqb orb]. rewrite run_Dot. reflexivity.
  - cbn [headSat] in H.
    assert (Hm : matchHere noFlags StringUtil.rx_first None (String c t) 0
                 = Found {| prev := Some c; rest := t; pos := 1; caps := [] |}).
    { unfold matchHere, StringUtil.rx_first.
      rewrite run_Seq, run_Bol. cbn [pos Nat.eqb orb]. rewrite run_Dot.
      unfold step. cbn [rest pos caps dotAll noFlags orb]. rewrite H. reflexivity. }
    cbn [searchFrom]. rewrite Hm. cbn [pos Nat.sub endIndex index matched caps].
    rewrite substring_0_1.
    change (endIndex {| index := 0; matched := String c ""; groups := [] |}) with 1.
    rewrite (substringFrom_nat (String c t) 1) by (cbn [String.length]; lia).
    reflexivity.
Qed.

(** X21.  Applied to a result of [camelize], [upperCamel] puts the first
    character in upper case and changes nothing else. *)
Theorem upperCamel_camelize (str : string) :
  StringUtil.upperCamel (StringUtil.camelize str) = capitalized (StringUtil.camelize str).
Proof.
  unfold StringUtil.upperCamel. cbv zeta. rewrite upper_by_itself.
  apply first_upper. pose proof (camelize_chars str) as H.
  destruct (StringUtil.camelize str) as [|c t]; [reflexivity|].
  cbn [allChars] in H. apply andb_prop in H as [Hc _]. apply alnum_on_line, Hc.
Qed.

End UpperCamelNames.

Section ReplaceCase.

Import JS Str Regex.
Local Open Scope nat_scope.

Variables (fl : flags) (r : regex) (f : mres -> string) (g : ascii -> ascii).

Lemma map_append a b : Str.map g (a +:+ b) = Str.map g a +:+ Str.map g b.
Proof.
  induction a as [|c a IH]; [rewrite !append_nil_l; reflexivity|].
  rewrite append_cons. cbn [Str.map]. rewrite IH, append_cons. reflexivity.
Qed.

Lemma replaceGo_past fuel s from :
  String.length s < from -> replaceGo fuel fl r f s from = ""%string.
Proof.
  intros H. destruct fuel as [|fuel]; cbn [replaceGo].
  - apply substringFrom_past. lia.
  - unfold execFrom. replace (String.length s <? from) with true by (symmetry; apply Nat.ltb_lt, H).
    apply substringFrom_past. lia.
Qed.

Lemma substring_0_twice (t : string) : forall k,
  String.substring 0 (String.length (String.substring 0 k t)) t = String.substring 0 k t.
Proof.
  induction t as [|c t IH]; intros k; [destruct k; reflexivity|].
  destruct k as [|k]; [reflexivity|]. cbn [String.substring String.length]. rewrite IH. reflexivity.
Qed.

Lemma length_substring_le (t : string) : forall k,
  String.length (String.substring 0 k t) <= String.length t.
Proof.
  induction t as [|c t IH]; intros k; [destruct k; simpl; lia|].
  destruct k as [|k]; cbn [String.substring String.length]; [lia|]. specialize (IH k). lia.
Qed.

(** Replacements that differ from the matched text only by what [g] wipes
    out leave the image under [g] as it was. *)
Lemma replaceGo_same_image :
  (forall m, Str.map g (f m) = Str.map g (matched m)) ->
  forall n t pre fuel, String.length t < n ->
    Str.map g (replaceGo fuel fl r f (pre +:+ t) (String.length pre)) = Str.map g t.
Proof.
  intros Hf. induction n as [|n IH]; intros t pre fuel Hn; [lia|].
  destruct (matchHere fl r (lastOf None pre) t (String.length pre)) as [st| |] eqn:E.
  - destruct fuel as [|fuel].
    { cbn [replaceGo]. rewrite substringFrom_nat by (rewrite length_append; lia).
      rewrite dropChars_app. reflexivity. }
    rewrite (replaceGo_hit fl r f fuel pre t st E). cbv zeta.
    set (M := String.substring 0 (pos st - String.length pre) t).
    cbn [matched]. rewrite map_append, Hf. cbn [matched]. fold M.
    destruct (Nat.eqb (String.length M) 0) eqn:EL.
    + apply Nat.eqb_eq in EL. destruct M; [|discriminate EL].
      cbn [Str.map]. rewrite append_nil_l.
      destruct t as [|c t].
      * rewrite replaceGo_past by (rewrite length_append; simpl; lia). reflexivity.
      * rewrite substring_0_1, map_append.
        rewrite push_app, <- push_length with (c := c), IH
          by (cbn [String.length] in Hn; lia).
        reflexivity.
    + apply Nat.eqb_neq in EL.
      rewrite <- (substring_0_dropChars t (String.length M)) at 1 2.
      unfold M at 2 4. rewrite substring_0_twice. fold M.
      rewrite <- append_assoc, <- length_append, IH.
      * rewrite <- map_append. unfold M at 1.
        rewrite <- (substring_0_twice t (pos st - String.length pre)). fold M.
        rewrite substring_0_dropChars. reflexivity.
      * rewrite length_dropChars.
        pose proof (length_substring_le t (pos st - String.length pre)) as Hle. fold M in Hle. lia.
  - destruct t as [|c t].
    + rewrite replaceGo_end; [reflexivity|]. intros st. rewrite E. discriminate.
    + rewrite replaceGo_skip by (intros st; rewrite E; discriminate).
      cbn [Str.map]. rewrite push_app, <- push_length with (c := c), IH
        by (cbn [String.length] in Hn; lia).
      reflexivity.
  - destruct t as [|c t].
    + rewrite replaceGo_end; [reflexivity|]. intros st. rewrite E. discriminate.
    + rewrite replaceGo_skip by (intros st; rewrite E; discriminate).
      cbn [Str.map]. rewrite push_app, <- push_length with (c := c), IH
        by (cbn [String.length] in Hn; lia).
      reflexivity.
Qed.

Lemma replaceAll_same_image s :
  (forall m, Str.map g (f m) = Str.map g (matched m)) ->
  Str.map g (replaceAll fl r f s) = Str.map g s.
Proof.
  intros Hf. unfold replaceAll.
  exact (replaceGo_same_image Hf (S (String.length s)) s "" (S (String.length s))
           (Nat.lt_succ_diag_r _)).
Qed.

(** A pattern that matches nowhere in texts of some kind, a kind that the
    suffixes of a text inherit, replaces nothing in them. *)
Lemma replaceAll_nowhere (Q : string -> Prop) s :
  (forall c t, Q (String c t) -> Q t) ->
  (forall before t i st, Q t -> matchHere fl r before t i <> Found st) ->
  Q s -> replaceAll fl r f s = s.
Proof.
  intros Htail Hno H.
  assert (Hs : forall t before i, Q t -> searchFrom fl r before t i = None).
  { induction t as [|c t IHt]; intros before i Ht; cbn [searchFrom].
    - destruct (matchHere _ _ _ _ _) eqn:E; try reflexivity.
      exfalso. exact (Hno _ _ _ _ Ht E).
    - destruct (matchHere _ _ _ _ _) eqn:E; try (apply IHt, (Htail _ _ Ht)).
      exfalso. exact (Hno _ _ _ _ Ht E). }
  unfold replaceAll. cbn [replaceGo]. unfold execFrom. cbn [Nat.ltb Nat.leb drop].
  rewrite Hs by exact H. apply (substringFrom_nat s 0). lia.
Qed.

End ReplaceCase.

Section SquashFacts.

Import JS Str Regex.

Lemma squash_none p rep s : forall b,
  allChars (fun c => negb (p c)) s = true -> squash p rep s b = s.
Proof.
  induction s as [|c s IH]; intros b H; [reflexivity|].
  cbn [allChars] in H. apply andb_prop in H as [Hc Hs]. apply negb_true_iff in Hc.
  cbn [squash]. rewrite Hc, IH by exact Hs. reflexivity.
Qed.

Lemma map_squash (g : ascii -> ascii) p rep s : forall b,
  (forall c, p (g c) = p c) -> Str.map g rep = rep ->
  Str.map g (squash p rep s b) = squash p rep (Str.map g s) b.
Proof.
  intros b Hp Hrep. revert b. induction s as [|c s IH]; intros b; [reflexivity|].
  cbn [squash Str.map]. rewrite Hp. destruct (p c).
  - destruct b; [apply IH|]. rewrite map_append, Hrep, IH. reflexivity.
  - cbn [Str.map]. rewrite IH. reflexivity.
Qed.

End SquashFacts.

Section SnakeFixedPoints.

Import JS Str Regex.
Local Open Scope nat_scope.

Ltac per_char c :=
  destruct c as [[] [] [] [] [] [] [] []]; vm_compute; try reflexivity; try discriminate; auto.

Lemma separators_charLike :
  charLike noFlags (Class false [CChar "_"; CChar "-"]) isSeparator.
Proof. apply charLike_Class. Qed.

Lemma name_separator c : nameChar c = true -> isSeparator c = isUnderscore c.
Proof. per_char c. Qed.

Lemma blank_char c :
  nameChar c = true ->
  let b := if isUnderscore c then " "%char else c in
  alnumOrSpace b = true /\ notAlnumSpace b = false /\ lowerChar b = b
  /\ isUpper b = false /\ isSpace b = isUnderscore c
  /\ (isUnderscore c = false -> b = c).
Proof.
  destruct c as [[] [] [] [] [] [] [] []]; vm_compute; intros H;
    try discriminate H; repeat split; intros; try reflexivity; discriminate.
Qed.

Lemma upper_class c :
  xorb false (class_has noFlags [CRange "A" "Z"] c) = isUpper c.
Proof. per_char c. Qed.

(** Single underscores become single spaces, and come back. *)
Lemma separators_blanked s : forall b,
  allChars nameChar s = true -> noPair isUnderscore s = true ->
  (b = true -> headSat isUnderscore s = false) ->
  squash isSeparator " " s b = blanked s.
Proof.
  induction s as [|c s IH]; intros b Hc Hp Hb; [reflexivity|].
  cbn [allChars] in Hc. apply andb_prop in Hc as [Hc Hs].
  cbn [noPair] in Hp. apply andb_prop in Hp as [Hp Hps]. apply negb_true_iff in Hp.
  cbn [squash]. unfold blanked. cbn [Str.map]. fold (blanked s).
  rewrite (name_separator c Hc). destruct (isUnderscore c) eqn:E.
  - destruct b; [specialize (Hb eq_refl); cbn [headSat] in Hb; congruence|].
    rewrite IH by (assumption || (intros _; exact Hp)). reflexivity.
  - rewrite IH by (assumption || discriminate). reflexivity.
Qed.

Lemma blanks_unblanked s : forall b,
  allChars nameChar s = true -> noPair isUnderscore s = true ->
  (b = true -> headSat isUnderscore s = false) ->
  squash isSpace "_" (blanked s) b = s.
Proof.
  induction s as [|c s IH]; intros b Hc Hp Hb; [reflexivity|].
  cbn [allChars] in Hc. apply andb_prop in Hc as [Hc Hs].
  cbn [noPair] in Hp. apply andb_prop in Hp as [Hp Hps]. apply negb_true_iff in Hp.
  unfold blanked. cbn [Str.map]. fold (blanked s). cbn [squash].
  destruct (blank_char c Hc) as (_ & _ & _ & _ & H5 & H6). cbv zeta in H5, H6.
  rewrite H5. destruct (isUnderscore c) eqn:E.
  - destruct b; [specialize (Hb eq_refl); cbn [headSat] in Hb; congruence|].
    rewrite IH by (assumption || (intros _; exact Hp)).
    change (isUnderscore c) with (ceqb "_" c) in E. apply ceqb_eq in E. subst c. reflexivity.
  - rewrite IH by (assumption || discriminate). reflexivity.
Qed.

Lemma blanked_chars s :
  allChars nameChar s = true ->
  allChars alnumOrSpace (blanked s) = true
  /\ allChars (fun c => negb (notAlnumSpace c)) (blanked s) = true
  /\ toLowerCase (blanked s) = blanked s
  /\ allChars (fun c => negb (isUpper c)) (blanked s) = true.
Proof.
  induction s as [|c s IH]; intros H; [repeat split; reflexivity|].
  cbn [allChars] in H. apply andb_prop in H as [Hc Hs].
  destruct (IH Hs) as (I1 & I2 & I3 & I4).
  destruct (blank_char c Hc) as (H1 & H2 & H3 & H4 & _). cbv zeta in *.
  unfold blanked, toLowerCase in *. cbn [Str.map allChars].
  rewrite H1, H2, H3, H4, I1, I2, I3, I4. repeat split; reflexivity.
Qed.

(** Without an upper-case letter there is no hump. *)
Lemma matchHere_no_hump before t i st :
  allChars (fun c => negb (isUpper c)) t = true ->
  matchHere noFlags StringUtil.rx_hump before t i <> Found st.
Proof.
  intros H. unfold matchHere, StringUtil.rx_hump.
  rewrite run_Seq, run_Group, (charLike_Class noFlags false [CRange "a" "z"]).
  unfold step at 1. cbn [rest]. destruct t as [|a t]; [discriminate|].
  destruct (xorb false (class_has noFlags [CRange "a" "z"] a)); [|discriminate].
  rewrite run_Group, (charLike_Class noFlags false [CRange "A" "Z"]).
  unfold step at 1. cbn [capture rest]. destruct t as [|b t]; [discriminate|].
  rewrite upper_class. cbn [allChars] in H.
  apply andb_prop in H as [_ H]. apply andb_prop in H as [H _]. apply negb_true_iff in H.
  rewrite H. discriminate.
Qed.

Lemma no_hump f s :
  allChars (fun c => negb (isUpper c)) s = true ->
  replaceAll noFlags StringUtil.rx_hump f s = s.
Proof.
  apply (replaceAll_nowhere noFlags StringUtil.rx_hump f
           (fun t => allChars (fun c => negb (isUpper c)) t = true)).
  - intros c t H. cbn [allChars] in H. apply andb_prop in H as [_ H]. exact H.
  - intros before t i st H. apply matchHere_no_hump, H.
Qed.

(** Upper-casing matches and lower-casing the result is lower-casing. *)
Lemma word_starts_lowered s :
  toLowerCase (replaceAll noFlags StringUtil.rx_word_start
                 (fun m => toUpperCase (matched m)) s)
  = toLowerCase s.
Proof.
  unfold toLowerCase. apply replaceAll_same_image.
  intros m. apply toLowerCase_toUpperCase.
Qed.

Lemma lowered_blanks x :
  toLowerCase (squash isSpace "_" x false) = squash isSpace "_" (toLowerCase x) false.
Proof. unfold toLowerCase. apply map_squash; [exact isSpace_lowerChar|reflexivity]. Qed.

(** From the text with its words set apart by single spaces to the name. *)
Lemma snakeize_tail (x name : string) :
  validName name = true ->
  toLowerCase x = blanked name ->
  replaceAll noFlags StringUtil.rx_underscores (fun _ => "_"%string)
    (replaceAll noFlags StringUtil.rx_edge_underscores (fun _ => ""%string)
       (toLowerCase (replaceAll noFlags StringUtil.rx_blanks (fun _ => "_"%string) x)))
  = name.
Proof.
  intros H Hx. apply validName_spec in H as (Hc & Hh & Hl & Hp).
  unfold StringUtil.rx_blanks.
  rewrite (replaceAll_runs noFlags _ isSpace) by apply blanks_charLike.
  rewrite lowered_blanks, Hx, blanks_unblanked by (assumption || discriminate).
  change StringUtil.rx_edge_underscores with SQLParser.rx_edge_underscores.
  rewrite edge_all, spanLen_head by exact Hh. cbn [dropChars].
  rewrite dropTrailing_id by exact Hl. apply underscores_none, Hp.
Qed.

Lemma snakeize_fixed (name : string) :
  validName name = true -> StringUtil.snakeize name = name.
Proof.
  intros H. pose proof H as H'. apply validName_spec in H' as (Hc & Hh & Hl & Hp).
  destruct (blanked_chars name Hc) as (B1 & B2 & B3 & B4).
  unfold StringUtil.snakeize. cbv zeta.
  unfold StringUtil.rx_separators.
  rewrite (replaceAll_runs noFlags _ isSeparator) by apply separators_charLike.
  rewrite separators_blanked by (assumption || discriminate).
  rewrite no_hump by exact B4.
  unfold StringUtil.rx_other.
  rewrite (replaceAll_runs noFlags _ notAlnumSpace) by apply not_alnum_space_charLike.
  rewrite squash_none by exact B2. rewrite B3.
  apply snakeize_tail; [exact H|]. rewrite word_starts_lowered. exact B3.
Qed.

(** X22.  The names [snakeize] leaves unchanged are exactly the valid
    ones, lower-case letters, digits and single inner underscores; so
    [snakeize] applied twice is [snakeize] applied once. *)
Theorem snakeize_fixed_points (name : string) :
  (StringUtil.snakeize name = name <-> validName name = true)
  /\ StringUtil.snakeize (StringUtil.snakeize name) = StringUtil.snakeize name.
Proof.
  split; [split|].
  - intros <-. apply validName_spec, snakeize_shape.
  - apply snakeize_fixed.
  - apply snakeize_fixed, validName_spec, snakeize_shape.
Qed.

End SnakeFixedPoints.

Section Humps.

Import JS Str Regex.
Local Open Scope nat_scope.

Ltac per_char c :=
  destruct c as [[] [] [] [] [] [] [] []]; vm_compute; try reflexivity; try discriminate; auto.

Lemma lower_class c : xorb false (class_has noFlags [CRange "a" "z"] c) = isLower c.
Proof. per_char c. Qed.

Lemma matchHere_hump before a b t i :
  matchHere noFlags StringUtil.rx_hump before (String a (String b t)) i
  = if isLower a && isUpper b
    then Found {| prev := Some b; rest := t; pos := S (S i);
                  caps := [(2, String b ""); (1, String a "")] |}
    else NoMatch.
Proof.
  unfold matchHere, StringUtil.rx_hump.
  rewrite run_Seq, run_Group, (charLike_Class noFlags false [CRange "a" "z"]).
  unfold step at 1. cbn [rest]. rewrite lower_class.
  destruct (isLower a); [|reflexivity].
  rewrite run_Group, (charLike_Class noFlags false [CRange "A" "Z"]).
  unfold step at 1. cbn [capture rest pos caps prev]. rewrite upper_class.
  destruct (isUpper b); [|reflexivity].
  unfold capture. cbn [andb rest pos caps prev].
  replace (S i - i) with 1 by lia. replace (S (S i) - S i) with 1 by lia.
  rewrite !substring_0_1. reflexivity.
Qed.

Lemma matchHere_hump_short before t i st :
  String.length t < 2 -> matchHere noFlags StringUtil.rx_hump before t i <> Found st.
Proof.
  intros H. unfold matchHere, StringUtil.rx_hump.
  rewrite run_Seq, run_Group, (charLike_Class noFlags false [CRange "a" "z"]).
  unfold step at 1. cbn [rest]. destruct t as [|a t]; [discriminate|].
  destruct (xorb false (class_has noFlags [CRange "a" "z"] a)); [|discriminate].
  rewrite run_Group, (charLike_Class noFlags false [CRange "A" "Z"]).
  unfold step at 1. cbn [capture rest]. destruct t as [|b t]; [discriminate|].
  cbn [String.length] in H. lia.
Qed.

Lemma replaceGo_humps : forall n t pre fuel,
  String.length t < n -> String.length t < fuel ->
  replaceGo fuel noFlags StringUtil.rx_hump
    (fun m => default ""%string (group m 1) +:+ " " +:+ default ""%string (group m 2))
    (pre +:+ t) (String.length pre)
  = humps t.
Proof.
  induction n as [|n IH]; intros t pre fuel Hn Hfuel; [lia|].
  destruct t as [|a t].
  - apply replaceGo_end. intros st. apply matchHere_hump_short. simpl. lia.
  - destruct t as [|b t].
    + rewrite replaceGo_skip by (intros st; apply matchHere_hump_short; simpl; lia).
      rewrite push_app, <- push_length with (c := a), IH by (simpl in *; lia).
      reflexivity.
    + cbn [String.length] in Hn, Hfuel. cbn [humps].
      pose proof (matchHere_hump (lastOf None pre) a b t (String.length pre)) as Hm.
      destruct (isLower a && isUpper b).
      * destruct fuel as [|fuel]; [lia|].
        rewrite (replaceGo_hit _ _ _ fuel pre _ _ Hm). cbv zeta.
        cbn [pos caps]. replace (S (S (String.length pre)) - String.length pre) with 2 by lia.
        change (String.substring 0 2 (String a (String b t)))
          with (String a (String b (String.substring 0 0 t))).
        rewrite substring_n_0. cbn [matched String.length Nat.eqb group groups lookup default].
        change (String a (String b t)) with (String a (String b "") +:+ t).
        rewrite <- (append_assoc pre (String a (String b "")) t).
        replace (String.length pre + 2) with (String.length (pre +:+ String a (String b "")))
          by (rewrite length_append; reflexivity).
        rewrite IH by lia. reflexivity.
      * rewrite replaceGo_skip by (intros st; rewrite Hm; discriminate).
        f_equal. rewrite push_app, <- push_length with (c := a).
        apply IH; cbn [String.length]; lia.
Qed.

Lemma replaceAll_humps s :
  replaceAll noFlags StringUtil.rx_hump
    (fun m => default ""%string (group m 1) +:+ " " +:+ default ""%string (group m 2)) s
  = humps s.
Proof.
  unfold replaceAll.
  exact (replaceGo_humps (S (String.length s)) s "" (S (String.length s))
           (Nat.lt_succ_diag_r _) (Nat.lt_succ_diag_r _)).
Qed.

End Humps.

Section NamesRoundTrip.

Import JS Str Regex.
Local Open Scope nat_scope.

Ltac per_char c :=
  destruct c as [[] [] [] [] [] [] [] []]; vm_compute; try reflexivity; try discriminate; auto.

Lemma word_facts c :
  lowerOrDigit c = true ->
  isUpper c = false /\ isUnderscore c = false /\ nameChar c = true
  /\ lowerChar (upperChar c) = c /\ alnum (upperChar c) = true
  /\ (isLower c = true -> isUpper (upperChar c) = true).
Proof.
  destruct c as [[] [] [] [] [] [] [] []]; vm_compute; intros H;
    try discriminate H; repeat split; intros; try reflexivity; discriminate.
Qed.

Lemma alnum_facts c :
  alnum c = true -> isSeparator c = false /\ notAlnumSpace c = false.
Proof. per_char c. Qed.

Lemma snakeWord_parts v :
  snakeWord v = true ->
  exists h tl,
    v = String h tl /\ lowerOrDigit h = true /\ isLower h = true
    /\ allChars lowerOrDigit tl = true /\ tl <> ""%string /\ lastSat isLower tl = true.
Proof.
  unfold snakeWord. intros H.
  apply andb_prop in H as [H H4]. apply andb_prop in H as [H H3]. apply andb_prop in H as [H1 H2].
  destruct v as [|h tl]; [discriminate H2|]. exists h, tl.
  cbn [allChars] in H1. apply andb_prop in H1 as [Hh Htl]. cbn [headSat] in H2.
  destruct tl as [|c tl]; [discriminate H4|].
  repeat split; try assumption. discriminate.
Qed.

(** *** Humps between words *)

Lemma humps_two a b t :
  humps (String a (String b t))
  = if isLower a && isUpper b
    then String a (String " " (String b (humps t)))
    else String a (humps (String b t)).
Proof. reflexivity. Qed.

Lemma humps_plain x : allChars (fun c => negb (isUpper c)) x = true -> humps x = x.
Proof.
  induction x as [|a x IH]; intros H; [reflexivity|].
  cbn [allChars] in H. apply andb_prop in H as [_ Hx].
  destruct x as [|b x]; [reflexivity|].
  rewrite humps_two. pose proof Hx as Hb. cbn [allChars] in Hb. apply andb_prop in Hb as [Hb _].
  apply negb_true_iff in Hb. rewrite Hb, andb_false_r, IH by exact Hx. reflexivity.
Qed.

Lemma humps_word x : forall B y,
  x <> ""%string -> allChars lowerOrDigit x = true -> lastSat isLower x = true ->
  isUpper B = true ->
  humps (x +:+ String B y) = x +:+ String " " (String B (humps y)).
Proof.
  induction x as [|a x IH]; intros B y Hne Hx Hl HB; [congruence|].
  cbn [allChars] in Hx. apply andb_prop in Hx as [Ha Hx].
  destruct x as [|a' x].
  - rewrite !append_cons, !append_nil_l. rewrite humps_two. cbn [lastSat] in Hl.
    rewrite Hl, HB. reflexivity.
  - rewrite append_cons. rewrite (append_cons a' x (String B y)). rewrite humps_two.
    pose proof Hx as Ha'. cbn [allChars] in Ha'. apply andb_prop in Ha' as [Ha' _].
    destruct (word_facts a' Ha') as (Hu & _). rewrite Hu, andb_false_r.
    rewrite <- (append_cons a' x (String B y)), IH by (assumption || discriminate).
    rewrite !append_cons. reflexivity.
Qed.

Lemma join_cons x (l : list string) sep :
  l <> [] -> join (x :: l) sep = x +:+ sep +:+ join l sep.
Proof. destruct l; [congruence|reflexivity]. Qed.

Lemma join_empty_sep x (l : list string) : join (x :: l) "" = x +:+ join l "".
Proof.
  destruct l as [|y l]; [cbn [join]; rewrite append_nil_r; reflexivity|].
  change (join (x :: y :: l) "") with (x +:+ "" +:+ join (y :: l) "").
  rewrite append_nil_l. reflexivity.
Qed.

Lemma join_head c x (l : list string) sep :
  String c (join (x :: l) sep) = join (String c x :: l) sep.
Proof. destruct l; reflexivity. Qed.

Lemma humps_words (rest : list string) : forall x,
  x <> ""%string -> allChars lowerOrDigit x = true -> lastSat isLower x = true ->
  forallb snakeWord rest = true ->
  humps (x +:+ join (List.map capitalized rest) "")
  = join (x :: List.map capitalized rest) " ".
Proof.
  induction rest as [|v rest IH]; intros x Hne Hx Hl H.
  - cbn [List.map join]. rewrite append_nil_r. apply humps_plain.
    apply (allChars_impl lowerOrDigit); [|exact Hx].
    intros c Hc. destruct (word_facts c Hc) as (Hu & _). rewrite Hu. reflexivity.
  - cbn [forallb] in H. apply andb_prop in H as [Hv Hrest].
    destruct (snakeWord_parts v Hv) as (h & tl & -> & Hh & Hlow & Htl & Htne & Htlast).
    destruct (word_facts h Hh) as (_ & _ & _ & _ & _ & HU). specialize (HU Hlow).
    cbn [List.map capitalized]. rewrite join_empty_sep, append_cons.
    rewrite humps_word by assumption. rewrite IH by assumption.
    rewrite join_head. symmetry. apply join_cons. discriminate.
Qed.

(** *** The characters of joined words *)

Lemma join_allChars p (l : list string) sep :
  forallb (allChars p) l = true -> allChars p sep = true -> allChars p (join l sep) = true.
Proof.
  intros H Hs. induction l as [|x l IH]; [reflexivity|].
  cbn [forallb] in H. apply andb_prop in H as [Hx Hl].
  destruct l as [|y l]; [exact Hx|].
  rewrite join_cons by discriminate.
  rewrite !allChars_append, Hx, Hs, IH by exact Hl. reflexivity.
Qed.

Lemma forallb_impl {A} (p q : A -> bool) (l : list A) :
  (forall a, p a = true -> q a = true) -> forallb p l = true -> forallb q l = true.
Proof.
  intros Hpq. induction l as [|a l IH]; [reflexivity|]. cbn [forallb]. intros H.
  apply andb_prop in H as [Ha Hl]. rewrite (Hpq a Ha), IH by exact Hl. reflexivity.
Qed.

Lemma forallb_map {A B} (p : B -> bool) (g : A -> B) (l : list A) :
  forallb p (List.map g l) = forallb (fun a => p (g a)) l.
Proof. induction l as [|a l IH]; [reflexivity|]. cbn [List.map forallb]. rewrite IH. reflexivity. Qed.

Lemma snakeWord_chars v : snakeWord v = true -> allChars lowerOrDigit v = true.
Proof.
  unfold snakeWord. intros H.
  apply andb_prop in H as [H _]. apply andb_prop in H as [H _]. apply andb_prop in H as [H _].
  exact H.
Qed.

Lemma map_join (g : ascii -> ascii) (l : list string) sep :
  Str.map g (join l sep) = join (List.map (Str.map g) l) (Str.map g sep).
Proof.
  induction l as [|x l IH]; [reflexivity|].
  destruct l as [|y l]; [reflexivity|].
  rewrite join_cons by discriminate. rewrite !map_append, IH. reflexivity.
Qed.

Lemma lower_capitalized v :
  allChars lowerOrDigit v = true -> toLowerCase (capitalized v) = v.
Proof.
  intros H. destruct v as [|h tl]; [reflexivity|].
  cbn [allChars] in H. apply andb_prop in H as [Hh Htl].
  destruct (word_facts h Hh) as (_ & _ & _ & H4 & _).
  unfold toLowerCase. cbn [capitalized Str.map]. rewrite H4. f_equal.
  apply lower_id. apply (allChars_impl lowerOrDigit); [|exact Htl].
  intros c Hc. apply word_facts, Hc.
Qed.

Lemma lower_word v : allChars lowerOrDigit v = true -> toLowerCase v = v.
Proof.
  intros H. apply lower_id. apply (allChars_impl lowerOrDigit); [|exact H].
  intros c Hc. apply word_facts, Hc.
Qed.

Lemma blanked_word v : allChars lowerOrDigit v = true -> blanked v = v.
Proof.
  induction v as [|c v IH]; intros H; [reflexivity|].
  cbn [allChars] in H. apply andb_prop in H as [Hc Hv].
  destruct (word_facts c Hc) as (_ & Hu & _).
  unfold blanked in *. cbn [Str.map]. rewrite Hu, IH by exact Hv. reflexivity.
Qed.

Lemma map_words (g : string -> string) (l : list string) :
  forallb (allChars lowerOrDigit) l = true ->
  (forall v, allChars lowerOrDigit v = true -> g v = v) ->
  List.map g l = l.
Proof.
  intros H Hg. induction l as [|x l IH]; [reflexivity|].
  cbn [forallb] in H. apply andb_prop in H as [Hx Hl].
  cbn [List.map]. rewrite Hg, IH by assumption. reflexivity.
Qed.

(** *** The joined name is a valid one *)

Lemma lastSat_append p a b : b <> ""%string -> lastSat p (a +:+ b) = lastSat p b.
Proof.
  intros Hb. induction a as [|c a IH]; [rewrite append_nil_l; reflexivity|].
  rewrite append_cons. cbn [lastSat]. destruct (a +:+ b) eqn:E; [|exact IH].
  destruct a; [rewrite append_nil_l in E; congruence|discriminate].
Qed.

Lemma noPair_append p a b :
  noPair p a = true -> noPair p b = true -> lastSat p a && headSat p b = false ->
  noPair p (a +:+ b) = true.
Proof.
  induction a as [|c a IH]; intros Ha Hb Hab; [rewrite append_nil_l; exact Hb|].
  rewrite append_cons. cbn [noPair] in *. apply andb_prop in Ha as [Hc Ha].
  destruct a as [|c' a].
  - rewrite append_nil_l in *. cbn [lastSat] in Hab. rewrite Hab, Hb. reflexivity.
  - rewrite append_cons in *. cbn [headSat] in *. rewrite Hc. apply IH; assumption.
Qed.

Lemma word_noPair v : allChars lowerOrDigit v = true -> noPair isUnderscore v = true.
Proof.
  induction v as [|c v IH]; intros H; [reflexivity|].
  cbn [allChars] in H. apply andb_prop in H as [Hc Hv].
  destruct (word_facts c Hc) as (_ & Hu & _).
  cbn [noPair]. rewrite Hu, IH by exact Hv. reflexivity.
Qed.

Lemma lower_not_underscore c : isLower c = true -> isUnderscore c = false.
Proof. per_char c. Qed.

Lemma headSat_lower v : headSat isLower v = true -> headSat isUnderscore v = false.
Proof. destruct v as [|c v]; [reflexivity|]. cbn [headSat]. apply lower_not_underscore. Qed.

Lemma lastSat_lower v : lastSat isLower v = true -> lastSat isUnderscore v = false.
Proof.
  induction v as [|c v IH]; [reflexivity|]. cbn [lastSat].
  destruct v; [apply lower_not_underscore|exact IH].
Qed.

Lemma snakeWord_edges v :
  snakeWord v = true ->
  v <> ""%string /\ headSat isLower v = true /\ lastSat isLower v = true.
Proof.
  unfold snakeWord. intros H.
  apply andb_prop in H as [H H4]. apply andb_prop in H as [H H3]. apply andb_prop in H as [_ H2].
  repeat split; try assumption. intros ->. discriminate H2.
Qed.

Lemma joined_shape (rest : list string) : forall w,
  forallb snakeWord (w :: rest) = true ->
  headSat isUnderscore (join (w :: rest) "_") = false
  /\ lastSat isUnderscore (join (w :: rest) "_") = false
  /\ noPair isUnderscore (join (w :: rest) "_") = true.
Proof.
  induction rest as [|v rest IH]; intros w H;
    cbn [forallb] in H; apply andb_prop in H as [Hw Hrest].
  - destruct (snakeWord_edges w Hw) as (_ & Hh & Hl). cbn [join].
    split; [apply headSat_lower, Hh|]. split; [apply lastSat_lower, Hl|].
    apply word_noPair, snakeWord_chars, Hw.
  - destruct (snakeWord_edges w Hw) as (Hne & Hh & Hl).
    destruct (IH v Hrest) as (I1 & I2 & I3).
    rewrite join_cons by discriminate.
    change ("_" +:+ join (v :: rest) "_") with (String "_" (join (v :: rest) "_")).
    split; [|split].
    + destruct w; [congruence|]. rewrite append_cons. cbn [headSat] in *.
      apply lower_not_underscore, Hh.
    + rewrite lastSat_append by discriminate. cbn [lastSat].
      destruct (join (v :: rest) "_") eqn:E; [|exact I2].
      exfalso. cbn [forallb] in Hrest. apply andb_prop in Hrest as [Hv _].
      destruct (snakeWord_edges v Hv) as (Hvn & _).
      destruct rest; [cbn [join] in E; congruence|].
      rewrite join_cons in E by discriminate. destruct v; [congruence|discriminate E].
    + apply noPair_append.
      * apply word_noPair, snakeWord_chars, Hw.
      * cbn [noPair]. rewrite I1, I3. reflexivity.
      * rewrite (lastSat_lower w Hl). reflexivity.
Qed.

Lemma joined_valid (w : string) (rest : list string) :
  forallb snakeWord (w :: rest) = true -> validName (join (w :: rest) "_") = true.
Proof.
  intros H. destruct (joined_shape rest w H) as (H1 & H2 & H3).
  apply validName_spec. split; [|split; [exact H1|split; [exact H2|exact H3]]].
  apply join_allChars; [|reflexivity].
  apply (forallb_impl snakeWord); [|exact H].
  intros v Hv. apply (allChars_impl lowerOrDigit); [|apply snakeWord_chars, Hv].
  intros c Hc. apply word_facts, Hc.
Qed.

(** X23.  [snakeize] undoes [camelize] on a snake-case name whose words
    are at least two characters long, made of lower-case letters and digits,
    and begin and end with a letter. *)
Theorem snakeize_camelize (w : string) (rest : list string) :
  forallb snakeWord (w :: rest) = true ->
  StringUtil.snakeize (StringUtil.camelize (join (w :: rest) "_")) = join (w :: rest) "_".
Proof.
  intros H.
  assert (Hchars : forallb (allChars lowerOrDigit) (w :: rest) = true)
    by (apply (forallb_impl snakeWord); [exact snakeWord_chars|exact H]).
  pose proof (camelize_chars (join (w :: rest) "_")) as Hal.
  rewrite (camelize_words w rest Hchars) in *.
  pose proof H as H'. cbn [forallb] in H'. apply andb_prop in H' as [Hw Hrest].
  destruct (snakeWord_edges w Hw) as (Hne & _ & Hl).
  pose proof Hchars as Hc'. cbn [forallb] in Hc'. apply andb_prop in Hc' as [Hwc Hrc].
  unfold StringUtil.snakeize. cbv zeta.
  unfold StringUtil.rx_separators.
  rewrite (replaceAll_runs noFlags _ isSeparator) by apply separators_charLike.
  rewrite squash_none.
  2:{ apply (allChars_impl alnum); [|exact Hal].
      intros c Hc. destruct (alnum_facts c Hc) as [-> _]. reflexivity. }
  rewrite replaceAll_humps, join_empty_sep, humps_words by assumption.
  set (x2 := join (w :: List.map capitalized rest) " ").
  assert (H2 : allChars alnum (join (w :: List.map capitalized rest) "") = true) by exact Hal.
  assert (Hx2 : allChars (fun c => negb (notAlnumSpace c)) x2 = true).
  { apply join_allChars; [|reflexivity]. cbn [forallb]. apply andb_true_intro. split.
    - apply (allChars_impl lowerOrDigit); [|exact Hwc].
      intros c Hc. destruct (word_facts c Hc) as (_ & _ & Hn & _). revert Hc. per_char c.
    - rewrite forallb_map. apply (forallb_impl (allChars lowerOrDigit)); [|exact Hrc].
      intros v Hv. apply (allChars_impl alnum); [|apply capitalized_alnum, Hv].
      intros c Hc. destruct (alnum_facts c Hc) as [_ ->]. reflexivity. }
  unfold StringUtil.rx_other.
  rewrite (replaceAll_runs noFlags _ notAlnumSpace) by apply not_alnum_space_charLike.
  rewrite squash_none by exact Hx2.
  assert (Hlow : toLowerCase x2 = join (w :: rest) " ").
  { unfold x2, toLowerCase. rewrite map_join. cbn [List.map]. fold (toLowerCase w).
    rewrite lower_word by exact Hwc. rewrite List.map_map. f_equal. f_equal.
    clear -Hrc. induction rest as [|v rest IH]; [reflexivity|].
    cbn [forallb] in Hrc. apply andb_prop in Hrc as [Hv Hr].
    cbn [List.map]. fold (toLowerCase (capitalized v)).
    rewrite lower_capitalized, IH by assumption. reflexivity. }
  apply snakeize_tail; [apply joined_valid, H|].
  assert (Hlow2 : toLowerCase (join (w :: rest) " ") = join (w :: rest) " ").
  { unfold toLowerCase. rewrite map_join. f_equal. apply map_words; [exact Hchars|].
    exact lower_word. }
  rewrite word_starts_lowered, Hlow, Hlow2.
  unfold blanked. rewrite map_join. fold (blanked "_").
  change (Str.map (fun c => if isUnderscore c then " "%char else c) "_") with " "%string.
  f_equal. symmetry. apply map_words; [exact Hchars|]. exact blanked_word.
Qed.

Lemma snakeize_camelize_witness :
  StringUtil.snakeize (StringUtil.camelize "order_line2x_id") = "order_line2x_id"%string.
Proof.
  apply (snakeize_camelize "order" ["line2x"; "id"]). reflexivity.
Defined.

End NamesRoundTrip.

Section MixedRows.

Import JS Str Regex TableParser.
Local Open Scope nat_scope.

Ltac per_char c :=
  destruct c as [[] [] [] [] [] [] [] []]; vm_compute; try reflexivity; try discriminate; auto.

Lemma scanRow_plain t : forall r values cur,
  allChars plainChar t = true ->
  scanRow (t +:+ r) values cur false false false
  = scanRow r values (cur +:+ t) false false false.
Proof.
  induction t as [|c t IH]; intros r values cur H.
  - rewrite append_nil_l, append_nil_r. reflexivity.
  - cbn [allChars] in H. apply andb_prop in H as [Hc Ht].
    unfold plainChar in Hc.
    apply andb_prop in Hc as [Hc H4]. apply andb_prop in Hc as [Hc H3].
    apply andb_prop in Hc as [H1 H2]. apply negb_true_iff in H1, H2, H3, H4.
    rewrite append_cons. cbn [scanRow]. rewrite H1, H2, H3, H4. cbn [andb].
    rewrite IH by exact Ht. unfold push. rewrite append_assoc. reflexivity.
Qed.

Lemma digit_facts c :
  isDigit c = true ->
  plainChar c = true /\ isSpace c = false
  /\ lit_matches flagI "n" c = false /\ lit_matches flagI "t" c = false
  /\ lit_matches flagI "f" c = false /\ ceqb "'" c = false /\ ceqb DQ c = false
  /\ ceqb "o" c = false /\ ceqb "O" c = false /\ ceqb "b" c = false /\ ceqb "B" c = false
  /\ ceqb "I" c = false.
Proof.
  destruct c as [[] [] [] [] [] [] [] []]; vm_compute; intros H;
    try discriminate H; repeat split; reflexivity.
Qed.

Lemma lastSat_all_not p q s :
  (forall c, p c = true -> q c = false) -> allChars p s = true -> lastSat q s = false.
Proof.
  intros Hpq. induction s as [|c s IH]; intros H; [reflexivity|].
  cbn [allChars] in H. apply andb_prop in H as [Hc Hs]. cbn [lastSat].
  destruct s; [apply Hpq, Hc|apply IH, Hs].
Qed.

(** [parseValue] looks at its text without the white space around it. *)
Lemma parseValue_lead lead x :
  allChars isSpace lead = true -> parseValue (lead +:+ x) = parseValue x.
Proof.
  intros H. unfold parseValue, customTrim, trim. rewrite trimStart_spaces by exact H.
  reflexivity.
Qed.

Lemma toNumber_natToString n :
  Num.toNumber (SQLConverter.natToString n) = Num.ofN (N.of_nat n).
Proof.
  pose proof (natToString_digits n) as Hd. pose proof (natToString_nonempty n) as Hne.
  destruct (readDigits_digitsOf (S n) n "" 0%N 0 ltac:(lia)) as (d & Hr & Hpos).
  fold (SQLConverter.natToString n) in Hr.
  assert (Ht : trim (SQLConverter.natToString n) = SQLConverter.natToString n).
  { apply trim_id.
    - destruct (SQLConverter.natToString n) as [|c u]; [reflexivity|].
      cbn [allChars] in Hd. apply andb_prop in Hd as [Hc _]. apply digit_facts, Hc.
    - apply (lastSat_all_not isDigit); [|exact Hd]. intros c Hc. apply digit_facts, Hc. }
  unfold Num.toNumber. rewrite Ht.
  set (t := SQLConverter.natToString n) in *.
  assert (Hu : Num.parseUnsigned t = Some (N.of_nat n, 0%Z)).
  { unfold Num.parseUnsigned. rewrite Hr. cbn [Num.readDigits].
    rewrite N.mul_0_l, N.add_0_l.
    replace (Nat.eqb (0 + d + 0) 0) with false by (symmetry; apply Nat.eqb_neq; lia).
    reflexivity. }
  destruct t as [|c u]; [congruence|].
  cbn [allChars] in Hd. apply andb_prop in Hd as [Hc Hu'].
  destruct (digit_facts c Hc) as (_ & _ & _ & _ & _ & _ & _ & _ & _ & _ & _ & HI).
  destruct (digit_plain c Hc) as (_ & Hm & Hp & _).
  replace (String c u =? "")%string with false by reflexivity.
  assert (Hpre : forall a b, ceqb b c = false \/ (forall c2, isDigit c2 = true -> ceqb a c2 = false) ->
                 String.prefix (String b (String a "")) (String c u) = false).
  { intros a b [Hb|Ha]; rewrite prefix_cons; [rewrite Hb; reflexivity|].
    destruct (ceqb b c); [|reflexivity]. destruct u as [|c2 u]; [reflexivity|].
    cbn [allChars] in Hu'. apply andb_prop in Hu' as [Hc2 _].
    rewrite prefix_cons, (Ha c2 Hc2). reflexivity. }
  rewrite !Hpre by (right; intros c2 Hc2; first [apply digit_facts, Hc2|apply digit_plain, Hc2]).
  cbn [orb Num.readSign]. rewrite Hm, Hp.
  replace (String c u =? "Infinity")%string with false.
  2:{ symmetry. apply String.eqb_neq. intros E. injection E as E _. subst c. discriminate HI. }
  rewrite Hu. reflexivity.
Qed.

Lemma parseValue_nat n :
  parseValue (SQLConverter.natToString n) = Value.Number (Num.ofN (N.of_nat n)).
Proof.
  pose proof (natToString_digits n) as Hd. pose proof (natToString_nonempty n) as Hne.
  pose proof (toNumber_natToString n) as Hnum.
  assert (Ht : trim (SQLConverter.natToString n) = SQLConverter.natToString n).
  { apply trim_id.
    - destruct (SQLConverter.natToString n) as [|c u]; [reflexivity|].
      cbn [allChars] in Hd. apply andb_prop in Hd as [Hc _]. apply digit_facts, Hc.
    - apply (lastSat_all_not isDigit); [|exact Hd]. intros c Hc. apply digit_facts, Hc. }
  unfold parseValue, customTrim. cbv zeta. rewrite Ht.
  unfold Num.isNaN. rewrite Hnum.
  destruct (SQLConverter.natToString n) as [|c u]; [congruence|].
  cbn [allChars] in Hd. apply andb_prop in Hd as [Hc _].
  destruct (digit_facts c Hc) as (_ & _ & H1 & H2 & H3 & H4 & H5 & _).
  replace (String c u =? "")%string with false by reflexivity.
  replace (test flagI rx_null (String c u)) with false
    by (symmetry; apply (keyword_test flagI "n" "ull" c); [reflexivity|exact H1]).
  replace (test flagI rx_true (String c u)) with false
    by (symmetry; apply (keyword_test flagI "t" "rue" c); [reflexivity|exact H2]).
  replace (test flagI rx_false (String c u)) with false
    by (symmetry; apply (keyword_test flagI "f" "alse" c); [reflexivity|exact H3]).
  unfold startsWith. rewrite !prefix_cons, H4, H5. cbn [andb negb].
  unfold Num.ofN. destruct (Num.norm (N.of_nat n) 0). reflexivity.
Qed.

Lemma parseValue_cell lead c :
  allChars isSpace lead = true -> readable c = true ->
  parseValue (lead +:+ written c) = valueOf c.
Proof.
  intros Hlead Hc. destruct c as [s|n| |[]]; cbn [written valueOf].
  - apply parseValue_quoted; assumption.
  - rewrite parseValue_lead by exact Hlead. apply parseValue_nat.
  - rewrite parseValue_lead by exact Hlead. reflexivity.
  - rewrite parseValue_lead by exact Hlead. reflexivity.
  - rewrite parseValue_lead by exact Hlead. reflexivity.
Qed.

Lemma scanRow_cell c r values lead :
  readable c = true -> headSat isQuote r = false ->
  scanRow (written c +:+ r) values lead false false false
  = scanRow r values (lead +:+ written c) false false false.
Proof.
  intros Hc Hr. destruct c as [s|n| |[]]; cbn [written].
  - apply scanRow_quoted; assumption.
  - apply scanRow_plain. apply (allChars_impl isDigit); [|apply natToString_digits].
    intros c Hd. apply digit_facts, Hd.
  - apply scanRow_plain. reflexivity.
  - apply scanRow_plain. reflexivity.
  - apply scanRow_plain. reflexivity.
Qed.

Lemma scanRow_cells : forall cs c values lead,
  allChars isSpace lead = true ->
  forallb readable (c :: cs) = true ->
  scanRow (Str.join (List.map written (c :: cs)) ", ") values lead false false false
  = values ++ List.map valueOf (c :: cs).
Proof.
  induction cs as [|c' cs IH]; intros c values lead Hlead H;
    cbn [forallb] in H; apply andb_prop in H as [Hc Hcs].
  - cbn [List.map Str.join]. rewrite <- (append_nil_r (written c)).
    rewrite scanRow_cell by (exact Hc || reflexivity).
    cbn [scanRow]. rewrite parseValue_cell by assumption. reflexivity.
  - change (Str.join (List.map written (c :: c' :: cs)) ", ")
      with (written c +:+ ", " +:+ Str.join (List.map written (c' :: cs)) ", ").
    rewrite scanRow_cell by (exact Hc || reflexivity).
    rewrite !append_cons, append_nil_l. cbn [scanRow].
    change (ceqb "," BSLASH) with false. change (ceqb "," SQ) with false.
    change (ceqb "," DQ) with false. change (ceqb "," COMMA) with true.
    change (ceqb " " BSLASH) with false. change (ceqb " " SQ) with false.
    change (ceqb " " DQ) with false. change (ceqb " " COMMA) with false.
    cbn [andb negb]. rewrite parseValue_cell by assumption.
    rewrite IH by (reflexivity || exact Hcs).
    rewrite <- app_assoc. reflexivity.
Qed.

(** X24.  A row written as texts in single quotes, natural numbers and the
    key words [NULL], [TRUE] and [FALSE], the items set apart by a comma and
    a space, is read back by [parseRow] as those values in the same order,
    provided no text holds a backslash and no number exceeds 2^53. *)
Theorem parseRow_reads_values (c : cell) (cs : list cell) :
  forallb readable (c :: cs) = true ->
  parseRow (Str.join (List.map written (c :: cs)) ", ") = List.map valueOf (c :: cs).
Proof.
  intros H. unfold parseRow. rewrite scanRow_cells by (reflexivity || exact H). reflexivity.
Qed.

Lemma parseRow_reads_values_witness :
  parseRow "7, 'O''Neil', NULL, TRUE, 1024, FALSE, ''"
  = [Value.Number (Num.ofN 7); Value.Str "O'Neil"; Value.Null; Value.Bool true;
     Value.Number (Num.ofN 1024); Value.Bool false; Value.Str ""].
Proof.
  apply (parseRow_reads_values (CNat 7)
           [CText "O'Neil"; CNull; CBool true; CNat 1024; CBool false; CText ""]).
  reflexivity.
Defined.

End MixedRows.

Section ConverterErrors.

Import JS SQLConverter.

Lemma named_mentions type name word :
  (Str.toUpperCase type =? name)%string = true -> mentions type word = Str.includes name word.
Proof. intros H. apply String.eqb_eq in H. unfold mentions. rewrite H. reflexivity. Qed.

Lemma isTinyInt1_no_list type length :
  isTinyInt1 type length = true -> mentions type "ENUM" = false /\ mentions type "SET" = false.
Proof.
  unfold isTinyInt1. intros H.
  apply orb_prop in H as [H|H]; [apply orb_prop in H as [H|H]|].
  - apply andb_prop in H as [H _].
    rewrite !(named_mentions type "TINYINT") by exact H. split; reflexivity.
  - rewrite !(named_mentions type "BIT") by exact H. split; reflexivity.
  - rewrite !(named_mentions type "BOOLEAN") by exact H. split; reflexivity.
Qed.

Lemma isInteger_no_list type :
  isInteger type = true -> mentions type "ENUM" = false /\ mentions type "SET" = false.
Proof.
  unfold isInteger. intros H.
  repeat (apply orb_prop in H as [H|H]);
    match type of H with
    | (_ =? ?name)%string = true => rewrite !(named_mentions type name) by exact H
    end; split; reflexivity.
Qed.

(** X25.  For an ASCII type, [toMySQLType] raises a TypeError exactly when
    the type mentions [ENUM] or [SET] and no list of values comes with it. *)
Theorem toMySQLType_throws (type length : string) (enumValues : option (list string)) :
  allChars Str.isAscii type = true ->
  (toMySQLType type length enumValues = Throw
   <-> enumValues = None /\ (mentions type "ENUM" = true \/ mentions type "SET" = true)).
Proof.
  intros _.
  unfold toMySQLType. cbv zeta.
  destruct (isTinyInt1 type length) eqn:Et.
  { destruct (isTinyInt1_no_list type length Et) as [H1 H2]. rewrite H1, H2.
    split; [discriminate|]. intros [_ [H|H]]; discriminate H. }
  destruct (isInteger type && greaterThanZero length) eqn:Ei.
  { apply andb_prop in Ei as [Ei _].
    destruct (isInteger_no_list type Ei) as [H1 H2]. rewrite H1, H2.
    split; [discriminate|]. intros [_ [H|H]]; discriminate H. }
  destruct (mentions type "ENUM").
  { destruct enumValues; split; try discriminate; auto.
    intros [H _]. discriminate H. }
  destruct (mentions type "SET").
  { destruct enumValues; split; try discriminate; auto.
    intros [H _]. discriminate H. }
  destruct (mentions type "DECIMAL"); [split; [discriminate|intros [_ [H|H]]; discriminate H]|].
  destruct (mentions type "NUMERIC"); split; try discriminate;
    intros [_ [H|H]]; discriminate H.
Qed.

Lemma toMySQLType_throws_witness :
  toMySQLType "set" "" None = Throw
  /\ (toMySQLType "ENUM" "'a','b'" (Some ["a"; "b"]) = Throw -> False).
Proof.
  split.
  - apply (toMySQLType_throws "set" "" None); [reflexivity|].
    split; [reflexivity|right; reflexivity].
  - intros H. apply (toMySQLType_throws "ENUM" "'a','b'" (Some ["a"; "b"])) in H as [H _];
      [discriminate H|reflexivity].
Defined.

End ConverterErrors.

Section NumericDefaults.

Import JS Str TableParser.
Local Open Scope nat_scope.

Lemma digit_upper c : isDigit c = true -> upperChar c = c /\ ceqb "N" c = false.
Proof.
  destruct c as [[] [] [] [] [] [] [] []]; vm_compute; intros H;
    try discriminate H; split; reflexivity.
Qed.

Lemma digits_upper s : allChars isDigit s = true -> toUpperCase s = s.
Proof.
  unfold toUpperCase. induction s as [|c s IH]; intros H; [reflexivity|].
  cbn [allChars] in H. apply andb_prop in H as [Hc Hs].
  cbn [Str.map]. rewrite (proj1 (digit_upper c Hc)), IH by exact Hs. reflexivity.
Qed.

Lemma digits_no_null s : allChars isDigit s = true -> includes s "NULL" = false.
Proof.
  induction s as [|c s IH]; intros H; [reflexivity|].
  cbn [allChars] in H. apply andb_prop in H as [Hc Hs].
  cbn [includes]. rewrite prefix_cons, (proj2 (digit_upper c Hc)), IH by exact Hs. reflexivity.
Qed.

(** X26.  On a column that is not a boolean one, [fixDefaultValue] puts a
    default that is a natural number in single quotes. *)
Theorem fixDefaultValue_quotes_numbers (n : nat) (dataType length : string) :
  isBoolean dataType length = false ->
  fixDefaultValue (Some (SQLConverter.natToString n)) dataType length
  = Some ("'" +:+ SQLConverter.natToString n +:+ "'").
Proof.
  intros Hb. unfold fixDefaultValue. rewrite Hb.
  replace (SQLConverter.natToString n =? "")%string with false
    by (symmetry; apply String.eqb_neq, natToString_nonempty).
  rewrite digits_upper, digits_no_null by apply natToString_digits.
  unfold isNumber, Num.isNaN. rewrite toNumber_natToString.
  replace (SQLConverter.natToString n =? "")%string with false
    by (symmetry; apply String.eqb_neq, natToString_nonempty).
  unfold Num.ofN. destruct (Num.norm (N.of_nat n) 0). reflexivity.
Qed.

Lemma fixDefaultValue_quotes_numbers_witness :
  fixDefaultValue (Some "0"%string) "INT" "11" = Some "'0'"%string.
Proof. apply (fixDefaultValue_quotes_numbers 0 "INT" "11"). reflexivity. Defined.

End NumericDefaults.
